(** * Scan registration (LOAM): a shallow embedding of scanRegistration.cpp

    The development follows [src/loam_velodyne/src/scanRegistration.cpp].

    Conventions of the embedding.
    - [float] and [double] values are exact real numbers ([R]): rounding is
      not modelled, [M_PI] is [PI], and the library functions [sin], [cos],
      [atan], [sqrt] are the real ones.  A point whose coordinates are not
      finite is a separate constructor of the raw input point.
    - A comparison of the source is the comparison of the exact values, so
      a value within rounding of a threshold can take another branch in
      the program ([normalizeEndOri] says where this matters).  Where the
      source divides by zero the embedding says so: the elevation of a
      point on the vertical axis of the sensor is a right angle, as the
      arc tangent of an infinity is ([computeScanID]); the elevation of
      the origin, and the interpolation between two ring slots of the same
      time ([interpolateIMU]), are not numbers, and the statements that
      depend on them leave these two cases out.
    - [int] values are [Z]; the C++ operators [/] and [%] on [int] are
      [Z.quot] and [Z.rem] (truncation towards zero).  No computation of the
      program on defined values comes near the 32-bit range.
    - A file-scope array is a total map from indices to values.  The sweep
      callback checks every index of a vector, of a point cloud and of the
      scratch arrays against the length of the object and fails with
      [OutOfBounds] where the C++ program would read or write outside it.
      The ring arrays are indexed by the two cursors and their
      neighbours modulo [imuQueLength]; [laserCloudHandler_inRing] and
      [imuHandler_inRing] show that these stay inside the ring.
    - The two callbacks are functions on the record of file-scope variables;
      the dispatcher runs one callback at a time to completion.
    - [pcl::VoxelGrid] and the extraction of roll, pitch and yaw from the
      orientation quaternion are outside the file: the voxel filter is a
      parameter of the sweep callback, and an IMU message carries its
      roll, pitch and yaw. *)

From Stdlib Require Import Reals ZArith List Lia Lra Psatz Bool Permutation.
Import ListNotations.

Open Scope Z_scope.
Open Scope R_scope.

(** ** Constants *)

Definition scanPeriod : R := 0.1.
Definition systemDelay : Z := 20.
Definition N_SCANS : Z := 16.
Definition imuQueLength : Z := 200.
Definition maxCloudSize : Z := 40000.

(** ** Arrays *)

Definition array (A : Type) : Type := Z -> A.

Definition upd {A : Type} (a : array A) (i : Z) (v : A) : array A :=
  fun j => if Z.eqb j i then v else a j.

Definition zeros : array R := fun _ => 0.
Definition zerosZ : array Z := fun _ => 0%Z.

(** ** File-scope state *)

(** The per-sweep scratch arrays, each of length [maxCloudSize]. *)
Record Scratch : Type := mkScratch {
  cloudCurvature : array R;
  cloudSortInd : array Z;
  cloudNeighborPicked : array Z;
  cloudLabel : array Z
}.

(** Euler angles, velocity and shift of the first point of the sweep. *)
Record ImuStart : Type := mkImuStart {
  imuRollStart : R; imuPitchStart : R; imuYawStart : R;
  imuVeloXStart : R; imuVeloYStart : R; imuVeloZStart : R;
  imuShiftXStart : R; imuShiftYStart : R; imuShiftZStart : R
}.

(** Euler angles, velocity and shift of the current point. *)
Record ImuCur : Type := mkImuCur {
  imuRollCur : R; imuPitchCur : R; imuYawCur : R;
  imuVeloXCur : R; imuVeloYCur : R; imuVeloZCur : R;
  imuShiftXCur : R; imuShiftYCur : R; imuShiftZCur : R
}.

(** Shift and velocity of the current point relative to the first one. *)
Record ImuFromStart : Type := mkImuFromStart {
  imuShiftFromStartXCur : R; imuShiftFromStartYCur : R;
  imuShiftFromStartZCur : R;
  imuVeloFromStartXCur : R; imuVeloFromStartYCur : R;
  imuVeloFromStartZCur : R
}.

(** The IMU ring: thirteen arrays of length [imuQueLength]. *)
Record ImuRing : Type := mkImuRing {
  imuTime : array R;
  imuRoll : array R; imuPitch : array R; imuYaw : array R;
  imuAccX : array R; imuAccY : array R; imuAccZ : array R;
  imuVeloX : array R; imuVeloY : array R; imuVeloZ : array R;
  imuShiftX : array R; imuShiftY : array R; imuShiftZ : array R
}.

Record Globals : Type := mkGlobals {
  systemInitCount : Z;
  systemInited : bool;
  scratch : Scratch;
  imuPointerFront : Z;
  imuPointerLast : Z;
  imuStart : ImuStart;
  imuCur : ImuCur;
  imuFromStart : ImuFromStart;
  ring : ImuRing
}.

(** The values the file-scope variables are initialised with. *)
Definition initGlobals : Globals :=
  {| systemInitCount := 0;
     systemInited := false;
     scratch := mkScratch zeros zerosZ zerosZ zerosZ;
     imuPointerFront := 0;
     imuPointerLast := -1;
     imuStart := mkImuStart 0 0 0 0 0 0 0 0 0;
     imuCur := mkImuCur 0 0 0 0 0 0 0 0 0;
     imuFromStart := mkImuFromStart 0 0 0 0 0 0;
     ring := mkImuRing zeros zeros zeros zeros zeros zeros zeros
                       zeros zeros zeros zeros zeros zeros |}.

Definition set_ring (g : Globals) (r : ImuRing) : Globals :=
  {| systemInitCount := systemInitCount g;
     systemInited := systemInited g;
     scratch := scratch g;
     imuPointerFront := imuPointerFront g;
     imuPointerLast := imuPointerLast g;
     imuStart := imuStart g;
     imuCur := imuCur g;
     imuFromStart := imuFromStart g;
     ring := r |}.

Definition set_imuPointerLast (g : Globals) (p : Z) : Globals :=
  {| systemInitCount := systemInitCount g;
     systemInited := systemInited g;
     scratch := scratch g;
     imuPointerFront := imuPointerFront g;
     imuPointerLast := p;
     imuStart := imuStart g;
     imuCur := imuCur g;
     imuFromStart := imuFromStart g;
     ring := ring g |}.

Definition set_imuPointerFront (g : Globals) (p : Z) : Globals :=
  {| systemInitCount := systemInitCount g;
     systemInited := systemInited g;
     scratch := scratch g;
     imuPointerFront := p;
     imuPointerLast := imuPointerLast g;
     imuStart := imuStart g;
     imuCur := imuCur g;
     imuFromStart := imuFromStart g;
     ring := ring g |}.

Definition set_imuStart (g : Globals) (s : ImuStart) : Globals :=
  {| systemInitCount := systemInitCount g;
     systemInited := systemInited g;
     scratch := scratch g;
     imuPointerFront := imuPointerFront g;
     imuPointerLast := imuPointerLast g;
     imuStart := s;
     imuCur := imuCur g;
     imuFromStart := imuFromStart g;
     ring := ring g |}.

Definition set_imuCur (g : Globals) (c : ImuCur) : Globals :=
  {| systemInitCount := systemInitCount g;
     systemInited := systemInited g;
     scratch := scratch g;
     imuPointerFront := imuPointerFront g;
     imuPointerLast := imuPointerLast g;
     imuStart := imuStart g;
     imuCur := c;
     imuFromStart := imuFromStart g;
     ring := ring g |}.

Definition set_imuFromStart (g : Globals) (f : ImuFromStart) : Globals :=
  {| systemInitCount := systemInitCount g;
     systemInited := systemInited g;
     scratch := scratch g;
     imuPointerFront := imuPointerFront g;
     imuPointerLast := imuPointerLast g;
     imuStart := imuStart g;
     imuCur := imuCur g;
     imuFromStart := f;
     ring := ring g |}.

Definition set_scratch (g : Globals) (s : Scratch) : Globals :=
  {| systemInitCount := systemInitCount g;
     systemInited := systemInited g;
     scratch := s;
     imuPointerFront := imuPointerFront g;
     imuPointerLast := imuPointerLast g;
     imuStart := imuStart g;
     imuCur := imuCur g;
     imuFromStart := imuFromStart g;
     ring := ring g |}.

(** ** Points *)

(** [PointType] is [pcl::PointXYZI]. *)
Record PointType : Type := mkPoint {
  px : R; py : R; pz : R; intensity : R
}.

(** ** De-skew: [ShiftToStartIMU], [VeloToStartIMU], [TransformToStartIMU] *)

Definition ShiftToStartIMU (pointTime : R) (g : Globals) : Globals :=
  let s := imuStart g in
  let c := imuCur g in
  let f := imuFromStart g in
  let sx := imuShiftXCur c - imuShiftXStart s - imuVeloXStart s * pointTime in
  let sy := imuShiftYCur c - imuShiftYStart s - imuVeloYStart s * pointTime in
  let sz := imuShiftZCur c - imuShiftZStart s - imuVeloZStart s * pointTime in
  let x1 := cos (imuYawStart s) * sx - sin (imuYawStart s) * sz in
  let y1 := sy in
  let z1 := sin (imuYawStart s) * sx + cos (imuYawStart s) * sz in
  let x2 := x1 in
  let y2 := cos (imuPitchStart s) * y1 + sin (imuPitchStart s) * z1 in
  let z2 := - sin (imuPitchStart s) * y1 + cos (imuPitchStart s) * z1 in
  set_imuFromStart g
    {| imuShiftFromStartXCur :=
         cos (imuRollStart s) * x2 + sin (imuRollStart s) * y2;
       imuShiftFromStartYCur :=
         - sin (imuRollStart s) * x2 + cos (imuRollStart s) * y2;
       imuShiftFromStartZCur := z2;
       imuVeloFromStartXCur := imuVeloFromStartXCur f;
       imuVeloFromStartYCur := imuVeloFromStartYCur f;
       imuVeloFromStartZCur := imuVeloFromStartZCur f |}.

Definition VeloToStartIMU (g : Globals) : Globals :=
  let s := imuStart g in
  let c := imuCur g in
  let f := imuFromStart g in
  let vx := imuVeloXCur c - imuVeloXStart s in
  let vy := imuVeloYCur c - imuVeloYStart s in
  let vz := imuVeloZCur c - imuVeloZStart s in
  let x1 := cos (imuYawStart s) * vx - sin (imuYawStart s) * vz in
  let y1 := vy in
  let z1 := sin (imuYawStart s) * vx + cos (imuYawStart s) * vz in
  let x2 := x1 in
  let y2 := cos (imuPitchStart s) * y1 + sin (imuPitchStart s) * z1 in
  let z2 := - sin (imuPitchStart s) * y1 + cos (imuPitchStart s) * z1 in
  set_imuFromStart g
    {| imuShiftFromStartXCur := imuShiftFromStartXCur f;
       imuShiftFromStartYCur := imuShiftFromStartYCur f;
       imuShiftFromStartZCur := imuShiftFromStartZCur f;
       imuVeloFromStartXCur :=
         cos (imuRollStart s) * x2 + sin (imuRollStart s) * y2;
       imuVeloFromStartYCur :=
         - sin (imuRollStart s) * x2 + cos (imuRollStart s) * y2;
       imuVeloFromStartZCur := z2 |}.

Definition TransformToStartIMU (g : Globals) (p : PointType) : PointType :=
  let s := imuStart g in
  let c := imuCur g in
  let f := imuFromStart g in
  let x1 := cos (imuRollCur c) * px p - sin (imuRollCur c) * py p in
  let y1 := sin (imuRollCur c) * px p + cos (imuRollCur c) * py p in
  let z1 := pz p in
  let x2 := x1 in
  let y2 := cos (imuPitchCur c) * y1 - sin (imuPitchCur c) * z1 in
  let z2 := sin (imuPitchCur c) * y1 + cos (imuPitchCur c) * z1 in
  let x3 := cos (imuYawCur c) * x2 + sin (imuYawCur c) * z2 in
  let y3 := y2 in
  let z3 := - sin (imuYawCur c) * x2 + cos (imuYawCur c) * z2 in
  let x4 := cos (imuYawStart s) * x3 - sin (imuYawStart s) * z3 in
  let y4 := y3 in
  let z4 := sin (imuYawStart s) * x3 + cos (imuYawStart s) * z3 in
  let x5 := x4 in
  let y5 := cos (imuPitchStart s) * y4 + sin (imuPitchStart s) * z4 in
  let z5 := - sin (imuPitchStart s) * y4 + cos (imuPitchStart s) * z4 in
  {| px := cos (imuRollStart s) * x5 + sin (imuRollStart s) * y5
           + imuShiftFromStartXCur f;
     py := - sin (imuRollStart s) * x5 + cos (imuRollStart s) * y5
           + imuShiftFromStartYCur f;
     pz := z5 + imuShiftFromStartZCur f;
     intensity := intensity p |}.

(** ** IMU integration: [AccumulateIMUShift] and [imuHandler] *)

(** The acceleration of slot [i] rotated into the world frame by
    [Ry(yaw) * Rx(pitch) * Rz(roll)]: the values the local variables
    [accX], [accY], [accZ] of [AccumulateIMUShift] hold before the
    integration. *)
Definition worldAcc (r : ImuRing) (i : Z) : R * R * R :=
  let roll := imuRoll r i in
  let pitch := imuPitch r i in
  let yaw := imuYaw r i in
  let accX := imuAccX r i in
  let accY := imuAccY r i in
  let accZ := imuAccZ r i in
  let x1 := cos roll * accX - sin roll * accY in
  let y1 := sin roll * accX + cos roll * accY in
  let z1 := accZ in
  let x2 := x1 in
  let y2 := cos pitch * y1 - sin pitch * z1 in
  let z2 := sin pitch * y1 + cos pitch * z1 in
  (cos yaw * x2 + sin yaw * z2, y2, - sin yaw * x2 + cos yaw * z2).

Definition AccumulateIMUShift (g : Globals) : Globals :=
  let r := ring g in
  let last := imuPointerLast g in
  let '(accX, accY, accZ) := worldAcc r last in
  let imuPointerBack := Z.rem (last + imuQueLength - 1) imuQueLength in
  let timeDiff := imuTime r last - imuTime r imuPointerBack in
  if Rlt_dec timeDiff scanPeriod then
    set_ring g
      {| imuTime := imuTime r;
         imuRoll := imuRoll r; imuPitch := imuPitch r; imuYaw := imuYaw r;
         imuAccX := imuAccX r; imuAccY := imuAccY r; imuAccZ := imuAccZ r;
         imuVeloX := upd (imuVeloX r) last
                       (imuVeloX r imuPointerBack + accX * timeDiff);
         imuVeloY := upd (imuVeloY r) last
                       (imuVeloY r imuPointerBack + accY * timeDiff);
         imuVeloZ := upd (imuVeloZ r) last
                       (imuVeloZ r imuPointerBack + accZ * timeDiff);
         imuShiftX := upd (imuShiftX r) last
                        (imuShiftX r imuPointerBack
                         + imuVeloX r imuPointerBack * timeDiff
                         + accX * timeDiff * timeDiff / 2);
         imuShiftY := upd (imuShiftY r) last
                        (imuShiftY r imuPointerBack
                         + imuVeloY r imuPointerBack * timeDiff
                         + accY * timeDiff * timeDiff / 2);
         imuShiftZ := upd (imuShiftZ r) last
                        (imuShiftZ r imuPointerBack
                         + imuVeloZ r imuPointerBack * timeDiff
                         + accZ * timeDiff * timeDiff / 2) |}
  else g.

(** An IMU message: the time stamp, the roll, pitch and yaw that
    [tf::Matrix3x3(orientation).getRPY] extracts from the orientation
    quaternion, and the linear acceleration. *)
Record ImuMsg : Type := mkImuMsg {
  imu_stamp : R;
  imu_roll : R; imu_pitch : R; imu_yaw : R;
  linear_acceleration_x : R;
  linear_acceleration_y : R;
  linear_acceleration_z : R
}.

Definition imuHandler (imuIn : ImuMsg) (g : Globals) : Globals :=
  let roll := imu_roll imuIn in
  let pitch := imu_pitch imuIn in
  let yaw := imu_yaw imuIn in
  let accX := linear_acceleration_y imuIn - sin roll * cos pitch * 9.81 in
  let accY := linear_acceleration_z imuIn - cos roll * cos pitch * 9.81 in
  let accZ := linear_acceleration_x imuIn + sin pitch * 9.81 in
  let last := Z.rem (imuPointerLast g + 1) imuQueLength in
  let r := ring g in
  AccumulateIMUShift
    (set_ring (set_imuPointerLast g last)
       {| imuTime := upd (imuTime r) last (imu_stamp imuIn);
          imuRoll := upd (imuRoll r) last roll;
          imuPitch := upd (imuPitch r) last pitch;
          imuYaw := upd (imuYaw r) last yaw;
          imuAccX := upd (imuAccX r) last accX;
          imuAccY := upd (imuAccY r) last accY;
          imuAccZ := upd (imuAccZ r) last accZ;
          imuVeloX := imuVeloX r; imuVeloY := imuVeloY r;
          imuVeloZ := imuVeloZ r;
          imuShiftX := imuShiftX r; imuShiftY := imuShiftY r;
          imuShiftZ := imuShiftZ r |}).

(** The IMU callback run on a list of messages, oldest first. *)
Definition imuRun (msgs : list ImuMsg) (g : Globals) : Globals :=
  fold_left (fun g m => imuHandler m g) msgs g.

(** ** Errors and loops of the sweep callback *)

(** The result of a computation that indexes vectors and arrays:
    [OutOfBounds] stands for an access outside the object. *)
Inductive Res (A : Type) : Type :=
| Ok (a : A)
| OutOfBounds.

Arguments Ok {A} a.
Arguments OutOfBounds {A}.

Definition bind {A B : Type} (m : Res A) (f : A -> Res B) : Res B :=
  match m with
  | Ok a => f a
  | OutOfBounds => OutOfBounds
  end.

Notation "x <- m ;; k" := (bind m (fun x => k))
  (at level 61, m at next level, right associativity).

(** [v[i]] on a [std::vector] or a [pcl::PointCloud]. *)
Definition at_ {A : Type} (v : list A) (i : Z) : Res A :=
  if (i <? 0)%Z then OutOfBounds
  else match nth_error v (Z.to_nat i) with
       | Some a => Ok a
       | None => OutOfBounds
       end.

Definition inb (len i : Z) : bool := ((0 <=? i) && (i <? len))%Z.

(** Reading and writing [a[i]] on an array of [len] elements. *)
Definition rd {A : Type} (len : Z) (a : array A) (i : Z) : Res A :=
  if inb len i then Ok (a i) else OutOfBounds.

Definition wr {A : Type} (len : Z) (a : array A) (i : Z) (v : A)
  : Res (array A) :=
  if inb len i then Ok (upd a i v) else OutOfBounds.

(** What a loop body asks for: the next iteration, or [break]. *)
Inductive Ctl (S : Type) : Type :=
| Next (s : S)
| Break (s : S).

Arguments Next {S} s.
Arguments Break {S} s.

Fixpoint iterate {S : Type} (n : nat) (i step : Z)
  (body : Z -> S -> Res (Ctl S)) (s : S) : Res S :=
  match n with
  | O => Ok s
  | Datatypes.S n' =>
      match body i s with
      | Ok (Next s') => iterate n' (i + step)%Z step body s'
      | Ok (Break s') => Ok s'
      | OutOfBounds => OutOfBounds
      end
  end.

(** [for (k = lo; k <= hi; k++) body] *)
Definition forUp {S : Type} (lo hi : Z) (body : Z -> S -> Res (Ctl S))
  (s : S) : Res S :=
  iterate (Z.to_nat (hi - lo + 1)) lo 1 body s.

(** [for (k = hi; k >= lo; k--) body] *)
Definition forDown {S : Type} (hi lo : Z) (body : Z -> S -> Res (Ctl S))
  (s : S) : Res S :=
  iterate (Z.to_nat (hi - lo + 1)) hi (-1) body s.

(** ** Library functions *)

(** [std::atan2], from its definition in the C library. *)
Definition atan2 (y x : R) : R :=
  if Rlt_dec 0 x then atan (y / x)
  else if Rlt_dec x 0 then
    if Rle_dec 0 y then atan (y / x) + PI else atan (y / x) - PI
  else if Rlt_dec 0 y then PI / 2
  else if Rlt_dec y 0 then - (PI / 2)
  else 0.

(** The conversion [int(x)] of a floating-point value: truncation
    towards zero. *)
Definition truncate (x : R) : Z :=
  if Rle_dec 0 x then Int_part x else (- Int_part (- x))%Z.

(** ** Input and output of the sweep callback *)

(** [pcl::PointXYZ]. *)
Record PointXYZ : Type := mkXYZ { rx : R; ry : R; rz : R }.

(** A point of the incoming message: its coordinates are all finite, or
    they are not. *)
Inductive RawPoint : Type :=
| Finite (p : PointXYZ)
| NotFinite.

Record CloudMsg : Type := mkCloudMsg {
  cloud_stamp : R;
  cloud_points : list RawPoint
}.

(** [pcl::removeNaNFromPointCloud]: the finite points, in order. *)
Fixpoint removeNaNFromPointCloud (l : list RawPoint) : list PointXYZ :=
  match l with
  | [] => []
  | Finite p :: l' => p :: removeNaNFromPointCloud l'
  | NotFinite :: l' => removeNaNFromPointCloud l'
  end.

(** The six clouds published for a sweep, with their common stamp. *)
Record Outputs : Type := mkOutputs {
  out_stamp : R;
  laserCloudOut : list PointType;
  cornerPointsSharpOut : list PointType;
  cornerPointsLessSharpOut : list PointType;
  surfPointsFlatOut : list PointType;
  surfPointsLessFlatOut : list PointType;
  imuTransOut : list PointXYZ
}.

(** ** Sweep ingestion *)

(** The azimuth window of the sweep: [startOri] and the normalised
    [endOri]. *)
Definition computeStartOri (p0 : PointXYZ) : R := - atan2 (ry p0) (rx p0).

Definition computeEndOri (pN : PointXYZ) : R :=
  - atan2 (ry pN) (rx pN) + 2 * PI.

(** The comparisons of the normalisation step are on exact real numbers.
    The source holds the two azimuths in [float] and compares their
    difference with the [double] constants, so a difference within
    rounding of [PI] or [3 * PI] can take another branch there. *)
Definition normalizeEndOri (startOri endOri : R) : R :=
  if Rgt_dec (endOri - startOri) (3 * PI) then endOri - 2 * PI
  else if Rlt_dec (endOri - startOri) PI then endOri + 2 * PI
  else endOri.

(** The beam a point of the internal frame belongs to.  On the vertical
    axis of the sensor the denominator is 0: the quotient of the source is
    an infinity with the sign of [y], its arc tangent is a right angle and
    [roundedAngle] is 90 or -90, so the point is outside the sixteen
    scans.  At the origin the quotient is 0/0, which is not a number, and
    the language leaves its conversion to [int] undefined; [roundedAngle]
    is given the smallest [int] there, as the conversion instruction of
    x86 does, and the statements about whole clouds leave the origin
    out. *)
Definition computeScanID (x y z : R) : Z :=
  let roundedAngle :=
    if Rlt_dec 0 (x * x + z * z) then
      let angle := atan (y / sqrt (x * x + z * z)) * 180 / PI in
      truncate (angle + (if Rlt_dec angle 0 then - 0.5 else 0.5))
    else if Rlt_dec 0 y then 90%Z
    else if Rlt_dec y 0 then (-90)%Z
    else (-2147483648)%Z in
  if (roundedAngle >? 0)%Z then roundedAngle
  else (roundedAngle + (N_SCANS - 1))%Z.

(** The azimuth of a point within the sweep and the new value of the
    [halfPassed] latch. *)
Definition computeOri (startOri endOri : R) (halfPassed : bool) (x z : R)
  : R * bool :=
  let ori := - atan2 x z in
  if negb halfPassed then
    let ori :=
      if Rlt_dec ori (startOri - PI / 2) then ori + 2 * PI
      else if Rgt_dec ori (startOri + PI * 3 / 2) then ori - 2 * PI
      else ori in
    (ori, if Rgt_dec (ori - startOri) PI then true else halfPassed)
  else
    let ori := ori + 2 * PI in
    let ori :=
      if Rlt_dec ori (endOri - PI * 3 / 2) then ori + 2 * PI
      else if Rgt_dec ori (endOri + PI / 2) then ori - 2 * PI
      else ori in
    (ori, halfPassed).

(** The search of the ring for the first slot whose time is later than
    [t]: [while (imuPointerFront != imuPointerLast)].  The cursor visits
    each slot at most once, so [imuQueLength] rounds are enough. *)
Fixpoint advanceFront (fuel : nat) (t : R) (r : ImuRing) (last front : Z)
  : Z :=
  match fuel with
  | O => front
  | S fuel' =>
      if Z.eqb front last then front
      else if Rlt_dec t (imuTime r front) then front
      else advanceFront fuel' t r last (Z.rem (front + 1) imuQueLength)
  end.

(** The IMU state at the time of a point: the latest sample, or the
    linear interpolation of the two samples around the point.  Where the
    two samples have the same time the source divides by zero and the
    state is not a number; a quotient by 0 is 0 here, and the statements
    about an interpolated state assume two different times. *)
Definition interpolateIMU (timeScanCur pointTime : R) (g : Globals)
  : Globals :=
  let r := ring g in
  let front :=
    advanceFront (Z.to_nat imuQueLength) (timeScanCur + pointTime) r
      (imuPointerLast g) (imuPointerFront g) in
  let g := set_imuPointerFront g front in
  if Rgt_dec (timeScanCur + pointTime) (imuTime r front) then
    set_imuCur g
      {| imuRollCur := imuRoll r front;
         imuPitchCur := imuPitch r front;
         imuYawCur := imuYaw r front;
         imuVeloXCur := imuVeloX r front;
         imuVeloYCur := imuVeloY r front;
         imuVeloZCur := imuVeloZ r front;
         imuShiftXCur := imuShiftX r front;
         imuShiftYCur := imuShiftY r front;
         imuShiftZCur := imuShiftZ r front |}
  else
    let back := Z.rem (front + imuQueLength - 1) imuQueLength in
    let ratioFront :=
      (timeScanCur + pointTime - imuTime r back)
      / (imuTime r front - imuTime r back) in
    let ratioBack :=
      (imuTime r front - timeScanCur - pointTime)
      / (imuTime r front - imuTime r back) in
    set_imuCur g
      {| imuRollCur := imuRoll r front * ratioFront
                       + imuRoll r back * ratioBack;
         imuPitchCur := imuPitch r front * ratioFront
                        + imuPitch r back * ratioBack;
         imuYawCur :=
           if Rgt_dec (imuYaw r front - imuYaw r back) PI then
             imuYaw r front * ratioFront
             + (imuYaw r back + 2 * PI) * ratioBack
           else if Rlt_dec (imuYaw r front - imuYaw r back) (- PI) then
             imuYaw r front * ratioFront
             + (imuYaw r back - 2 * PI) * ratioBack
           else
             imuYaw r front * ratioFront + imuYaw r back * ratioBack;
         imuVeloXCur := imuVeloX r front * ratioFront
                        + imuVeloX r back * ratioBack;
         imuVeloYCur := imuVeloY r front * ratioFront
                        + imuVeloY r back * ratioBack;
         imuVeloZCur := imuVeloZ r front * ratioFront
                        + imuVeloZ r back * ratioBack;
         imuShiftXCur := imuShiftX r front * ratioFront
                         + imuShiftX r back * ratioBack;
         imuShiftYCur := imuShiftY r front * ratioFront
                         + imuShiftY r back * ratioBack;
         imuShiftZCur := imuShiftZ r front * ratioFront
                         + imuShiftZ r back * ratioBack |}.

(** The first-point latch: the start state takes the current state. *)
Definition latchStart (g : Globals) : Globals :=
  let c := imuCur g in
  set_imuStart g
    {| imuRollStart := imuRollCur c;
       imuPitchStart := imuPitchCur c;
       imuYawStart := imuYawCur c;
       imuVeloXStart := imuVeloXCur c;
       imuVeloYStart := imuVeloYCur c;
       imuVeloZStart := imuVeloZCur c;
       imuShiftXStart := imuShiftXCur c;
       imuShiftYStart := imuShiftYCur c;
       imuShiftZStart := imuShiftZCur c |}.

(** The variables of the ingestion loop. *)
Record Ingest : Type := mkIngest {
  ig_globals : Globals;
  halfPassed : bool;
  count : Z;
  laserCloudScans : array (list PointType)
}.

(** The motion compensation of one kept point (the block guarded by
    [imuPointerLast >= 0]). *)
Definition compensate (timeScanCur relTime : R) (i : Z) (point : PointType)
  (g : Globals) : Globals * PointType :=
  if (imuPointerLast g >=? 0)%Z then
    let pointTime := relTime * scanPeriod in
    let g := interpolateIMU timeScanCur pointTime g in
    if Z.eqb i 0 then (latchStart g, point)
    else
      let g := VeloToStartIMU (ShiftToStartIMU pointTime g) in
      (g, TransformToStartIMU g point)
  else (g, point).

(** One round of the ingestion loop, on the point of index [i]. *)
Definition ingestPoint (laserCloudIn : list PointXYZ)
  (timeScanCur startOri endOri : R) (i : Z) (st : Ingest)
  : Res (Ctl Ingest) :=
  raw <- at_ laserCloudIn i ;;
  let x := ry raw in
  let y := rz raw in
  let z := rx raw in
  let scanID := computeScanID x y z in
  if ((scanID >? N_SCANS - 1) || (scanID <? 0))%Z then
    Ok (Next {| ig_globals := ig_globals st;
                halfPassed := halfPassed st;
                count := (count st - 1)%Z;
                laserCloudScans := laserCloudScans st |})
  else
    let '(ori, half) := computeOri startOri endOri (halfPassed st) x z in
    let relTime := (ori - startOri) / (endOri - startOri) in
    let point :=
      {| px := x; py := y; pz := z;
         intensity := IZR scanID + scanPeriod * relTime |} in
    let '(g, point) :=
      compensate timeScanCur relTime i point (ig_globals st) in
    scan <- rd N_SCANS (laserCloudScans st) scanID ;;
    scans <- wr N_SCANS (laserCloudScans st) scanID (scan ++ [point]) ;;
    Ok (Next {| ig_globals := g;
                halfPassed := half;
                count := count st;
                laserCloudScans := scans |}).

(** The ingestion stage: the azimuth window, then every point. *)
Definition ingest (laserCloudIn : list PointXYZ) (timeScanCur : R)
  (g : Globals) : Res Ingest :=
  let cloudSize := Z.of_nat (length laserCloudIn) in
  p0 <- at_ laserCloudIn 0 ;;
  pN <- at_ laserCloudIn (cloudSize - 1) ;;
  let startOri := computeStartOri p0 in
  let endOri := normalizeEndOri startOri (computeEndOri pN) in
  forUp 0 (cloudSize - 1)
    (ingestPoint laserCloudIn timeScanCur startOri endOri)
    {| ig_globals := g;
       halfPassed := false;
       count := cloudSize;
       laserCloudScans := fun _ => [] |}.

(** The scans put together by ascending beam index. *)
Definition concatScans (scans : array (list PointType)) : list PointType :=
  concat (map (fun i => scans (Z.of_nat i)) (seq 0 (Z.to_nat N_SCANS))).

(** ** Curvature and the bounds of every scan *)

Definition set_cloudSortInd (sc : Scratch) (a : array Z) : Scratch :=
  mkScratch (cloudCurvature sc) a (cloudNeighborPicked sc) (cloudLabel sc).

Definition set_cloudNeighborPicked (sc : Scratch) (a : array Z) : Scratch :=
  mkScratch (cloudCurvature sc) (cloudSortInd sc) a (cloudLabel sc).

Definition set_cloudLabel (sc : Scratch) (a : array Z) : Scratch :=
  mkScratch (cloudCurvature sc) (cloudSortInd sc) (cloudNeighborPicked sc) a.

(** The sum over the ten neighbours of a coordinate minus ten times the
    coordinate of the point, in the order the source adds them. *)
Definition diffSum (c : PointType -> R)
  (m5 m4 m3 m2 m1 p p1 p2 p3 p4 p5 : PointType) : R :=
  c m5 + c m4 + c m3 + c m2 + c m1 - 10 * c p
  + c p1 + c p2 + c p3 + c p4 + c p5.

(** The variables of the curvature loop. *)
Record Curv : Type := mkCurv {
  cv_scratch : Scratch;
  scanCount : Z;
  scanStartInd : array Z;
  scanEndInd : array Z
}.

Definition curvaturePoint (laserCloud : list PointType) (i : Z) (st : Curv)
  : Res (Ctl Curv) :=
  m5 <- at_ laserCloud (i - 5) ;;
  m4 <- at_ laserCloud (i - 4) ;;
  m3 <- at_ laserCloud (i - 3) ;;
  m2 <- at_ laserCloud (i - 2) ;;
  m1 <- at_ laserCloud (i - 1) ;;
  p <- at_ laserCloud i ;;
  p1 <- at_ laserCloud (i + 1) ;;
  p2 <- at_ laserCloud (i + 2) ;;
  p3 <- at_ laserCloud (i + 3) ;;
  p4 <- at_ laserCloud (i + 4) ;;
  p5 <- at_ laserCloud (i + 5) ;;
  let diffX := diffSum px m5 m4 m3 m2 m1 p p1 p2 p3 p4 p5 in
  let diffY := diffSum py m5 m4 m3 m2 m1 p p1 p2 p3 p4 p5 in
  let diffZ := diffSum pz m5 m4 m3 m2 m1 p p1 p2 p3 p4 p5 in
  let sc := cv_scratch st in
  curv <- wr maxCloudSize (cloudCurvature sc) i
            (diffX * diffX + diffY * diffY + diffZ * diffZ) ;;
  sortInd <- wr maxCloudSize (cloudSortInd sc) i i ;;
  picked <- wr maxCloudSize (cloudNeighborPicked sc) i 0%Z ;;
  label <- wr maxCloudSize (cloudLabel sc) i 0%Z ;;
  let sc := mkScratch curv sortInd picked label in
  if negb (Z.eqb (truncate (intensity p)) (scanCount st)) then
    let scanCount := truncate (intensity p) in
    if ((scanCount >? 0) && (scanCount <? N_SCANS))%Z then
      startInd <- wr N_SCANS (scanStartInd st) scanCount (i + 5)%Z ;;
      endInd <- wr N_SCANS (scanEndInd st) (scanCount - 1) (i - 5)%Z ;;
      Ok (Next (mkCurv sc scanCount startInd endInd))
    else
      Ok (Next (mkCurv sc scanCount (scanStartInd st) (scanEndInd st)))
  else
    Ok (Next (mkCurv sc (scanCount st) (scanStartInd st) (scanEndInd st))).

(** The curvature stage, with the two forced bounds after the loop. *)
Definition computeCurvature (laserCloud : list PointType) (cloudSize : Z)
  (sc : Scratch) : Res Curv :=
  st <- forUp 5 (cloudSize - 5 - 1) (curvaturePoint laserCloud)
          (mkCurv sc (-1) zerosZ zerosZ) ;;
  startInd <- wr N_SCANS (scanStartInd st) 0 5%Z ;;
  endInd <- wr N_SCANS (scanEndInd st) (N_SCANS - 1) (cloudSize - 5)%Z ;;
  Ok (mkCurv (cv_scratch st) (scanCount st) startInd endInd).

(** ** Occlusion and parallel-surface filter *)

Definition sqDist (a b : PointType) : R :=
  let diffX := px a - px b in
  let diffY := py a - py b in
  let diffZ := pz a - pz b in
  diffX * diffX + diffY * diffY + diffZ * diffZ.

Definition sqNorm (a : PointType) : R :=
  px a * px a + py a * py a + pz a * pz a.

(** [cloudNeighborPicked[i + lo .. i + hi] = 1], one write after the
    other in ascending order. *)
Definition markRange (i lo hi : Z) (picked : array Z) : Res (array Z) :=
  forUp lo hi
    (fun l picked =>
       picked <- wr maxCloudSize picked (i + l) 1%Z ;;
       Ok (Next picked))
    picked.

Definition filterPoint (laserCloud : list PointType) (i : Z)
  (picked : array Z) : Res (Ctl (array Z)) :=
  p1 <- at_ laserCloud (i + 1) ;;
  p <- at_ laserCloud i ;;
  let diff := sqDist p1 p in
  picked <-
    (if Rgt_dec diff 0.1 then
       let depth1 := sqrt (sqNorm p) in
       let depth2 := sqrt (sqNorm p1) in
       if Rgt_dec depth1 depth2 then
         let diffX := px p1 - px p * depth2 / depth1 in
         let diffY := py p1 - py p * depth2 / depth1 in
         let diffZ := pz p1 - pz p * depth2 / depth1 in
         if Rlt_dec
              (sqrt (diffX * diffX + diffY * diffY + diffZ * diffZ) / depth2)
              0.1
         then markRange i (-5) 0 picked
         else Ok picked
       else
         let diffX := px p1 * depth1 / depth2 - px p in
         let diffY := py p1 * depth1 / depth2 - py p in
         let diffZ := pz p1 * depth1 / depth2 - pz p in
         if Rlt_dec
              (sqrt (diffX * diffX + diffY * diffY + diffZ * diffZ) / depth1)
              0.1
         then markRange i 1 6 picked
         else Ok picked
     else Ok picked) ;;
  m1 <- at_ laserCloud (i - 1) ;;
  let diff2 := sqDist p m1 in
  let dis := sqNorm p in
  if Rgt_dec diff (0.0002 * dis) then
    if Rgt_dec diff2 (0.0002 * dis) then
      picked <- wr maxCloudSize picked i 1%Z ;;
      Ok (Next picked)
    else Ok (Next picked)
  else Ok (Next picked).

Definition filterCloud (laserCloud : list PointType) (cloudSize : Z)
  (sc : Scratch) : Res Scratch :=
  picked <- forUp 5 (cloudSize - 6 - 1) (filterPoint laserCloud)
              (cloudNeighborPicked sc) ;;
  Ok (set_cloudNeighborPicked sc picked).

(** ** Feature selection *)

(** The bubble sort of [cloudSortInd[sp .. ep]] by ascending curvature. *)
Definition sortStep (curvature : array R) (l : Z) (sortInd : array Z)
  : Res (Ctl (array Z)) :=
  a <- rd maxCloudSize sortInd l ;;
  b <- rd maxCloudSize sortInd (l - 1) ;;
  ca <- rd maxCloudSize curvature a ;;
  cb <- rd maxCloudSize curvature b ;;
  if Rlt_dec ca cb then
    let temp := b in
    sortInd <- wr maxCloudSize sortInd (l - 1) a ;;
    sortInd <- wr maxCloudSize sortInd l temp ;;
    Ok (Next sortInd)
  else Ok (Next sortInd).

Definition sortSector (sp ep : Z) (curvature : array R) (sortInd : array Z)
  : Res (array Z) :=
  forUp (sp + 1) ep
    (fun k sortInd =>
       sortInd <- forDown k (sp + 1) (sortStep curvature) sortInd ;;
       Ok (Next sortInd))
    sortInd.

(** The spread mask around a selected point: the neighbours after it, then
    the neighbours before it, each walk stopped by the first gap whose
    squared length is above 0.05. *)
Definition spreadForward (laserCloud : list PointType) (ind : Z)
  (picked : array Z) : Res (array Z) :=
  forUp 1 5
    (fun l picked =>
       a <- at_ laserCloud (ind + l) ;;
       b <- at_ laserCloud (ind + l - 1) ;;
       if Rgt_dec (sqDist a b) 0.05 then Ok (Break picked)
       else
         picked <- wr maxCloudSize picked (ind + l) 1%Z ;;
         Ok (Next picked))
    picked.

Definition spreadBackward (laserCloud : list PointType) (ind : Z)
  (picked : array Z) : Res (array Z) :=
  forDown (-1) (-5)
    (fun l picked =>
       a <- at_ laserCloud (ind + l) ;;
       b <- at_ laserCloud (ind + l + 1) ;;
       if Rgt_dec (sqDist a b) 0.05 then Ok (Break picked)
       else
         picked <- wr maxCloudSize picked (ind + l) 1%Z ;;
         Ok (Next picked))
    picked.

(** [cloudNeighborPicked[ind] = 1] followed by the two walks. *)
Definition markPicked (laserCloud : list PointType) (ind : Z)
  (picked : array Z) : Res (array Z) :=
  picked <- wr maxCloudSize picked ind 1%Z ;;
  picked <- spreadForward laserCloud ind picked ;;
  spreadBackward laserCloud ind picked.

(** The scratch arrays and the four feature clouds of the sweep. *)
Record Features : Type := mkFeatures {
  ft_scratch : Scratch;
  cornerPointsSharp : list PointType;
  cornerPointsLessSharp : list PointType;
  surfPointsFlat : list PointType;
  surfPointsLessFlat : list PointType
}.

(** One round of the corner loop of a sector, on [cloudSortInd[k]]; the
    second component of the state is [largestPickedNum]. *)
Definition cornerStep (laserCloud : list PointType) (k : Z)
  (st : Features * Z) : Res (Ctl (Features * Z)) :=
  let '(ft, largestPickedNum) := st in
  let sc := ft_scratch ft in
  ind <- rd maxCloudSize (cloudSortInd sc) k ;;
  pk <- rd maxCloudSize (cloudNeighborPicked sc) ind ;;
  if Z.eqb pk 0 then
    cv <- rd maxCloudSize (cloudCurvature sc) ind ;;
    if Rgt_dec cv 0.1 then
      let largestPickedNum := (largestPickedNum + 1)%Z in
      if (largestPickedNum <=? 2)%Z then
        label <- wr maxCloudSize (cloudLabel sc) ind 2%Z ;;
        p <- at_ laserCloud ind ;;
        picked <- markPicked laserCloud ind (cloudNeighborPicked sc) ;;
        Ok (Next
              ({| ft_scratch :=
                    set_cloudNeighborPicked (set_cloudLabel sc label) picked;
                  cornerPointsSharp := cornerPointsSharp ft ++ [p];
                  cornerPointsLessSharp := cornerPointsLessSharp ft ++ [p];
                  surfPointsFlat := surfPointsFlat ft;
                  surfPointsLessFlat := surfPointsLessFlat ft |},
               largestPickedNum))
      else if (largestPickedNum <=? 20)%Z then
        label <- wr maxCloudSize (cloudLabel sc) ind 1%Z ;;
        p <- at_ laserCloud ind ;;
        picked <- markPicked laserCloud ind (cloudNeighborPicked sc) ;;
        Ok (Next
              ({| ft_scratch :=
                    set_cloudNeighborPicked (set_cloudLabel sc label) picked;
                  cornerPointsSharp := cornerPointsSharp ft;
                  cornerPointsLessSharp := cornerPointsLessSharp ft ++ [p];
                  surfPointsFlat := surfPointsFlat ft;
                  surfPointsLessFlat := surfPointsLessFlat ft |},
               largestPickedNum))
      else Ok (Break (ft, largestPickedNum))
    else Ok (Next st)
  else Ok (Next st).

(** One round of the flat loop of a sector; the second component of the
    state is [smallestPickedNum]. *)
Definition flatStep (laserCloud : list PointType) (k : Z)
  (st : Features * Z) : Res (Ctl (Features * Z)) :=
  let '(ft, smallestPickedNum) := st in
  let sc := ft_scratch ft in
  ind <- rd maxCloudSize (cloudSortInd sc) k ;;
  pk <- rd maxCloudSize (cloudNeighborPicked sc) ind ;;
  if Z.eqb pk 0 then
    cv <- rd maxCloudSize (cloudCurvature sc) ind ;;
    if Rlt_dec cv 0.1 then
      label <- wr maxCloudSize (cloudLabel sc) ind (-1)%Z ;;
      p <- at_ laserCloud ind ;;
      let ft :=
        {| ft_scratch := set_cloudLabel sc label;
           cornerPointsSharp := cornerPointsSharp ft;
           cornerPointsLessSharp := cornerPointsLessSharp ft;
           surfPointsFlat := surfPointsFlat ft ++ [p];
           surfPointsLessFlat := surfPointsLessFlat ft |} in
      let smallestPickedNum := (smallestPickedNum + 1)%Z in
      if (smallestPickedNum >=? 4)%Z then
        Ok (Break (ft, smallestPickedNum))
      else
        picked <- markPicked laserCloud ind (cloudNeighborPicked sc) ;;
        Ok (Next
              ({| ft_scratch :=
                    set_cloudNeighborPicked (ft_scratch ft) picked;
                  cornerPointsSharp := cornerPointsSharp ft;
                  cornerPointsLessSharp := cornerPointsLessSharp ft;
                  surfPointsFlat := surfPointsFlat ft;
                  surfPointsLessFlat := surfPointsLessFlat ft |},
               smallestPickedNum))
    else Ok (Next st)
  else Ok (Next st).

(** One round of the less-flat loop of a sector. *)
Definition lessFlatStep (laserCloud : list PointType) (label : array Z)
  (k : Z) (surfPointsLessFlatScan : list PointType)
  : Res (Ctl (list PointType)) :=
  lb <- rd maxCloudSize label k ;;
  if (lb <=? 0)%Z then
    p <- at_ laserCloud k ;;
    Ok (Next (surfPointsLessFlatScan ++ [p]))
  else Ok (Next surfPointsLessFlatScan).

(** Sector [j] of scan [i]: sort, corners, flats, less-flat points.  The
    second component of the state is [surfPointsLessFlatScan]. *)
Definition selectSector (laserCloud : list PointType)
  (scanStartInd scanEndInd : array Z) (i j : Z)
  (st : Features * list PointType)
  : Res (Ctl (Features * list PointType)) :=
  let '(ft, surfPointsLessFlatScan) := st in
  s <- rd N_SCANS scanStartInd i ;;
  e <- rd N_SCANS scanEndInd i ;;
  let sp := Z.quot (s * (6 - j) + e * j) 6 in
  let ep := (Z.quot (s * (5 - j) + e * (j + 1)) 6 - 1)%Z in
  let sc := ft_scratch ft in
  sortInd <- sortSector sp ep (cloudCurvature sc) (cloudSortInd sc) ;;
  let ft :=
    {| ft_scratch := set_cloudSortInd sc sortInd;
       cornerPointsSharp := cornerPointsSharp ft;
       cornerPointsLessSharp := cornerPointsLessSharp ft;
       surfPointsFlat := surfPointsFlat ft;
       surfPointsLessFlat := surfPointsLessFlat ft |} in
  r <- forDown ep sp (cornerStep laserCloud) (ft, 0%Z) ;;
  r <- forUp sp ep (flatStep laserCloud) (fst r, 0%Z) ;;
  let ft := fst r in
  lessFlat <- forUp sp ep
                (lessFlatStep laserCloud (cloudLabel (ft_scratch ft)))
                surfPointsLessFlatScan ;;
  Ok (Next (ft, lessFlat)).

(** Scan [i]: its six sectors, then the voxel grid filter on the less-flat
    points of the scan.  [downSizeFilter] stands for [pcl::VoxelGrid] with
    leaf size 0.2. *)
Definition selectScan (downSizeFilter : list PointType -> list PointType)
  (laserCloud : list PointType) (scanStartInd scanEndInd : array Z)
  (i : Z) (ft : Features) : Res (Ctl Features) :=
  r <- forUp 0 5 (selectSector laserCloud scanStartInd scanEndInd i)
         (ft, []) ;;
  let '(ft, surfPointsLessFlatScan) := r in
  Ok (Next
        {| ft_scratch := ft_scratch ft;
           cornerPointsSharp := cornerPointsSharp ft;
           cornerPointsLessSharp := cornerPointsLessSharp ft;
           surfPointsFlat := surfPointsFlat ft;
           surfPointsLessFlat :=
             surfPointsLessFlat ft
             ++ downSizeFilter surfPointsLessFlatScan |}).

Definition selectFeatures (downSizeFilter : list PointType -> list PointType)
  (laserCloud : list PointType) (scanStartInd scanEndInd : array Z)
  (sc : Scratch) : Res Features :=
  forUp 0 (N_SCANS - 1)
    (selectScan downSizeFilter laserCloud scanStartInd scanEndInd)
    (mkFeatures sc [] [] [] []).

(** Curvature, filter and selection on the assembled cloud. *)
Definition extractFeatures
  (downSizeFilter : list PointType -> list PointType)
  (laserCloud : list PointType) (cloudSize : Z) (sc : Scratch)
  : Res Features :=
  cv <- computeCurvature laserCloud cloudSize sc ;;
  sc <- filterCloud laserCloud cloudSize (cv_scratch cv) ;;
  selectFeatures downSizeFilter laserCloud
    (scanStartInd cv) (scanEndInd cv) sc.

(** ** The sweep callback *)

Definition imuTrans (g : Globals) : list PointXYZ :=
  let s := imuStart g in
  let c := imuCur g in
  let f := imuFromStart g in
  [ mkXYZ (imuPitchStart s) (imuYawStart s) (imuRollStart s);
    mkXYZ (imuPitchCur c) (imuYawCur c) (imuRollCur c);
    mkXYZ (imuShiftFromStartXCur f) (imuShiftFromStartYCur f)
          (imuShiftFromStartZCur f);
    mkXYZ (imuVeloFromStartXCur f) (imuVeloFromStartYCur f)
          (imuVeloFromStartZCur f) ].

(** [laserCloudHandler]: nothing is published for the first [systemDelay]
    sweeps; afterwards the sweep goes through ingestion, curvature, the
    filter and the selection, and the six clouds are published. *)
Definition laserCloudHandler
  (downSizeFilter : list PointType -> list PointType)
  (laserCloudMsg : CloudMsg) (g : Globals)
  : Res (Globals * option Outputs) :=
  if negb (systemInited g) then
    let n := (systemInitCount g + 1)%Z in
    Ok ({| systemInitCount := n;
           systemInited := (n >=? systemDelay)%Z;
           scratch := scratch g;
           imuPointerFront := imuPointerFront g;
           imuPointerLast := imuPointerLast g;
           imuStart := imuStart g;
           imuCur := imuCur g;
           imuFromStart := imuFromStart g;
           ring := ring g |}, None)
  else
    let timeScanCur := cloud_stamp laserCloudMsg in
    let laserCloudIn :=
      removeNaNFromPointCloud (cloud_points laserCloudMsg) in
    ig <- ingest laserCloudIn timeScanCur g ;;
    let g := ig_globals ig in
    let cloudSize := count ig in
    let laserCloud := concatScans (laserCloudScans ig) in
    ft <- extractFeatures downSizeFilter laserCloud cloudSize
            (scratch g) ;;
    let g := set_scratch g (ft_scratch ft) in
    Ok (g,
        Some {| out_stamp := cloud_stamp laserCloudMsg;
                laserCloudOut := laserCloud;
                cornerPointsSharpOut := cornerPointsSharp ft;
                cornerPointsLessSharpOut := cornerPointsLessSharp ft;
                surfPointsFlatOut := surfPointsFlat ft;
                surfPointsLessFlatOut := surfPointsLessFlat ft;
                imuTransOut := imuTrans g |}).

(** ** The dispatcher *)

(** A message of one of the two subscriptions. *)
Inductive Event : Type :=
| ImuEvent (m : ImuMsg)
| CloudEvent (m : CloudMsg).

(** [ros::spin] on a list of messages, one callback at a time; the result
    carries what was published, oldest first. *)
Fixpoint spin (downSizeFilter : list PointType -> list PointType)
  (events : list Event) (g : Globals) : Res (Globals * list Outputs) :=
  match events with
  | [] => Ok (g, [])
  | ImuEvent m :: rest => spin downSizeFilter rest (imuHandler m g)
  | CloudEvent m :: rest =>
      r <- laserCloudHandler downSizeFilter m g ;;
      r' <- spin downSizeFilter rest (fst r) ;;
      Ok (fst r',
          match snd r with
          | Some o => o :: snd r'
          | None => snd r'
          end)
  end.

(** ** Inputs used in the statements *)

(** An IMU message with identity orientation whose acceleration, once the
    gravity term is removed and the axes are swapped, is [(ax, ay, az)]. *)
Definition levelMsg (t ax ay az : R) : ImuMsg :=
  {| imu_stamp := t;
     imu_roll := 0; imu_pitch := 0; imu_yaw := 0;
     linear_acceleration_x := az;
     linear_acceleration_y := ax;
     linear_acceleration_z := ay + 9.81 |}.

(** The messages number [from], ..., [from + n - 1] of a stream that starts
    at time [t0] with one message every [dt]. *)
Definition uniformMsgs (t0 dt ax ay az : R) (from n : nat) : list ImuMsg :=
  map (fun k => levelMsg (t0 + INR k * dt) ax ay az) (seq from n).

(** The number of calls after which slot [j] is written next. *)
Definition callsUntil (g : Globals) (j : Z) : Z :=
  ((j - imuPointerLast g - 1) mod imuQueLength + 1)%Z.

(** A stream of IMU messages that is longer than the ring and ends with a
    gap: 201 messages, one every 0.01 s from time 1000, with identity
    orientation and acceleration 1 along z, then one message at time
    2000. *)
Definition staleSlotMsgs : list ImuMsg :=
  uniformMsgs 1000 0.01 0 0 1 0 201 ++ [levelMsg 2000 0 0 1].

(** ** Notions used in the statements *)

(** [Subseq l1 l2]: [l1] is [l2] with some elements left out. *)
Inductive Subseq {A : Type} : list A -> list A -> Prop :=
| Subseq_nil : Subseq [] []
| Subseq_skip (l1 l2 : list A) (a : A) :
    Subseq l1 l2 -> Subseq l1 (a :: l2)
| Subseq_take (l1 l2 : list A) (a : A) :
    Subseq l1 l2 -> Subseq (a :: l1) (a :: l2).

(** The two corner clouds of a selection state: the sharp corners are
    among the less sharp ones, in the same order. *)
Definition sharpInLess (ft : Features) : Prop :=
  Subseq (cornerPointsSharp ft) (cornerPointsLessSharp ft).

(** The state after the sweeps of the start-up delay, with no IMU message
    received. *)
Definition readyGlobals : Globals :=
  {| systemInitCount := 20;
     systemInited := true;
     scratch := scratch initGlobals;
     imuPointerFront := 0;
     imuPointerLast := -1;
     imuStart := imuStart initGlobals;
     imuCur := imuCur initGlobals;
     imuFromStart := imuFromStart initGlobals;
     ring := ring initGlobals |}.

(** The sweeps of the start-up delay; their points are not looked at. *)
Definition warmUp : list Event := repeat (CloudEvent (mkCloudMsg 0 [])) 20.

(** A sweep whose points are all not finite. *)
Definition nanSweep : CloudMsg :=
  mkCloudMsg 0 [NotFinite; NotFinite; NotFinite].

(** An IMU message with roll 0.3 at time 1. *)
Definition tiltedMsg : ImuMsg :=
  {| imu_stamp := 1;
     imu_roll := 0.3; imu_pitch := 0; imu_yaw := 0;
     linear_acceleration_x := 0;
     linear_acceleration_y := 0;
     linear_acceleration_z := 9.81 |}.

(** A sweep at time 2 whose first point is 45 degrees above the
    horizontal plane of the sensor and whose second point is in that
    plane. *)
Definition highFirstSweep : CloudMsg :=
  mkCloudMsg 2 [Finite (mkXYZ 1 0 1); Finite (mkXYZ 1 0 0)].

(** A sweep of two points in the horizontal plane of the sensor, the
    second one 45 degrees to the left of the first one. *)
Definition backwardSweep : CloudMsg :=
  mkCloudMsg 0 [Finite (mkXYZ 1 0 0); Finite (mkXYZ 1 1 0)].

(** A sweep of 39 points on a wall 128 m ahead, in the horizontal plane of
    the sensor, 0.25 m apart, scanned from straight ahead to the right. *)
Definition flatWallSweep : CloudMsg :=
  mkCloudMsg 0
    (map (fun k => Finite (mkXYZ 128 (- 0.25 * INR k) 0)) (seq 0 39)).

(** The point of index [i] of the cloud assembled from [flatWallSweep], up
    to its relative time: its coordinates in the internal frame, and an
    intensity whose integer part is 15. *)
Definition wallPoint (i : Z) (p : PointType) : Prop :=
  px p = - 0.25 * IZR i /\ py p = 0 /\ pz p = 128
  /\ 15 <= intensity p < 16.

Definition isWall (cloud : list PointType) : Prop :=
  forall i : Z, (0 <= i < 39)%Z ->
    exists p, at_ cloud i = Ok p /\ wallPoint i p.

(** A point in the horizontal plane of the sensor, ahead of it and not to
    its left. *)
Definition aheadRight (raw : PointXYZ) : Prop :=
  rz raw = 0 /\ 0 < rx raw /\ ry raw <= 0.

(** What the ingestion stores for such a point. *)
Definition storedAs (raw : PointXYZ) (p : PointType) : Prop :=
  px p = ry raw /\ py p = 0 /\ pz p = rx raw /\ 15 <= intensity p < 16.

(** The part of the scratch arrays that no sector has touched yet. *)
Definition freshFrom (sc : Scratch) (lo : Z) : Prop :=
  forall i : Z, (lo <= i < 34)%Z ->
    cloudCurvature sc i = 0 /\ cloudSortInd sc i = i
    /\ cloudNeighborPicked sc i = 0%Z.

(** The two cursors of the ring are inside it ([imuPointerLast] is -1
    before the first message). *)
Definition inRing (g : Globals) : Prop :=
  (-1 <= imuPointerLast g < imuQueLength)%Z
  /\ (0 <= imuPointerFront g < imuQueLength)%Z.

(** A sweep of ten points 1 m ahead, in the horizontal plane of the
    sensor, 0.01 m apart. *)
Definition shortSweep : CloudMsg :=
  mkCloudMsg 0
    (map (fun k => Finite (mkXYZ 1 (- 0.01 * INR k) 0)) (seq 0 10)).

(** The cloud assembled from [shortSweep], up to the relative times. *)
Definition isShort (cloud : list PointType) : Prop :=
  forall i : Z, (0 <= i < 10)%Z ->
    exists p, at_ cloud i = Ok p
              /\ px p = - 0.01 * IZR i /\ py p = 0 /\ pz p = 1.

(** The scratch arrays of two states hold the same values. *)
Definition sameArrays (sc sc' : Scratch) : Prop :=
  cloudCurvature sc' = cloudCurvature sc
  /\ cloudSortInd sc' = cloudSortInd sc
  /\ cloudNeighborPicked sc' = cloudNeighborPicked sc
  /\ cloudLabel sc' = cloudLabel sc.

(** ** Further inputs and notions used in the statements *)

(** An IMU message of a sensor at rest with the attitude [roll], [pitch],
    [yaw]: its acceleration is the gravity term that [imuHandler] removes
    for that roll and pitch. *)
Definition restMsg (t roll pitch yaw : R) : ImuMsg :=
  {| imu_stamp := t;
     imu_roll := roll; imu_pitch := pitch; imu_yaw := yaw;
     linear_acceleration_x := - sin pitch * 9.81;
     linear_acceleration_y := sin roll * cos pitch * 9.81;
     linear_acceleration_z := cos roll * cos pitch * 9.81 |}.

(** Slot [j] of the ring holds what [imuHandler] stores for the message
    [m]: its stamp, its roll, pitch and yaw, and its acceleration without
    gravity in the internal frame. *)
Definition slotHolds (r : ImuRing) (j : Z) (m : ImuMsg) : Prop :=
  imuTime r j = imu_stamp m
  /\ (imuRoll r j = imu_roll m /\ imuPitch r j = imu_pitch m
      /\ imuYaw r j = imu_yaw m)
  /\ (imuAccX r j
      = linear_acceleration_y m - sin (imu_roll m) * cos (imu_pitch m) * 9.81
      /\ imuAccY r j
         = linear_acceleration_z m
           - cos (imu_roll m) * cos (imu_pitch m) * 9.81
      /\ imuAccZ r j
         = linear_acceleration_x m + sin (imu_pitch m) * 9.81).

(** The state of slot [j] of the ring, as the current state takes it. *)
Definition sampleAt (r : ImuRing) (j : Z) : ImuCur :=
  {| imuRollCur := imuRoll r j;
     imuPitchCur := imuPitch r j;
     imuYawCur := imuYaw r j;
     imuVeloXCur := imuVeloX r j;
     imuVeloYCur := imuVeloY r j;
     imuVeloZCur := imuVeloZ r j;
     imuShiftXCur := imuShiftX r j;
     imuShiftYCur := imuShiftY r j;
     imuShiftZCur := imuShiftZ r j |}.

(** The elevation of a point of the internal frame, in degrees: the local
    variable [angle] of the ingestion loop. *)
Definition elevation (x y z : R) : R :=
  atan (y / sqrt (x * x + z * z)) * 180 / PI.

(** The beam of a point of the incoming cloud, after the exchange of the
    axes. *)
Definition beamOf (raw : PointXYZ) : Z :=
  computeScanID (ry raw) (rz raw) (rx raw).

(** The test of the ingestion loop that keeps a point: its beam is one of
    the [N_SCANS] beams. *)
Definition inFov (raw : PointXYZ) : bool :=
  negb ((beamOf raw >? N_SCANS - 1) || (beamOf raw <? 0))%Z.

(** A point of the incoming cloud other than the origin of the sensor.
    At the origin the elevation of the source is 0/0 and its conversion
    to [int] is undefined, so the statements about whole clouds are about
    clouds of such points. *)
Definition notOrigin (raw : PointXYZ) : Prop :=
  rx raw <> 0 \/ ry raw <> 0 \/ rz raw <> 0.

(** The coordinates the ingestion gives a point of the incoming cloud:
    [x] is its [y], [y] is its [z] and [z] is its [x]. *)
Definition swapped (raw : PointXYZ) (p : PointType) : Prop :=
  px p = ry raw /\ py p = rz raw /\ pz p = rx raw.

(** The sweeps and the IMU messages of a list of events, in order. *)
Fixpoint sweepsOf (events : list Event) : list CloudMsg :=
  match events with
  | [] => []
  | ImuEvent _ :: rest => sweepsOf rest
  | CloudEvent m :: rest => m :: sweepsOf rest
  end.

Fixpoint imuMsgsOf (events : list Event) : list ImuMsg :=
  match events with
  | [] => []
  | ImuEvent m :: rest => m :: imuMsgsOf rest
  | CloudEvent _ :: rest => imuMsgsOf rest
  end.

(** The number of sweeps the sweep callback still returns from without
    publishing. *)
Definition delayLeft (g : Globals) : nat :=
  if systemInited g then 0%nat
  else Nat.max 1 (Z.to_nat (systemDelay - systemInitCount g)).

(** The [n] entries of an array from index [lo] on, in order. *)
Fixpoint slice {A : Type} (a : array A) (lo : Z) (n : nat) : list A :=
  match n with
  | O => []
  | S n' => a lo :: slice a (lo + 1)%Z n'
  end.

(** The entries [lo .. hi] of [sortInd] are in ascending order of
    curvature. *)
Definition sortedBy (curvature : array R) (sortInd : array Z) (lo hi : Z)
  : Prop :=
  forall u v : Z, (lo <= u <= v)%Z -> (v <= hi)%Z ->
    curvature (sortInd u) <= curvature (sortInd v).

(** The corner and flat clouds of a selection state hold points of the
    cloud only: at most [a] sharp corners, [b] less sharp corners and [c]
    flat points. *)
Definition featuresWithin (cloud : list PointType) (ft : Features) (a b c : nat)
  : Prop :=
  ((length (cornerPointsSharp ft) <= a)%nat
   /\ (length (cornerPointsLessSharp ft) <= b)%nat
   /\ (length (surfPointsFlat ft) <= c)%nat)
  /\ (Forall (fun p => In p cloud) (cornerPointsSharp ft)
      /\ Forall (fun p => In p cloud) (cornerPointsLessSharp ft)
      /\ Forall (fun p => In p cloud) (surfPointsFlat ft)).

(** What the selection may do to the scratch arrays: the curvatures stay,
    a flag of [cloudNeighborPicked] stays or becomes 1, and a label stays
    or becomes 2, 1 or -1. *)
Definition selectionKeeps (sc sc' : Scratch) : Prop :=
  cloudCurvature sc' = cloudCurvature sc
  /\ (forall j : Z,
        cloudNeighborPicked sc' j = cloudNeighborPicked sc j
        \/ cloudNeighborPicked sc' j = 1%Z)
  /\ (forall j : Z,
        cloudLabel sc' j = cloudLabel sc j
        \/ cloudLabel sc' j = 2%Z \/ cloudLabel sc' j = 1%Z
        \/ cloudLabel sc' j = (-1)%Z).

(** The wall of [flatWallSweep] as the ingestion assembles it, with the
    bounds of its scans and the scratch arrays as the curvature stage
    leaves them on a first sweep. *)
Definition wallCloud : list PointType :=
  map (fun k => mkPoint (- 0.25 * INR k) 0 128 15) (seq 0 39).

Definition wallStartInd : array Z :=
  fun j => if Z.eqb j 0 then 5%Z else if Z.eqb j 15 then 10%Z else 0%Z.

Definition wallEndInd : array Z :=
  fun j => if Z.eqb j 15 then 34%Z else 0%Z.

Definition wallScratch : Scratch := mkScratch zeros (fun i => i) zerosZ zerosZ.

(** The entries of [cloudSortInd] for the points that have five
    neighbours on each side are indices of such points. *)
Definition sortIndInside (cloudSize : Z) (sc : Scratch) : Prop :=
  forall k : Z, (5 <= k <= cloudSize - 6)%Z ->
    (5 <= cloudSortInd sc k <= cloudSize - 6)%Z.

(** The bounds of every scan are usable: an end is at most
    [cloudSize - 5], and a scan without a start has no end either, while
    a start is at least 5 and inside the cloud. *)
Definition boundsInside (cloudSize : Z) (scanStartInd scanEndInd : array Z)
  : Prop :=
  forall b : Z, (0 <= b < N_SCANS)%Z ->
    (0 <= scanEndInd b <= cloudSize - 5)%Z
    /\ ((scanStartInd b = 0 /\ scanEndInd b = 0)%Z
        \/ (5 <= scanStartInd b < cloudSize)%Z).

(** The beam index that the curvature loop reads back from the intensity
    of the point of index [i]; -1 outside the cloud. *)
Definition beamAt (cloud : list PointType) (i : Z) : Z :=
  match at_ cloud i with
  | Ok p => truncate (intensity p)
  | OutOfBounds => (-1)%Z
  end.

(** The points that have five neighbours on each side carry beam indices
    from 0 to [N_SCANS - 1] that never go down, go up by one at a time,
    and end with the last beam. *)
Definition beamsInOrder (cloud : list PointType) (cloudSize : Z) : Prop :=
  (forall i : Z, (5 <= i < cloudSize - 5)%Z ->
     (0 <= beamAt cloud i < N_SCANS)%Z)
  /\ (forall i : Z, (5 <= i < cloudSize - 6)%Z ->
        beamAt cloud (i + 1) = beamAt cloud i
        \/ beamAt cloud (i + 1) = (beamAt cloud i + 1)%Z)
  /\ beamAt cloud (cloudSize - 6) = (N_SCANS - 1)%Z.

(** ** A sweep with a corner *)

(** The depth of the point of index [k] of [dentSweep]. *)
Definition dentDepth (k : Z) : R := if Z.eqb k 10 then 128.1 else 128.

(** A sweep of 21 points on a wall 128 m ahead, in the horizontal plane of
    the sensor, 0.25 m apart, scanned from straight ahead to the right;
    the point of index 10 lies 0.1 m behind the wall. *)
Definition dentSweep : CloudMsg :=
  mkCloudMsg 0
    (map (fun k =>
            Finite (mkXYZ (dentDepth (Z.of_nat k)) (- 0.25 * INR k) 0))
       (seq 0 21)).

(** The point of index [i] of the cloud assembled from [dentSweep], up to
    its relative time. *)
Definition dentPoint (i : Z) (p : PointType) : Prop :=
  px p = - 0.25 * IZR i /\ py p = 0 /\ pz p = dentDepth i
  /\ 15 <= intensity p < 16.

Definition isDent (cloud : list PointType) : Prop :=
  forall i : Z, (0 <= i < 21)%Z ->
    exists p, at_ cloud i = Ok p /\ dentPoint i p.

(** * Properties *)

(** ** Arrays *)

Lemma upd_same {A : Type} (a : array A) (i : Z) (v : A) : upd a i v i = v.
Proof. unfold upd. now rewrite Z.eqb_refl. Qed.

Lemma upd_other {A : Type} (a : array A) (i j : Z) (v : A) :
  j <> i -> upd a i v j = a j.
Proof. intros H. unfold upd. destruct (Z.eqb_spec j i); congruence. Qed.

(** ** The IMU callback *)

Lemma rem_next (last : Z) :
  (-1 <= last < imuQueLength)%Z ->
  Z.rem (last + 1) imuQueLength = ((last + 1) mod imuQueLength)%Z
  /\ (0 <= Z.rem (last + 1) imuQueLength < imuQueLength)%Z.
Proof.
  unfold imuQueLength. intros H.
  rewrite Z.rem_mod_nonneg by lia.
  split; [reflexivity | apply Z.mod_pos_bound; lia].
Qed.

Lemma rem_back (last : Z) :
  (0 <= last < imuQueLength)%Z ->
  Z.rem (Z.rem (last + 1) imuQueLength + imuQueLength - 1) imuQueLength
  = last.
Proof.
  unfold imuQueLength. intros H.
  destruct (Z.eq_dec last 199) as [->|Hne]; [reflexivity|].
  rewrite (Z.rem_small (last + 1)) by lia.
  replace (last + 1 + 200 - 1)%Z with (last + 1 * 200)%Z by lia.
  rewrite Z.rem_mod_nonneg by lia.
  rewrite Z.mod_add by lia. apply Z.mod_small. lia.
Qed.

(** The acceleration the integration uses for a message with identity
    orientation. *)
Lemma worldAcc_level (r : ImuRing) (i : Z) :
  imuRoll r i = 0 -> imuPitch r i = 0 -> imuYaw r i = 0 ->
  worldAcc r i = (imuAccX r i, imuAccY r i, imuAccZ r i).
Proof.
  intros Hr Hp Hy. unfold worldAcc. rewrite Hr, Hp, Hy.
  rewrite sin_0, cos_0. f_equal; [f_equal|]; ring.
Qed.

(** What one call of the callback leaves in place. *)
Lemma imuHandler_other (m : ImuMsg) (g : Globals) (j : Z) :
  j <> Z.rem (imuPointerLast g + 1) imuQueLength ->
  let r := ring g in
  let r' := ring (imuHandler m g) in
  imuTime r' j = imuTime r j
  /\ (imuRoll r' j = imuRoll r j /\ imuPitch r' j = imuPitch r j
      /\ imuYaw r' j = imuYaw r j)
  /\ (imuAccX r' j = imuAccX r j /\ imuAccY r' j = imuAccY r j
      /\ imuAccZ r' j = imuAccZ r j)
  /\ (imuVeloX r' j = imuVeloX r j /\ imuVeloY r' j = imuVeloY r j
      /\ imuVeloZ r' j = imuVeloZ r j)
  /\ (imuShiftX r' j = imuShiftX r j /\ imuShiftY r' j = imuShiftY r j
      /\ imuShiftZ r' j = imuShiftZ r j).
Proof.
  intros Hj. unfold imuHandler, AccumulateIMUShift. cbn zeta.
  destruct (worldAcc _ _) as [[ax ay] az].
  destruct (Rlt_dec _ _); cbn; rewrite ?upd_other by exact Hj;
    repeat split; reflexivity.
Qed.

Lemma imuHandler_last (m : ImuMsg) (g : Globals) :
  imuPointerLast (imuHandler m g)
  = Z.rem (imuPointerLast g + 1) imuQueLength.
Proof.
  unfold imuHandler, AccumulateIMUShift. cbn zeta.
  destruct (worldAcc _ _) as [[ax ay] az].
  destruct (Rlt_dec _ _); reflexivity.
Qed.

Lemma imuHandler_sweep_state (m : ImuMsg) (g : Globals) :
  let g' := imuHandler m g in
  imuPointerFront g' = imuPointerFront g
  /\ imuStart g' = imuStart g
  /\ imuCur g' = imuCur g
  /\ imuFromStart g' = imuFromStart g
  /\ scratch g' = scratch g
  /\ systemInitCount g' = systemInitCount g
  /\ systemInited g' = systemInited g.
Proof.
  unfold imuHandler, AccumulateIMUShift. cbn zeta.
  destruct (worldAcc _ _) as [[ax ay] az].
  destruct (Rlt_dec _ _); cbn; repeat split; reflexivity.
Qed.

Lemma worldAcc_ext (r r' : ImuRing) (i : Z) :
  imuRoll r' i = imuRoll r i -> imuPitch r' i = imuPitch r i ->
  imuYaw r' i = imuYaw r i ->
  imuAccX r' i = imuAccX r i -> imuAccY r' i = imuAccY r i ->
  imuAccZ r' i = imuAccZ r i ->
  worldAcc r' i = worldAcc r i.
Proof. intros. unfold worldAcc. congruence. Qed.

Lemma imuHandler_slot (m : ImuMsg) (g : Globals) :
  (0 <= imuPointerLast g < imuQueLength)%Z ->
  let r := ring g in
  let r' := ring (imuHandler m g) in
  let back := imuPointerLast g in
  let last := Z.rem (imuPointerLast g + 1) imuQueLength in
  let dt := imu_stamp m - imuTime r back in
  imuTime r' last = imu_stamp m
  /\ (imuRoll r' last = imu_roll m /\ imuPitch r' last = imu_pitch m
      /\ imuYaw r' last = imu_yaw m)
  /\ (imuAccX r' last
      = linear_acceleration_y m - sin (imu_roll m) * cos (imu_pitch m) * 9.81
      /\ imuAccY r' last
         = linear_acceleration_z m
           - cos (imu_roll m) * cos (imu_pitch m) * 9.81
      /\ imuAccZ r' last
         = linear_acceleration_x m + sin (imu_pitch m) * 9.81)
  /\ (dt < scanPeriod ->
      let '(ax, ay, az) := worldAcc r' last in
      (imuVeloX r' last = imuVeloX r back + ax * dt
       /\ imuVeloY r' last = imuVeloY r back + ay * dt
       /\ imuVeloZ r' last = imuVeloZ r back + az * dt)
      /\ (imuShiftX r' last
          = imuShiftX r back + imuVeloX r back * dt + ax * dt * dt / 2
          /\ imuShiftY r' last
             = imuShiftY r back + imuVeloY r back * dt + ay * dt * dt / 2
          /\ imuShiftZ r' last
             = imuShiftZ r back + imuVeloZ r back * dt + az * dt * dt / 2))
  /\ (~ dt < scanPeriod ->
      (imuVeloX r' last = imuVeloX r last
       /\ imuVeloY r' last = imuVeloY r last
       /\ imuVeloZ r' last = imuVeloZ r last)
      /\ (imuShiftX r' last = imuShiftX r last
          /\ imuShiftY r' last = imuShiftY r last
          /\ imuShiftZ r' last = imuShiftZ r last)).
Proof.
  intros Hl. cbn zeta.
  assert (Hb := rem_back _ Hl).
  assert (Hne : imuPointerLast g
                <> Z.rem (imuPointerLast g + 1) imuQueLength).
  { unfold imuQueLength in *.
    destruct (Z.eq_dec (imuPointerLast g) 199) as [->|Hn];
      [cbn; lia | rewrite Z.rem_small by lia; lia]. }
  unfold imuHandler, AccumulateIMUShift. cbn zeta.
  cbn [ring set_ring set_imuPointerLast imuPointerLast imuTime].
  rewrite Hb.
  set (last := Z.rem (imuPointerLast g + 1) imuQueLength) in *.
  rewrite upd_same, (upd_other _ _ _ _ Hne).
  match goal with |- context [worldAcc ?r ?i] => 
     destruct (worldAcc r i) as [[ax ay] az] eqn:Hw end.
  destruct (Rlt_dec _ _) as [Hlt|Hge].
  - cbn [ring set_ring imuTime imuRoll imuPitch imuYaw imuAccX imuAccY
         imuAccZ imuVeloX imuVeloY imuVeloZ imuShiftX imuShiftY imuShiftZ].
    rewrite !upd_same.
    repeat (split; [try reflexivity; tauto|]).
    split; [|tauto].
    intros _.
    match goal with |- context [worldAcc ?r ?i] =>
     replace (worldAcc r i) with (ax, ay, az)
       by (rewrite <- Hw; apply worldAcc_ext; reflexivity) end.
    tauto.
  - cbn [ring set_ring imuTime imuRoll imuPitch imuYaw imuAccX imuAccY
         imuAccZ imuVeloX imuVeloY imuVeloZ imuShiftX imuShiftY imuShiftZ].
    rewrite !upd_same.
    repeat (split; [try reflexivity; tauto|]).
    tauto.
Qed.

(** ** Runs of the IMU callback *)

Lemma imuRun_app (l1 l2 : list ImuMsg) (g : Globals) :
  imuRun (l1 ++ l2) g = imuRun l2 (imuRun l1 g).
Proof. unfold imuRun. apply fold_left_app. Qed.

Lemma imuRun_cons (m : ImuMsg) (l : list ImuMsg) (g : Globals) :
  imuRun (m :: l) g = imuRun l (imuHandler m g).
Proof. reflexivity. Qed.

(** The write cursor stays inside the ring. *)
Lemma imuHandler_last_range (m : ImuMsg) (g : Globals) :
  (-1 <= imuPointerLast g < imuQueLength)%Z ->
  (0 <= imuPointerLast (imuHandler m g) < imuQueLength)%Z.
Proof.
  intros H. rewrite imuHandler_last. now apply rem_next.
Qed.

Lemma imuRun_last (l : list ImuMsg) (g : Globals) :
  (0 <= imuPointerLast g < imuQueLength)%Z ->
  imuPointerLast (imuRun l g)
  = ((imuPointerLast g + Z.of_nat (length l)) mod imuQueLength)%Z.
Proof.
  revert g. induction l as [|m l IH]; intros g Hg.
  - cbn. rewrite Z.add_0_r. symmetry. apply Z.mod_small. exact Hg.
  - rewrite imuRun_cons, IH.
    + rewrite imuHandler_last.
      destruct (rem_next (imuPointerLast g)) as [-> _]; [lia|].
      rewrite Zplus_mod_idemp_l. f_equal. cbn [length]. lia.
    + apply imuHandler_last_range. lia.
Qed.

Lemma callsUntil_eq (g : Globals) (j : Z) :
  (0 <= imuPointerLast g < imuQueLength)%Z ->
  (0 <= j < imuQueLength)%Z ->
  callsUntil g j
  = (if (imuPointerLast g <? j)%Z then j - imuPointerLast g
     else j - imuPointerLast g + imuQueLength)%Z.
Proof.
  unfold callsUntil, imuQueLength. intros Hg Hj.
  destruct (Z.ltb_spec (imuPointerLast g) j).
  - rewrite Z.mod_small by lia. lia.
  - replace (j - imuPointerLast g - 1)%Z
      with (j - imuPointerLast g - 1 + 200 + (-1) * 200)%Z by lia.
    rewrite Z.mod_add by lia. rewrite Z.mod_small by lia. lia.
Qed.

Lemma next_cases (last : Z) :
  (0 <= last < imuQueLength)%Z ->
  (last < 199 /\ Z.rem (last + 1) imuQueLength = last + 1)%Z
  \/ (last = 199 /\ Z.rem (last + 1) imuQueLength = 0)%Z.
Proof.
  unfold imuQueLength. intros H.
  destruct (Z.eq_dec last 199) as [->|Hn].
  - right. split; reflexivity.
  - left. split; [lia|]. apply Z.rem_small. lia.
Qed.

(** A run shorter than that leaves slot [j] as it is. *)
Lemma imuRun_slot_kept (l : list ImuMsg) (g : Globals) (j : Z) :
  (0 <= imuPointerLast g < imuQueLength)%Z ->
  (0 <= j < imuQueLength)%Z ->
  (Z.of_nat (length l) < callsUntil g j)%Z ->
  let r := ring g in
  let r' := ring (imuRun l g) in
  imuTime r' j = imuTime r j
  /\ (imuVeloX r' j = imuVeloX r j /\ imuVeloY r' j = imuVeloY r j
      /\ imuVeloZ r' j = imuVeloZ r j)
  /\ (imuShiftX r' j = imuShiftX r j /\ imuShiftY r' j = imuShiftY r j
      /\ imuShiftZ r' j = imuShiftZ r j).
Proof.
  revert g. induction l as [|m l IH]; intros g Hg Hj Hlen; cbn zeta.
  - cbn. tauto.
  - rewrite imuRun_cons.
    assert (Hg' := imuHandler_last_range m g ltac:(lia)).
    rewrite callsUntil_eq in Hlen by assumption.
    cbn [length] in Hlen.
    assert (Hne : j <> Z.rem (imuPointerLast g + 1) imuQueLength).
    { destruct (next_cases _ Hg) as [[? ->]|[? ->]];
        unfold imuQueLength in *;
        destruct (Z.ltb_spec (imuPointerLast g) j); lia. }
    destruct (imuHandler_other m g j Hne) as (Ht & _ & _ & Hv & Hs).
    cbn zeta in Ht, Hv, Hs.
    rewrite <- Ht.
    destruct Hv as (<- & <- & <-). destruct Hs as (<- & <- & <-).
    apply IH; [exact Hg' | exact Hj |].
    rewrite callsUntil_eq by assumption.
    rewrite imuHandler_last in *.
    destruct (next_cases _ Hg) as [[? Hn]|[? Hn]]; rewrite Hn in *;
      unfold imuQueLength in *;
      destruct (Z.ltb_spec (imuPointerLast g) j);
      destruct (Z.ltb_spec (imuPointerLast g + 1) j);
      destruct (Z.ltb_spec 0 j); lia.
Qed.

(** The slot a run ends on holds the stamp of the last message. *)
Lemma imuRun_time (l : list ImuMsg) (m : ImuMsg) (g : Globals) :
  (0 <= imuPointerLast g < imuQueLength)%Z ->
  let g' := imuRun (l ++ [m]) g in
  imuTime (ring g') (imuPointerLast g') = imu_stamp m.
Proof.
  intros Hg. cbn zeta. rewrite imuRun_app. cbn [imuRun fold_left].
  fold (imuRun l g).
  assert (Hl : (0 <= imuPointerLast (imuRun l g) < imuQueLength)%Z).
  { rewrite imuRun_last by exact Hg. apply Z.mod_pos_bound.
    unfold imuQueLength. lia. }
  rewrite imuHandler_last.
  apply (imuHandler_slot m (imuRun l g) Hl).
Qed.

(** Uniformly accelerated motion from rest: [n] messages, one every [dt],
    with identity orientation and acceleration [(ax, ay, az)], fed to a
    ring whose latest slot has time [t0], zero velocity and zero shift. *)
Lemma imuRun_uniform (t0 dt ax ay az : R) (g : Globals) (n : nat) :
  (0 <= imuPointerLast g < imuQueLength)%Z ->
  imuTime (ring g) (imuPointerLast g) = t0 ->
  imuVeloX (ring g) (imuPointerLast g) = 0 ->
  imuVeloY (ring g) (imuPointerLast g) = 0 ->
  imuVeloZ (ring g) (imuPointerLast g) = 0 ->
  imuShiftX (ring g) (imuPointerLast g) = 0 ->
  imuShiftY (ring g) (imuPointerLast g) = 0 ->
  imuShiftZ (ring g) (imuPointerLast g) = 0 ->
  dt < scanPeriod ->
  let g' := imuRun (uniformMsgs t0 dt ax ay az 1 n) g in
  let r' := ring g' in
  let last := imuPointerLast g' in
  let T := INR n * dt in
  last = ((imuPointerLast g + Z.of_nat n) mod imuQueLength)%Z
  /\ imuTime r' last = t0 + T
  /\ (imuVeloX r' last = ax * T /\ imuVeloY r' last = ay * T
      /\ imuVeloZ r' last = az * T)
  /\ (imuShiftX r' last = ax * (T * T) / 2
      /\ imuShiftY r' last = ay * (T * T) / 2
      /\ imuShiftZ r' last = az * (T * T) / 2).
Proof.
  intros Hg Ht Hvx Hvy Hvz Hsx Hsy Hsz Hdt. cbn zeta.
  induction n as [|n IH].
  - cbn [uniformMsgs seq map imuRun fold_left INR].
    rewrite Z.add_0_r, Z.mod_small by exact Hg.
    rewrite Ht, Hvx, Hvy, Hvz, Hsx, Hsy, Hsz.
    repeat split; try reflexivity; lra.
  - unfold uniformMsgs in *. rewrite seq_S, map_app, imuRun_app.
    cbn [map imuRun fold_left].
    set (gn := imuRun (map _ (seq 1 n)) g) in *.
    destruct IH as (Hlast & Htime & (Hx & Hy & Hz) & (Hx' & Hy' & Hz')).
    assert (Hgn : (0 <= imuPointerLast gn < imuQueLength)%Z).
    { rewrite Hlast. apply Z.mod_pos_bound. unfold imuQueLength. lia. }
    set (m := levelMsg (t0 + INR (1 + n) * dt) ax ay az).
    destruct (imuHandler_slot m gn Hgn)
      as (Htm & (Hro & Hpi & Hya) & (Hax & Hay & Haz) & Hint & _).
    cbn zeta in Hint.
    rewrite imuHandler_last.
    set (last := Z.rem (imuPointerLast gn + 1) imuQueLength) in *.
    assert (Hd : imu_stamp m - imuTime (ring gn) (imuPointerLast gn) = dt).
    { rewrite Htime. unfold m. cbn [levelMsg imu_stamp].
      rewrite plus_INR. cbn [INR]. lra. }
    rewrite Hd in Hint. specialize (Hint Hdt).
    rewrite worldAcc_level in Hint by assumption.
    rewrite Hax, Hay, Haz in Hint.
    destruct Hint as ((-> & -> & ->) & (-> & -> & ->)).
    rewrite Hx, Hy, Hz, Hx', Hy', Hz', Htm.
    unfold m. cbn [levelMsg imu_stamp imu_roll imu_pitch
      linear_acceleration_x linear_acceleration_y linear_acceleration_z].
    rewrite sin_0, cos_0.
    change (1 + n)%nat with (S n). rewrite !S_INR.
    split.
    { unfold last. destruct (rem_next (imuPointerLast gn)) as [-> _];
        [lia|]. rewrite Hlast, Zplus_mod_idemp_l. f_equal. lia. }
    split; [lra|].
    split; (split; [|split]); field.
Qed.

(** The first message ever, when its stamp is at least [scanPeriod]: the
    ring starts at rest in slot 0. *)
Lemma imuHandler_first (t ax ay az : R) :
  ~ t < scanPeriod ->
  let g := imuHandler (levelMsg t ax ay az) initGlobals in
  imuPointerLast g = 0%Z
  /\ imuTime (ring g) 0%Z = t
  /\ (imuVeloX (ring g) 0%Z = 0 /\ imuVeloY (ring g) 0%Z = 0
      /\ imuVeloZ (ring g) 0%Z = 0)
  /\ (imuShiftX (ring g) 0%Z = 0 /\ imuShiftY (ring g) 0%Z = 0
      /\ imuShiftZ (ring g) 0%Z = 0).
Proof.
  intros Ht. cbn zeta.
  unfold imuHandler, AccumulateIMUShift. cbn zeta.
  destruct (worldAcc _ _) as [[wx wy] wz].
  change (Z.rem (imuPointerLast initGlobals + 1) imuQueLength) with 0%Z.
  cbn [imuPointerLast set_ring set_imuPointerLast ring imuTime].
  change (Z.rem (0 + imuQueLength - 1) imuQueLength) with 199%Z.
  rewrite upd_same, upd_other by lia.
  change (imuTime (ring initGlobals) 199%Z) with 0.
  cbn [levelMsg imu_stamp].
  destruct (Rlt_dec _ _) as [Hlt|_]; [exfalso; apply Ht; lra|].
  cbn. rewrite ?upd_same. repeat split; reflexivity.
Qed.

(** C10.  Each call of the IMU callback advances [imuPointerLast] by one
    modulo [imuQueLength] and writes only the ring slot it advances to:
    every other slot of the thirteen ring arrays keeps its value, velocity
    and shift of the new slot are written only when the integration branch
    runs, and the read cursor, the start and current latches, the
    residuals and the scratch arrays are the ones before the call. *)
Theorem imuHandler_frame (m : ImuMsg) (g : Globals) :
  let g' := imuHandler m g in
  let r := ring g in
  let r' := ring g' in
  let last := imuPointerLast g' in
  let back := Z.rem (last + imuQueLength - 1) imuQueLength in
  last = Z.rem (imuPointerLast g + 1) imuQueLength
  /\ ((-1 <= imuPointerLast g < imuQueLength)%Z ->
      last = ((imuPointerLast g + 1) mod imuQueLength)%Z)
  /\ (forall j : Z, j <> last ->
      imuTime r' j = imuTime r j
      /\ (imuRoll r' j = imuRoll r j /\ imuPitch r' j = imuPitch r j
          /\ imuYaw r' j = imuYaw r j)
      /\ (imuAccX r' j = imuAccX r j /\ imuAccY r' j = imuAccY r j
          /\ imuAccZ r' j = imuAccZ r j)
      /\ (imuVeloX r' j = imuVeloX r j /\ imuVeloY r' j = imuVeloY r j
          /\ imuVeloZ r' j = imuVeloZ r j)
      /\ (imuShiftX r' j = imuShiftX r j /\ imuShiftY r' j = imuShiftY r j
          /\ imuShiftZ r' j = imuShiftZ r j))
  /\ (~ imuTime r' last - imuTime r' back < scanPeriod ->
      forall j : Z,
      (imuVeloX r' j = imuVeloX r j /\ imuVeloY r' j = imuVeloY r j
       /\ imuVeloZ r' j = imuVeloZ r j)
      /\ (imuShiftX r' j = imuShiftX r j /\ imuShiftY r' j = imuShiftY r j
          /\ imuShiftZ r' j = imuShiftZ r j))
  /\ (imuPointerFront g' = imuPointerFront g
      /\ imuStart g' = imuStart g
      /\ imuCur g' = imuCur g
      /\ imuFromStart g' = imuFromStart g
      /\ scratch g' = scratch g
      /\ systemInitCount g' = systemInitCount g
      /\ systemInited g' = systemInited g).
Proof.
  cbn zeta. rewrite imuHandler_last.
  split; [reflexivity|].
  split; [intros H; apply (rem_next _ H)|].
  split; [intros j Hj; apply imuHandler_other; exact Hj|].
  split; [|apply imuHandler_sweep_state].
  unfold imuHandler, AccumulateIMUShift. cbn zeta.
  destruct (worldAcc _ _) as [[ax ay] az].
  cbn [imuPointerLast set_ring set_imuPointerLast ring imuTime].
  destruct (Rlt_dec _ _) as [Hlt|Hge]; cbn.
  - intros Hn. exfalso. apply Hn. exact Hlt.
  - intros _ j. repeat split; reflexivity.
Qed.

Lemma imuHandler_frame_witness :
  let g' := imuHandler (levelMsg 1000 0 0 1) initGlobals in
  imuPointerLast g' = 0%Z
  /\ imuTime (ring g') 5%Z = 0
  /\ imuPointerFront g' = 0%Z.
Proof.
  cbn zeta.
  pose proof (imuHandler_frame (levelMsg 1000 0 0 1) initGlobals) as H.
  cbn zeta in H. destruct H as (Hl & _ & Hother & _ & Hf & _).
  split; [rewrite Hl; reflexivity|].
  split; [|rewrite Hf; reflexivity].
  assert (Hne : 5%Z <> imuPointerLast
                         (imuHandler (levelMsg 1000 0 0 1) initGlobals)).
  { rewrite Hl. cbn. lia. }
  destruct (Hother 5%Z Hne) as (Ht & _). rewrite Ht. reflexivity.
Defined.

(** C8.  When a sample follows the one before it by [dt < scanPeriod], the
    slot it is written to receives
    [s[last] = s[back] + v[back] * dt + a * dt * dt / 2] and
    [v[last] = v[back] + a * dt], with [a] the acceleration of the sample
    in the world frame.  Hence [n] samples of identity orientation and
    constant acceleration [a], one every [dt < scanPeriod], starting from
    a slot at rest, end with [v = a * (n * dt)] and
    [s = a * (n * dt)^2 / 2]. *)
Theorem imu_uniform_acceleration :
  (forall (m : ImuMsg) (g : Globals),
     (0 <= imuPointerLast g < imuQueLength)%Z ->
     let g' := imuHandler m g in
     let r' := ring g' in
     let last := imuPointerLast g' in
     let back := imuPointerLast g in
     let dt := imuTime r' last - imuTime r' back in
     dt < scanPeriod ->
     let '(ax, ay, az) := worldAcc r' last in
     (imuShiftX r' last
      = imuShiftX r' back + imuVeloX r' back * dt + / 2 * ax * (dt * dt)
      /\ imuShiftY r' last
         = imuShiftY r' back + imuVeloY r' back * dt + / 2 * ay * (dt * dt)
      /\ imuShiftZ r' last
         = imuShiftZ r' back + imuVeloZ r' back * dt + / 2 * az * (dt * dt))
     /\ (imuVeloX r' last = imuVeloX r' back + ax * dt
         /\ imuVeloY r' last = imuVeloY r' back + ay * dt
         /\ imuVeloZ r' last = imuVeloZ r' back + az * dt))
  /\ (forall (t0 dt ax ay az : R) (g : Globals) (n : nat),
        (0 <= imuPointerLast g < imuQueLength)%Z ->
        imuTime (ring g) (imuPointerLast g) = t0 ->
        imuVeloX (ring g) (imuPointerLast g) = 0 ->
        imuVeloY (ring g) (imuPointerLast g) = 0 ->
        imuVeloZ (ring g) (imuPointerLast g) = 0 ->
        imuShiftX (ring g) (imuPointerLast g) = 0 ->
        imuShiftY (ring g) (imuPointerLast g) = 0 ->
        imuShiftZ (ring g) (imuPointerLast g) = 0 ->
        dt < scanPeriod ->
        let g' := imuRun (uniformMsgs t0 dt ax ay az 1 n) g in
        let r' := ring g' in
        let last := imuPointerLast g' in
        (imuVeloX r' last = ax * (INR n * dt)
         /\ imuVeloY r' last = ay * (INR n * dt)
         /\ imuVeloZ r' last = az * (INR n * dt))
        /\ (imuShiftX r' last = / 2 * ax * (INR n * dt) ^ 2
            /\ imuShiftY r' last = / 2 * ay * (INR n * dt) ^ 2
            /\ imuShiftZ r' last = / 2 * az * (INR n * dt) ^ 2)).
Proof.
  split.
  - intros m g Hg. cbn zeta.
    rewrite imuHandler_last.
    destruct (imuHandler_slot m g Hg) as (Ht & _ & _ & Hint & _).
    cbn zeta in Hint.
    assert (Hne : imuPointerLast g
                  <> Z.rem (imuPointerLast g + 1) imuQueLength).
    { destruct (next_cases _ Hg) as [[? ->]|[? ->]]; lia. }
    destruct (imuHandler_other m g _ Hne) as (Hb & _ & _ & Hv & Hs).
    cbn zeta in Hb, Hv, Hs.
    rewrite Ht, Hb. intros Hdt. specialize (Hint Hdt).
    destruct (worldAcc _ _) as [[ax ay] az].
    destruct Hv as (-> & -> & ->). destruct Hs as (-> & -> & ->).
    destruct Hint as ((-> & -> & ->) & (-> & -> & ->)).
    repeat split; field.
  - intros t0 dt ax ay az g n Hg Ht Hvx Hvy Hvz Hsx Hsy Hsz Hdt.
    destruct (imuRun_uniform t0 dt ax ay az g n Hg Ht Hvx Hvy Hvz
                Hsx Hsy Hsz Hdt) as (_ & _ & Hv & (Hx & Hy & Hz)).
    cbn zeta in *. split; [exact Hv|].
    rewrite Hx, Hy, Hz. repeat split; field.
Qed.

Lemma imu_uniform_acceleration_witness :
  let g := imuHandler (levelMsg 1000 0 0 1) initGlobals in
  let g' := imuRun (uniformMsgs 1000 0.01 0 0 1 1 3) g in
  imuVeloZ (ring g') (imuPointerLast g') = 0.03
  /\ imuShiftZ (ring g') (imuPointerLast g') = 0.00045.
Proof.
  cbn zeta.
  assert (Hskip : ~ 1000 < scanPeriod) by (unfold scanPeriod; lra).
  destruct (imuHandler_first 1000 0 0 1 Hskip)
    as (Hl & Ht & (Hvx & Hvy & Hvz) & (Hsx & Hsy & Hsz)).
  cbn zeta in *.
  set (g := imuHandler (levelMsg 1000 0 0 1) initGlobals) in *.
  assert (Hg : (0 <= imuPointerLast g < imuQueLength)%Z)
    by (rewrite Hl; unfold imuQueLength; lia).
  assert (Hdt : 0.01 < scanPeriod) by (unfold scanPeriod; lra).
  destruct (proj2 imu_uniform_acceleration 1000 0.01 0 0 1 g 3%nat Hg
              ltac:(rewrite Hl; exact Ht)
              ltac:(rewrite Hl; exact Hvx) ltac:(rewrite Hl; exact Hvy)
              ltac:(rewrite Hl; exact Hvz)
              ltac:(rewrite Hl; exact Hsx) ltac:(rewrite Hl; exact Hsy)
              ltac:(rewrite Hl; exact Hsz) Hdt)
    as ((_ & _ & Hz) & (_ & _ & Hz')).
  cbn zeta in Hz, Hz'. rewrite Hz, Hz'. cbn [INR]. split; lra.
Defined.

Lemma uniformMsgs_app (t0 dt ax ay az : R) (from n1 n2 : nat) :
  uniformMsgs t0 dt ax ay az from (n1 + n2)
  = uniformMsgs t0 dt ax ay az from n1
    ++ uniformMsgs t0 dt ax ay az (from + n1) n2.
Proof. unfold uniformMsgs. now rewrite seq_app, map_app. Qed.

Lemma uniformMsgs_length (t0 dt ax ay az : R) (from n : nat) :
  length (uniformMsgs t0 dt ax ay az from n) = n.
Proof. unfold uniformMsgs. now rewrite length_map, length_seq. Qed.

(** C1.  The claim fails on the stream [staleSlotMsgs]: 201 messages, one
    every 0.01 s from time 1000 with acceleration 1 along z, then one
    message at time 2000.  The last message arrives 998 s after the one
    before it, so its integration is skipped; it is written to slot 1,
    which message number 1 had filled, and velocity and shift of that
    slot still hold the values integrated for message number 1 instead
    of zero. *)
Theorem stale_slot_after_gap :
  let g := imuRun (uniformMsgs 1000 0.01 0 0 1 0 201) initGlobals in
  let g' := imuRun staleSlotMsgs initGlobals in
  g' = imuHandler (levelMsg 2000 0 0 1) g
  /\ imuPointerLast g' = 1%Z
  /\ imuTime (ring g') 1%Z - imuTime (ring g') 0%Z = 998
  /\ imuVeloZ (ring g') 1%Z = 0.01
  /\ imuShiftZ (ring g') 1%Z = 0.00005.
Proof.
  cbn zeta. unfold staleSlotMsgs. rewrite imuRun_app.
  cbn [imuRun fold_left]. fold (imuRun (uniformMsgs 1000 0.01 0 0 1 0 201)).
  split; [reflexivity|].
  (* message 0: the ring starts at rest *)
  change 201%nat with (1 + 200)%nat.
  rewrite uniformMsgs_app, imuRun_app.
  change (imuRun (uniformMsgs 1000 0.01 0 0 1 0 1) initGlobals)
    with (imuHandler (levelMsg (1000 + INR 0 * 0.01) 0 0 1) initGlobals).
  replace (1000 + INR 0 * 0.01) with 1000 by (cbn [INR]; lra).
  assert (Hskip : ~ 1000 < scanPeriod) by (unfold scanPeriod; lra).
  destruct (imuHandler_first 1000 0 0 1 Hskip)
    as (Hl & Ht & (Hvx & Hvy & Hvz) & (Hsx & Hsy & Hsz)).
  cbn zeta in *.
  set (g0 := imuHandler (levelMsg 1000 0 0 1) initGlobals) in *.
  assert (Hg0 : (0 <= imuPointerLast g0 < imuQueLength)%Z)
    by (rewrite Hl; unfold imuQueLength; lia).
  assert (Hdt : 0.01 < scanPeriod) by (unfold scanPeriod; lra).
  (* messages 1 to 200: the cursor is back on slot 0 at time 1002 *)
  destruct (imuRun_uniform 1000 0.01 0 0 1 g0 200 Hg0
              ltac:(rewrite Hl; exact Ht)
              ltac:(rewrite Hl; exact Hvx) ltac:(rewrite Hl; exact Hvy)
              ltac:(rewrite Hl; exact Hvz)
              ltac:(rewrite Hl; exact Hsx) ltac:(rewrite Hl; exact Hsy)
              ltac:(rewrite Hl; exact Hsz) Hdt)
    as (Hl200 & Ht200 & _).
  cbn zeta in Hl200, Ht200. rewrite Hl in Hl200.
  change ((0 + Z.of_nat 200) mod imuQueLength)%Z with 0%Z in Hl200.
  change (0 + 1)%nat with 1%nat.
  set (g200 := imuRun (uniformMsgs 1000 0.01 0 0 1 1 200) g0) in *.
  rewrite Hl200 in Ht200.
  (* message 1 fills slot 1 *)
  destruct (imuRun_uniform 1000 0.01 0 0 1 g0 1 Hg0
              ltac:(rewrite Hl; exact Ht)
              ltac:(rewrite Hl; exact Hvx) ltac:(rewrite Hl; exact Hvy)
              ltac:(rewrite Hl; exact Hvz)
              ltac:(rewrite Hl; exact Hsx) ltac:(rewrite Hl; exact Hsy)
              ltac:(rewrite Hl; exact Hsz) Hdt)
    as (Hl1 & _ & (_ & _ & Hv1) & (_ & _ & Hs1)).
  cbn zeta in Hl1, Hv1, Hs1. rewrite Hl in Hl1.
  change ((0 + Z.of_nat 1) mod imuQueLength)%Z with 1%Z in Hl1.
  set (g1 := imuRun (uniformMsgs 1000 0.01 0 0 1 1 1) g0) in *.
  rewrite Hl1 in Hv1, Hs1.
  (* messages 2 to 200 leave slot 1 as it is *)
  assert (Hg1 : (0 <= imuPointerLast g1 < imuQueLength)%Z)
    by (rewrite Hl1; unfold imuQueLength; lia).
  assert (Hkept := imuRun_slot_kept (uniformMsgs 1000 0.01 0 0 1 2 199)
                     g1 1%Z Hg1 ltac:(unfold imuQueLength; lia)).
  rewrite uniformMsgs_length, callsUntil_eq, Hl1 in Hkept
    by (assumption || (unfold imuQueLength; lia)).
  specialize (Hkept ltac:(reflexivity)). cbn zeta in Hkept.
  assert (Hsplit : g200 = imuRun (uniformMsgs 1000 0.01 0 0 1 2 199) g1).
  { unfold g200, g1. rewrite <- imuRun_app.
    change 200%nat with (1 + 199)%nat at 1.
    now rewrite uniformMsgs_app. }
  rewrite <- Hsplit in Hkept.
  destruct Hkept as (_ & (_ & _ & Hkv) & (_ & _ & Hks)).
  (* the message after the gap *)
  assert (Hg200 : (0 <= imuPointerLast g200 < imuQueLength)%Z)
    by (rewrite Hl200; unfold imuQueLength; lia).
  destruct (imuHandler_slot (levelMsg 2000 0 0 1) g200 Hg200)
    as (Htm & _ & _ & _ & Hstale).
  cbn zeta in Htm, Hstale. rewrite Hl200 in Htm, Hstale.
  change (Z.rem (0 + 1) imuQueLength) with 1%Z in Htm, Hstale.
  rewrite Ht200 in Hstale. cbn [levelMsg imu_stamp] in Htm, Hstale.
  assert (Hgap : ~ 2000 - (1000 + INR 200 * 0.01) < scanPeriod).
  { unfold scanPeriod. rewrite (INR_IZR_INZ 200). cbn. lra. }
  destruct (Hstale Hgap) as ((_ & _ & Hz) & (_ & _ & Hz')).
  rewrite imuHandler_last, Hl200.
  split; [reflexivity|].
  assert (H0 : imuTime (ring (imuHandler (levelMsg 2000 0 0 1) g200)) 0%Z
               = 1000 + INR 200 * 0.01).
  { destruct (imuHandler_other (levelMsg 2000 0 0 1) g200 0%Z) as (E & _).
    - rewrite Hl200. cbn. lia.
    - cbn zeta in E. rewrite E. exact Ht200. }
  rewrite Htm, H0, Hz, Hz', Hkv, Hks, Hv1, Hs1.
  rewrite (INR_IZR_INZ 200). cbn.
  repeat split; lra.
Qed.

(** ** De-skew *)

(** A rotation by an angle followed by the rotation by the opposite angle
    about the same axis. *)
Lemma rot_inv_1 (a u v : R) :
  cos a * (cos a * u + sin a * v) - sin a * (- sin a * u + cos a * v) = u.
Proof.
  pose proof (sin2_cos2 a) as H. unfold Rsqr in H.
  replace (cos a * (cos a * u + sin a * v)
           - sin a * (- sin a * u + cos a * v))
    with ((sin a * sin a + cos a * cos a) * u) by ring.
  rewrite H. ring.
Qed.

Lemma rot_inv_2 (a u v : R) :
  sin a * (cos a * u + sin a * v) + cos a * (- sin a * u + cos a * v) = v.
Proof.
  pose proof (sin2_cos2 a) as H. unfold Rsqr in H.
  replace (sin a * (cos a * u + sin a * v)
           + cos a * (- sin a * u + cos a * v))
    with ((sin a * sin a + cos a * cos a) * v) by ring.
  rewrite H. ring.
Qed.

Lemma rot_inv_3 (a u v : R) :
  cos a * (cos a * u - sin a * v) + sin a * (sin a * u + cos a * v) = u.
Proof.
  pose proof (sin2_cos2 a) as H. unfold Rsqr in H.
  replace (cos a * (cos a * u - sin a * v)
           + sin a * (sin a * u + cos a * v))
    with ((sin a * sin a + cos a * cos a) * u) by ring.
  rewrite H. ring.
Qed.

Lemma rot_inv_4 (a u v : R) :
  - sin a * (cos a * u - sin a * v) + cos a * (sin a * u + cos a * v) = v.
Proof.
  pose proof (sin2_cos2 a) as H. unfold Rsqr in H.
  replace (- sin a * (cos a * u - sin a * v)
           + cos a * (sin a * u + cos a * v))
    with ((sin a * sin a + cos a * cos a) * v) by ring.
  rewrite H. ring.
Qed.

(** C9.  When the start state and the current state have zero velocity,
    zero shift and the same roll, pitch and yaw, [ShiftToStartIMU] and
    [VeloToStartIMU] leave zero residuals and [TransformToStartIMU] maps
    every point to itself. *)
Theorem deskew_no_motion (pointTime : R) (g : Globals) (p : PointType) :
  let s := imuStart g in
  let c := imuCur g in
  imuVeloXStart s = 0 -> imuVeloYStart s = 0 -> imuVeloZStart s = 0 ->
  imuShiftXStart s = 0 -> imuShiftYStart s = 0 -> imuShiftZStart s = 0 ->
  imuVeloXCur c = 0 -> imuVeloYCur c = 0 -> imuVeloZCur c = 0 ->
  imuShiftXCur c = 0 -> imuShiftYCur c = 0 -> imuShiftZCur c = 0 ->
  imuRollCur c = imuRollStart s ->
  imuPitchCur c = imuPitchStart s ->
  imuYawCur c = imuYawStart s ->
  let g' := VeloToStartIMU (ShiftToStartIMU pointTime g) in
  TransformToStartIMU g' p = p
  /\ imuFromStart g' = mkImuFromStart 0 0 0 0 0 0.
Proof.
  cbn zeta.
  intros Hvxs Hvys Hvzs Hsxs Hsys Hszs Hvxc Hvyc Hvzc Hsxc Hsyc Hszc
    Hroll Hpitch Hyaw.
  assert (Hres : imuFromStart (VeloToStartIMU (ShiftToStartIMU pointTime g))
                 = mkImuFromStart 0 0 0 0 0 0).
  { unfold VeloToStartIMU, ShiftToStartIMU. cbn.
    rewrite Hvxs, Hvys, Hvzs, Hsxs, Hsys, Hszs, Hvxc, Hvyc, Hvzc,
      Hsxc, Hsyc, Hszc.
    f_equal; ring. }
  split; [|exact Hres].
  unfold TransformToStartIMU. rewrite Hres.
  change (imuStart (VeloToStartIMU (ShiftToStartIMU pointTime g)))
    with (imuStart g).
  change (imuCur (VeloToStartIMU (ShiftToStartIMU pointTime g)))
    with (imuCur g).
  cbn [imuShiftFromStartXCur imuShiftFromStartYCur imuShiftFromStartZCur].
  rewrite Hroll, Hpitch, Hyaw.
  destruct p as [x y z w]. cbn [px py pz intensity].
  set (x1 := cos (imuRollStart (imuStart g)) * x
             - sin (imuRollStart (imuStart g)) * y).
  set (y1 := sin (imuRollStart (imuStart g)) * x
             + cos (imuRollStart (imuStart g)) * y).
  set (y2 := cos (imuPitchStart (imuStart g)) * y1
             - sin (imuPitchStart (imuStart g)) * z).
  set (z2 := sin (imuPitchStart (imuStart g)) * y1
             + cos (imuPitchStart (imuStart g)) * z).
  rewrite (rot_inv_1 (imuYawStart (imuStart g)) x1 z2).
  rewrite (rot_inv_2 (imuYawStart (imuStart g)) x1 z2).
  unfold y2, z2.
  rewrite (rot_inv_3 (imuPitchStart (imuStart g)) y1 z).
  rewrite (rot_inv_4 (imuPitchStart (imuStart g)) y1 z).
  unfold x1, y1.
  rewrite (rot_inv_3 (imuRollStart (imuStart g)) x y).
  rewrite (rot_inv_4 (imuRollStart (imuStart g)) x y).
  f_equal; ring.
Qed.

Lemma deskew_no_motion_witness :
  let g' := VeloToStartIMU (ShiftToStartIMU 0.05 initGlobals) in
  TransformToStartIMU g' (mkPoint 1 2 3 0.5) = mkPoint 1 2 3 0.5
  /\ imuFromStart g' = mkImuFromStart 0 0 0 0 0 0.
Proof.
  apply (deskew_no_motion 0.05 initGlobals (mkPoint 1 2 3 0.5));
    reflexivity.
Defined.

(** ** The azimuth window *)

Lemma atan2_bound (y x : R) : - PI <= atan2 y x <= PI.
Proof.
  pose proof PI_RGT_0 as Hpi.
  pose proof (atan_bound (y / x)) as Hb.
  unfold atan2.
  destruct (Rlt_dec 0 x) as [Hx|Hx]; [lra|].
  destruct (Rlt_dec x 0) as [Hx'|Hx'].
  - assert (Hinv : / x < 0) by (apply Rinv_lt_0_compat; exact Hx').
    destruct (Rle_dec 0 y) as [Hy|Hy].
    + assert (y / x <= 0) by (unfold Rdiv; nra).
      assert (atan (y / x) <= 0).
      { destruct (Req_dec (y / x) 0) as [->|Hne];
          [rewrite atan_0; lra|].
        left. rewrite <- atan_0. apply atan_increasing. lra. }
      lra.
    + assert (0 < y / x) by (unfold Rdiv; nra).
      assert (0 < atan (y / x))
        by (rewrite <- atan_0; now apply atan_increasing).
      lra.
  - destruct (Rlt_dec 0 y); [lra|]. destruct (Rlt_dec y 0); lra.
Qed.

Lemma atan2_pos_x (y x : R) : 0 < x -> atan2 y x = atan (y / x).
Proof.
  intros Hx. unfold atan2. destruct (Rlt_dec 0 x); [reflexivity|lra].
Qed.

Lemma atan2_0_neg (x : R) : x < 0 -> atan2 0 x = PI.
Proof.
  intros Hx. unfold atan2.
  destruct (Rlt_dec 0 x); [lra|]. destruct (Rlt_dec x 0); [|lra].
  destruct (Rle_dec 0 0); [|lra].
  unfold Rdiv. rewrite Rmult_0_l, atan_0. ring.
Qed.

Lemma normalizeEndOri_window (startOri endOri : R) :
  - PI <= startOri <= PI -> PI <= endOri <= 3 * PI ->
  PI <= normalizeEndOri startOri endOri - startOri <= 3 * PI.
Proof.
  intros Hs He. pose proof PI_RGT_0 as Hpi. unfold normalizeEndOri.
  destruct (Rgt_dec _ _) as [H1|H1]; [lra|].
  destruct (Rlt_dec _ _) as [H2|H2]; lra.
Qed.

(** Away from the two ends of the window the normalisation step does what
    its comment says, with exact real numbers: when the difference of the
    two azimuths of a sweep is farther than [margin] from [PI] and from
    [3 * PI] before the step, it is strictly between [PI + margin] and
    [3 * PI - margin] after it. *)
Lemma normalizeEndOri_inside (p0 pN : PointXYZ) (margin : R) :
  let startOri := computeStartOri p0 in
  let endOri := computeEndOri pN in
  0 <= margin ->
  (endOri - startOri < PI - margin \/ PI + margin < endOri - startOri) ->
  (endOri - startOri < 3 * PI - margin
   \/ 3 * PI + margin < endOri - startOri) ->
  PI + margin < normalizeEndOri startOri endOri - startOri
  < 3 * PI - margin.
Proof.
  cbn zeta. unfold computeStartOri, computeEndOri.
  pose proof (atan2_bound (ry p0) (rx p0)) as H0.
  pose proof (atan2_bound (ry pN) (rx pN)) as HN.
  pose proof PI_RGT_0 as Hpi.
  intros Hm Hlow Hhigh. unfold normalizeEndOri.
  destruct (Rgt_dec _ _) as [H1|H1]; [lra|].
  destruct (Rlt_dec _ _) as [H2|H2]; lra.
Qed.

(** C5.  The claim, and the comment of the source that the difference is
    kept within (PI, 3 * PI), fail on a half sweep: with the first point
    on the positive x axis and the last point on the negative x axis the
    start azimuth is 0 and the end azimuth is [- atan2 0 (-1) + 2 * PI],
    which is [PI].  With exact real numbers no branch of the step applies
    and the difference stays [PI], which is not above [PI].  With the
    rounded values of the source the end azimuth is the [float] just
    below [PI], the second branch adds [2 * PI], and the difference ends
    just above [3 * PI].  Either way it is not strictly between [PI] and
    [3 * PI]. *)
Theorem half_sweep_outside_window :
  let startOri := computeStartOri (mkXYZ 1 0 0) in
  let endOri := computeEndOri (mkXYZ (-1) 0 0) in
  ~ (PI < normalizeEndOri startOri endOri - startOri < 3 * PI).
Proof.
  pose proof PI_RGT_0 as Hpi.
  cbn zeta. unfold computeStartOri, computeEndOri. cbn [rx ry].
  rewrite (atan2_0_neg (-1)) by lra. rewrite (atan2_pos_x 0 1) by lra.
  unfold Rdiv. rewrite Rmult_0_l, atan_0.
  unfold normalizeEndOri.
  destruct (Rgt_dec _ _) as [H1|H1]; [lra|].
  destruct (Rlt_dec _ _) as [H2|H2]; [lra|].
  intros [Hlt _]. lra.
Qed.

(** ** Loops *)

Lemma bind_Ok {A B : Type} (m : Res A) (f : A -> Res B) (b : B) :
  bind m f = Ok b -> exists a, m = Ok a /\ f a = Ok b.
Proof. destruct m as [a|]; cbn; [eauto | discriminate]. Qed.

(** Splits a hypothesis [x <- m ;; k = Ok b] into [m = Ok a] and
    [k a = Ok b], for every bind at the head of the hypothesis. *)
Ltac bind_inv H :=
  repeat
    match type of H with
    | bind _ _ = Ok _ =>
        let a := fresh "a" in
        let E := fresh "E" in
        apply bind_Ok in H; destruct H as (a & E & H)
    end.

(** A property kept by every round of a loop holds when the loop ends. *)
Lemma iterate_inv {S : Type} (P : S -> Prop)
  (body : Z -> S -> Res (Ctl S)) :
  (forall k s s', P s ->
     body k s = Ok (Next s') \/ body k s = Ok (Break s') -> P s') ->
  forall (n : nat) (i step : Z) (s s' : S),
    P s -> iterate n i step body s = Ok s' -> P s'.
Proof.
  intros Hbody. induction n as [|n IH]; intros i step s s' Hs Hrun.
  - cbn in Hrun. now inversion Hrun; subst.
  - cbn in Hrun. destruct (body i s) as [[s1|s1]|] eqn:Hb.
    + apply (IH (i + step)%Z step s1 s'); [|exact Hrun].
      apply (Hbody i s s1 Hs). now left.
    + inversion Hrun; subst. apply (Hbody i s s' Hs). now right.
    + discriminate.
Qed.

Lemma forUp_inv {S : Type} (P : S -> Prop) (body : Z -> S -> Res (Ctl S)) :
  (forall k s s', P s ->
     body k s = Ok (Next s') \/ body k s = Ok (Break s') -> P s') ->
  forall (lo hi : Z) (s s' : S), P s -> forUp lo hi body s = Ok s' -> P s'.
Proof. intros Hb lo hi s s'. apply iterate_inv. exact Hb. Qed.

Lemma forDown_inv {S : Type} (P : S -> Prop)
  (body : Z -> S -> Res (Ctl S)) :
  (forall k s s', P s ->
     body k s = Ok (Next s') \/ body k s = Ok (Break s') -> P s') ->
  forall (hi lo : Z) (s s' : S),
    P s -> forDown hi lo body s = Ok s' -> P s'.
Proof. intros Hb hi lo s s'. apply iterate_inv. exact Hb. Qed.

(** ** Sharp corners are less-sharp corners *)

Lemma Subseq_refl {A : Type} (l : list A) : Subseq l l.
Proof. induction l; constructor; assumption. Qed.

Lemma Subseq_snoc_both {A : Type} (l1 l2 : list A) (a : A) :
  Subseq l1 l2 -> Subseq (l1 ++ [a]) (l2 ++ [a]).
Proof.
  induction 1; cbn.
  - apply Subseq_refl.
  - now apply Subseq_skip.
  - now apply Subseq_take.
Qed.

Lemma Subseq_snoc_right {A : Type} (l1 l2 : list A) (a : A) :
  Subseq l1 l2 -> Subseq l1 (l2 ++ [a]).
Proof.
  induction 1; cbn.
  - apply Subseq_skip. constructor.
  - now apply Subseq_skip.
  - now apply Subseq_take.
Qed.

Lemma Subseq_In {A : Type} (l1 l2 : list A) :
  Subseq l1 l2 -> forall a, In a l1 -> In a l2.
Proof.
  induction 1; intros b Hb.
  - exact Hb.
  - right. now apply IHSubseq.
  - destruct Hb as [->|Hb]; [now left | right; now apply IHSubseq].
Qed.

Lemma Subseq_Permutation {A : Type} (l1 l2 : list A) :
  Subseq l1 l2 -> exists rest, Permutation l2 (l1 ++ rest).
Proof.
  induction 1 as [|l1 l2 a _ [rest IH]|l1 l2 a _ [rest IH]].
  - exists []. constructor.
  - exists (a :: rest).
    apply Permutation_trans with (a :: l1 ++ rest).
    + now constructor.
    + apply Permutation_middle.
  - exists rest. cbn. now constructor.
Qed.

Lemma cornerStep_sharpInLess (laserCloud : list PointType) (k : Z)
  (st st' : Features * Z) :
  sharpInLess (fst st) ->
  cornerStep laserCloud k st = Ok (Next st')
  \/ cornerStep laserCloud k st = Ok (Break st') ->
  sharpInLess (fst st').
Proof.
  destruct st as [ft n]. unfold cornerStep, sharpInLess. cbn [fst].
  intros Hinv H.
  assert (Hc : exists c, (c = Next st' \/ c = Break st')
                         /\ cornerStep laserCloud k (ft, n) = Ok c).
  { destruct H as [H|H]; eexists; (split; [|exact H]); auto. }
  clear H. destruct Hc as (c & Hc & H). unfold cornerStep in H.
  bind_inv H.
  destruct (Z.eqb a0 0).
  2:{ inversion H; subst. destruct Hc as [Hc|Hc]; inversion Hc; subst;
      exact Hinv. }
  bind_inv H.
  destruct (Rgt_dec a1 0.1).
  2:{ inversion H; subst. destruct Hc as [Hc|Hc]; inversion Hc; subst;
      exact Hinv. }
  destruct (n + 1 <=? 2)%Z.
  { bind_inv H. inversion H; subst.
    destruct Hc as [Hc|Hc]; inversion Hc; subst. cbn.
    now apply Subseq_snoc_both. }
  destruct (n + 1 <=? 20)%Z.
  { bind_inv H. inversion H; subst.
    destruct Hc as [Hc|Hc]; inversion Hc; subst. cbn.
    now apply Subseq_snoc_right. }
  inversion H; subst. destruct Hc as [Hc|Hc]; inversion Hc; subst.
  exact Hinv.
Qed.

Lemma flatStep_corners (laserCloud : list PointType) (k : Z)
  (st st' : Features * Z) :
  flatStep laserCloud k st = Ok (Next st')
  \/ flatStep laserCloud k st = Ok (Break st') ->
  cornerPointsSharp (fst st') = cornerPointsSharp (fst st)
  /\ cornerPointsLessSharp (fst st') = cornerPointsLessSharp (fst st).
Proof.
  destruct st as [ft n]. cbn [fst]. intros H.
  assert (Hc : exists c, (c = Next st' \/ c = Break st')
                         /\ flatStep laserCloud k (ft, n) = Ok c).
  { destruct H as [H|H]; eexists; (split; [|exact H]); auto. }
  clear H. destruct Hc as (c & Hc & H). unfold flatStep in H.
  bind_inv H.
  destruct (Z.eqb a0 0).
  2:{ inversion H; subst. destruct Hc as [Hc|Hc]; inversion Hc; subst;
      auto. }
  bind_inv H.
  destruct (Rlt_dec a1 0.1).
  2:{ inversion H; subst. destruct Hc as [Hc|Hc]; inversion Hc; subst;
      auto. }
  bind_inv H.
  destruct (n + 1 >=? 4)%Z.
  { inversion H; subst. destruct Hc as [Hc|Hc]; inversion Hc; subst.
    cbn. auto. }
  bind_inv H. inversion H; subst.
  destruct Hc as [Hc|Hc]; inversion Hc; subst. cbn. auto.
Qed.

Lemma selectSector_sharpInLess (laserCloud : list PointType)
  (scanStartInd scanEndInd : array Z) (i j : Z)
  (st st' : Features * list PointType) :
  sharpInLess (fst st) ->
  selectSector laserCloud scanStartInd scanEndInd i j st = Ok (Next st')
  \/ selectSector laserCloud scanStartInd scanEndInd i j st
     = Ok (Break st') ->
  sharpInLess (fst st').
Proof.
  destruct st as [ft lf]. cbn [fst]. intros Hinv H.
  assert (Hc : exists c, (c = Next st' \/ c = Break st')
                         /\ selectSector laserCloud scanStartInd scanEndInd
                              i j (ft, lf) = Ok c).
  { destruct H as [H|H]; eexists; (split; [|exact H]); auto. }
  clear H. destruct Hc as (c & Hc & H). unfold selectSector in H.
  bind_inv H. inversion H; subst.
  destruct Hc as [Hc|Hc]; inversion Hc; subst. cbn [fst].
  assert (H3 : sharpInLess (fst a2)).
  { revert E2. apply (forDown_inv (fun st => sharpInLess (fst st))).
    - intros k s s'. apply cornerStep_sharpInLess.
    - exact Hinv. }
  revert E3.
  apply (forUp_inv (fun st => sharpInLess (fst st))); [|exact H3].
  intros k s s' Hs Hstep. unfold sharpInLess in *.
  destruct (flatStep_corners _ _ _ _ Hstep) as [-> ->]. exact Hs.
Qed.

Lemma selectScan_sharpInLess
  (downSizeFilter : list PointType -> list PointType)
  (laserCloud : list PointType) (scanStartInd scanEndInd : array Z)
  (i : Z) (ft ft' : Features) :
  sharpInLess ft ->
  selectScan downSizeFilter laserCloud scanStartInd scanEndInd i ft
  = Ok (Next ft')
  \/ selectScan downSizeFilter laserCloud scanStartInd scanEndInd i ft
     = Ok (Break ft') ->
  sharpInLess ft'.
Proof.
  intros Hinv H.
  assert (Hc : exists c, (c = Next ft' \/ c = Break ft')
                         /\ selectScan downSizeFilter laserCloud
                              scanStartInd scanEndInd i ft = Ok c).
  { destruct H as [H|H]; eexists; (split; [|exact H]); auto. }
  clear H. destruct Hc as (c & Hc & H). unfold selectScan in H.
  bind_inv H. destruct a as [ft1 lf]. inversion H; subst.
  destruct Hc as [Hc|Hc]; inversion Hc; subst.
  unfold sharpInLess. cbn.
  change (sharpInLess (fst (ft1, lf))).
  revert E.
  apply (forUp_inv (fun st => sharpInLess (fst st))); [|exact Hinv].
  intros k s s'. apply selectSector_sharpInLess.
Qed.

Lemma selectFeatures_sharpInLess
  (downSizeFilter : list PointType -> list PointType)
  (laserCloud : list PointType) (scanStartInd scanEndInd : array Z)
  (sc : Scratch) (ft : Features) :
  selectFeatures downSizeFilter laserCloud scanStartInd scanEndInd sc
  = Ok ft ->
  sharpInLess ft.
Proof.
  unfold selectFeatures. apply (forUp_inv sharpInLess).
  - intros k s s'. apply selectScan_sharpInLess.
  - unfold sharpInLess. cbn. constructor.
Qed.

(** ** Small sweeps *)

Lemma spin_app f (l1 l2 : list Event) (g : Globals) :
  spin f (l1 ++ l2) g
  = (r1 <- spin f l1 g ;;
     r2 <- spin f l2 (fst r1) ;;
     Ok (fst r2, snd r1 ++ snd r2)).
Proof.
  revert g. induction l1 as [|e l1 IH]; intros g.
  - cbn. destruct (spin f l2 g) as [[g2 o2]|]; reflexivity.
  - cbn [app spin]. destruct e as [m|m].
    + apply IH.
    + destruct (laserCloudHandler f m g) as [[g1 o1]|]; [|reflexivity].
      cbn [bind fst snd]. rewrite IH.
      destruct (spin f l1 g1) as [[g2 o2]|]; [|reflexivity].
      cbn [bind fst snd].
      destruct (spin f l2 g2) as [[g3 o3]|]; [|reflexivity].
      cbn [bind fst snd]. destruct o1; reflexivity.
Qed.

Lemma spin_warmUp f : spin f warmUp initGlobals = Ok (readyGlobals, []).
Proof. reflexivity. Qed.

Lemma extractFeatures_one f (cloud : list PointType) (sc : Scratch) :
  exists ft,
    extractFeatures f cloud 1 sc = Ok ft
    /\ cornerPointsSharp ft = [] /\ cornerPointsLessSharp ft = []
    /\ surfPointsFlat ft = [].
Proof.
  eexists. split.
  - vm_compute. reflexivity.
  - cbn. auto.
Qed.

(** ** Ingestion of one point *)

Lemma Int_part_eq (r : R) (z : Z) :
  IZR z <= r < IZR z + 1 -> Int_part r = z.
Proof.
  intros H. symmetry. apply Int_part_spec. lra.
Qed.

Lemma truncate_nonneg (r : R) (z : Z) :
  0 <= r -> IZR z <= r < IZR z + 1 -> truncate r = z.
Proof.
  intros H0 H. unfold truncate.
  destruct (Rle_dec 0 r); [now apply Int_part_eq | contradiction].
Qed.

(** A point in the horizontal plane of the sensor goes to the last scan. *)
Lemma computeScanID_level (x z : R) :
  0 < x * x + z * z -> computeScanID x 0 z = 15%Z.
Proof.
  intros Hxz. unfold computeScanID.
  destruct (Rlt_dec 0 (x * x + z * z)) as [_|H]; [|contradiction].
  replace (0 / sqrt (x * x + z * z)) with 0 by (unfold Rdiv; ring).
  rewrite atan_0.
  replace (0 * 180 / PI) with 0 by (unfold Rdiv; ring).
  destruct (Rlt_dec 0 0) as [H|_]; [lra|].
  rewrite (truncate_nonneg _ 0%Z) by lra. reflexivity.
Qed.

(** A point 45 degrees above the horizontal plane is outside the sixteen
    scans. *)
Lemma computeScanID_45 : computeScanID 0 1 1 = 45%Z.
Proof.
  unfold computeScanID.
  replace (0 * 0 + 1 * 1) with 1 by ring. rewrite sqrt_1.
  destruct (Rlt_dec 0 1) as [_|H]; [|lra].
  replace (1 / 1) with 1 by field. rewrite atan_1.
  pose proof PI_RGT_0 as Hpi.
  replace (PI / 4 * 180 / PI) with 45 by (field; lra).
  destruct (Rlt_dec 45 0) as [H|_]; [lra|].
  rewrite (truncate_nonneg _ 45%Z) by lra. reflexivity.
Qed.

(** The round of the ingestion loop on a point outside the sixteen scans:
    only [count] changes. *)
Lemma ingestPoint_rejected (laserCloudIn : list PointXYZ)
  (timeScanCur startOri endOri : R) (i : Z) (st : Ingest) (raw : PointXYZ) :
  at_ laserCloudIn i = Ok raw ->
  let scanID := computeScanID (ry raw) (rz raw) (rx raw) in
  ((scanID >? N_SCANS - 1) || (scanID <? 0))%Z = true ->
  ingestPoint laserCloudIn timeScanCur startOri endOri i st
  = Ok (Next {| ig_globals := ig_globals st;
                halfPassed := halfPassed st;
                count := (count st - 1)%Z;
                laserCloudScans := laserCloudScans st |}).
Proof.
  intros Hat scanID Hrej. unfold ingestPoint. rewrite Hat. cbn [bind].
  fold scanID. rewrite Hrej. reflexivity.
Qed.

(** The round of the ingestion loop on a point of one of the sixteen
    scans. *)
Lemma ingestPoint_kept (laserCloudIn : list PointXYZ)
  (timeScanCur startOri endOri : R) (i : Z) (st : Ingest) (raw : PointXYZ) :
  at_ laserCloudIn i = Ok raw ->
  let scanID := computeScanID (ry raw) (rz raw) (rx raw) in
  (0 <= scanID <= N_SCANS - 1)%Z ->
  let oh := computeOri startOri endOri (halfPassed st) (ry raw) (rx raw) in
  let relTime := (fst oh - startOri) / (endOri - startOri) in
  let point :=
    {| px := ry raw; py := rz raw; pz := rx raw;
       intensity := IZR scanID + scanPeriod * relTime |} in
  let gp := compensate timeScanCur relTime i point (ig_globals st) in
  ingestPoint laserCloudIn timeScanCur startOri endOri i st
  = Ok (Next {| ig_globals := fst gp;
                halfPassed := snd oh;
                count := count st;
                laserCloudScans :=
                  upd (laserCloudScans st) scanID
                    (laserCloudScans st scanID ++ [snd gp]) |}).
Proof.
  intros Hat scanID Hid oh relTime point gp.
  unfold ingestPoint. rewrite Hat. cbn [bind]. fold scanID.
  assert (Hrej : ((scanID >? N_SCANS - 1) || (scanID <? 0))%Z = false).
  { apply orb_false_iff. split; [rewrite Z.gtb_ltb|]; apply Z.ltb_ge; lia. }
  rewrite Hrej. fold oh. destruct oh as [ori half] eqn:Hoh.
  cbn [fst snd] in *. fold relTime. fold point. fold gp.
  destruct gp as [g' point'] eqn:Hgp. cbn [fst snd].
  unfold rd, wr, inb.
  assert (Hin : ((0 <=? scanID) && (scanID <? N_SCANS))%Z = true).
  { apply andb_true_iff. split; [apply Z.leb_le | apply Z.ltb_lt]; lia. }
  rewrite Hin. reflexivity.
Qed.

Lemma compensate_noimu (timeScanCur relTime : R) (i : Z) (point : PointType)
  (g : Globals) :
  (imuPointerLast g < 0)%Z ->
  compensate timeScanCur relTime i point g = (g, point).
Proof.
  intros H. unfold compensate.
  destruct (Z.geb_spec (imuPointerLast g) 0); [lia | reflexivity].
Qed.

Lemma compensate_intensity (timeScanCur relTime : R) (i : Z)
  (point : PointType) (g : Globals) :
  intensity (snd (compensate timeScanCur relTime i point g))
  = intensity point.
Proof.
  unfold compensate.
  destruct (imuPointerLast g >=? 0)%Z; [|reflexivity].
  destruct (Z.eqb i 0); reflexivity.
Qed.

Lemma ingest_one (raw : PointXYZ) (timeScanCur : R) (g : Globals) :
  rz raw = 0 -> 0 < ry raw * ry raw + rx raw * rx raw ->
  (imuPointerLast g < 0)%Z ->
  exists pt half,
    ingest [raw] timeScanCur g
    = Ok {| ig_globals := g;
            halfPassed := half;
            count := 1;
            laserCloudScans := upd (fun _ => []) 15 [pt] |}.
Proof.
  intros Hz Hxy Hg. unfold ingest. cbn [length Z.of_nat]. 
  change (Z.pos (Pos.of_succ_nat 0) - 1)%Z with 0%Z.
  cbn [at_ Z.ltb Z.to_nat nth_error Z.compare bind].
  unfold forUp. change (Z.to_nat (0 - 0 + 1)) with 1%nat.
  cbn [iterate].
  erewrite ingestPoint_kept;
    [| reflexivity
     | rewrite Hz, computeScanID_level by exact Hxy; cbn; lia].
  cbn [ig_globals halfPassed count laserCloudScans].
  rewrite Hz, computeScanID_level by exact Hxy.
  rewrite compensate_noimu by exact Hg. cbn [fst snd app].
  eexists. eexists. reflexivity.
Qed.

Lemma concatScans_one (pts : list PointType) :
  concatScans (upd (fun _ => []) 15 pts) = pts.
Proof. unfold concatScans. cbn. apply app_nil_r. Qed.

(** A sweep of one point in the horizontal plane, with no IMU message
    received: the callback publishes, and no feature is selected. *)
Lemma laserCloudHandler_one f (t : R) (raw : PointXYZ) (g : Globals) :
  systemInited g = true -> (imuPointerLast g < 0)%Z -> rz raw = 0 ->
  0 < ry raw * ry raw + rx raw * rx raw ->
  exists g' out,
    laserCloudHandler f (mkCloudMsg t [Finite raw]) g = Ok (g', Some out)
    /\ cornerPointsSharpOut out = []
    /\ cornerPointsLessSharpOut out = []
    /\ surfPointsFlatOut out = [].
Proof.
  intros Hinit Hg Hz Hxy. unfold laserCloudHandler. rewrite Hinit.
  cbn [negb cloud_stamp cloud_points removeNaNFromPointCloud].
  destruct (ingest_one raw t g Hz Hxy Hg) as (pt & half & ->).
  cbn [bind ig_globals count laserCloudScans].
  rewrite concatScans_one.
  destruct (extractFeatures_one f [pt] (scratch g))
    as (ft & -> & Hs & Hl & Hf).
  cbn [bind]. eexists. eexists. split; [reflexivity|].
  cbn. auto.
Qed.

(** C7.  Whenever the sweep callback publishes, the sharp corner cloud is
    the less sharp corner cloud with some points left out: every sharp
    point is a less sharp point, with at least the same number of
    occurrences. *)
Theorem sharp_within_less_sharp
  (downSizeFilter : list PointType -> list PointType)
  (laserCloudMsg : CloudMsg) (g g' : Globals) (out : Outputs) :
  laserCloudHandler downSizeFilter laserCloudMsg g = Ok (g', Some out) ->
  Subseq (cornerPointsSharpOut out) (cornerPointsLessSharpOut out)
  /\ (forall p, In p (cornerPointsSharpOut out) ->
                In p (cornerPointsLessSharpOut out))
  /\ (exists rest,
        Permutation (cornerPointsLessSharpOut out)
          (cornerPointsSharpOut out ++ rest)).
Proof.
  intros H.
  assert (Hsub : Subseq (cornerPointsSharpOut out)
                   (cornerPointsLessSharpOut out)).
  { unfold laserCloudHandler in H.
    destruct (negb (systemInited g)); [discriminate|].
    bind_inv H. inversion H; subst. cbn.
    unfold extractFeatures in E0. bind_inv E0.
    apply (selectFeatures_sharpInLess _ _ _ _ _ _ E0). }
  split; [exact Hsub|]. split.
  - now apply Subseq_In.
  - now apply Subseq_Permutation.
Qed.


(** ** A sweep without a finite point *)


(** Once the start-up delay is over, the callback fails on every sweep
    without a finite point: it indexes the first and the last point of
    the cloud left by the NaN removal. *)
Lemma empty_cloud_out_of_bounds
  (downSizeFilter : list PointType -> list PointType)
  (t : R) (pts : list RawPoint) (g : Globals) :
  systemInited g = true -> removeNaNFromPointCloud pts = [] ->
  laserCloudHandler downSizeFilter (mkCloudMsg t pts) g = OutOfBounds.
Proof.
  intros Hi He. unfold laserCloudHandler. rewrite Hi.
  cbn [negb cloud_points cloud_stamp]. rewrite He. reflexivity.
Qed.

(** ** The first-point latch *)

(** The first IMU message, when its stamp is at least [scanPeriod]. *)
Lemma imuHandler_first_gap (m : ImuMsg) (g : Globals) :
  imuPointerLast g = (-1)%Z ->
  imuTime (ring g) 199%Z = 0 ->
  ~ imu_stamp m < scanPeriod ->
  let g' := imuHandler m g in
  imuPointerLast g' = 0%Z
  /\ imuTime (ring g') 0%Z = imu_stamp m
  /\ (imuRoll (ring g') 0%Z = imu_roll m
      /\ imuPitch (ring g') 0%Z = imu_pitch m
      /\ imuYaw (ring g') 0%Z = imu_yaw m)
  /\ (imuVeloX (ring g') 0%Z = imuVeloX (ring g) 0%Z
      /\ imuVeloY (ring g') 0%Z = imuVeloY (ring g) 0%Z
      /\ imuVeloZ (ring g') 0%Z = imuVeloZ (ring g) 0%Z)
  /\ (imuShiftX (ring g') 0%Z = imuShiftX (ring g) 0%Z
      /\ imuShiftY (ring g') 0%Z = imuShiftY (ring g) 0%Z
      /\ imuShiftZ (ring g') 0%Z = imuShiftZ (ring g) 0%Z).
Proof.
  intros Hl H199 Ht. cbn zeta.
  unfold imuHandler, AccumulateIMUShift. cbn zeta. rewrite Hl.
  destruct (worldAcc _ _) as [[wx wy] wz].
  change (Z.rem (-1 + 1) imuQueLength) with 0%Z.
  cbn [imuPointerLast set_ring set_imuPointerLast ring imuTime].
  change (Z.rem (0 + imuQueLength - 1) imuQueLength) with 199%Z.
  rewrite upd_same, upd_other by lia. rewrite H199.
  destruct (Rlt_dec _ _) as [Hlt|_]; [exfalso; apply Ht; lra|].
  cbn. rewrite ?upd_same. repeat split; reflexivity.
Qed.

(** The search of the ring stops at once when the read cursor is on the
    latest slot. *)
Lemma advanceFront_at_last (fuel : nat) (t : R) (r : ImuRing) (last : Z) :
  advanceFront fuel t r last last = last.
Proof. destruct fuel; cbn; [|rewrite Z.eqb_refl]; reflexivity. Qed.

(** After the latest sample, the current state is the latest sample. *)
Lemma interpolateIMU_latest (timeScanCur pointTime : R) (g : Globals) :
  imuPointerFront g = imuPointerLast g ->
  timeScanCur + pointTime > imuTime (ring g) (imuPointerLast g) ->
  let g' := interpolateIMU timeScanCur pointTime g in
  imuRollCur (imuCur g') = imuRoll (ring g) (imuPointerLast g)
  /\ imuStart g' = imuStart g.
Proof.
  intros Hf Ht. cbn zeta. unfold interpolateIMU.
  rewrite Hf, advanceFront_at_last.
  destruct (Rgt_dec _ _) as [_|Hn]; [|contradiction].
  split; reflexivity.
Qed.

Lemma interpolateIMU_start (timeScanCur pointTime : R) (g : Globals) :
  imuStart (interpolateIMU timeScanCur pointTime g) = imuStart g.
Proof.
  unfold interpolateIMU. destruct (Rgt_dec _ _); reflexivity.
Qed.

(** Motion compensation writes the start state only for index 0. *)
Lemma compensate_start (timeScanCur relTime : R) (i : Z) (point : PointType)
  (g : Globals) :
  i <> 0%Z ->
  imuStart (fst (compensate timeScanCur relTime i point g)) = imuStart g.
Proof.
  intros Hi. unfold compensate.
  destruct (imuPointerLast g >=? 0)%Z; [|reflexivity].
  destruct (Z.eqb_spec i 0); [contradiction|]. cbn [fst].
  change (imuStart (VeloToStartIMU
                      (ShiftToStartIMU (relTime * scanPeriod)
                         (interpolateIMU timeScanCur (relTime * scanPeriod)
                            g))))
    with (imuStart (interpolateIMU timeScanCur (relTime * scanPeriod) g)).
  apply interpolateIMU_start.
Qed.

Lemma compensate_cur (timeScanCur relTime : R) (i : Z) (point : PointType)
  (g : Globals) :
  i <> 0%Z -> (0 <= imuPointerLast g)%Z ->
  imuCur (fst (compensate timeScanCur relTime i point g))
  = imuCur (interpolateIMU timeScanCur (relTime * scanPeriod) g).
Proof.
  intros Hi Hl. unfold compensate.
  destruct (Z.geb_spec (imuPointerLast g) 0); [|lia].
  destruct (Z.eqb_spec i 0); [contradiction|]. reflexivity.
Qed.

Lemma iterate_inv_from {S : Type} (P : S -> Prop)
  (body : Z -> S -> Res (Ctl S)) (lo : Z) :
  (forall k s s', (lo <= k)%Z -> P s ->
     body k s = Ok (Next s') \/ body k s = Ok (Break s') -> P s') ->
  forall (n : nat) (i : Z) (s s' : S),
    (lo <= i)%Z -> P s -> iterate n i 1 body s = Ok s' -> P s'.
Proof.
  intros Hbody. induction n as [|n IH]; intros i s s' Hi Hs Hrun.
  - cbn in Hrun. now inversion Hrun; subst.
  - cbn in Hrun. destruct (body i s) as [[s1|s1]|] eqn:Hb.
    + apply (IH (i + 1)%Z s1 s'); [lia| |exact Hrun].
      apply (Hbody i s s1 Hi Hs). now left.
    + inversion Hrun; subst. apply (Hbody i s s' Hi Hs). now right.
    + discriminate.
Qed.

(** A round of the ingestion loop after the first one leaves the start
    state as it is. *)
Lemma ingestPoint_start (laserCloudIn : list PointXYZ)
  (timeScanCur startOri endOri : R) (i : Z) (st st' : Ingest) :
  (1 <= i)%Z ->
  ingestPoint laserCloudIn timeScanCur startOri endOri i st = Ok (Next st')
  \/ ingestPoint laserCloudIn timeScanCur startOri endOri i st
     = Ok (Break st') ->
  imuStart (ig_globals st') = imuStart (ig_globals st).
Proof.
  intros Hi H.
  assert (Hc : exists c, (c = Next st' \/ c = Break st')
                         /\ ingestPoint laserCloudIn timeScanCur startOri
                              endOri i st = Ok c).
  { destruct H as [H|H]; eexists; (split; [|exact H]); auto. }
  clear H. destruct Hc as (c & Hc & H). unfold ingestPoint in H.
  bind_inv H.
  destruct (_ || _)%bool.
  { inversion H; subst. destruct Hc as [Hc|Hc]; inversion Hc; subst.
    reflexivity. }
  destruct (computeOri _ _ _ _ _) as [ori half].
  destruct (compensate _ _ _ _ _) as [g' point'] eqn:Hcomp.
  bind_inv H. inversion H; subst.
  destruct Hc as [Hc|Hc]; inversion Hc; subst. cbn [ig_globals].
  change g' with (fst (g', point')). rewrite <- Hcomp.
  apply compensate_start. lia.
Qed.

(** When the first finite point of a sweep is outside the sixteen scans,
    the ingestion leaves the start state of the sweep before. *)
Lemma ingest_first_rejected (laserCloudIn : list PointXYZ) (raw : PointXYZ)
  (timeScanCur : R) (g : Globals) (ig : Ingest) :
  at_ laserCloudIn 0 = Ok raw ->
  let scanID := computeScanID (ry raw) (rz raw) (rx raw) in
  ((scanID >? N_SCANS - 1) || (scanID <? 0))%Z = true ->
  ingest laserCloudIn timeScanCur g = Ok ig ->
  imuStart (ig_globals ig) = imuStart g.
Proof.
  intros Hat scanID Hrej H. unfold ingest in H. bind_inv H.
  unfold forUp in H.
  destruct laserCloudIn as [|p l]; [discriminate|].
  replace (Z.to_nat (Z.of_nat (length (p :: l)) - 1 - 0 + 1))
    with (S (length l)) in H by (cbn [length]; lia).
  cbn [iterate] in H.
  rewrite (ingestPoint_rejected _ _ _ _ _ _ raw Hat Hrej) in H.
  cbn [ig_globals halfPassed count laserCloudScans] in H.
  revert H.
  apply (iterate_inv_from
           (fun st => imuStart (ig_globals st) = imuStart g) _ 1%Z).
  - intros k s s' Hk Hs Hstep.
    rewrite (ingestPoint_start _ _ _ _ _ _ _ Hk Hstep). exact Hs.
  - lia.
  - reflexivity.
Qed.

Lemma atan2_0_1 : atan2 0 1 = 0.
Proof.
  rewrite atan2_pos_x by lra. unfold Rdiv. rewrite Rmult_0_l. apply atan_0.
Qed.

Lemma extractFeatures_two f (cloud : list PointType) (sc : Scratch) :
  exists ft,
    extractFeatures f cloud 2 sc = Ok ft
    /\ cornerPointsSharp ft = [] /\ cornerPointsLessSharp ft = []
    /\ surfPointsFlat ft = [].
Proof.
  eexists. split.
  - vm_compute. reflexivity.
  - cbn. auto.
Qed.

(** The azimuth of a point straight ahead in a sweep that starts straight
    ahead, before the half turn. *)
Lemma computeOri_ahead (endOri : R) :
  computeOri (- 0) endOri false 0 1 = (- 0, false).
Proof.
  pose proof PI_RGT_0 as Hpi.
  unfold computeOri. cbn [negb]. rewrite atan2_0_1.
  destruct (Rlt_dec _ _) as [H|_]; [lra|].
  destruct (Rgt_dec _ _) as [H|_]; [lra|].
  destruct (Rgt_dec _ _) as [H|_]; [lra|]. reflexivity.
Qed.

(** The ingestion of [highFirstSweep] with a ring that is not empty: the
    first point is dropped, the second one is compensated at relative
    time 0 as the point of index 1. *)
Lemma ingest_highFirst (g : Globals) :
  (0 <= imuPointerLast g)%Z ->
  exists relTime point,
    relTime = 0
    /\ ingest (removeNaNFromPointCloud (cloud_points highFirstSweep))
         (cloud_stamp highFirstSweep) g
       = Ok {| ig_globals := fst (compensate 2 relTime 1 point g);
               halfPassed := false;
               count := 1;
               laserCloudScans :=
                 upd (fun _ => []) 15
                   [snd (compensate 2 relTime 1 point g)] |}.
Proof.
  intros Hg.
  cbn [highFirstSweep cloud_points cloud_stamp removeNaNFromPointCloud].
  unfold ingest.
  set (l := [mkXYZ 1 0 1; mkXYZ 1 0 0]).
  change (Z.of_nat (length l)) with 2%Z.
  change (at_ l 0) with (Ok (mkXYZ 1 0 1)).
  change (at_ l (2 - 1)) with (Ok (mkXYZ 1 0 0)).
  cbn [bind]. unfold forUp. change (Z.to_nat (2 - 1 - 0 + 1)) with 2%nat.
  cbn [iterate].
  erewrite ingestPoint_rejected;
    [| reflexivity | cbn [rx ry rz]; rewrite computeScanID_45; reflexivity].
  cbn [ig_globals halfPassed count laserCloudScans].
  erewrite ingestPoint_kept;
    [| reflexivity
     | cbn [rx ry rz]; rewrite computeScanID_level by lra; cbn; lia].
  cbn [ig_globals halfPassed count laserCloudScans rx ry rz].
  rewrite computeScanID_level by lra.
  unfold computeStartOri. cbn [rx ry rz]. rewrite atan2_0_1.
  rewrite computeOri_ahead. cbn [fst snd app].
  change (0 + 1)%Z with 1%Z. change (2 - 1)%Z with 1%Z.
  eexists. eexists. split; [|reflexivity].
  unfold Rdiv. ring.
Qed.

(** C2.  The claim fails on [highFirstSweep] received after the start-up
    delay and one IMU message with roll 0.3: the first point of the sweep
    is outside the sixteen scans, the second point is the first one kept,
    the IMU state at its time has roll 0.3, and the start state keeps the
    roll 0 it had before the sweep. *)
Theorem start_state_not_latched
  (downSizeFilter : list PointType -> list PointType) :
  let g1 := imuHandler tiltedMsg readyGlobals in
  exists g' out,
    spin downSizeFilter
      (warmUp ++ [ImuEvent tiltedMsg; CloudEvent highFirstSweep])
      initGlobals = Ok (g', [out])
    /\ length (laserCloudOut out) = 1%nat
    /\ imuRollCur
         (imuCur (interpolateIMU (cloud_stamp highFirstSweep) 0 g1)) = 0.3
    /\ imuRollCur (imuCur g') = 0.3
    /\ imuRollStart (imuStart g') = 0
    /\ imuStart g' = imuStart g1.
Proof.
  cbn zeta. rewrite spin_app, spin_warmUp. cbn [bind fst snd app spin].
  assert (Hgap : ~ imu_stamp tiltedMsg < scanPeriod)
    by (unfold scanPeriod; cbn; lra).
  destruct (imuHandler_first_gap tiltedMsg readyGlobals eq_refl eq_refl Hgap)
    as (Hl & Ht & (Hroll & _) & _).
  destruct (imuHandler_sweep_state tiltedMsg readyGlobals)
    as (Hf & Hs & _ & _ & _ & _ & Hi).
  cbn zeta in *.
  set (g1 := imuHandler tiltedMsg readyGlobals) in *.
  assert (Hcur : forall pointTime, pointTime = 0 ->
            imuRollCur (imuCur (interpolateIMU 2 pointTime g1)) = 0.3).
  { intros pointTime ->.
    destruct (interpolateIMU_latest 2 0 g1) as (Hc & _).
    - rewrite Hf, Hl. reflexivity.
    - rewrite Hl, Ht. cbn. lra.
    - cbn zeta in Hc. rewrite Hc, Hl, Hroll. reflexivity. }
  unfold laserCloudHandler. rewrite Hi.
  change (systemInited readyGlobals) with true. cbn [negb].
  destruct (ingest_highFirst g1) as (relTime & point & Hrel & ->);
    [rewrite Hl; lia|].
  cbn [bind ig_globals count laserCloudScans].
  rewrite concatScans_one.
  destruct (extractFeatures_one downSizeFilter
              [snd (compensate 2 relTime 1 point g1)]
              (scratch (fst (compensate 2 relTime 1 point g1))))
    as (ft & -> & _).
  cbn [bind fst snd spin app]. eexists. eexists. split; [reflexivity|].
  cbn [laserCloudOut length set_scratch imuCur imuStart].
  split; [reflexivity|].
  split; [apply Hcur; reflexivity|].
  rewrite compensate_cur by (rewrite ?Hl; lia).
  rewrite compensate_start by lia.
  split; [apply Hcur; rewrite Hrel; ring|].
  split; [rewrite Hs; reflexivity | reflexivity].
Qed.

(** ** The intensity of a kept point *)

Lemma atan2_1_1 : atan2 1 1 = PI / 4.
Proof.
  rewrite atan2_pos_x by lra. replace (1 / 1) with 1 by field. apply atan_1.
Qed.

Lemma concatScans_last (first pts : list PointType) :
  concatScans (upd (upd (fun _ => []) 15 first) 15 pts) = pts.
Proof. unfold concatScans. cbn. apply app_nil_r. Qed.

(** The ingestion of [backwardSweep] with an empty ring: both points go to
    scan 15, the second one with relative time [- 1 / 7]. *)
Lemma ingest_backward (g : Globals) :
  (imuPointerLast g < 0)%Z ->
  ingest (removeNaNFromPointCloud (cloud_points backwardSweep))
    (cloud_stamp backwardSweep) g
  = Ok {| ig_globals := g;
          halfPassed := false;
          count := 2;
          laserCloudScans :=
            upd (upd (fun _ => []) 15 [mkPoint 0 0 1 (15 + scanPeriod * 0)])
              15 [mkPoint 0 0 1 (15 + scanPeriod * 0);
                  mkPoint 1 0 1 (15 + scanPeriod * (- 1 / 7))] |}.
Proof.
  intros Hg. pose proof PI_RGT_0 as Hpi.
  cbn [backwardSweep cloud_points cloud_stamp removeNaNFromPointCloud].
  unfold ingest.
  set (l := [mkXYZ 1 0 0; mkXYZ 1 1 0]).
  change (Z.of_nat (length l)) with 2%Z.
  change (at_ l 0) with (Ok (mkXYZ 1 0 0)).
  change (at_ l (2 - 1)) with (Ok (mkXYZ 1 1 0)).
  cbn [bind]. unfold forUp. change (Z.to_nat (2 - 1 - 0 + 1)) with 2%nat.
  unfold computeStartOri, computeEndOri. cbn [rx ry rz].
  rewrite atan2_0_1, atan2_1_1.
  assert (Hend : normalizeEndOri (- 0) (- (PI / 4) + 2 * PI)
                 = - (PI / 4) + 2 * PI).
  { unfold normalizeEndOri.
    destruct (Rgt_dec _ _) as [H|_]; [lra|].
    destruct (Rlt_dec _ _) as [H|_]; [lra|]. reflexivity. }
  rewrite Hend.
  cbn [iterate].
  erewrite ingestPoint_kept;
    [| reflexivity
     | cbn [rx ry rz]; rewrite computeScanID_level by lra; cbn; lia].
  cbn [ig_globals halfPassed count laserCloudScans rx ry rz].
  rewrite computeScanID_level by lra. rewrite computeOri_ahead.
  rewrite compensate_noimu by exact Hg. cbn [fst snd app].
  erewrite ingestPoint_kept;
    [| reflexivity
     | cbn [rx ry rz]; rewrite computeScanID_level by lra; cbn; lia].
  cbn [ig_globals halfPassed count laserCloudScans rx ry rz].
  rewrite computeScanID_level by lra.
  assert (Hori : computeOri (- 0) (- (PI / 4) + 2 * PI) false 1 1
                 = (- (PI / 4), false)).
  { unfold computeOri. cbn [negb]. rewrite atan2_1_1.
    destruct (Rlt_dec _ _) as [H|_]; [lra|].
    destruct (Rgt_dec _ _) as [H|_]; [lra|].
    destruct (Rgt_dec _ _) as [H|_]; [lra|]. reflexivity. }
  rewrite Hori. rewrite compensate_noimu by exact Hg.
  cbn [fst snd]. rewrite upd_same. cbn [app].
  replace ((- 0 - - 0) / (- (PI / 4) + 2 * PI - - 0)) with 0
    by (unfold Rdiv; ring).
  replace ((- (PI / 4) - - 0) / (- (PI / 4) + 2 * PI - - 0)) with (- 1 / 7)
    by (field; lra).
  reflexivity.
Qed.

(** C6.  The claim fails on [backwardSweep]: the second point is kept and
    placed in scan 15 with the intensity [15 + scanPeriod * relTime] for
    the relative time [- 1 / 7], which is below 15; its integer part is 14,
    not the scan it was placed in, and the rest divided by [scanPeriod] is
    above 1.5. *)
Theorem intensity_of_early_point
  (downSizeFilter : list PointType -> list PointType) :
  exists ig q0 q1 g' out,
    ingest (removeNaNFromPointCloud (cloud_points backwardSweep))
      (cloud_stamp backwardSweep) readyGlobals = Ok ig
    /\ laserCloudScans ig 15%Z = [q0; q1]
    /\ laserCloudHandler downSizeFilter backwardSweep readyGlobals
       = Ok (g', Some out)
    /\ laserCloudOut out = [q0; q1]
    /\ intensity q1 = 15 + scanPeriod * (- 1 / 7)
    /\ Int_part (intensity q1) = 14%Z
    /\ truncate (intensity q1) = 14%Z
    /\ 1.5 < (intensity q1 - IZR (Int_part (intensity q1))) / scanPeriod.
Proof.
  assert (Hg : (imuPointerLast readyGlobals < 0)%Z) by (cbn; lia).
  pose proof (ingest_backward readyGlobals Hg) as Hing.
  eexists. eexists. eexists.
  destruct (extractFeatures_two downSizeFilter
              [mkPoint 0 0 1 (15 + scanPeriod * 0);
               mkPoint 1 0 1 (15 + scanPeriod * (- 1 / 7))]
              (scratch readyGlobals)) as (ft & Hft & _).
  eexists. eexists.
  split; [exact Hing|].
  cbn [laserCloudScans]. rewrite upd_same.
  split; [reflexivity|].
  unfold laserCloudHandler.
  change (systemInited readyGlobals) with true. cbn [negb].
  rewrite Hing. cbn [bind ig_globals count laserCloudScans].
  rewrite concatScans_last, Hft. cbn [bind].
  split; [reflexivity|]. cbn [laserCloudOut intensity].
  split; [reflexivity|]. split; [reflexivity|].
  assert (Hip : Int_part (15 + scanPeriod * (- 1 / 7)) = 14%Z).
  { apply Int_part_eq. unfold scanPeriod. lra. }
  split; [exact Hip|].
  split.
  - apply truncate_nonneg; unfold scanPeriod; lra.
  - rewrite Hip. unfold scanPeriod. lra.
Qed.

(** ** Loops that run to their end *)

(** A loop whose rounds all succeed without [break] and carry a property
    indexed by the number of rounds done. *)
Lemma iterate_total {S : Type} (P : nat -> S -> Prop)
  (body : Z -> S -> Res (Ctl S)) (lo step : Z) (n : nat) :
  (forall (k : nat) (s : S), (k < n)%nat -> P k s ->
     exists s', body (lo + Z.of_nat k * step)%Z s = Ok (Next s')
                /\ P (Datatypes.S k) s') ->
  forall s : S, P 0%nat s ->
    exists s', iterate n lo step body s = Ok s' /\ P n s'.
Proof.
  intros Hbody.
  assert (H : forall (m k : nat) (s : S),
             (k + m = n)%nat -> P k s ->
             exists s', iterate m (lo + Z.of_nat k * step)%Z step body s
                        = Ok s' /\ P n s').
  { induction m as [|m IH]; intros k s Hk Hs.
    - cbn. exists s. split; [reflexivity|].
      replace n with k by lia. exact Hs.
    - cbn [iterate].
      destruct (Hbody k s ltac:(lia) Hs) as (s1 & -> & Hs1).
      replace (lo + Z.of_nat k * step + step)%Z
        with (lo + Z.of_nat (Datatypes.S k) * step)%Z by lia.
      apply IH; [lia | exact Hs1]. }
  intros s Hs. specialize (H n 0%nat s eq_refl Hs).
  replace (lo + Z.of_nat 0 * step)%Z with lo in H by lia. exact H.
Qed.

Lemma forUp_total {S : Type} (P : nat -> S -> Prop)
  (body : Z -> S -> Res (Ctl S)) (lo hi : Z) :
  (forall (k : nat) (s : S), (lo + Z.of_nat k <= hi)%Z -> P k s ->
     exists s', body (lo + Z.of_nat k)%Z s = Ok (Next s')
                /\ P (Datatypes.S k) s') ->
  forall s : S, P 0%nat s ->
    exists s', forUp lo hi body s = Ok s'
               /\ P (Z.to_nat (hi - lo + 1)) s'.
Proof.
  intros Hbody s Hs. unfold forUp.
  apply (iterate_total P body lo 1); [|exact Hs].
  intros k s0 Hk Hs0.
  replace (lo + Z.of_nat k * 1)%Z with (lo + Z.of_nat k)%Z by lia.
  apply Hbody; [lia | exact Hs0].
Qed.

Lemma forDown_total {S : Type} (P : nat -> S -> Prop)
  (body : Z -> S -> Res (Ctl S)) (hi lo : Z) :
  (forall (k : nat) (s : S), (lo <= hi - Z.of_nat k)%Z -> P k s ->
     exists s', body (hi - Z.of_nat k)%Z s = Ok (Next s')
                /\ P (Datatypes.S k) s') ->
  forall s : S, P 0%nat s ->
    exists s', forDown hi lo body s = Ok s'
               /\ P (Z.to_nat (hi - lo + 1)) s'.
Proof.
  intros Hbody s Hs. unfold forDown.
  apply (iterate_total P body hi (-1)); [|exact Hs].
  intros k s0 Hk Hs0.
  replace (hi + Z.of_nat k * -1)%Z with (hi - Z.of_nat k)%Z by lia.
  apply Hbody; [lia | exact Hs0].
Qed.

(** A loop over an empty range does nothing. *)
Lemma forUp_empty {S : Type} (body : Z -> S -> Res (Ctl S)) (lo hi : Z)
  (s : S) : (hi < lo)%Z -> forUp lo hi body s = Ok s.
Proof.
  intros H. unfold forUp. replace (Z.to_nat (hi - lo + 1)) with 0%nat by lia.
  reflexivity.
Qed.

Lemma forDown_empty {S : Type} (body : Z -> S -> Res (Ctl S)) (hi lo : Z)
  (s : S) : (hi < lo)%Z -> forDown hi lo body s = Ok s.
Proof.
  intros H. unfold forDown.
  replace (Z.to_nat (hi - lo + 1)) with 0%nat by lia. reflexivity.
Qed.

Lemma at_nth_error {A : Type} (l : list A) (k : nat) (a : A) :
  nth_error l k = Some a -> at_ l (Z.of_nat k) = Ok a.
Proof.
  intros H. unfold at_.
  destruct (Z.ltb_spec (Z.of_nat k) 0); [lia|].
  rewrite Nat2Z.id, H. reflexivity.
Qed.

(** ** The ingestion of a wall ahead *)

Lemma atan_nonpos (x : R) : x <= 0 -> - PI / 2 < atan x <= 0.
Proof.
  intros Hx. pose proof (atan_bound x) as Hb. split; [lra|].
  destruct (Req_dec x 0) as [->|Hne]; [rewrite atan_0; lra|].
  left. rewrite <- atan_0. apply atan_increasing. lra.
Qed.

(** The azimuth of such a point in a sweep that starts straight ahead. *)
Lemma computeOri_aheadRight (endOri x z : R) :
  0 < z -> x <= 0 ->
  exists ori, computeOri (- 0) endOri false x z = (ori, false)
              /\ 0 <= ori < PI / 2.
Proof.
  intros Hz Hx. pose proof PI_RGT_0 as Hpi.
  assert (Hq : x / z <= 0).
  { unfold Rdiv. assert (0 < / z) by now apply Rinv_0_lt_compat. nra. }
  pose proof (atan_nonpos _ Hq) as Ha.
  unfold computeOri. cbn [negb]. rewrite atan2_pos_x by exact Hz.
  exists (- atan (x / z)).
  destruct (Rlt_dec _ _) as [H|_]; [lra|].
  destruct (Rgt_dec _ _) as [H|_]; [lra|].
  destruct (Rgt_dec _ _) as [H|_]; [lra|].
  split; [reflexivity | lra].
Qed.

Lemma firstn_snoc {A : Type} (l : list A) (k : nat) (a : A) :
  nth_error l k = Some a -> firstn (S k) l = firstn k l ++ [a].
Proof.
  revert k. induction l as [|b l IH]; intros [|k] H; cbn in *;
    try discriminate.
  - now inversion H.
  - f_equal. now apply IH.
Qed.

Lemma ingest_aheadRight (l : list PointXYZ) (first : PointXYZ)
  (rest : list PointXYZ) (timeScanCur : R) (g : Globals) :
  l = first :: rest -> ry first = 0 -> Forall aheadRight l ->
  (imuPointerLast g < 0)%Z ->
  exists ig,
    ingest l timeScanCur g = Ok ig
    /\ ig_globals ig = g
    /\ count ig = Z.of_nat (length l)
    /\ (forall j : Z, j <> 15%Z -> laserCloudScans ig j = [])
    /\ Forall2 storedAs l (laserCloudScans ig 15%Z).
Proof.
  intros Hl Hfirst Hall Hg. pose proof PI_RGT_0 as Hpi.
  assert (Hlen : (0 < length l)%nat) by (rewrite Hl; cbn; lia).
  unfold ingest.
  assert (H0 : at_ l 0 = Ok first) by (rewrite Hl; reflexivity).
  destruct (nth_error l (length l - 1)) as [pN|] eqn:HN;
    [|apply nth_error_None in HN; lia].
  assert (HatN : at_ l (Z.of_nat (length l) - 1) = Ok pN).
  { replace (Z.of_nat (length l) - 1)%Z with (Z.of_nat (length l - 1))
      by lia. now apply at_nth_error. }
  rewrite H0, HatN. cbn [bind].
  assert (HfirstA : aheadRight first).
  { rewrite Forall_forall in Hall. apply Hall. rewrite Hl. now left. }
  assert (HNA : aheadRight pN).
  { rewrite Forall_forall in Hall. apply Hall.
    eapply nth_error_In. exact HN. }
  assert (Hstart : computeStartOri first = - 0).
  { unfold computeStartOri. rewrite Hfirst.
    rewrite atan2_pos_x by apply HfirstA.
    unfold Rdiv. rewrite Rmult_0_l, atan_0. reflexivity. }
  rewrite Hstart.
  set (endOri := normalizeEndOri (- 0) (computeEndOri pN)).
  assert (Hend : 2 * PI <= endOri - - 0 < 3 * PI).
  { unfold endOri, computeEndOri, normalizeEndOri.
    destruct HNA as (_ & Hx & Hy).
    rewrite atan2_pos_x by exact Hx.
    assert (Hq : ry pN / rx pN <= 0).
    { unfold Rdiv. assert (0 < / rx pN) by now apply Rinv_0_lt_compat.
      nra. }
    pose proof (atan_nonpos _ Hq) as Ha.
    destruct (Rgt_dec _ _) as [H|_]; [lra|].
    destruct (Rlt_dec _ _) as [H|_]; lra. }
  set (P := fun (k : nat) (st : Ingest) =>
              ig_globals st = g /\ halfPassed st = false
              /\ count st = Z.of_nat (length l)
              /\ (forall j : Z, j <> 15%Z -> laserCloudScans st j = [])
              /\ Forall2 storedAs (firstn k l) (laserCloudScans st 15%Z)).
  destruct (forUp_total P (ingestPoint l timeScanCur (- 0) endOri) 0
              (Z.of_nat (length l) - 1)) with
    (s := {| ig_globals := g; halfPassed := false;
             count := Z.of_nat (length l);
             laserCloudScans := fun _ : Z => [] |})
    as (ig & Hrun & HP).
  - intros k st Hk (Hg' & Hh & Hc & Ho & Hs).
    destruct (nth_error l k) as [raw|] eqn:Hk';
      [|apply nth_error_None in Hk'; lia].
    assert (Hraw : aheadRight raw).
    { rewrite Forall_forall in Hall. apply Hall.
      eapply nth_error_In. exact Hk'. }
    destruct Hraw as (Hz & Hx & Hy).
    pose proof (at_nth_error _ _ _ Hk') as Hat.
    rewrite Z.add_0_l.
    rewrite (ingestPoint_kept _ _ _ _ _ _ raw Hat)
      by (rewrite Hz, computeScanID_level by nra; cbn; lia).
    rewrite Hz, computeScanID_level by nra. rewrite Hh, Hg'.
    destruct (computeOri_aheadRight endOri (ry raw) (rx raw) Hx Hy)
      as (ori & -> & Hori).
    rewrite compensate_noimu by exact Hg. cbn [fst snd].
    eexists. split; [reflexivity|].
    unfold P. cbn [ig_globals halfPassed count laserCloudScans].
    repeat split; try assumption; try reflexivity.
    + intros j Hj. rewrite upd_other by exact Hj. now apply Ho.
    + rewrite upd_same, (firstn_snoc _ _ _ Hk').
      apply Forall2_app; [exact Hs|]. constructor; [|constructor].
      unfold storedAs. cbn [px py pz intensity].
      repeat split; try reflexivity.
      * assert (0 <= (ori - - 0) / (endOri - - 0)).
        { apply Rmult_le_pos; [lra|].
          left. apply Rinv_0_lt_compat. lra. }
        unfold scanPeriod. lra.
      * assert ((ori - - 0) / (endOri - - 0) < 1).
        { apply Rmult_lt_reg_r with (endOri - - 0); [lra|].
          unfold Rdiv. rewrite Rmult_assoc, Rinv_l by lra. lra. }
        unfold scanPeriod. lra.
  - unfold P. cbn. repeat split; try reflexivity. constructor.
  - exists ig. split; [exact Hrun|].
    destruct HP as (Hg' & _ & Hc & Ho & Hs).
    repeat split; try assumption.
    replace (Z.to_nat (Z.of_nat (length l) - 1 - 0 + 1)) with (length l)
      in Hs by lia.
    now rewrite firstn_all in Hs.
Qed.

(** ** Curvature and filter on the wall *)

Lemma rd_in {A : Type} (len : Z) (a : array A) (i : Z) :
  (0 <= i < len)%Z -> rd len a i = Ok (a i).
Proof.
  intros H. unfold rd, inb.
  destruct (Z.leb_spec 0 i); [|lia]. destruct (Z.ltb_spec i len); [|lia].
  reflexivity.
Qed.

Lemma wr_in {A : Type} (len : Z) (a : array A) (i : Z) (v : A) :
  (0 <= i < len)%Z -> wr len a i v = Ok (upd a i v).
Proof.
  intros H. unfold wr, inb.
  destruct (Z.leb_spec 0 i); [|lia]. destruct (Z.ltb_spec i len); [|lia].
  reflexivity.
Qed.

Lemma truncate_15 (w : R) : 15 <= w < 16 -> truncate w = 15%Z.
Proof. intros H. apply truncate_nonneg; lra. Qed.

(** Reads the point of index [j] of a wall cloud: rewrites [at_ cloud j]
    in the goal and names the point and its coordinates. *)
Ltac wall_at Hwall j p :=
  let Hat := fresh "Hat" in
  let Hx := fresh "Hx" p in
  let Hy := fresh "Hy" p in
  let Hz := fresh "Hz" p in
  let Hw := fresh "Hw" p in
  destruct (Hwall j ltac:(lia)) as (p & Hat & Hx & Hy & Hz & Hw);
  rewrite Hat; clear Hat; cbn [bind].

Lemma computeCurvature_wall (cloud : list PointType) (sc : Scratch) :
  isWall cloud ->
  exists cv,
    computeCurvature cloud 39 sc = Ok cv
    /\ (forall i : Z, (5 <= i < 34)%Z ->
          cloudCurvature (cv_scratch cv) i = 0
          /\ cloudSortInd (cv_scratch cv) i = i
          /\ cloudNeighborPicked (cv_scratch cv) i = 0%Z
          /\ cloudLabel (cv_scratch cv) i = 0%Z)
    /\ (forall j : Z,
          scanStartInd cv j
          = if Z.eqb j 0 then 5%Z else if Z.eqb j 15 then 10%Z else 0%Z)
    /\ (forall j : Z,
          scanEndInd cv j = if Z.eqb j 15 then 34%Z else 0%Z).
Proof.
  intros Hwall. unfold computeCurvature.
  set (P := fun (k : nat) (st : Curv) =>
              (forall i : Z, (5 <= i < 5 + Z.of_nat k)%Z ->
                 cloudCurvature (cv_scratch st) i = 0
                 /\ cloudSortInd (cv_scratch st) i = i
                 /\ cloudNeighborPicked (cv_scratch st) i = 0%Z
                 /\ cloudLabel (cv_scratch st) i = 0%Z)
              /\ scanCount st = (if Nat.eqb k 0 then -1 else 15)%Z
              /\ (forall j : Z,
                    scanStartInd st j
                    = if Nat.eqb k 0 then 0%Z
                      else if Z.eqb j 15 then 10%Z else 0%Z)
              /\ (forall j : Z, scanEndInd st j = 0%Z)).
  destruct (forUp_total P (curvaturePoint cloud) 5 (39 - 5 - 1))
    with (s := mkCurv sc (-1) zerosZ zerosZ) as (st & -> & HP).
  - intros k st Hk (Harr & Hcount & Hstart & Hend).
    set (i := (5 + Z.of_nat k)%Z) in *.
    unfold curvaturePoint.
    wall_at Hwall (i - 5)%Z m5. wall_at Hwall (i - 4)%Z m4.
    wall_at Hwall (i - 3)%Z m3. wall_at Hwall (i - 2)%Z m2.
    wall_at Hwall (i - 1)%Z m1. wall_at Hwall i p.
    wall_at Hwall (i + 1)%Z p1. wall_at Hwall (i + 2)%Z p2.
    wall_at Hwall (i + 3)%Z p3. wall_at Hwall (i + 4)%Z p4.
    wall_at Hwall (i + 5)%Z p5.
    assert (HdX : diffSum px m5 m4 m3 m2 m1 p p1 p2 p3 p4 p5 = 0).
    { unfold diffSum.
      rewrite Hxm5, Hxm4, Hxm3, Hxm2, Hxm1, Hxp, Hxp1, Hxp2, Hxp3, Hxp4,
        Hxp5.
      rewrite !minus_IZR, !plus_IZR. lra. }
    assert (HdY : diffSum py m5 m4 m3 m2 m1 p p1 p2 p3 p4 p5 = 0).
    { unfold diffSum.
      rewrite Hym5, Hym4, Hym3, Hym2, Hym1, Hyp, Hyp1, Hyp2, Hyp3, Hyp4,
        Hyp5. lra. }
    assert (HdZ : diffSum pz m5 m4 m3 m2 m1 p p1 p2 p3 p4 p5 = 0).
    { unfold diffSum.
      rewrite Hzm5, Hzm4, Hzm3, Hzm2, Hzm1, Hzp, Hzp1, Hzp2, Hzp3, Hzp4,
        Hzp5. lra. }
    rewrite HdX, HdY, HdZ.
    replace (0 * 0 + 0 * 0 + 0 * 0) with 0 by ring.
    rewrite !wr_in by (unfold maxCloudSize; lia). cbn [bind].
    rewrite (truncate_15 _ Hwp), Hcount.
    destruct k as [|k].
    + cbn [Nat.eqb Z.eqb negb].
      change ((15 >? 0) && (15 <? N_SCANS))%Z with true. cbn match.
      rewrite !wr_in by (unfold N_SCANS; lia). cbn [bind].
      eexists. split; [reflexivity|].
      unfold P. cbn [cv_scratch scanCount scanStartInd scanEndInd
                     cloudCurvature cloudSortInd cloudNeighborPicked
                     cloudLabel Nat.eqb].
      split; [|split; [reflexivity|split]].
      * intros i0 Hi0. assert (i0 = i) as -> by lia.
        rewrite !upd_same. auto.
      * intros j. unfold upd. rewrite Hstart. cbn [Nat.eqb].
        destruct (Z.eqb j 15); reflexivity.
      * intros j. unfold upd. rewrite Hend.
        destruct (Z.eqb j (15 - 1)); reflexivity.
    + cbn [Nat.eqb]. rewrite Z.eqb_refl. cbn [negb].
      eexists. split; [reflexivity|].
      unfold P. cbn [cv_scratch scanCount scanStartInd scanEndInd
                     cloudCurvature cloudSortInd cloudNeighborPicked
                     cloudLabel Nat.eqb].
      split; [|split; [reflexivity|split]].
      * intros i0 Hi0.
        destruct (Z.eq_dec i0 i) as [->|Hne].
        -- rewrite !upd_same. auto.
        -- rewrite !upd_other by exact Hne. apply Harr. lia.
      * intros j. rewrite Hstart. reflexivity.
      * exact Hend.
  - unfold P. cbn. repeat split; try reflexivity; lia.
  - cbn [bind]. destruct HP as (Harr & _ & Hstart & Hend).
    rewrite !wr_in by (unfold N_SCANS; lia). cbn [bind].
    eexists. split; [reflexivity|].
    cbn [cv_scratch scanStartInd scanEndInd].
    split; [|split].
    + intros i Hi. apply Harr. lia.
    + intros j. unfold upd. rewrite Hstart.
      destruct (Z.eqb_spec j 0); [reflexivity|].
      change (Nat.eqb (Z.to_nat (39 - 5 - 1 - 5 + 1)) 0) with false.
      reflexivity.
    + intros j. unfold upd. rewrite Hend.
      change (N_SCANS - 1)%Z with 15%Z. change (39 - 5)%Z with 34%Z.
      reflexivity.
Qed.

(** Two neighbours on the wall are 0.25 apart. *)
Lemma wall_gap (i j : Z) (p q : PointType) :
  wallPoint i p -> wallPoint j q -> (j = i + 1 \/ i = j + 1)%Z ->
  sqDist p q = 0.0625.
Proof.
  intros (Hxp & Hyp & Hzp & _) (Hxq & Hyq & Hzq & _) Hij.
  unfold sqDist. cbn zeta. rewrite Hxp, Hyp, Hzp, Hxq, Hyq, Hzq.
  destruct Hij as [-> | ->]; rewrite plus_IZR; lra.
Qed.

Lemma wall_far (i : Z) (p : PointType) :
  wallPoint i p -> 16384 <= sqNorm p.
Proof.
  intros (Hxp & Hyp & Hzp & _). unfold sqNorm. rewrite Hyp, Hzp.
  pose proof (Rle_0_sqr (px p)) as H. unfold Rsqr in H. lra.
Qed.

Lemma filterCloud_wall (cloud : list PointType) (sc : Scratch) :
  isWall cloud ->
  filterCloud cloud 39 sc
  = Ok (set_cloudNeighborPicked sc (cloudNeighborPicked sc)).
Proof.
  intros Hwall. unfold filterCloud.
  destruct (forUp_total (fun _ picked => picked = cloudNeighborPicked sc)
              (filterPoint cloud) 5 (39 - 6 - 1))
    with (s := cloudNeighborPicked sc) as (picked & -> & ->);
    [| reflexivity | reflexivity].
  intros k picked Hk ->.
  set (i := (5 + Z.of_nat k)%Z) in *.
  unfold filterPoint.
  destruct (Hwall (i + 1)%Z ltac:(lia)) as (p1 & -> & Hp1).
  destruct (Hwall i ltac:(lia)) as (p & -> & Hp).
  destruct (Hwall (i - 1)%Z ltac:(lia)) as (m1 & Hm1 & Hm1w).
  cbn [bind].
  rewrite (wall_gap _ _ _ _ Hp1 Hp) by lia.
  pose proof (wall_far _ _ Hp) as Hfar.
  destruct (Rgt_dec 0.0625 0.1) as [H|_]; [lra|].
  cbn [bind]. rewrite Hm1. cbn [bind].
  destruct (Rgt_dec 0.0625 (0.0002 * sqNorm p)) as [H|_]; [lra|].
  eexists. split; reflexivity.
Qed.

(** ** Selection on the wall *)

(** On the wall the spread mask stops at the first neighbour on either
    side: only the selected point is marked. *)
Lemma markPicked_wall (cloud : list PointType) (ind : Z) (picked : array Z) :
  isWall cloud -> (1 <= ind <= 37)%Z ->
  markPicked cloud ind picked = Ok (upd picked ind 1%Z).
Proof.
  intros Hwall Hind. unfold markPicked.
  rewrite wr_in by (unfold maxCloudSize; lia). cbn [bind].
  unfold spreadForward, forUp. change (Z.to_nat (5 - 1 + 1)) with 5%nat.
  cbn [iterate].
  destruct (Hwall (ind + 1)%Z ltac:(lia)) as (a & -> & Ha).
  destruct (Hwall (ind + 1 - 1)%Z ltac:(lia)) as (b & -> & Hb).
  cbn [bind]. rewrite (wall_gap _ _ _ _ Ha Hb) by lia.
  destruct (Rgt_dec 0.0625 0.05) as [_|H]; [|lra]. cbn [bind].
  unfold spreadBackward, forDown.
  change (Z.to_nat (-1 - -5 + 1)) with 5%nat. cbn [iterate].
  destruct (Hwall (ind + -1)%Z ltac:(lia)) as (c & -> & Hc).
  destruct (Hwall (ind + -1 + 1)%Z ltac:(lia)) as (d & -> & Hd).
  cbn [bind]. rewrite (wall_gap _ _ _ _ Hc Hd) by lia.
  destruct (Rgt_dec 0.0625 0.05) as [_|H]; [|lra]. reflexivity.
Qed.

(** A round of the flat loop that selects one of the first three flat
    points of a sector of the wall. *)
Lemma flatStep_wall (cloud : list PointType) (k : Z) (ft : Features)
  (n : Z) (p : PointType) :
  isWall cloud -> (1 <= k <= 37)%Z -> at_ cloud k = Ok p ->
  cloudSortInd (ft_scratch ft) k = k ->
  cloudNeighborPicked (ft_scratch ft) k = 0%Z ->
  cloudCurvature (ft_scratch ft) k = 0 ->
  (n + 1 < 4)%Z ->
  flatStep cloud k (ft, n)
  = Ok (Next
          ({| ft_scratch :=
                mkScratch (cloudCurvature (ft_scratch ft))
                  (cloudSortInd (ft_scratch ft))
                  (upd (cloudNeighborPicked (ft_scratch ft)) k 1%Z)
                  (upd (cloudLabel (ft_scratch ft)) k (-1)%Z);
              cornerPointsSharp := cornerPointsSharp ft;
              cornerPointsLessSharp := cornerPointsLessSharp ft;
              surfPointsFlat := surfPointsFlat ft ++ [p];
              surfPointsLessFlat := surfPointsLessFlat ft |},
           (n + 1)%Z)).
Proof.
  intros Hwall Hk Hat Hsort Hpicked Hcurv Hn. unfold flatStep.
  rewrite rd_in by (unfold maxCloudSize; lia). cbn [bind]. rewrite Hsort.
  rewrite rd_in by (unfold maxCloudSize; lia). cbn [bind]. rewrite Hpicked.
  cbn [Z.eqb].
  rewrite rd_in by (unfold maxCloudSize; lia). cbn [bind]. rewrite Hcurv.
  destruct (Rlt_dec 0 0.1) as [_|H]; [|lra].
  rewrite wr_in by (unfold maxCloudSize; lia). cbn [bind].
  rewrite Hat. cbn [bind].
  destruct (Z.geb_spec (n + 1) 4); [lia|].
  rewrite markPicked_wall by assumption. cbn [bind]. reflexivity.
Qed.

(** The round of the flat loop that selects the fourth flat point of a
    sector, on any cloud and any scratch arrays: the point is labelled
    and stored, and the loop is left before the point is marked. *)
Lemma flatStep_fourth (cloud : list PointType) (k ind : Z) (ft : Features)
  (p : PointType) :
  (0 <= k < maxCloudSize)%Z -> cloudSortInd (ft_scratch ft) k = ind ->
  (0 <= ind < maxCloudSize)%Z -> at_ cloud ind = Ok p ->
  cloudNeighborPicked (ft_scratch ft) ind = 0%Z ->
  cloudCurvature (ft_scratch ft) ind < 0.1 ->
  flatStep cloud k (ft, 3%Z)
  = Ok (Break
          ({| ft_scratch :=
                mkScratch (cloudCurvature (ft_scratch ft))
                  (cloudSortInd (ft_scratch ft))
                  (cloudNeighborPicked (ft_scratch ft))
                  (upd (cloudLabel (ft_scratch ft)) ind (-1)%Z);
              cornerPointsSharp := cornerPointsSharp ft;
              cornerPointsLessSharp := cornerPointsLessSharp ft;
              surfPointsFlat := surfPointsFlat ft ++ [p];
              surfPointsLessFlat := surfPointsLessFlat ft |},
           4%Z)).
Proof.
  intros Hk Hsort Hind Hat Hpicked Hcurv. unfold flatStep.
  rewrite rd_in by exact Hk. cbn [bind]. rewrite Hsort.
  rewrite rd_in by exact Hind. cbn [bind]. rewrite Hpicked. cbn [Z.eqb].
  rewrite rd_in by exact Hind. cbn [bind].
  destruct (Rlt_dec _ 0.1) as [_|H]; [|contradiction].
  rewrite wr_in by exact Hind. cbn [bind]. rewrite Hat. cbn [bind].
  reflexivity.
Qed.

(** The sort of a sector of the wall swaps nothing. *)
Lemma sortSector_wall (sp : Z) (curvature : array R) (sortInd : array Z) :
  (5 <= sp)%Z -> (sp + 3 <= 33)%Z ->
  (forall i : Z, (sp <= i < 34)%Z -> curvature i = 0 /\ sortInd i = i) ->
  sortSector sp (sp + 3) curvature sortInd = Ok sortInd.
Proof.
  intros Hsp Hep Hfresh. unfold sortSector.
  destruct (forUp_total (fun _ s => s = sortInd)
              (fun k s =>
                 s' <- forDown k (sp + 1) (sortStep curvature) s ;;
                 Ok (Next s'))
              (sp + 1) (sp + 3)) with (s := sortInd)
    as (s' & -> & ->); [| reflexivity | reflexivity].
  intros k s Hk ->.
  destruct (forDown_total (fun _ s => s = sortInd) (sortStep curvature)
              (sp + 1 + Z.of_nat k) (sp + 1)) with (s := sortInd)
    as (s' & -> & ->); [| reflexivity | eexists; split; reflexivity].
  intros m s Hm ->. set (l := (sp + 1 + Z.of_nat k - Z.of_nat m)%Z) in *.
  unfold sortStep.
  rewrite !rd_in by (unfold maxCloudSize; lia). cbn [bind].
  destruct (Hfresh l ltac:(lia)) as (_ & ->).
  destruct (Hfresh (l - 1)%Z ltac:(lia)) as (_ & ->).
  rewrite !rd_in by (unfold maxCloudSize; lia). cbn [bind].
  destruct (Hfresh l ltac:(lia)) as (-> & _).
  destruct (Hfresh (l - 1)%Z ltac:(lia)) as (-> & _).
  destruct (Rlt_dec 0 0) as [H|_]; [lra|].
  eexists. split; reflexivity.
Qed.

(** The corner loop of a sector of the wall selects nothing. *)
Lemma corners_wall (cloud : list PointType) (sp : Z) (ft : Features) :
  (5 <= sp)%Z -> (sp + 3 <= 33)%Z -> freshFrom (ft_scratch ft) sp ->
  forDown (sp + 3) sp (cornerStep cloud) (ft, 0%Z) = Ok (ft, 0%Z).
Proof.
  intros Hsp Hep Hfresh.
  destruct (forDown_total (fun _ s => s = (ft, 0%Z)) (cornerStep cloud)
              (sp + 3) sp) with (s := (ft, 0%Z))
    as (s' & -> & ->); [| reflexivity | reflexivity].
  intros m s Hm ->. set (k := (sp + 3 - Z.of_nat m)%Z) in *.
  unfold cornerStep.
  destruct (Hfresh k ltac:(lia)) as (Hc & Hs & Hp).
  rewrite rd_in by (unfold maxCloudSize; lia). cbn [bind]. rewrite Hs.
  rewrite rd_in by (unfold maxCloudSize; lia). cbn [bind]. rewrite Hp.
  cbn [Z.eqb].
  rewrite rd_in by (unfold maxCloudSize; lia). cbn [bind]. rewrite Hc.
  destruct (Rgt_dec 0 0.1) as [H|_]; [lra|].
  eexists. split; reflexivity.
Qed.

(** The flat loop of a sector of the wall: the four points of the sector
    are selected in order; the first three are marked, the fourth is
    not. *)
Lemma flats_wall (cloud : list PointType) (sp : Z) (ft : Features) :
  isWall cloud -> (5 <= sp)%Z -> (sp + 3 <= 33)%Z ->
  freshFrom (ft_scratch ft) sp ->
  exists ft' p,
    forUp sp (sp + 3) (flatStep cloud) (ft, 0%Z) = Ok (ft', 4%Z)
    /\ cloudCurvature (ft_scratch ft') = cloudCurvature (ft_scratch ft)
    /\ cloudSortInd (ft_scratch ft') = cloudSortInd (ft_scratch ft)
    /\ (forall i : Z, (i < sp \/ sp + 3 <= i)%Z ->
          cloudNeighborPicked (ft_scratch ft') i
          = cloudNeighborPicked (ft_scratch ft) i)
    /\ (forall i : Z, (i < sp \/ sp + 3 < i)%Z ->
          cloudLabel (ft_scratch ft') i = cloudLabel (ft_scratch ft) i)
    /\ cloudLabel (ft_scratch ft') (sp + 3)%Z = (-1)%Z
    /\ at_ cloud (sp + 3)%Z = Ok p
    /\ (forall q, In q (surfPointsFlat ft) \/ q = p ->
                  In q (surfPointsFlat ft'))
    /\ cornerPointsSharp ft' = cornerPointsSharp ft
    /\ cornerPointsLessSharp ft' = cornerPointsLessSharp ft.
Proof.
  intros Hwall Hsp Hep Hfresh.
  destruct (Hwall sp ltac:(lia)) as (p0 & Hat0 & _).
  destruct (Hwall (sp + 1)%Z ltac:(lia)) as (p1 & Hat1 & _).
  destruct (Hwall (sp + 1 + 1)%Z ltac:(lia)) as (p2 & Hat2 & _).
  destruct (Hwall (sp + 1 + 1 + 1)%Z ltac:(lia)) as (p3 & Hat3 & _).
  destruct (Hfresh sp ltac:(lia)) as (Hc0 & Hs0 & Hp0).
  destruct (Hfresh (sp + 1)%Z ltac:(lia)) as (Hc1 & Hs1 & Hp1).
  destruct (Hfresh (sp + 1 + 1)%Z ltac:(lia)) as (Hc2 & Hs2 & Hp2).
  destruct (Hfresh (sp + 1 + 1 + 1)%Z ltac:(lia)) as (Hc3 & Hs3 & Hp3).
  unfold forUp. replace (Z.to_nat (sp + 3 - sp + 1)) with 4%nat by lia.
  cbn [iterate].
  rewrite (flatStep_wall cloud sp ft 0 p0) by (assumption || lia).
  rewrite (flatStep_wall cloud (sp + 1) _ _ p1);
    [| assumption | lia | assumption | exact Hs1
     | cbn [ft_scratch cloudNeighborPicked];
       rewrite upd_other by lia; exact Hp1
     | exact Hc1 | lia].
  cbn [ft_scratch cloudCurvature cloudSortInd cloudNeighborPicked
       cloudLabel cornerPointsSharp cornerPointsLessSharp surfPointsFlat
       surfPointsLessFlat].
  rewrite (flatStep_wall cloud (sp + 1 + 1) _ _ p2);
    [| assumption | lia | assumption | exact Hs2
     | cbn [ft_scratch cloudNeighborPicked];
       rewrite !upd_other by lia; exact Hp2
     | exact Hc2 | lia].
  cbn [ft_scratch cloudCurvature cloudSortInd cloudNeighborPicked
       cloudLabel cornerPointsSharp cornerPointsLessSharp surfPointsFlat
       surfPointsLessFlat].
  change (0 + 1 + 1 + 1)%Z with 3%Z.
  rewrite (flatStep_fourth cloud (sp + 1 + 1 + 1) (sp + 1 + 1 + 1) _ p3);
    [| unfold maxCloudSize; lia | exact Hs3 | unfold maxCloudSize; lia
     | assumption
     | cbn [ft_scratch cloudNeighborPicked];
       rewrite !upd_other by lia; exact Hp3
     | cbn [ft_scratch cloudCurvature]; rewrite Hc3; lra].
  cbn [ft_scratch cloudCurvature cloudSortInd cloudNeighborPicked
       cloudLabel cornerPointsSharp cornerPointsLessSharp surfPointsFlat
       surfPointsLessFlat].
  eexists. exists p3. split; [reflexivity|].
  cbn [ft_scratch cloudCurvature cloudSortInd cloudNeighborPicked
       cloudLabel cornerPointsSharp cornerPointsLessSharp surfPointsFlat
       surfPointsLessFlat].
  replace (sp + 3)%Z with (sp + 1 + 1 + 1)%Z by lia.
  repeat split; try reflexivity.
  - intros i Hi. rewrite !upd_other by lia. reflexivity.
  - intros i Hi. rewrite !upd_other by lia. reflexivity.
  - apply upd_same.
  - exact Hat3.
  - intros q [Hq| ->]; rewrite !in_app_iff; cbn; tauto.
Qed.

(** The less-flat loop of a sector inside the cloud runs to its end. *)
Lemma lessFlat_total (cloud : list PointType) (label : array Z) (sp ep : Z)
  (lfs : list PointType) :
  isWall cloud -> (0 <= sp)%Z -> (ep <= 38)%Z ->
  exists lfs', forUp sp ep (lessFlatStep cloud label) lfs = Ok lfs'.
Proof.
  intros Hwall Hsp Hep.
  destruct (forUp_total (fun _ _ => True) (lessFlatStep cloud label) sp ep)
    with (s := lfs) as (lfs' & H & _); [| exact I | now exists lfs'].
  intros k s Hk _. unfold lessFlatStep.
  rewrite rd_in by (unfold maxCloudSize; lia). cbn [bind].
  destruct (_ <=? 0)%Z.
  - destruct (Hwall (sp + Z.of_nat k)%Z ltac:(lia)) as (p & -> & _).
    cbn [bind]. eexists. split; [reflexivity | exact I].
  - eexists. split; [reflexivity | exact I].
Qed.

(** A sector of four points of the wall. *)
Lemma selectSector_wall (cloud : list PointType)
  (scanStartInd scanEndInd : array Z) (i j sp : Z) (ft : Features)
  (lfs : list PointType) :
  isWall cloud -> (0 <= i < N_SCANS)%Z ->
  Z.quot (scanStartInd i * (6 - j) + scanEndInd i * j) 6 = sp ->
  (Z.quot (scanStartInd i * (5 - j) + scanEndInd i * (j + 1)) 6 - 1)%Z
  = (sp + 3)%Z ->
  (5 <= sp)%Z -> (sp + 3 <= 33)%Z ->
  freshFrom (ft_scratch ft) sp ->
  exists ft' lfs' p,
    selectSector cloud scanStartInd scanEndInd i j (ft, lfs)
    = Ok (Next (ft', lfs'))
    /\ freshFrom (ft_scratch ft') (sp + 4)
    /\ (forall k : Z, (k < sp)%Z ->
          cloudNeighborPicked (ft_scratch ft') k
          = cloudNeighborPicked (ft_scratch ft) k
          /\ cloudLabel (ft_scratch ft') k = cloudLabel (ft_scratch ft) k)
    /\ cloudNeighborPicked (ft_scratch ft') (sp + 3)%Z = 0%Z
    /\ cloudLabel (ft_scratch ft') (sp + 3)%Z = (-1)%Z
    /\ at_ cloud (sp + 3)%Z = Ok p
    /\ (forall q, In q (surfPointsFlat ft) \/ q = p ->
                  In q (surfPointsFlat ft'))
    /\ cornerPointsSharp ft' = cornerPointsSharp ft
    /\ cornerPointsLessSharp ft' = cornerPointsLessSharp ft.
Proof.
  intros Hwall Hi Hsp Hep Hlo Hhi Hfresh. unfold selectSector.
  rewrite !rd_in by exact Hi. cbn [bind]. rewrite Hsp, Hep.
  rewrite sortSector_wall;
    [| exact Hlo | exact Hhi
     | intros k Hk; destruct (Hfresh k Hk) as (? & ? & _); auto].
  cbn [bind].
  set (ft1 := {| ft_scratch :=
                   set_cloudSortInd (ft_scratch ft)
                     (cloudSortInd (ft_scratch ft));
                 cornerPointsSharp := cornerPointsSharp ft;
                 cornerPointsLessSharp := cornerPointsLessSharp ft;
                 surfPointsFlat := surfPointsFlat ft;
                 surfPointsLessFlat := surfPointsLessFlat ft |}).
  assert (Hfresh1 : freshFrom (ft_scratch ft1) sp) by exact Hfresh.
  rewrite corners_wall by assumption. cbn [bind fst].
  destruct (flats_wall cloud sp ft1 Hwall Hlo Hhi Hfresh1)
    as (ft2 & p & -> & Hcv & Hso & Hpk & Hlb & Hlast & Hat & Hin & Hsh & Hle).
  cbn [bind fst].
  destruct (lessFlat_total cloud (cloudLabel (ft_scratch ft2)) sp (sp + 3)
              lfs Hwall ltac:(lia) ltac:(lia)) as (lfs' & ->).
  cbn [bind]. exists ft2, lfs', p. split; [reflexivity|].
  split.
  { intros k Hk. rewrite Hcv, Hso, Hpk by lia. apply Hfresh1. lia. }
  split.
  { intros k Hk. rewrite Hpk, Hlb by lia. split; reflexivity. }
  split.
  { rewrite Hpk by lia. apply Hfresh1. lia. }
  repeat split; assumption.
Qed.

(** A sector whose bounds are crossed does nothing. *)
Lemma selectSector_empty (cloud : list PointType)
  (scanStartInd scanEndInd : array Z) (i j : Z) (ft : Features)
  (lfs : list PointType) :
  (0 <= i < N_SCANS)%Z ->
  (Z.quot (scanStartInd i * (5 - j) + scanEndInd i * (j + 1)) 6 - 1
   < Z.quot (scanStartInd i * (6 - j) + scanEndInd i * j) 6)%Z ->
  selectSector cloud scanStartInd scanEndInd i j (ft, lfs)
  = Ok (Next
          ({| ft_scratch :=
                set_cloudSortInd (ft_scratch ft)
                  (cloudSortInd (ft_scratch ft));
              cornerPointsSharp := cornerPointsSharp ft;
              cornerPointsLessSharp := cornerPointsLessSharp ft;
              surfPointsFlat := surfPointsFlat ft;
              surfPointsLessFlat := surfPointsLessFlat ft |}, lfs)).
Proof.
  intros Hi Hempty. unfold selectSector.
  rewrite !rd_in by exact Hi. cbn [bind].
  unfold sortSector. rewrite forUp_empty by lia. cbn [bind].
  rewrite forDown_empty by lia. cbn [bind fst].
  rewrite forUp_empty by lia. cbn [bind fst].
  rewrite forUp_empty by lia. reflexivity.
Qed.

(** A scan without a usable range selects nothing. *)
Lemma selectScan_empty
  (downSizeFilter : list PointType -> list PointType)
  (cloud : list PointType) (scanStartInd scanEndInd : array Z) (i lo : Z)
  (ft : Features) :
  (0 <= i < N_SCANS)%Z -> (0 <= scanStartInd i)%Z -> scanEndInd i = 0%Z ->
  freshFrom (ft_scratch ft) lo ->
  exists ft',
    selectScan downSizeFilter cloud scanStartInd scanEndInd i ft
    = Ok (Next ft')
    /\ freshFrom (ft_scratch ft') lo
    /\ cornerPointsSharp ft' = cornerPointsSharp ft
    /\ cornerPointsLessSharp ft' = cornerPointsLessSharp ft
    /\ surfPointsFlat ft' = surfPointsFlat ft.
Proof.
  intros Hi Hs He Hfresh. unfold selectScan.
  destruct (forUp_total
              (fun _ (st : Features * list PointType) =>
                 freshFrom (ft_scratch (fst st)) lo
                 /\ cornerPointsSharp (fst st) = cornerPointsSharp ft
                 /\ cornerPointsLessSharp (fst st) = cornerPointsLessSharp ft
                 /\ surfPointsFlat (fst st) = surfPointsFlat ft)
              (selectSector cloud scanStartInd scanEndInd i) 0 5)
    with (s := (ft, @nil PointType)) as ([ft' lfs] & -> & HP).
  - intros k [ft0 lfs0] Hk (Hf & H1 & H2 & H3). cbn [fst] in *.
    rewrite selectSector_empty.
    + eexists. split; [reflexivity|]. cbn [fst].
      split; [exact Hf | repeat split; assumption].
    + exact Hi.
    + rewrite He, !Z.mul_0_l, !Z.add_0_r.
      assert (Z.quot (scanStartInd i * (5 - (0 + Z.of_nat k))) 6
              <= Z.quot (scanStartInd i * (6 - (0 + Z.of_nat k))) 6)%Z.
      { apply Z.quot_le_mono; nia. }
      lia.
  - cbn [fst]. split; [exact Hfresh | repeat split; reflexivity].
  - cbn [bind]. destruct HP as (Hf & H1 & H2 & H3). cbn [fst] in *.
    eexists. split; [reflexivity|].
    split; [exact Hf | repeat split; assumption].
Qed.

(** The scan of the wall: six sectors of four points. *)
Lemma selectScan_wall
  (downSizeFilter : list PointType -> list PointType)
  (cloud : list PointType) (scanStartInd scanEndInd : array Z)
  (ft : Features) :
  isWall cloud -> scanStartInd 15%Z = 10%Z -> scanEndInd 15%Z = 34%Z ->
  freshFrom (ft_scratch ft) 10 ->
  exists ft' p,
    selectScan downSizeFilter cloud scanStartInd scanEndInd 15 ft
    = Ok (Next ft')
    /\ cloudNeighborPicked (ft_scratch ft') 13%Z = 0%Z
    /\ cloudLabel (ft_scratch ft') 13%Z = (-1)%Z
    /\ at_ cloud 13 = Ok p
    /\ In p (surfPointsFlat ft')
    /\ cornerPointsSharp ft' = cornerPointsSharp ft
    /\ cornerPointsLessSharp ft' = cornerPointsLessSharp ft.
Proof.
  intros Hwall Hs He Hfresh. unfold selectScan.
  destruct (Hwall 13%Z ltac:(lia)) as (p & Hat & _).
  set (Q := fun (j : nat) (st : Features * list PointType) =>
              freshFrom (ft_scratch (fst st)) (10 + 4 * Z.of_nat j)
              /\ ((1 <= j)%nat ->
                  cloudNeighborPicked (ft_scratch (fst st)) 13%Z = 0%Z
                  /\ cloudLabel (ft_scratch (fst st)) 13%Z = (-1)%Z
                  /\ In p (surfPointsFlat (fst st)))
              /\ cornerPointsSharp (fst st) = cornerPointsSharp ft
              /\ cornerPointsLessSharp (fst st) = cornerPointsLessSharp ft).
  destruct (forUp_total Q (selectSector cloud scanStartInd scanEndInd 15)
              0 5) with (s := (ft, @nil PointType))
    as ([ft' lfs] & -> & HQ).
  - intros j [ft0 lfs0] Hj (Hf & H13 & H1 & H2). cbn [fst] in *.
    destruct (selectSector_wall cloud scanStartInd scanEndInd 15
                (0 + Z.of_nat j) (10 + 4 * Z.of_nat j) ft0 lfs0)
      as (ft1 & lfs1 & q & -> & Hf1 & Hbelow & Hpk & Hlb & Hq & Hin
          & Hs1 & Hl1); try assumption; try (unfold N_SCANS; lia).
    + rewrite Hs, He.
      replace (10 * (6 - (0 + Z.of_nat j)) + 34 * (0 + Z.of_nat j))%Z
        with ((10 + 4 * Z.of_nat j) * 6)%Z by lia.
      apply Z.quot_mul. lia.
    + rewrite Hs, He.
      replace (10 * (5 - (0 + Z.of_nat j)) + 34 * (0 + Z.of_nat j + 1))%Z
        with ((10 + 4 * Z.of_nat j + 4) * 6)%Z by lia.
      rewrite Z.quot_mul by lia. lia.
    + eexists. split; [reflexivity|]. unfold Q. cbn [fst].
      split.
      { replace (10 + 4 * Z.of_nat (S j))%Z
          with (10 + 4 * Z.of_nat j + 4)%Z by lia. exact Hf1. }
      split; [|split; congruence].
      intros _. destruct j as [|j].
      * change (10 + 4 * Z.of_nat 0 + 3)%Z with 13%Z in Hpk, Hlb, Hq.
        rewrite Hat in Hq. inversion Hq; subst q.
        repeat split; [exact Hpk | exact Hlb |]. apply Hin. now right.
      * destruct (H13 ltac:(lia)) as (Ha & Hb & Hc).
        destruct (Hbelow 13%Z ltac:(lia)) as (-> & ->).
        repeat split; [exact Ha | exact Hb |]. apply Hin. now left.
  - unfold Q. cbn [fst].
    split; [exact Hfresh | repeat split; try reflexivity; lia].
  - cbn [bind]. destruct HQ as (_ & H13 & H1 & H2). cbn [fst] in *.
    destruct (H13 ltac:(cbn; lia)) as (Ha & Hb & Hc).
    eexists. exists p. split; [reflexivity|]. cbn.
    repeat split; assumption.
Qed.

Lemma selectFeatures_wall
  (downSizeFilter : list PointType -> list PointType)
  (cloud : list PointType) (scanStartInd scanEndInd : array Z)
  (sc : Scratch) :
  isWall cloud ->
  (forall j : Z,
     scanStartInd j
     = if Z.eqb j 0 then 5%Z else if Z.eqb j 15 then 10%Z else 0%Z) ->
  (forall j : Z, scanEndInd j = if Z.eqb j 15 then 34%Z else 0%Z) ->
  freshFrom sc 10 ->
  exists ft p,
    selectFeatures downSizeFilter cloud scanStartInd scanEndInd sc = Ok ft
    /\ cloudNeighborPicked (ft_scratch ft) 13%Z = 0%Z
    /\ cloudLabel (ft_scratch ft) 13%Z = (-1)%Z
    /\ at_ cloud 13 = Ok p
    /\ In p (surfPointsFlat ft)
    /\ cornerPointsSharp ft = []
    /\ cornerPointsLessSharp ft = [].
Proof.
  intros Hwall Hs He Hfresh. unfold selectFeatures.
  destruct (Hwall 13%Z ltac:(lia)) as (p & Hat & _).
  set (P := fun (k : nat) (ft : Features) =>
              cornerPointsSharp ft = [] /\ cornerPointsLessSharp ft = []
              /\ ((k <= 15)%nat -> freshFrom (ft_scratch ft) 10)
              /\ ((k = 16)%nat ->
                  cloudNeighborPicked (ft_scratch ft) 13%Z = 0%Z
                  /\ cloudLabel (ft_scratch ft) 13%Z = (-1)%Z
                  /\ In p (surfPointsFlat ft))).
  destruct (forUp_total P
              (selectScan downSizeFilter cloud scanStartInd scanEndInd)
              0 (N_SCANS - 1)) with (s := mkFeatures sc [] [] [] [])
    as (ft & -> & HP).
  - intros k ft Hk (H1 & H2 & Hf & _). unfold N_SCANS in Hk.
    destruct (Nat.eq_dec k 15) as [->|Hne].
    + destruct (selectScan_wall downSizeFilter cloud scanStartInd
                  scanEndInd ft Hwall)
        as (ft' & q & Hrun & Hpk & Hlb & Hq & Hin & Hs1 & Hl1).
      * rewrite Hs. reflexivity.
      * rewrite He. reflexivity.
      * apply Hf. lia.
      * change (0 + Z.of_nat 15)%Z with 15%Z. rewrite Hrun.
        eexists. split; [reflexivity|]. unfold P.
        rewrite Hat in Hq. inversion Hq; subst q.
        repeat split; try congruence; try assumption; try lia.
    + destruct (selectScan_empty downSizeFilter cloud scanStartInd
                  scanEndInd (0 + Z.of_nat k) 10 ft)
        as (ft' & -> & Hf' & Hs1 & Hl1 & _).
      * unfold N_SCANS. lia.
      * rewrite Hs. destruct (Z.eqb _ 0); [lia|].
        destruct (Z.eqb _ 15); lia.
      * rewrite He. destruct (Z.eqb_spec (0 + Z.of_nat k) 15); [lia|].
        reflexivity.
      * apply Hf. lia.
      * eexists. split; [reflexivity|]. unfold P.
        split; [congruence|]. split; [congruence|].
        split; [intros _; exact Hf' | intros Hk16; lia].
  - unfold P. cbn [cornerPointsSharp cornerPointsLessSharp ft_scratch].
    split; [reflexivity|]. split; [reflexivity|].
    split; [intros _; exact Hfresh | intros Hk16; lia].
  - destruct HP as (H1 & H2 & _ & Hfin).
    destruct (Hfin eq_refl) as (Ha & Hb & Hc).
    exists ft, p. repeat split; assumption.
Qed.

Lemma extractFeatures_wall
  (downSizeFilter : list PointType -> list PointType)
  (cloud : list PointType) (sc : Scratch) :
  isWall cloud ->
  exists ft p,
    extractFeatures downSizeFilter cloud 39 sc = Ok ft
    /\ cloudNeighborPicked (ft_scratch ft) 13%Z = 0%Z
    /\ cloudLabel (ft_scratch ft) 13%Z = (-1)%Z
    /\ at_ cloud 13 = Ok p
    /\ In p (surfPointsFlat ft)
    /\ cornerPointsSharp ft = []
    /\ cornerPointsLessSharp ft = [].
Proof.
  intros Hwall. unfold extractFeatures.
  destruct (computeCurvature_wall cloud sc Hwall)
    as (cv & -> & Harr & Hs & He).
  cbn [bind]. rewrite filterCloud_wall by exact Hwall. cbn [bind].
  apply selectFeatures_wall; try assumption.
  intros i Hi. destruct (Harr i ltac:(lia)) as (Hc & Hso & Hp & _).
  repeat split; assumption.
Qed.

(** ** The sweep of the wall *)

Lemma removeNaN_Finite {A : Type} (h : A -> PointXYZ) (l : list A) :
  removeNaNFromPointCloud (map (fun a => Finite (h a)) l) = map h l.
Proof. induction l as [|a l IH]; cbn; [|rewrite IH]; reflexivity. Qed.

Lemma concatScans_only_last (scans : array (list PointType)) :
  (forall j : Z, j <> 15%Z -> scans j = []) ->
  concatScans scans = scans 15%Z.
Proof.
  intros H. unfold concatScans.
  change (seq 0 (Z.to_nat N_SCANS))
    with (seq 0 15 ++ [15%nat]).
  rewrite map_app, concat_app. cbn [map concat].
  change (Z.of_nat 15) with 15%Z. rewrite app_nil_r.
  assert (E : concat (map (fun i : nat => scans (Z.of_nat i)) (seq 0 15))
              = []).
  { apply concat_nil_Forall, Forall_forall. intros l Hl.
    apply in_map_iff in Hl. destruct Hl as (k & <- & Hk).
    apply in_seq in Hk. apply H. lia. }
  rewrite E. reflexivity.
Qed.

Lemma Forall2_nth_error {A B : Type} (R : A -> B -> Prop) (l : list A)
  (l' : list B) (k : nat) (a : A) :
  Forall2 R l l' -> nth_error l k = Some a ->
  exists b, nth_error l' k = Some b /\ R a b.
Proof.
  intros H. revert k. induction H as [|x y l l' Hxy _ IH]; intros [|k] Hk;
    cbn in *; try discriminate.
  - inversion Hk; subst. exists y. auto.
  - now apply IH.
Qed.

Lemma nth_error_seq_0 (n k : nat) :
  (k < n)%nat -> nth_error (seq 0 n) k = Some k.
Proof.
  intros H. rewrite (nth_error_nth' _ 0%nat) by (rewrite length_seq; lia).
  rewrite seq_nth by lia. reflexivity.
Qed.

(** The callback on [flatWallSweep], received as the first sweep after
    the start-up delay with no IMU message: it publishes; point 13 of the
    cloud is in the flat cloud with label -1 and its entry of
    [cloudNeighborPicked] is 0; no corner is selected. *)
Lemma laserCloudHandler_wall
  (downSizeFilter : list PointType -> list PointType) :
  exists g' out p,
    laserCloudHandler downSizeFilter flatWallSweep readyGlobals
    = Ok (g', Some out)
    /\ at_ (laserCloudOut out) 13 = Ok p
    /\ In p (surfPointsFlatOut out)
    /\ cloudLabel (scratch g') 13%Z = (-1)%Z
    /\ cloudNeighborPicked (scratch g') 13%Z = 0%Z
    /\ cornerPointsSharpOut out = []
    /\ cornerPointsLessSharpOut out = [].
Proof.
  set (h := fun k : nat => mkXYZ 128 (- 0.25 * INR k) 0).
  assert (Hg : (imuPointerLast readyGlobals < 0)%Z) by (cbn; lia).
  assert (Hall : Forall aheadRight (map h (seq 0 39))).
  { apply Forall_forall. intros raw Hin. apply in_map_iff in Hin.
    destruct Hin as (k & <- & _). unfold aheadRight, h. cbn [rx ry rz].
    pose proof (pos_INR k). repeat split; lra. }
  destruct (ingest_aheadRight (map h (seq 0 39)) (h 0%nat)
              (map h (seq 1 38)) 0 readyGlobals eq_refl)
    as (ig & Hing & Hglob & Hcount & Hothers & Hstored);
    [cbn; lra | exact Hall | exact Hg |].
  assert (Hwall : isWall (concatScans (laserCloudScans ig))).
  { rewrite concatScans_only_last by exact Hothers.
    intros i Hi.
    assert (Hk : nth_error (map h (seq 0 39)) (Z.to_nat i)
                 = Some (h (Z.to_nat i))).
    { rewrite nth_error_map, nth_error_seq_0 by lia. reflexivity. }
    destruct (Forall2_nth_error _ _ _ _ _ Hstored Hk)
      as (p & Hp & Hx & Hy & Hz & Hw).
    exists p. split.
    - rewrite <- (Z2Nat.id i) by lia. now apply at_nth_error.
    - unfold wallPoint. rewrite Hx, Hz. unfold h. cbn [rx ry].
      rewrite INR_IZR_INZ, Z2Nat.id by lia. auto. }
  destruct (extractFeatures_wall downSizeFilter _ (scratch readyGlobals)
              Hwall)
    as (ft & p & Hft & Hpk & Hlb & Hat & Hin & Hsh & Hle).
  assert (Hrun : laserCloudHandler downSizeFilter flatWallSweep
                   readyGlobals
                 = Ok (set_scratch readyGlobals (ft_scratch ft),
                       Some
                         {| out_stamp := 0;
                            laserCloudOut :=
                              concatScans (laserCloudScans ig);
                            cornerPointsSharpOut := cornerPointsSharp ft;
                            cornerPointsLessSharpOut :=
                              cornerPointsLessSharp ft;
                            surfPointsFlatOut := surfPointsFlat ft;
                            surfPointsLessFlatOut := surfPointsLessFlat ft;
                            imuTransOut :=
                              imuTrans
                                (set_scratch readyGlobals
                                   (ft_scratch ft)) |})).
  { unfold laserCloudHandler.
    change (systemInited readyGlobals) with true. cbn [negb].
    unfold flatWallSweep. cbn [cloud_points cloud_stamp].
    rewrite (removeNaN_Finite h), Hing. cbn [bind].
    rewrite Hglob, Hcount, length_map, length_seq.
    change (Z.of_nat 39) with 39%Z. rewrite Hft. reflexivity. }
  eexists. eexists. exists p. split; [exact Hrun|].
  cbn [laserCloudOut surfPointsFlatOut cornerPointsSharpOut
       cornerPointsLessSharpOut set_scratch scratch].
  repeat split; assumption.
Qed.

(** C3.  The claim fails on [flatWallSweep], received as the first sweep
    after the start-up delay.  The 39 points go to scan 15, whose usable
    range is 10 to 33; sector 0 is 10 to 13, all curvatures are 0, and the
    flat loop selects the points 10, 11, 12 and 13.  Point 13 is the
    fourth: it is labelled -1 and stored in the flat cloud, and the loop
    is left before [cloudNeighborPicked[13]] is written, so the entry is
    still 0 when the callback returns. *)
Theorem fourth_flat_point_not_marked
  (downSizeFilter : list PointType -> list PointType) :
  exists g' out p,
    laserCloudHandler downSizeFilter flatWallSweep readyGlobals
    = Ok (g', Some out)
    /\ spin downSizeFilter (warmUp ++ [CloudEvent flatWallSweep])
         initGlobals = Ok (g', [out])
    /\ at_ (laserCloudOut out) 13 = Ok p
    /\ In p (surfPointsFlatOut out)
    /\ cloudLabel (scratch g') 13%Z = (-1)%Z
    /\ cloudNeighborPicked (scratch g') 13%Z = 0%Z.
Proof.
  destruct (laserCloudHandler_wall downSizeFilter)
    as (g' & out & p & Hrun & Hat & Hin & Hlb & Hpk & _).
  exists g', out, p. split; [exact Hrun|].
  split.
  { rewrite spin_app, spin_warmUp. cbn [bind fst snd spin].
    rewrite Hrun. reflexivity. }
  repeat split; assumption.
Qed.

(** ** The cursors of the ring *)

Lemma advanceFront_range (fuel : nat) (t : R) (r : ImuRing) (last front : Z) :
  (0 <= front < imuQueLength)%Z ->
  (0 <= advanceFront fuel t r last front < imuQueLength)%Z.
Proof.
  revert front. induction fuel as [|fuel IH]; intros front Hf; cbn.
  - exact Hf.
  - destruct (Z.eqb front last); [exact Hf|].
    destruct (Rlt_dec _ _); [exact Hf|].
    apply IH. apply rem_next. lia.
Qed.

(** The search ends as the [while] loop does: on the latest slot, or on a
    slot whose time is after [t].  The distance from the read cursor to
    the latest slot is below [imuQueLength], so [imuQueLength] rounds are
    enough. *)
Lemma advanceFront_stops (t : R) (r : ImuRing) (last front : Z) :
  (0 <= last < imuQueLength)%Z -> (0 <= front < imuQueLength)%Z ->
  let f := advanceFront (Z.to_nat imuQueLength) t r last front in
  f = last \/ t < imuTime r f.
Proof.
  intros Hl Hf. cbn zeta.
  assert (H : forall (fuel : nat) (front : Z),
             (0 <= front < imuQueLength)%Z ->
             ((last - front) mod imuQueLength < Z.of_nat fuel)%Z ->
             advanceFront fuel t r last front = last
             \/ t < imuTime r (advanceFront fuel t r last front)).
  { induction fuel as [|fuel IH]; intros fr Hfr Hd.
    - pose proof (Z.mod_pos_bound (last - fr) imuQueLength) as Hb.
      unfold imuQueLength in *. lia.
    - cbn. destruct (Z.eqb_spec fr last) as [->|Hne]; [now left|].
      destruct (Rlt_dec _ _) as [Hlt|_]; [now right|].
      apply IH; [apply rem_next; lia|].
      destruct (next_cases fr Hfr) as [[Hlt ->]|[-> ->]];
        unfold imuQueLength in *.
      + destruct (Z_lt_le_dec fr last).
        * rewrite Z.mod_small in * by lia. lia.
        * replace (last - fr)%Z with (last - fr + 200 + (-1) * 200)%Z
            in Hd by lia.
          replace (last - (fr + 1))%Z
            with (last - (fr + 1) + 200 + (-1) * 200)%Z by lia.
          rewrite Z.mod_add in * by lia.
          rewrite Z.mod_small in * by lia. lia.
      + replace (last - 199)%Z with (last - 199 + 200 + (-1) * 200)%Z
          in Hd by lia.
        rewrite Z.mod_add in Hd by lia.
        rewrite Z.mod_small in * by lia. lia. }
  apply H; [exact Hf|].
  pose proof (Z.mod_pos_bound (last - front) imuQueLength) as Hb.
  unfold imuQueLength in *. lia.
Qed.

Lemma imuHandler_inRing (m : ImuMsg) (g : Globals) :
  inRing g -> inRing (imuHandler m g).
Proof.
  intros (Hl & Hf). split.
  - pose proof (imuHandler_last_range m g Hl). lia.
  - destruct (imuHandler_sweep_state m g) as (-> & _). exact Hf.
Qed.

Lemma interpolateIMU_cursors (timeScanCur pointTime : R) (g : Globals) :
  inRing g -> inRing (interpolateIMU timeScanCur pointTime g).
Proof.
  intros (Hl & Hf). unfold interpolateIMU, inRing.
  destruct (Rgt_dec _ _); cbn [imuPointerLast imuPointerFront set_imuCur
                              set_imuPointerFront];
    (split; [exact Hl | now apply advanceFront_range]).
Qed.

Lemma compensate_inRing (timeScanCur relTime : R) (i : Z)
  (point : PointType) (g : Globals) :
  inRing g -> inRing (fst (compensate timeScanCur relTime i point g)).
Proof.
  intros Hg. unfold compensate.
  destruct (imuPointerLast g >=? 0)%Z; [|exact Hg].
  pose proof (interpolateIMU_cursors timeScanCur (relTime * scanPeriod)
                g Hg) as H.
  destruct (Z.eqb i 0); exact H.
Qed.

Lemma ingestPoint_inRing (laserCloudIn : list PointXYZ)
  (timeScanCur startOri endOri : R) (i : Z) (st st' : Ingest) :
  inRing (ig_globals st) ->
  ingestPoint laserCloudIn timeScanCur startOri endOri i st = Ok (Next st')
  \/ ingestPoint laserCloudIn timeScanCur startOri endOri i st
     = Ok (Break st') ->
  inRing (ig_globals st').
Proof.
  intros Hg H.
  assert (Hc : exists c, (c = Next st' \/ c = Break st')
                         /\ ingestPoint laserCloudIn timeScanCur startOri
                              endOri i st = Ok c).
  { destruct H as [H|H]; eexists; (split; [|exact H]); auto. }
  clear H. destruct Hc as (c & Hc & H). unfold ingestPoint in H.
  bind_inv H.
  destruct (_ || _)%bool.
  { inversion H; subst. destruct Hc as [Hc|Hc]; inversion Hc; subst.
    exact Hg. }
  destruct (computeOri _ _ _ _ _) as [ori half].
  destruct (compensate _ _ _ _ _) as [g' point'] eqn:Hcomp.
  bind_inv H. inversion H; subst.
  destruct Hc as [Hc|Hc]; inversion Hc; subst. cbn [ig_globals].
  change g' with (fst (g', point')). rewrite <- Hcomp.
  now apply compensate_inRing.
Qed.

(** Both callbacks keep the cursors inside the ring, so every index used
    on the ring arrays is inside them. *)
Lemma laserCloudHandler_inRing
  (downSizeFilter : list PointType -> list PointType)
  (laserCloudMsg : CloudMsg) (g g' : Globals) (out : option Outputs) :
  inRing g ->
  laserCloudHandler downSizeFilter laserCloudMsg g = Ok (g', out) ->
  inRing g'.
Proof.
  intros Hg H. unfold laserCloudHandler in H.
  destruct (negb (systemInited g)).
  { inversion H; subst. exact Hg. }
  bind_inv H. inversion H; subst.
  change (inRing (ig_globals a)).
  unfold ingest in E. bind_inv E. revert E.
  apply (forUp_inv (fun st => inRing (ig_globals st))); [|exact Hg].
  intros k s s'. apply ingestPoint_inRing.
Qed.

(** ** What the selection marks *)

(** A property kept by every round of a loop whose index stays in a set
    closed under the step. *)
Lemma iterate_inv_idx {S : Type} (P : S -> Prop) (I : Z -> Prop)
  (body : Z -> S -> Res (Ctl S)) (step : Z) :
  (forall k : Z, I k -> I (k + step)%Z) ->
  (forall k s s', I k -> P s ->
     body k s = Ok (Next s') \/ body k s = Ok (Break s') -> P s') ->
  forall (n : nat) (i : Z) (s s' : S),
    I i -> P s -> iterate n i step body s = Ok s' -> P s'.
Proof.
  intros Hstep Hbody. induction n as [|n IH]; intros i s s' Hi Hs Hrun.
  - cbn in Hrun. now inversion Hrun; subst.
  - cbn in Hrun. destruct (body i s) as [[s1|s1]|] eqn:Hb.
    + apply (IH (i + step)%Z s1 s'); [now apply Hstep| |exact Hrun].
      apply (Hbody i s s1 Hi Hs). now left.
    + inversion Hrun; subst. apply (Hbody i s s' Hi Hs). now right.
    + discriminate.
Qed.

(** One round of a walk of the spread mask, on a neighbour other than the
    selected point [ind]: the entry of [ind] keeps its value. *)
Ltac spread_step Hrun Hc Hs :=
  bind_inv Hrun;
  destruct (Rgt_dec _ _);
  [ inversion Hrun; subst; destruct Hc as [Hc|Hc]; inversion Hc; subst;
    exact Hs
  | bind_inv Hrun; inversion Hrun; subst;
    destruct Hc as [Hc|Hc]; inversion Hc; subst;
    match goal with
    | E : wr _ _ _ _ = Ok _ |- _ =>
        unfold wr in E; destruct (inb _ _); [|discriminate];
        inversion E; subst
    end;
    rewrite upd_other by lia; exact Hs ].

(** The spread mask never unmarks the selected point. *)
Lemma markPicked_marks (cloud : list PointType) (ind : Z)
  (picked picked' : array Z) :
  markPicked cloud ind picked = Ok picked' -> picked' ind = 1%Z.
Proof.
  unfold markPicked. intros H. bind_inv H.
  assert (H0 : a ind = 1%Z).
  { unfold wr in E. destruct (inb _ _); [|discriminate].
    inversion E; subst. apply upd_same. }
  assert (H1 : a0 ind = 1%Z).
  { revert E0. unfold spreadForward, forUp.
    apply (iterate_inv_idx (fun p => p ind = 1%Z) (fun l => (1 <= l)%Z));
      [intros; lia | | lia | exact H0].
    intros l s s' Hl Hs Hstep.
    assert (Hc : exists c, (c = Next s' \/ c = Break s')
                           /\ (a1 <- at_ cloud (ind + l) ;;
                               b <- at_ cloud (ind + l - 1) ;;
                               if Rgt_dec (sqDist a1 b) 0.05
                               then Ok (Break s)
                               else (picked0 <- wr maxCloudSize s
                                                   (ind + l) 1%Z ;;
                                     Ok (Next picked0))) = Ok c).
    { destruct Hstep as [Hst|Hst]; eexists; (split; [|exact Hst]); auto. }
    destruct Hc as (c & Hc & Hrun). spread_step Hrun Hc Hs. }
  revert H. unfold spreadBackward, forDown.
  apply (iterate_inv_idx (fun p => p ind = 1%Z) (fun l => (l <= -1)%Z));
    [intros; lia | | lia | exact H1].
  intros l s s' Hl Hs Hstep.
  assert (Hc : exists c, (c = Next s' \/ c = Break s')
                         /\ (a1 <- at_ cloud (ind + l) ;;
                             b <- at_ cloud (ind + l + 1) ;;
                             if Rgt_dec (sqDist a1 b) 0.05
                             then Ok (Break s)
                             else (picked0 <- wr maxCloudSize s
                                                 (ind + l) 1%Z ;;
                                   Ok (Next picked0))) = Ok c).
  { destruct Hstep as [Hst|Hst]; eexists; (split; [|exact Hst]); auto. }
  destruct Hc as (c & Hc & Hrun). spread_step Hrun Hc Hs.
Qed.

(** Every corner the corner loop selects is marked when its round
    ends. *)
Lemma cornerStep_marks (cloud : list PointType) (k : Z) (ft ft' : Features)
  (n : Z) :
  cornerStep cloud k (ft, n) = Ok (Next (ft', (n + 1)%Z)) ->
  let ind := cloudSortInd (ft_scratch ft) k in
  cloudNeighborPicked (ft_scratch ft') ind = 1%Z
  /\ (cloudLabel (ft_scratch ft') ind = 2%Z
      \/ cloudLabel (ft_scratch ft') ind = 1%Z).
Proof.
  unfold cornerStep. intros H. bind_inv H.
  assert (Ha : a = cloudSortInd (ft_scratch ft) k).
  { unfold rd in E. destruct (inb _ _); [|discriminate]. now inversion E. }
  cbn zeta. rewrite <- Ha.
  destruct (Z.eqb a0 0); [|inversion H; lia].
  bind_inv H.
  destruct (Rgt_dec a1 0.1); [|inversion H; lia].
  destruct (n + 1 <=? 2)%Z.
  { bind_inv H. inversion H; subst ft'. cbn.
    unfold wr in E2. destruct (inb _ _); [|discriminate].
    inversion E2; subst. rewrite upd_same.
    split; [eapply markPicked_marks; eassumption | now left]. }
  destruct (n + 1 <=? 20)%Z; [|discriminate].
  bind_inv H. inversion H; subst ft'. cbn.
  unfold wr in E2. destruct (inb _ _); [|discriminate].
  inversion E2; subst. rewrite upd_same.
  split; [eapply markPicked_marks; eassumption | now right].
Qed.

(** Every flat point the flat loop selects without leaving the loop is
    marked when its round ends. *)
Lemma flatStep_marks (cloud : list PointType) (k : Z) (ft ft' : Features)
  (n : Z) :
  flatStep cloud k (ft, n) = Ok (Next (ft', (n + 1)%Z)) ->
  let ind := cloudSortInd (ft_scratch ft) k in
  cloudNeighborPicked (ft_scratch ft') ind = 1%Z
  /\ cloudLabel (ft_scratch ft') ind = (-1)%Z.
Proof.
  unfold flatStep. intros H. bind_inv H.
  assert (Ha : a = cloudSortInd (ft_scratch ft) k).
  { unfold rd in E. destruct (inb _ _); [|discriminate]. now inversion E. }
  cbn zeta. rewrite <- Ha.
  destruct (Z.eqb a0 0); [|inversion H; lia].
  bind_inv H.
  destruct (Rlt_dec a1 0.1); [|inversion H; lia].
  bind_inv H.
  destruct (n + 1 >=? 4)%Z; [discriminate|].
  bind_inv H. inversion H; subst ft'. cbn.
  unfold wr in E2. destruct (inb _ _); [|discriminate].
  inversion E2; subst. rewrite upd_same.
  split; [eapply markPicked_marks; eassumption | reflexivity].
Qed.

(** The latch on the point of index 0: the start state is the state
    interpolated at the time of that point. *)
Lemma compensate_latch (timeScanCur relTime : R) (point : PointType)
  (g : Globals) :
  (0 <= imuPointerLast g)%Z ->
  let g' := fst (compensate timeScanCur relTime 0 point g) in
  let c := imuCur (interpolateIMU timeScanCur (relTime * scanPeriod) g) in
  imuStart g'
  = mkImuStart (imuRollCur c) (imuPitchCur c) (imuYawCur c)
      (imuVeloXCur c) (imuVeloYCur c) (imuVeloZCur c)
      (imuShiftXCur c) (imuShiftYCur c) (imuShiftZCur c)
  /\ imuCur g' = c.
Proof.
  intros Hl. cbn zeta. unfold compensate.
  destruct (Z.geb_spec (imuPointerLast g) 0); [|lia].
  cbn [Z.eqb fst]. split; reflexivity.
Qed.

(** ** A sweep of ten points *)

(** A loop whose first [m] rounds succeed and whose next round fails. *)
Lemma iterate_fails {S : Type} (P : nat -> S -> Prop)
  (body : Z -> S -> Res (Ctl S)) (lo : Z) (n m : nat) :
  (m < n)%nat ->
  (forall (k : nat) (s : S), (k < m)%nat -> P k s ->
     exists s', body (lo + Z.of_nat k)%Z s = Ok (Next s')
                /\ P (Datatypes.S k) s') ->
  (forall s : S, P m s -> body (lo + Z.of_nat m)%Z s = OutOfBounds) ->
  forall s : S, P 0%nat s -> iterate n lo 1 body s = OutOfBounds.
Proof.
  intros Hm Hok Hfail.
  assert (H : forall (d k : nat) (s : S),
             (k + d = m)%nat -> P k s ->
             iterate (n - k) (lo + Z.of_nat k)%Z 1 body s = OutOfBounds).
  { induction d as [|d IH]; intros k s Hk Hs.
    - assert (k = m) as -> by lia.
      destruct (n - m)%nat as [|r] eqn:Hr; [lia|].
      cbn [iterate]. now rewrite (Hfail s Hs).
    - destruct (n - k)%nat as [|r] eqn:Hr; [lia|].
      cbn [iterate].
      destruct (Hok k s ltac:(lia) Hs) as (s1 & -> & Hs1).
      replace r with (n - Datatypes.S k)%nat by lia.
      replace (lo + Z.of_nat k + 1)%Z
        with (lo + Z.of_nat (Datatypes.S k))%Z by lia.
      apply IH; [lia | exact Hs1]. }
  intros s Hs. specialize (H m 0%nat s ltac:(lia) Hs).
  now rewrite Nat.sub_0_r, Z.add_0_r in H.
Qed.

Lemma sameArrays_refl (sc : Scratch) : sameArrays sc sc.
Proof. repeat split. Qed.

Lemma sameArrays_trans (sc1 sc2 sc3 : Scratch) :
  sameArrays sc1 sc2 -> sameArrays sc2 sc3 -> sameArrays sc1 sc3.
Proof.
  intros (A1 & A2 & A3 & A4) (B1 & B2 & B3 & B4).
  repeat split; congruence.
Qed.

(** A scan without a usable range leaves the scratch arrays and the
    corner and flat clouds as they are. *)
Lemma selectScan_empty_arrays
  (downSizeFilter : list PointType -> list PointType)
  (cloud : list PointType) (scanStartInd scanEndInd : array Z) (i : Z)
  (ft : Features) :
  (0 <= i < N_SCANS)%Z -> (0 <= scanStartInd i)%Z -> scanEndInd i = 0%Z ->
  exists ft',
    selectScan downSizeFilter cloud scanStartInd scanEndInd i ft
    = Ok (Next ft')
    /\ sameArrays (ft_scratch ft) (ft_scratch ft').
Proof.
  intros Hi Hs He. unfold selectScan.
  destruct (forUp_total
              (fun _ (st : Features * list PointType) =>
                 sameArrays (ft_scratch ft) (ft_scratch (fst st)))
              (selectSector cloud scanStartInd scanEndInd i) 0 5)
    with (s := (ft, @nil PointType)) as ([ft' lfs] & -> & HP).
  - intros k [ft0 lfs0] Hk Hsame. cbn [fst] in *.
    rewrite selectSector_empty.
    + eexists. split; [reflexivity|]. exact Hsame.
    + exact Hi.
    + rewrite He, !Z.mul_0_l, !Z.add_0_r.
      assert (Z.quot (scanStartInd i * (5 - (0 + Z.of_nat k))) 6
              <= Z.quot (scanStartInd i * (6 - (0 + Z.of_nat k))) 6)%Z.
      { apply Z.quot_le_mono; nia. }
      lia.
  - apply sameArrays_refl.
  - cbn [bind]. eexists. split; [reflexivity|]. exact HP.
Qed.

(** Two neighbours of the short cloud are 0.01 apart. *)
Lemma short_gap (i j : Z) (p q : PointType) :
  px p = - 0.01 * IZR i -> py p = 0 -> pz p = 1 ->
  px q = - 0.01 * IZR j -> py q = 0 -> pz q = 1 ->
  (i = j + 1)%Z -> sqDist p q = 0.0001.
Proof.
  intros Hxp Hyp Hzp Hxq Hyq Hzq ->.
  unfold sqDist. cbn zeta. rewrite Hxp, Hyp, Hzp, Hxq, Hyq, Hzq.
  rewrite plus_IZR. lra.
Qed.

(** On the short cloud the walk after point 0 marks its five neighbours,
    and the walk before point 0 reads the point of index -1. *)
Lemma markPicked_short (cloud : list PointType) (picked : array Z) :
  isShort cloud -> markPicked cloud 0 picked = OutOfBounds.
Proof.
  intros Hshort. unfold markPicked.
  rewrite wr_in by (unfold maxCloudSize; lia). cbn [bind].
  destruct (forUp_total (fun _ (_ : array Z) => True)
              (fun l picked0 =>
                 a <- at_ cloud (0 + l) ;;
                 b <- at_ cloud (0 + l - 1) ;;
                 if Rgt_dec (sqDist a b) 0.05 then Ok (Break picked0)
                 else picked1 <- wr maxCloudSize picked0 (0 + l) 1%Z ;;
                      Ok (Next picked1))
              1 5) with (s := upd picked 0 1%Z) as (picked' & Hrun & _).
  - intros k s Hk _.
    destruct (Hshort (0 + (1 + Z.of_nat k))%Z ltac:(lia))
      as (a & -> & Hxa & Hya & Hza).
    destruct (Hshort (0 + (1 + Z.of_nat k) - 1)%Z ltac:(lia))
      as (b & -> & Hxb & Hyb & Hzb).
    cbn [bind].
    rewrite (short_gap _ _ _ _ Hxa Hya Hza Hxb Hyb Hzb) by lia.
    destruct (Rgt_dec 0.0001 0.05) as [H|_]; [lra|].
    rewrite wr_in by (unfold maxCloudSize; lia). cbn [bind].
    eexists. split; [reflexivity | exact I].
  - exact I.
  - unfold spreadForward. rewrite Hrun. cbn [bind].
    unfold spreadBackward, forDown.
    change (Z.to_nat (-1 - -5 + 1)) with 5%nat. cbn [iterate].
    change (at_ cloud (0 + -1)) with (@OutOfBounds PointType).
    reflexivity.
Qed.

(** Curvature and filter have nothing to do on a cloud of ten points. *)
Lemma computeCurvature_ten (cloud : list PointType) (sc : Scratch) :
  computeCurvature cloud 10 sc
  = Ok (mkCurv sc (-1) (upd zerosZ 0 5%Z) (upd zerosZ 15 5%Z)).
Proof. reflexivity. Qed.

Lemma filterCloud_ten (cloud : list PointType) (sc : Scratch) :
  filterCloud cloud 10 sc
  = Ok (set_cloudNeighborPicked sc (cloudNeighborPicked sc)).
Proof. reflexivity. Qed.

(** A round of the corner loop on a point that is not marked and whose
    curvature is not above 0.1 changes nothing. *)
Lemma cornerStep_skip (cloud : list PointType) (k : Z) (ft : Features)
  (n : Z) :
  (0 <= k < maxCloudSize)%Z ->
  (0 <= cloudSortInd (ft_scratch ft) k < maxCloudSize)%Z ->
  ~ cloudCurvature (ft_scratch ft) (cloudSortInd (ft_scratch ft) k) > 0.1 ->
  cornerStep cloud k (ft, n) = Ok (Next (ft, n)).
Proof.
  intros Hk Hind Hcv. unfold cornerStep.
  rewrite rd_in by exact Hk. cbn [bind].
  rewrite rd_in by exact Hind. cbn [bind].
  destruct (Z.eqb _ 0); [|reflexivity].
  rewrite rd_in by exact Hind. cbn [bind].
  destruct (Rgt_dec _ _); [contradiction | reflexivity].
Qed.

(** The round of the flat loop that selects point 0 of the short cloud
    reads the point of index -1. *)
Lemma flatStep_short (cloud : list PointType) (ft : Features) (n : Z) :
  isShort cloud ->
  cloudSortInd (ft_scratch ft) 0%Z = 0%Z ->
  cloudNeighborPicked (ft_scratch ft) 0%Z = 0%Z ->
  cloudCurvature (ft_scratch ft) 0%Z = 0 ->
  (n + 1 < 4)%Z ->
  flatStep cloud 0 (ft, n) = OutOfBounds.
Proof.
  intros Hshort Hso Hpk Hcv Hn. unfold flatStep.
  rewrite rd_in by (unfold maxCloudSize; lia). cbn [bind]. rewrite Hso.
  rewrite rd_in by (unfold maxCloudSize; lia). cbn [bind]. rewrite Hpk.
  cbn [Z.eqb].
  rewrite rd_in by (unfold maxCloudSize; lia). cbn [bind]. rewrite Hcv.
  destruct (Rlt_dec 0 0.1) as [_|H]; [|lra].
  rewrite wr_in by (unfold maxCloudSize; lia). cbn [bind].
  destruct (Hshort 0%Z ltac:(lia)) as (p0 & -> & _). cbn [bind].
  destruct (Z.geb_spec (n + 1) 4); [lia|].
  rewrite markPicked_short by exact Hshort. reflexivity.
Qed.

(** With the scratch arrays as they are initialised, the selection on the
    short cloud fails in sector 1 of scan 15, whose range is index 0
    alone. *)
Lemma extractFeatures_short
  (downSizeFilter : list PointType -> list PointType)
  (cloud : list PointType) :
  isShort cloud ->
  extractFeatures downSizeFilter cloud 10 (scratch initGlobals)
  = OutOfBounds.
Proof.
  intros Hshort. unfold extractFeatures.
  rewrite computeCurvature_ten. cbn [bind cv_scratch].
  rewrite filterCloud_ten. cbn [bind scanStartInd scanEndInd].
  unfold selectFeatures, forUp.
  set (sc0 := set_cloudNeighborPicked (scratch initGlobals)
                (cloudNeighborPicked (scratch initGlobals))).
  apply (iterate_fails
           (fun _ ft => sameArrays sc0 (ft_scratch ft)) _ 0 _ 15).
  - cbn. lia.
  - intros k ft Hk Hsame.
    destruct (selectScan_empty_arrays downSizeFilter cloud
                (upd zerosZ 0 5%Z) (upd zerosZ 15 5%Z) (0 + Z.of_nat k) ft)
      as (ft' & -> & Hsame').
    + unfold N_SCANS. lia.
    + unfold upd, zerosZ. destruct (Z.eqb _ 0); lia.
    + rewrite upd_other by lia. reflexivity.
    + eexists. split; [reflexivity|].
      eapply sameArrays_trans; eassumption.
  - intros ft (Hcv & Hso & Hpk & Hlb).
    change (0 + Z.of_nat 15)%Z with 15%Z.
    unfold selectScan, forUp. change (Z.to_nat (5 - 0 + 1)) with 6%nat.
    cbn [iterate].
    rewrite selectSector_empty by (unfold N_SCANS; cbn; lia).
    change (0 + 1)%Z with 1%Z.
    set (ft1 := {| ft_scratch :=
                     set_cloudSortInd (ft_scratch ft)
                       (cloudSortInd (ft_scratch ft));
                   cornerPointsSharp := cornerPointsSharp ft;
                   cornerPointsLessSharp := cornerPointsLessSharp ft;
                   surfPointsFlat := surfPointsFlat ft;
                   surfPointsLessFlat := surfPointsLessFlat ft |}).
    assert (Hfail : selectSector cloud (upd zerosZ 0 5%Z)
                      (upd zerosZ 15 5%Z) 15 1 (ft1, []) = OutOfBounds).
    { unfold selectSector.
      rewrite !rd_in by (unfold N_SCANS; lia). cbn [bind].
      change (Z.quot (upd zerosZ 0 5 15 * (6 - 1)
                      + upd zerosZ 15 5 15 * 1) 6)%Z with 0%Z.
      change (Z.quot (upd zerosZ 0 5 15 * (5 - 1)
                      + upd zerosZ 15 5 15 * (1 + 1)) 6 - 1)%Z with 0%Z.
      unfold sortSector. rewrite forUp_empty by lia. cbn [bind].
      set (ft2 := {| ft_scratch :=
                       set_cloudSortInd (ft_scratch ft1)
                         (cloudSortInd (ft_scratch ft1));
                     cornerPointsSharp := cornerPointsSharp ft1;
                     cornerPointsLessSharp := cornerPointsLessSharp ft1;
                     surfPointsFlat := surfPointsFlat ft1;
                     surfPointsLessFlat := surfPointsLessFlat ft1 |}).
      assert (Hso2 : cloudSortInd (ft_scratch ft2) 0%Z = 0%Z).
      { change (cloudSortInd (ft_scratch ft) 0%Z = 0%Z). now rewrite Hso. }
      assert (Hpk2 : cloudNeighborPicked (ft_scratch ft2) 0%Z = 0%Z).
      { change (cloudNeighborPicked (ft_scratch ft) 0%Z = 0%Z).
        now rewrite Hpk. }
      assert (Hcv2 : cloudCurvature (ft_scratch ft2) 0%Z = 0).
      { change (cloudCurvature (ft_scratch ft) 0%Z = 0). now rewrite Hcv. }
      unfold forDown, forUp. change (Z.to_nat (0 - 0 + 1)) with 1%nat.
      cbn [iterate].
      rewrite cornerStep_skip;
        [| unfold maxCloudSize; lia
         | rewrite Hso2; unfold maxCloudSize; lia
         | rewrite Hso2, Hcv2; lra].
      cbn [bind fst].
      rewrite flatStep_short by (assumption || lia). reflexivity. }
    rewrite Hfail. reflexivity.
  - apply sameArrays_refl.
Qed.

(** The ingestion of [shortSweep] gives a short cloud of ten points. *)
Lemma ingest_short (g : Globals) :
  (imuPointerLast g < 0)%Z ->
  exists ig,
    ingest (removeNaNFromPointCloud (cloud_points shortSweep))
      (cloud_stamp shortSweep) g = Ok ig
    /\ ig_globals ig = g /\ count ig = 10%Z
    /\ isShort (concatScans (laserCloudScans ig)).
Proof.
  intros Hg.
  set (h := fun k : nat => mkXYZ 1 (- 0.01 * INR k) 0).
  assert (Hall : Forall aheadRight (map h (seq 0 10))).
  { apply Forall_forall. intros raw Hin. apply in_map_iff in Hin.
    destruct Hin as (k & <- & _). unfold aheadRight, h. cbn [rx ry rz].
    pose proof (pos_INR k). repeat split; lra. }
  destruct (ingest_aheadRight (map h (seq 0 10)) (h 0%nat)
              (map h (seq 1 9)) 0 g eq_refl)
    as (ig & Hing & Hglob & Hcount & Hothers & Hstored);
    [cbn; lra | exact Hall | exact Hg |].
  exists ig. unfold shortSweep. cbn [cloud_points cloud_stamp].
  rewrite (removeNaN_Finite h). split; [exact Hing|].
  split; [exact Hglob|]. split.
  { rewrite Hcount, length_map, length_seq. reflexivity. }
  rewrite concatScans_only_last by exact Hothers.
  intros i Hi.
  assert (Hk : nth_error (map h (seq 0 10)) (Z.to_nat i)
               = Some (h (Z.to_nat i))).
  { rewrite nth_error_map, nth_error_seq_0 by lia. reflexivity. }
  destruct (Forall2_nth_error _ _ _ _ _ Hstored Hk)
    as (p & Hp & Hx & Hy & Hz & Hw).
  exists p. split.
  - rewrite <- (Z2Nat.id i) by lia. now apply at_nth_error.
  - rewrite Hx, Hz. unfold h. cbn [rx ry].
    rewrite INR_IZR_INZ, Z2Nat.id by lia. auto.
Qed.

(** The callback on [shortSweep], received as the first sweep after the
    start-up delay: scans 0 to 14 are empty and the only usable index of
    scan 15 is 0, where the spread mask reads the point of index -1. *)
Lemma shortSweep_out_of_bounds
  (downSizeFilter : list PointType -> list PointType) :
  laserCloudHandler downSizeFilter shortSweep readyGlobals = OutOfBounds.
Proof.
  unfold laserCloudHandler.
  change (systemInited readyGlobals) with true. cbn [negb].
  destruct (ingest_short readyGlobals) as (ig & -> & Hglob & Hcount & Hsh);
    [cbn; lia|].
  cbn [bind]. rewrite Hglob, Hcount.
  change (scratch readyGlobals) with (scratch initGlobals).
  rewrite extractFeatures_short by exact Hsh. reflexivity.
Qed.

(** C4.  The claim fails on two sweeps received after the start-up delay.
    On [nanSweep], whose points are all not finite, the cloud left by the
    NaN removal is empty and the callback indexes its first and its last
    point.  On [shortSweep], ten points of scan 15 received as the first
    sweep, the scans 0 to 14 are empty, the range of scan 15 degenerates
    to the sector of index 0 alone, and the spread mask around point 0
    reads the point of index -1.  Nothing is published in either case. *)
Theorem sweeps_out_of_bounds
  (downSizeFilter : list PointType -> list PointType) :
  (removeNaNFromPointCloud (cloud_points nanSweep) = []
   /\ laserCloudHandler downSizeFilter nanSweep readyGlobals = OutOfBounds
   /\ spin downSizeFilter (warmUp ++ [CloudEvent nanSweep]) initGlobals
      = OutOfBounds)
  /\ (laserCloudHandler downSizeFilter shortSweep readyGlobals
      = OutOfBounds
      /\ spin downSizeFilter (warmUp ++ [CloudEvent shortSweep]) initGlobals
         = OutOfBounds).
Proof.
  split.
  - split; [reflexivity|]. split; [reflexivity|].
    rewrite spin_app, spin_warmUp. reflexivity.
  - split; [apply shortSweep_out_of_bounds|].
    rewrite spin_app, spin_warmUp. cbn [bind fst snd spin].
    rewrite shortSweep_out_of_bounds. reflexivity.
Qed.

(** * Further properties *)

(** ** Rotations keep lengths *)

Lemma rot_sq_plus (a u v : R) :
  (cos a * u + sin a * v) * (cos a * u + sin a * v)
  + (- sin a * u + cos a * v) * (- sin a * u + cos a * v)
  = u * u + v * v.
Proof.
  pose proof (sin2_cos2 a) as H. unfold Rsqr in H.
  replace ((cos a * u + sin a * v) * (cos a * u + sin a * v)
           + (- sin a * u + cos a * v) * (- sin a * u + cos a * v))
    with ((sin a * sin a + cos a * cos a) * (u * u + v * v)) by ring.
  rewrite H. ring.
Qed.

Lemma rot_sq_minus (a u v : R) :
  (cos a * u - sin a * v) * (cos a * u - sin a * v)
  + (sin a * u + cos a * v) * (sin a * u + cos a * v)
  = u * u + v * v.
Proof.
  pose proof (sin2_cos2 a) as H. unfold Rsqr in H.
  replace ((cos a * u - sin a * v) * (cos a * u - sin a * v)
           + (sin a * u + cos a * v) * (sin a * u + cos a * v))
    with ((sin a * sin a + cos a * cos a) * (u * u + v * v)) by ring.
  rewrite H. ring.
Qed.

(** The rotation of a vector from the world frame into the frame of the
    first point, as [ShiftToStartIMU] and [VeloToStartIMU] write it, keeps
    its squared length. *)
Lemma toStart_sq (roll pitch yaw x y z : R) :
  let x1 := cos yaw * x - sin yaw * z in
  let y1 := y in
  let z1 := sin yaw * x + cos yaw * z in
  let x2 := x1 in
  let y2 := cos pitch * y1 + sin pitch * z1 in
  let z2 := - sin pitch * y1 + cos pitch * z1 in
  (cos roll * x2 + sin roll * y2) * (cos roll * x2 + sin roll * y2)
  + (- sin roll * x2 + cos roll * y2) * (- sin roll * x2 + cos roll * y2)
  + z2 * z2
  = x * x + y * y + z * z.
Proof.
  intros x1 y1 z1 x2 y2 z2.
  rewrite rot_sq_plus.
  unfold x2.
  replace (x1 * x1 + y2 * y2 + z2 * z2)
    with (x1 * x1 + (y2 * y2 + z2 * z2)) by ring.
  unfold y2, z2. rewrite rot_sq_plus.
  replace (x1 * x1 + (y1 * y1 + z1 * z1))
    with (x1 * x1 + z1 * z1 + y1 * y1) by ring.
  unfold x1, z1. rewrite rot_sq_minus. unfold y1. ring.
Qed.

(** The rotation of a vector into the world frame, as [AccumulateIMUShift]
    and [TransformToStartIMU] write it, keeps its squared length. *)
Lemma toWorld_sq (roll pitch yaw x y z : R) :
  let x1 := cos roll * x - sin roll * y in
  let y1 := sin roll * x + cos roll * y in
  let z1 := z in
  let x2 := x1 in
  let y2 := cos pitch * y1 - sin pitch * z1 in
  let z2 := sin pitch * y1 + cos pitch * z1 in
  (cos yaw * x2 + sin yaw * z2) * (cos yaw * x2 + sin yaw * z2)
  + y2 * y2
  + (- sin yaw * x2 + cos yaw * z2) * (- sin yaw * x2 + cos yaw * z2)
  = x * x + y * y + z * z.
Proof.
  intros x1 y1 z1 x2 y2 z2.
  replace ((cos yaw * x2 + sin yaw * z2) * (cos yaw * x2 + sin yaw * z2)
           + y2 * y2
           + (- sin yaw * x2 + cos yaw * z2)
             * (- sin yaw * x2 + cos yaw * z2))
    with ((cos yaw * x2 + sin yaw * z2) * (cos yaw * x2 + sin yaw * z2)
          + (- sin yaw * x2 + cos yaw * z2)
            * (- sin yaw * x2 + cos yaw * z2)
          + y2 * y2) by ring.
  rewrite rot_sq_plus. unfold x2.
  replace (x1 * x1 + z2 * z2 + y2 * y2)
    with (x1 * x1 + (y2 * y2 + z2 * z2)) by ring.
  unfold y2, z2. rewrite rot_sq_minus.
  replace (x1 * x1 + (y1 * y1 + z1 * z1))
    with (x1 * x1 + y1 * y1 + z1 * z1) by ring.
  unfold x1, y1. rewrite rot_sq_minus. unfold z1. ring.
Qed.

(** X1.  The acceleration that [AccumulateIMUShift] integrates has the
    length of the acceleration stored in the slot: the rotation by roll,
    pitch and yaw into the world frame changes its direction only. *)
Theorem worldAcc_norm (r : ImuRing) (i : Z) :
  let '(accX, accY, accZ) := worldAcc r i in
  accX * accX + accY * accY + accZ * accZ
  = imuAccX r i * imuAccX r i + imuAccY r i * imuAccY r i
    + imuAccZ r i * imuAccZ r i.
Proof.
  unfold worldAcc. cbn zeta. apply toWorld_sq.
Qed.

(** X2.  The residuals that [ShiftToStartIMU] and [VeloToStartIMU] leave
    have the length of the shift and of the velocity gained since the
    first point, measured in the world frame: the shift is
    [imuShiftCur - imuShiftStart - imuVeloStart * pointTime], the velocity
    is [imuVeloCur - imuVeloStart], and the rotation into the start frame
    keeps both lengths. *)
Theorem residuals_keep_length (pointTime : R) (g : Globals) :
  let s := imuStart g in
  let c := imuCur g in
  let f := imuFromStart (VeloToStartIMU (ShiftToStartIMU pointTime g)) in
  let sx := imuShiftXCur c - imuShiftXStart s - imuVeloXStart s * pointTime in
  let sy := imuShiftYCur c - imuShiftYStart s - imuVeloYStart s * pointTime in
  let sz := imuShiftZCur c - imuShiftZStart s - imuVeloZStart s * pointTime in
  let vx := imuVeloXCur c - imuVeloXStart s in
  let vy := imuVeloYCur c - imuVeloYStart s in
  let vz := imuVeloZCur c - imuVeloZStart s in
  imuShiftFromStartXCur f * imuShiftFromStartXCur f
  + imuShiftFromStartYCur f * imuShiftFromStartYCur f
  + imuShiftFromStartZCur f * imuShiftFromStartZCur f
  = sx * sx + sy * sy + sz * sz
  /\ imuVeloFromStartXCur f * imuVeloFromStartXCur f
     + imuVeloFromStartYCur f * imuVeloFromStartYCur f
     + imuVeloFromStartZCur f * imuVeloFromStartZCur f
     = vx * vx + vy * vy + vz * vz.
Proof.
  cbn zeta. unfold VeloToStartIMU, ShiftToStartIMU.
  cbn [imuFromStart set_imuFromStart imuStart imuCur
       imuShiftFromStartXCur imuShiftFromStartYCur imuShiftFromStartZCur
       imuVeloFromStartXCur imuVeloFromStartYCur imuVeloFromStartZCur].
  split; apply toStart_sq.
Qed.

(** X3.  [TransformToStartIMU] is a rigid motion: under one IMU state any
    two points keep their squared distance, and the intensity of a point
    is not touched. *)
Theorem TransformToStartIMU_rigid (g : Globals) (p q : PointType) :
  sqDist (TransformToStartIMU g p) (TransformToStartIMU g q) = sqDist p q
  /\ intensity (TransformToStartIMU g p) = intensity p.
Proof.
  split; [|reflexivity].
  unfold sqDist, TransformToStartIMU. cbn [px py pz].
  set (s := imuStart g). set (c := imuCur g). set (f := imuFromStart g).
  set (dx := px p - px q). set (dy := py p - py q). set (dz := pz p - pz q).
  pose (x1 := cos (imuRollCur c) * dx - sin (imuRollCur c) * dy).
  pose (y1 := sin (imuRollCur c) * dx + cos (imuRollCur c) * dy).
  pose (y2 := cos (imuPitchCur c) * y1 - sin (imuPitchCur c) * dz).
  pose (z2 := sin (imuPitchCur c) * y1 + cos (imuPitchCur c) * dz).
  pose (x3 := cos (imuYawCur c) * x1 + sin (imuYawCur c) * z2).
  pose (z3 := - sin (imuYawCur c) * x1 + cos (imuYawCur c) * z2).
  pose proof (toStart_sq (imuRollStart s) (imuPitchStart s) (imuYawStart s)
                x3 y2 z3) as H1.
  pose proof (toWorld_sq (imuRollCur c) (imuPitchCur c) (imuYawCur c)
                dx dy dz) as H2.
  cbn zeta in H1, H2. fold x1 y1 in H2. fold y2 z2 in H2. fold x3 z3 in H2.
  rewrite <- H2.
  replace (x3 * x3 + y2 * y2 + z3 * z3) with (x3 * x3 + y2 * y2 + z3 * z3)
    by ring.
  rewrite <- H1.
  unfold x3, z3, y2, z2, x1, y1, dx, dy, dz. ring.
Qed.

(** X4.  When the current roll, pitch and yaw are the ones of the first
    point, [TransformToStartIMU] does not rotate: it adds the shift
    residual to the coordinates of the point. *)
Theorem TransformToStartIMU_same_attitude (g : Globals) (p : PointType) :
  let s := imuStart g in
  let c := imuCur g in
  let f := imuFromStart g in
  imuRollCur c = imuRollStart s ->
  imuPitchCur c = imuPitchStart s ->
  imuYawCur c = imuYawStart s ->
  TransformToStartIMU g p
  = {| px := px p + imuShiftFromStartXCur f;
       py := py p + imuShiftFromStartYCur f;
       pz := pz p + imuShiftFromStartZCur f;
       intensity := intensity p |}.
Proof.
  cbn zeta. intros Hroll Hpitch Hyaw.
  unfold TransformToStartIMU. rewrite Hroll, Hpitch, Hyaw.
  destruct p as [x y z w]. cbn [px py pz intensity].
  set (s := imuStart g).
  set (x1 := cos (imuRollStart s) * x - sin (imuRollStart s) * y).
  set (y1 := sin (imuRollStart s) * x + cos (imuRollStart s) * y).
  set (y2 := cos (imuPitchStart s) * y1 - sin (imuPitchStart s) * z).
  set (z2 := sin (imuPitchStart s) * y1 + cos (imuPitchStart s) * z).
  rewrite (rot_inv_1 (imuYawStart s) x1 z2).
  rewrite (rot_inv_2 (imuYawStart s) x1 z2).
  unfold y2, z2.
  rewrite (rot_inv_3 (imuPitchStart s) y1 z).
  rewrite (rot_inv_4 (imuPitchStart s) y1 z).
  unfold x1, y1.
  rewrite (rot_inv_3 (imuRollStart s) x y).
  rewrite (rot_inv_4 (imuRollStart s) x y).
  reflexivity.
Qed.

Lemma TransformToStartIMU_same_attitude_witness :
  TransformToStartIMU initGlobals (mkPoint 1 2 3 0.5)
  = mkPoint (1 + 0) (2 + 0) (3 + 0) 0.5.
Proof.
  apply (TransformToStartIMU_same_attitude initGlobals (mkPoint 1 2 3 0.5));
    reflexivity.
Defined.

(** ** A sensor at rest *)

(** X5.  A message of a sensor at rest, whatever its attitude, stores a
    zero acceleration; when the integration branch runs, the new slot
    takes the velocity of the slot before it, and the shift of that slot
    moved by this velocity over the time between the two. *)
Theorem imuHandler_at_rest (t roll pitch yaw : R) (g : Globals) :
  (0 <= imuPointerLast g < imuQueLength)%Z ->
  let r := ring g in
  let g' := imuHandler (restMsg t roll pitch yaw) g in
  let r' := ring g' in
  let back := imuPointerLast g in
  let last := imuPointerLast g' in
  let dt := t - imuTime r back in
  (imuAccX r' last = 0 /\ imuAccY r' last = 0 /\ imuAccZ r' last = 0)
  /\ (dt < scanPeriod ->
      (imuVeloX r' last = imuVeloX r back
       /\ imuVeloY r' last = imuVeloY r back
       /\ imuVeloZ r' last = imuVeloZ r back)
      /\ (imuShiftX r' last = imuShiftX r back + imuVeloX r back * dt
          /\ imuShiftY r' last = imuShiftY r back + imuVeloY r back * dt
          /\ imuShiftZ r' last = imuShiftZ r back + imuVeloZ r back * dt)).
Proof.
  intros Hl. cbn zeta. rewrite imuHandler_last.
  destruct (imuHandler_slot (restMsg t roll pitch yaw) g Hl)
    as (_ & (Hr & Hp & Hy) & (Hx & Hy' & Hz) & Hint & _).
  cbn zeta in *.
  cbn [restMsg imu_stamp imu_roll imu_pitch imu_yaw linear_acceleration_x
       linear_acceleration_y linear_acceleration_z] in *.
  assert (Hx0 : imuAccX (ring (imuHandler (restMsg t roll pitch yaw) g))
                  (Z.rem (imuPointerLast g + 1) imuQueLength) = 0).
  { rewrite Hx. ring. }
  assert (Hy0 : imuAccY (ring (imuHandler (restMsg t roll pitch yaw) g))
                  (Z.rem (imuPointerLast g + 1) imuQueLength) = 0).
  { rewrite Hy'. ring. }
  assert (Hz0 : imuAccZ (ring (imuHandler (restMsg t roll pitch yaw) g))
                  (Z.rem (imuPointerLast g + 1) imuQueLength) = 0).
  { rewrite Hz. ring. }
  split; [repeat split; assumption|].
  intros Hdt. specialize (Hint Hdt).
  unfold worldAcc in Hint. rewrite Hx0, Hy0, Hz0 in Hint. cbn zeta in Hint.
  destruct Hint as ((-> & -> & ->) & (-> & -> & ->)).
  repeat split; field.
Qed.

Lemma imuHandler_at_rest_witness :
  let g := set_imuPointerLast initGlobals 0 in
  let g' := imuHandler (restMsg 0.01 0.3 0.2 0.1) g in
  imuAccX (ring g') (imuPointerLast g') = 0.
Proof.
  cbn zeta.
  refine (proj1 (proj1 (imuHandler_at_rest 0.01 0.3 0.2 0.1
                   (set_imuPointerLast initGlobals 0) _))).
  cbn. unfold imuQueLength. lia.
Defined.

(** ** The ring as a buffer *)

(** What the callback stores in the slot it advances to, whichever branch
    of the integration runs. *)
Lemma imuHandler_written (m : ImuMsg) (g : Globals) :
  slotHolds (ring (imuHandler m g))
    (Z.rem (imuPointerLast g + 1) imuQueLength) m.
Proof.
  unfold slotHolds, imuHandler, AccumulateIMUShift. cbn zeta.
  destruct (worldAcc _ _) as [[ax ay] az].
  destruct (Rlt_dec _ _); cbn; rewrite !upd_same; repeat split; reflexivity.
Qed.

Lemma imuHandler_holds_other (m m0 : ImuMsg) (g : Globals) (j : Z) :
  j <> Z.rem (imuPointerLast g + 1) imuQueLength ->
  slotHolds (ring g) j m0 -> slotHolds (ring (imuHandler m g)) j m0.
Proof.
  intros Hj H. destruct (imuHandler_other m g j Hj)
    as (Ht & (Hr & Hp & Hy) & (Hx & Hy' & Hz) & _).
  cbn zeta in *. unfold slotHolds in *.
  rewrite Ht, Hr, Hp, Hy, Hx, Hy', Hz. exact H.
Qed.

(** The slot the next message of a run from the initial state goes to. *)
Lemma imuRun_init_last (msgs : list ImuMsg) :
  Z.rem (imuPointerLast (imuRun msgs initGlobals) + 1) imuQueLength
  = (Z.of_nat (length msgs) mod imuQueLength)%Z.
Proof.
  induction msgs as [|m msgs IH] using rev_ind.
  - reflexivity.
  - rewrite imuRun_app. cbn [imuRun fold_left].
    fold (imuRun msgs initGlobals).
    rewrite imuHandler_last, IH, length_app. cbn [length].
    pose proof (Z.mod_pos_bound (Z.of_nat (length msgs)) imuQueLength
                  ltac:(unfold imuQueLength; lia)) as Hb.
    destruct (rem_next ((Z.of_nat (length msgs) mod imuQueLength)%Z))
      as [-> _]; [unfold imuQueLength in *; lia|].
    rewrite Zplus_mod_idemp_l. f_equal. lia.
Qed.

Lemma imuRun_init_cursor (msgs : list ImuMsg) :
  msgs <> [] ->
  imuPointerLast (imuRun msgs initGlobals)
  = ((Z.of_nat (length msgs) - 1) mod imuQueLength)%Z.
Proof.
  intros Hne. destruct (exists_last Hne) as (l & m & ->).
  rewrite imuRun_app. cbn [imuRun fold_left]. fold (imuRun l initGlobals).
  rewrite imuHandler_last, imuRun_init_last, length_app. cbn [length].
  f_equal. lia.
Qed.

(** X6.  After any run of IMU messages from the initial state, message
    number [i] (from 0) is found in slot [i mod imuQueLength], for each of
    the last [imuQueLength] messages: stamp, roll, pitch, yaw and the
    acceleration without gravity are the ones stored when it arrived.
    The write cursor is on the slot of the last message. *)
Theorem imuRun_lookup (msgs : list ImuMsg) (i : nat) (m : ImuMsg) :
  nth_error msgs i = Some m ->
  (Z.of_nat (length msgs) <= Z.of_nat i + imuQueLength)%Z ->
  let g := imuRun msgs initGlobals in
  slotHolds (ring g) (Z.of_nat i mod imuQueLength)%Z m
  /\ imuPointerLast g
     = ((Z.of_nat (length msgs) - 1) mod imuQueLength)%Z.
Proof.
  intros Hn Hlen. cbn zeta. split.
  2:{ apply imuRun_init_cursor. intros ->. destruct i; discriminate. }
  revert i m Hn Hlen.
  induction msgs as [|m' msgs IH] using rev_ind; intros i m Hn Hlen.
  - destruct i; discriminate.
  - rewrite imuRun_app. cbn [imuRun fold_left].
    fold (imuRun msgs initGlobals).
    rewrite length_app in Hlen. cbn [length] in Hlen.
    destruct (Nat.lt_ge_cases i (length msgs)) as [Hi|Hi].
    + rewrite nth_error_app1 in Hn by exact Hi.
      apply imuHandler_holds_other; [|apply IH; [exact Hn | lia]].
      rewrite imuRun_init_last. unfold imuQueLength in *.
      intros He.
      assert (Hd : ((Z.of_nat (length msgs) - Z.of_nat i) mod 200 = 0)%Z).
      { rewrite Zminus_mod, He, Z.sub_diag. reflexivity. }
      rewrite Z.mod_small in Hd by lia. lia.
    + rewrite nth_error_app2 in Hn by exact Hi.
      destruct (i - length msgs)%nat as [|k] eqn:Hk;
        [|destruct k; discriminate].
      cbn in Hn. inversion Hn; subst m'.
      replace i with (length msgs) by lia.
      rewrite <- imuRun_init_last. apply imuHandler_written.
Qed.

Lemma imuRun_lookup_witness :
  slotHolds
    (ring (imuRun [levelMsg 1 0 0 0; levelMsg 2 0 0 0] initGlobals))
    (Z.of_nat 1 mod imuQueLength)%Z (levelMsg 2 0 0 0).
Proof.
  refine (proj1 (imuRun_lookup [levelMsg 1 0 0 0; levelMsg 2 0 0 0] 1
                   (levelMsg 2 0 0 0) _ _)).
  - reflexivity.
  - cbn. unfold imuQueLength. lia.
Defined.

(** ** The search of the ring and the interpolation *)

(** X7.  With at least one IMU message received and both cursors inside
    the ring, the search for the point time [timeScanCur + pointTime]
    leaves the read cursor inside the ring, on the latest slot or on a
    slot whose time is after the point time.  The branch that takes a
    slot as it is runs on the latest slot only.  The search changes the
    read cursor and the current state, and nothing else. *)
Theorem interpolateIMU_search (timeScanCur pointTime : R) (g : Globals) :
  (0 <= imuPointerLast g < imuQueLength)%Z ->
  (0 <= imuPointerFront g < imuQueLength)%Z ->
  let g' := interpolateIMU timeScanCur pointTime g in
  let front := imuPointerFront g' in
  (0 <= front < imuQueLength)%Z
  /\ (front = imuPointerLast g
      \/ timeScanCur + pointTime < imuTime (ring g) front)
  /\ (timeScanCur + pointTime > imuTime (ring g) front ->
      front = imuPointerLast g
      /\ imuCur g' = sampleAt (ring g) (imuPointerLast g))
  /\ (imuPointerLast g' = imuPointerLast g /\ ring g' = ring g
      /\ imuStart g' = imuStart g /\ imuFromStart g' = imuFromStart g
      /\ scratch g' = scratch g).
Proof.
  intros Hl Hf. cbn zeta.
  pose proof (advanceFront_range (Z.to_nat imuQueLength)
                (timeScanCur + pointTime) (ring g) (imuPointerLast g)
                (imuPointerFront g) Hf) as Hr.
  pose proof (advanceFront_stops (timeScanCur + pointTime) (ring g)
                (imuPointerLast g) (imuPointerFront g) Hl Hf) as Hs.
  cbn zeta in Hs.
  unfold interpolateIMU.
  set (front := advanceFront _ _ _ _ _) in *.
  destruct (Rgt_dec _ _) as [Hgt|Hle];
    cbn [imuPointerFront imuPointerLast ring imuStart imuFromStart scratch
         imuCur set_imuCur set_imuPointerFront].
  - split; [exact Hr|]. split; [exact Hs|]. split.
    + intros _. assert (He : front = imuPointerLast g).
      { destruct Hs as [Hs|Hs]; [exact Hs | lra]. }
      split; [exact He|]. rewrite <- He. reflexivity.
    + repeat split; reflexivity.
  - split; [exact Hr|]. split; [exact Hs|]. split.
    + intros Hgt. contradiction.
    + repeat split; reflexivity.
Qed.

Lemma interpolateIMU_search_witness :
  let g := set_imuPointerLast initGlobals 0 in
  imuPointerFront (interpolateIMU 1 0 g) = imuPointerLast g
  \/ 1 + 0 < imuTime (ring g) (imuPointerFront (interpolateIMU 1 0 g)).
Proof.
  cbn zeta.
  refine (proj1 (proj2 (interpolateIMU_search 1 0
                   (set_imuPointerLast initGlobals 0) _ _)));
    cbn; unfold imuQueLength; lia.
Defined.

Lemma interpolateIMU_front (timeScanCur pointTime : R) (g : Globals) :
  imuPointerFront (interpolateIMU timeScanCur pointTime g)
  = advanceFront (Z.to_nat imuQueLength) (timeScanCur + pointTime) (ring g)
      (imuPointerLast g) (imuPointerFront g).
Proof. unfold interpolateIMU. destruct (Rgt_dec _ _); reflexivity. Qed.

(** X8.  When the point time is not after the time of the slot under the
    read cursor, and the slot before it has another time, the current
    roll, pitch, velocity and shift are
    [back + (front - back) * ratio] with
    [ratio = (t - imuTime[back]) / (imuTime[front] - imuTime[back])];
    [ratio] is between 0 and 1 when the point time is not before the time
    of the slot before; and a point at the time of the slot under the
    cursor takes the angles of that slot. *)
Theorem interpolateIMU_between (timeScanCur pointTime : R) (g : Globals) :
  let r := ring g in
  let g' := interpolateIMU timeScanCur pointTime g in
  let c := imuCur g' in
  let front := imuPointerFront g' in
  let back := Z.rem (front + imuQueLength - 1) imuQueLength in
  let ratio := (timeScanCur + pointTime - imuTime r back)
               / (imuTime r front - imuTime r back) in
  timeScanCur + pointTime <= imuTime r front ->
  imuTime r front <> imuTime r back ->
  (imuRollCur c = imuRoll r back + (imuRoll r front - imuRoll r back) * ratio
   /\ imuPitchCur c
      = imuPitch r back + (imuPitch r front - imuPitch r back) * ratio)
  /\ (imuVeloXCur c
      = imuVeloX r back + (imuVeloX r front - imuVeloX r back) * ratio
      /\ imuVeloYCur c
         = imuVeloY r back + (imuVeloY r front - imuVeloY r back) * ratio
      /\ imuVeloZCur c
         = imuVeloZ r back + (imuVeloZ r front - imuVeloZ r back) * ratio)
  /\ (imuShiftXCur c
      = imuShiftX r back + (imuShiftX r front - imuShiftX r back) * ratio
      /\ imuShiftYCur c
         = imuShiftY r back + (imuShiftY r front - imuShiftY r back) * ratio
      /\ imuShiftZCur c
         = imuShiftZ r back + (imuShiftZ r front - imuShiftZ r back) * ratio)
  /\ (imuTime r back <= timeScanCur + pointTime -> 0 <= ratio <= 1)
  /\ (timeScanCur + pointTime = imuTime r front ->
      imuRollCur c = imuRoll r front /\ imuPitchCur c = imuPitch r front
      /\ imuYawCur c = imuYaw r front).
Proof.
  cbn zeta. rewrite interpolateIMU_front. intros Hle Hne.
  unfold interpolateIMU.
  set (front := advanceFront _ _ _ _ _) in *.
  destruct (Rgt_dec _ _) as [Hgt|_]; [lra|].
  cbn [imuPointerFront imuCur set_imuCur set_imuPointerFront ring
       imuRollCur imuPitchCur imuYawCur imuVeloXCur imuVeloYCur imuVeloZCur
       imuShiftXCur imuShiftYCur imuShiftZCur] in *.
  set (back := Z.rem (front + imuQueLength - 1) imuQueLength) in *.
  assert (Hd : imuTime (ring g) front - imuTime (ring g) back <> 0) by lra.
  split; [split; field; exact Hd|].
  split; [repeat split; field; exact Hd|].
  split; [repeat split; field; exact Hd|].
  split.
  - intros Hb.
    assert (Hpos : 0 < imuTime (ring g) front - imuTime (ring g) back) by lra.
    split.
    + apply Rmult_le_pos; [lra|]. left. now apply Rinv_0_lt_compat.
    + apply (Rmult_le_reg_r (imuTime (ring g) front - imuTime (ring g) back));
        [exact Hpos|].
      unfold Rdiv. rewrite Rmult_assoc, Rinv_l by exact Hd. lra.
  - intros He.
    replace (imuTime (ring g) front - timeScanCur - pointTime) with 0 by lra.
    rewrite He. unfold Rdiv. rewrite Rinv_r by exact Hd.
    rewrite !Rmult_0_l, !Rmult_0_r, !Rplus_0_r, !Rmult_1_r.
    split; [reflexivity|]. split; [reflexivity|].
    destruct (Rgt_dec _ _); [reflexivity|].
    destruct (Rlt_dec _ _); reflexivity.
Qed.

Lemma interpolateIMU_between_witness :
  let g := set_ring (set_imuPointerLast initGlobals 0)
             (mkImuRing (upd zeros 0%Z 1) (upd zeros 0%Z 0.3) zeros zeros
                zeros zeros zeros zeros zeros zeros zeros zeros zeros) in
  let g' := interpolateIMU 1 0 g in
  imuRollCur (imuCur g') = imuRoll (ring g) (imuPointerFront g').
Proof.
  cbn zeta.
  refine (proj1 (proj2 (proj2 (proj2 (proj2
            (interpolateIMU_between 1 0
               (set_ring (set_imuPointerLast initGlobals 0)
                  (mkImuRing (upd zeros 0%Z 1) (upd zeros 0%Z 0.3) zeros
                     zeros zeros zeros zeros zeros zeros zeros zeros zeros
                     zeros)) _ _)))) _)).
  - rewrite interpolateIMU_front. cbn [ring imuPointerLast imuPointerFront
      set_ring set_imuPointerLast initGlobals imuTime].
    rewrite advanceFront_at_last. cbn. lra.
  - rewrite interpolateIMU_front. cbn [ring imuPointerLast imuPointerFront
      set_ring set_imuPointerLast initGlobals imuTime].
    rewrite advanceFront_at_last. cbn. unfold zeros. intros H. lra.
  - rewrite interpolateIMU_front. cbn [ring imuPointerLast imuPointerFront
      set_ring set_imuPointerLast initGlobals imuTime].
    rewrite advanceFront_at_last. cbn. lra.
Defined.

(** ** Beams *)

Lemma Int_part_le (w : R) (n : Z) :
  (Int_part w <= n)%Z <-> w < IZR n + 1.
Proof.
  destruct (base_Int_part w) as [H1 H2]. split; intros H.
  - apply IZR_le in H. lra.
  - assert (Hlt : IZR (Int_part w) < IZR (n + 1)).
    { rewrite plus_IZR. lra. }
    apply lt_IZR in Hlt. lia.
Qed.

Lemma Int_part_nonneg (w : R) : 0 <= w -> (0 <= Int_part w)%Z.
Proof.
  intros H. destruct (base_Int_part w) as [H1 H2].
  assert (Hlt : IZR (-1) < IZR (Int_part w)) by lra.
  apply lt_IZR in Hlt. lia.
Qed.

(** A point straight above the sensor has an elevation of 90 degrees, and
    a point straight below it one of -90 degrees: both are outside the
    sixteen scans. *)
Lemma computeScanID_axis_up (y : R) : 0 < y -> computeScanID 0 y 0 = 90%Z.
Proof.
  intros Hy. unfold computeScanID.
  destruct (Rlt_dec 0 (0 * 0 + 0 * 0)) as [H|_]; [lra|].
  destruct (Rlt_dec 0 y) as [_|H]; [reflexivity | contradiction].
Qed.

Lemma computeScanID_axis_down (y : R) :
  y < 0 -> computeScanID 0 y 0 = (-75)%Z.
Proof.
  intros Hy. unfold computeScanID.
  destruct (Rlt_dec 0 (0 * 0 + 0 * 0)) as [H|_]; [lra|].
  destruct (Rlt_dec 0 y) as [H|_]; [lra|].
  destruct (Rlt_dec y 0) as [_|H]; [reflexivity | contradiction].
Qed.

(** X9.  For a point off the vertical axis of the sensor, the ingestion
    keeps the point exactly when its elevation is strictly between -15.5
    and 15.5 degrees.  An elevation from 0.5 degrees on goes to the beam
    of its rounded value, 1 to 15; an elevation below 0.5 degrees goes to
    the beam 15 plus its rounded value, 0 to 15. *)
Theorem computeScanID_kept (x y z : R) :
  0 < x * x + z * z ->
  let scanID := computeScanID x y z in
  let angle := elevation x y z in
  (((scanID >? N_SCANS - 1) || (scanID <? 0))%Z = false
   <-> - 15.5 < angle < 15.5)
  /\ (0.5 <= angle < 15.5 ->
      (1 <= scanID <= 15)%Z
      /\ IZR scanID - 0.5 <= angle < IZR scanID + 0.5)
  /\ (- 15.5 < angle < 0.5 ->
      (0 <= scanID <= 15)%Z
      /\ IZR scanID - 15 - 0.5 < angle <= IZR scanID - 15 + 0.5).
Proof.
  intros Hxz. cbn zeta. unfold computeScanID.
  destruct (Rlt_dec 0 (x * x + z * z)) as [_|H]; [|contradiction].
  fold (elevation x y z).
  set (a := elevation x y z). unfold N_SCANS.
  assert (Hrej : forall s : Z,
             ((s >? 16 - 1) || (s <? 0))%Z = false <-> (0 <= s <= 15)%Z).
  { intros s. rewrite orb_false_iff, Z.gtb_ltb, !Z.ltb_ge. lia. }
  destruct (Rlt_dec a 0) as [Hneg|Hpos].
  - unfold truncate. destruct (Rle_dec 0 (a + - 0.5)) as [H|_]; [lra|].
    pose proof (Int_part_le (- (a + - 0.5)) 15) as H15.
    pose proof (Int_part_nonneg (- (a + - 0.5)) ltac:(lra)) as H0.
    destruct (base_Int_part (- (a + - 0.5))) as [Hb1 Hb2].
    set (n := Int_part (- (a + - 0.5))) in *.
    destruct (Z.gtb_spec (- n) 0) as [Hgt|Hle]; [lia|].
    split; [|split].
    + rewrite Hrej. split; intros H.
      * assert (Hn : (n <= 15)%Z) by lia. apply H15 in Hn. lra.
      * assert (Hn : (n <= 15)%Z) by (apply H15; lra). lia.
    + intros H. lra.
    + intros H. assert (Hn : (n <= 15)%Z) by (apply H15; lra).
      split; [lia|].
      replace (- n + (16 - 1))%Z with (15 - n)%Z by lia.
      rewrite minus_IZR. lra.
  - unfold truncate. destruct (Rle_dec 0 (a + 0.5)) as [_|H]; [|lra].
    pose proof (Int_part_le (a + 0.5) 15) as H15.
    pose proof (Int_part_nonneg (a + 0.5) ltac:(lra)) as H0.
    pose proof (Int_part_le (a + 0.5) 0) as H1.
    destruct (base_Int_part (a + 0.5)) as [Hb1 Hb2].
    set (n := Int_part (a + 0.5)) in *.
    destruct (Z.gtb_spec n 0) as [Hgt|Hle].
    + assert (Hn1 : 1 <= IZR n) by (apply IZR_le; lia).
      split; [|split].
      * rewrite Hrej. split; intros H.
        -- assert (Hn : (n <= 15)%Z) by lia. apply H15 in Hn. lra.
        -- assert (Hn : (n <= 15)%Z) by (apply H15; lra). lia.
      * intros H. assert (Hn : (n <= 15)%Z) by (apply H15; lra).
        split; [lia | lra].
      * intros H. lra.
    + assert (Hn : a + 0.5 < 1) by (apply H1 in Hle; lra).
      assert (Hn0 : n = 0%Z) by lia.
      split; [|split].
      * rewrite Hrej. split; intros H; [lra | lia].
      * intros H. lra.
      * intros H. rewrite Hn0. cbn. split; [lia | lra].
Qed.

Lemma computeScanID_kept_witness :
  ((computeScanID 1 0 0 >? N_SCANS - 1) || (computeScanID 1 0 0 <? 0))%Z
  = false
  <-> - 15.5 < elevation 1 0 0 < 15.5.
Proof.
  refine (proj1 (computeScanID_kept 1 0 0 _)). lra.
Defined.

(** ** The azimuth of a point *)

Lemma div_between (a d lo hi : R) :
  0 < d -> lo * d <= a <= hi * d -> lo <= a / d <= hi.
Proof.
  intros Hd [H1 H2].
  assert (Hi : 0 < / d) by now apply Rinv_0_lt_compat.
  assert (E : forall c : R, c * d * / d = c).
  { intros c. field. lra. }
  unfold Rdiv. split.
  - rewrite <- (E lo). apply Rmult_le_compat_r; lra.
  - rewrite <- (E hi). apply Rmult_le_compat_r; lra.
Qed.

(** X10.  Before the half-way latch is set, the azimuth given to a point
    is its angle [- atan2 x z] moved by at most one turn into the window
    from [startOri - PI / 2] to [startOri + PI * 3 / 2]; the latch is set
    exactly when the azimuth is more than [PI] after [startOri]; and the
    relative time of the point is between -1/2 and 3/2. *)
Theorem computeOri_first_half (p0 pN : PointXYZ) (x z : R) :
  let startOri := computeStartOri p0 in
  let endOri := normalizeEndOri startOri (computeEndOri pN) in
  let '(ori, half) := computeOri startOri endOri false x z in
  startOri - PI / 2 <= ori <= startOri + PI * 3 / 2
  /\ (half = true <-> ori - startOri > PI)
  /\ (ori = - atan2 x z \/ ori = - atan2 x z + 2 * PI
      \/ ori = - atan2 x z - 2 * PI)
  /\ - (1 / 2) <= (ori - startOri) / (endOri - startOri) <= 3 / 2.
Proof.
  cbn zeta.
  pose proof (atan2_bound (ry p0) (rx p0)) as Hs.
  pose proof (atan2_bound (ry pN) (rx pN)) as HN.
  pose proof (atan2_bound x z) as Ho.
  pose proof PI_RGT_0 as Hpi.
  pose proof (normalizeEndOri_window (computeStartOri p0) (computeEndOri pN))
    as Hw.
  unfold computeStartOri, computeEndOri in *.
  specialize (Hw ltac:(lra) ltac:(lra)).
  set (endOri := normalizeEndOri _ _) in *.
  unfold computeOri. cbn [negb].
  destruct (Rlt_dec _ _) as [H1|H1].
  - destruct (Rgt_dec _ _) as [H2|H2];
      (split; [lra|]; split; [|split; [lra|apply div_between; lra]]);
      split; intros H; try reflexivity; try discriminate; lra.
  - destruct (Rgt_dec (- atan2 x z) _) as [H3|H3].
    + destruct (Rgt_dec _ _) as [H2|H2];
        (split; [lra|]; split; [|split; [lra|apply div_between; lra]]);
        split; intros H; try reflexivity; try discriminate; lra.
    + destruct (Rgt_dec _ _) as [H2|H2];
        (split; [lra|]; split; [|split; [lra|apply div_between; lra]]);
        split; intros H; try reflexivity; try discriminate; lra.
Qed.

(** X11.  After the half-way latch is set, and when the end azimuth of the
    sweep is at least [PI / 2], the azimuth given to a point is in the
    window from [endOri - PI * 3 / 2] to [endOri + PI / 2], and the latch
    stays set. *)
Theorem computeOri_second_half (p0 pN : PointXYZ) (x z : R) :
  let startOri := computeStartOri p0 in
  let endOri := normalizeEndOri startOri (computeEndOri pN) in
  PI / 2 <= endOri ->
  let '(ori, half) := computeOri startOri endOri true x z in
  endOri - PI * 3 / 2 <= ori <= endOri + PI / 2 /\ half = true.
Proof.
  cbn zeta.
  pose proof (atan2_bound (ry p0) (rx p0)) as Hs.
  pose proof (atan2_bound (ry pN) (rx pN)) as HN.
  pose proof (atan2_bound x z) as Ho.
  pose proof PI_RGT_0 as Hpi.
  pose proof (normalizeEndOri_window (computeStartOri p0) (computeEndOri pN))
    as Hw.
  unfold computeStartOri, computeEndOri in *.
  specialize (Hw ltac:(lra) ltac:(lra)).
  set (endOri := normalizeEndOri _ _) in *.
  intros He. unfold computeOri. cbn [negb].
  destruct (Rlt_dec _ _) as [H1|H1]; [split; [lra | reflexivity]|].
  destruct (Rgt_dec _ _) as [H3|H3]; split; try reflexivity; lra.
Qed.

Lemma computeOri_second_half_witness :
  let startOri := computeStartOri (mkXYZ 1 0 0) in
  let endOri := normalizeEndOri startOri (computeEndOri (mkXYZ 1 0 0)) in
  let '(ori, half) := computeOri startOri endOri true 1 1 in
  endOri - PI * 3 / 2 <= ori <= endOri + PI / 2 /\ half = true.
Proof.
  apply (computeOri_second_half (mkXYZ 1 0 0) (mkXYZ 1 0 0) 1 1).
  unfold computeStartOri, computeEndOri, normalizeEndOri. cbn [rx ry].
  rewrite atan2_0_1. pose proof PI_RGT_0.
  destruct (Rgt_dec _ _); [lra|]. destruct (Rlt_dec _ _); lra.
Defined.

(** ** The ingestion of any cloud *)

Lemma at_inside {A : Type} (l : list A) (i : Z) :
  (0 <= i < Z.of_nat (length l))%Z ->
  exists a, at_ l i = Ok a /\ nth_error l (Z.to_nat i) = Some a.
Proof.
  intros H. unfold at_. destruct (Z.ltb_spec i 0); [lia|].
  destruct (nth_error l (Z.to_nat i)) as [a|] eqn:E.
  - exists a. auto.
  - apply nth_error_None in E. lia.
Qed.

Lemma at_In {A : Type} (l : list A) (i : Z) (a : A) :
  at_ l i = Ok a -> In a l.
Proof.
  unfold at_. destruct (i <? 0)%Z; [discriminate|].
  destruct (nth_error l (Z.to_nat i)) as [b|] eqn:E; [|discriminate].
  intros H. inversion H; subst. eapply nth_error_In. exact E.
Qed.

Lemma In_concatScans (scans : array (list PointType)) (p : PointType) :
  In p (concatScans scans)
  <-> exists k : Z, (0 <= k < N_SCANS)%Z /\ In p (scans k).
Proof.
  unfold concatScans. rewrite in_concat. split.
  - intros (l & Hl & Hp). apply in_map_iff in Hl.
    destruct Hl as (i & <- & Hi). apply in_seq in Hi.
    exists (Z.of_nat i). split; [unfold N_SCANS in *; lia | exact Hp].
  - intros (k & Hk & Hp). exists (scans k). split; [|exact Hp].
    apply in_map_iff. exists (Z.to_nat k). split.
    + f_equal. lia.
    + apply in_seq. unfold N_SCANS in *. lia.
Qed.

Lemma concat_upd_length {A : Type} (f : array (list A)) (id : Z) (a : A)
  (n : nat) :
  length (concat (map (fun i => upd f id (f id ++ [a]) (Z.of_nat i))
                    (seq 0 n)))
  = (length (concat (map (fun i => f (Z.of_nat i)) (seq 0 n)))
     + (if ((0 <=? id) && (id <? Z.of_nat n))%Z then 1 else 0))%nat.
Proof.
  induction n as [|n IH].
  - cbn [seq map concat length Nat.add Z.of_nat].
    destruct (Z.leb_spec 0 id); cbn [andb]; [|reflexivity].
    destruct (Z.ltb_spec id 0); [lia | reflexivity].
  - rewrite seq_S, !map_app, !concat_app, !length_app, IH.
    cbn [map concat Nat.add]. rewrite !app_nil_r.
    destruct (Z.leb_spec 0 id) as [H0|H0]; cbn [andb].
    + destruct (Z.ltb_spec id (Z.of_nat n)) as [H1|H1];
        destruct (Z.ltb_spec id (Z.of_nat (S n))) as [H2|H2]; try lia.
      * rewrite upd_other by lia. lia.
      * assert (id = Z.of_nat n) as -> by lia.
        rewrite upd_same, length_app. cbn [length]. lia.
      * rewrite upd_other by lia. lia.
    + rewrite upd_other by lia. lia.
Qed.

Lemma concatScans_push (scans : array (list PointType)) (id : Z)
  (p : PointType) :
  (0 <= id < N_SCANS)%Z ->
  length (concatScans (upd scans id (scans id ++ [p])))
  = S (length (concatScans scans)).
Proof.
  intros H. unfold concatScans. rewrite concat_upd_length.
  destruct (Z.leb_spec 0 id); [|lia].
  destruct (Z.ltb_spec id (Z.of_nat (Z.to_nat N_SCANS)));
    [cbn [andb]; lia | unfold N_SCANS in *; lia].
Qed.

(** A round of the ingestion loop on a point of the cloud: the point is
    outside the field of view and only [count] changes, or it is appended
    to the scan of its beam. *)
Lemma ingestPoint_cases (laserCloudIn : list PointXYZ)
  (timeScanCur startOri endOri : R) (i : Z) (st : Ingest) (raw : PointXYZ) :
  at_ laserCloudIn i = Ok raw ->
  (inFov raw = false
   /\ ingestPoint laserCloudIn timeScanCur startOri endOri i st
      = Ok (Next {| ig_globals := ig_globals st;
                    halfPassed := halfPassed st;
                    count := (count st - 1)%Z;
                    laserCloudScans := laserCloudScans st |}))
  \/ (inFov raw = true /\ (0 <= beamOf raw < N_SCANS)%Z
      /\ exists (g : Globals) (half : bool) (p : PointType),
           ingestPoint laserCloudIn timeScanCur startOri endOri i st
           = Ok (Next {| ig_globals := g;
                         halfPassed := half;
                         count := count st;
                         laserCloudScans :=
                           upd (laserCloudScans st) (beamOf raw)
                             (laserCloudScans st (beamOf raw) ++ [p]) |})
           /\ ((imuPointerLast (ig_globals st) < 0)%Z ->
               g = ig_globals st /\ swapped raw p)).
Proof.
  intros Hat. unfold inFov, beamOf.
  destruct (((computeScanID (ry raw) (rz raw) (rx raw) >? N_SCANS - 1)
             || (computeScanID (ry raw) (rz raw) (rx raw) <? 0))%Z)
    eqn:Hrej.
  - left. split; [reflexivity|].
    exact (ingestPoint_rejected laserCloudIn timeScanCur startOri endOri
             i st raw Hat Hrej).
  - right. apply orb_false_iff in Hrej. rewrite Z.gtb_ltb, !Z.ltb_ge in Hrej.
    split; [reflexivity|]. split; [unfold N_SCANS in *; lia|].
    pose proof (ingestPoint_kept laserCloudIn timeScanCur startOri endOri
                  i st raw Hat ltac:(unfold N_SCANS in *; lia)) as Hk.
    cbn zeta in Hk.
    eexists. eexists. eexists. split; [exact Hk|].
    intros Hg. rewrite compensate_noimu by exact Hg. cbn [fst snd].
    split; [reflexivity|]. repeat split.
Qed.

Lemma inFov_beam (raw : PointXYZ) :
  inFov raw = true <-> (0 <= beamOf raw < N_SCANS)%Z.
Proof.
  unfold inFov. rewrite negb_true_iff, orb_false_iff, Z.gtb_ltb, !Z.ltb_ge.
  unfold N_SCANS. lia.
Qed.

(** A point on the vertical axis of the sensor, above or below it, is
    outside the field of view. *)
Lemma inFov_axis (raw : PointXYZ) :
  notOrigin raw -> rx raw = 0 -> ry raw = 0 -> inFov raw = false.
Proof.
  intros _ Hx Hy. unfold inFov, beamOf, computeScanID. rewrite Hx, Hy.
  destruct (Rlt_dec 0 (0 * 0 + 0 * 0)) as [H|_]; [lra|].
  destruct (Rlt_dec 0 (rz raw)); [reflexivity|].
  destruct (Rlt_dec (rz raw) 0); reflexivity.
Qed.

(** The ingestion of a cloud that is not empty. *)
Lemma ingest_runs (l : list PointXYZ) (timeScanCur : R) (g : Globals) :
  l <> [] ->
  exists ig,
    ingest l timeScanCur g = Ok ig
    /\ count ig = Z.of_nat (length (concatScans (laserCloudScans ig)))
    /\ count ig = Z.of_nat (length (filter inFov l))
    /\ (forall k : Z, ~ (0 <= k < N_SCANS)%Z -> laserCloudScans ig k = [])
    /\ ((imuPointerLast g < 0)%Z ->
        ig_globals ig = g
        /\ (forall (k : Z) (p : PointType),
              In p (laserCloudScans ig k) ->
              exists raw, In raw l /\ beamOf raw = k /\ swapped raw p)
        /\ (forall raw : PointXYZ,
              In raw l -> inFov raw = true ->
              exists p, In p (laserCloudScans ig (beamOf raw))
                        /\ swapped raw p)).
Proof.
  intros Hne. unfold ingest.
  set (n := Z.of_nat (length l)).
  assert (Hn : (0 < n)%Z).
  { unfold n. destruct l; [congruence | cbn [length]; lia]. }
  destruct (at_inside l 0 ltac:(lia)) as (p0 & -> & _).
  destruct (at_inside l (n - 1) ltac:(lia)) as (pN & -> & _).
  cbn [bind].
  set (startOri := computeStartOri p0).
  set (endOri := normalizeEndOri startOri (computeEndOri pN)).
  pose (P := fun (k : nat) (st : Ingest) =>
    (count st + Z.of_nat k
     = n + Z.of_nat (length (concatScans (laserCloudScans st))))%Z
    /\ length (concatScans (laserCloudScans st))
       = length (filter inFov (firstn k l))
    /\ (forall j : Z, ~ (0 <= j < N_SCANS)%Z -> laserCloudScans st j = [])
    /\ ((imuPointerLast g < 0)%Z ->
        ig_globals st = g
        /\ (forall (j : Z) (p : PointType),
              In p (laserCloudScans st j) ->
              exists raw, In raw l /\ beamOf raw = j /\ swapped raw p)
        /\ (forall (m : nat) (raw : PointXYZ),
              (m < k)%nat -> nth_error l m = Some raw ->
              inFov raw = true ->
              exists p, In p (laserCloudScans st (beamOf raw))
                        /\ swapped raw p))).
  destruct (forUp_total P (ingestPoint l timeScanCur startOri endOri)
              0 (n - 1)) with
    (s := {| ig_globals := g; halfPassed := false; count := n;
             laserCloudScans := fun _ => [] |})
    as (ig & Hrun & Hc & Hle & Hout & Himu).
  - intros k st Hk (Hc & Hle & Hout & Himu).
    destruct (at_inside l (0 + Z.of_nat k) ltac:(lia)) as (raw & Hat & Hnth).
    replace (Z.to_nat (0 + Z.of_nat k)) with k in Hnth by lia.
    assert (Hfirst : length (filter inFov (firstn (S k) l))
                     = (length (filter inFov (firstn k l))
                        + (if inFov raw then 1 else 0))%nat).
    { rewrite (firstn_snoc l k raw Hnth), filter_app, length_app.
      cbn [filter]. destruct (inFov raw); reflexivity. }
    destruct (ingestPoint_cases l timeScanCur startOri endOri
                (0 + Z.of_nat k) st raw Hat)
      as [(Hrej & ->)|(Hfov & Hin & g' & half & p & -> & Hno)].
    + eexists. split; [reflexivity|]. unfold P.
      cbn [count laserCloudScans ig_globals]. rewrite Hfirst, Hrej.
      split; [lia|]. split; [lia|]. split; [exact Hout|].
      intros Hg. destruct (Himu Hg) as (Hgl & Hfrom & Hto).
      split; [exact Hgl|]. split; [exact Hfrom|].
      intros m raw' Hm Hnth' Hb.
      destruct (Nat.eq_dec m k) as [->|Hmk].
      * rewrite Hnth in Hnth'. inversion Hnth'; subst. congruence.
      * apply (Hto m raw'); [lia | exact Hnth' | exact Hb].
    + eexists. split; [reflexivity|]. unfold P.
      cbn [count laserCloudScans ig_globals]. rewrite Hfirst, Hfov.
      rewrite concatScans_push by exact Hin.
      split; [lia|]. split; [lia|]. split.
      { intros j Hj. rewrite upd_other by lia. now apply Hout. }
      intros Hg. destruct (Himu Hg) as (Hgl & Hfrom & Hto).
      rewrite Hgl in Hno. destruct (Hno Hg) as (Hg' & Hsw).
      split; [exact Hg'|]. split.
      * intros j q Hq. unfold upd in Hq.
        destruct (Z.eqb_spec j (beamOf raw)) as [->|Hj].
        -- apply in_app_iff in Hq. destruct Hq as [Hq|[<-|[]]].
           ++ now apply Hfrom.
           ++ exists raw. split; [|split; [reflexivity | exact Hsw]].
              eapply nth_error_In. exact Hnth.
        -- now apply Hfrom.
      * intros m raw' Hm Hnth' Hb.
        destruct (Nat.eq_dec m k) as [->|Hmk].
        -- rewrite Hnth in Hnth'. inversion Hnth'; subst raw'.
           exists p. split; [|exact Hsw].
           rewrite upd_same. apply in_app_iff. right. now left.
        -- destruct (Hto m raw' ltac:(lia) Hnth' Hb) as (q & Hq & Hsq).
           exists q. split; [|exact Hsq]. unfold upd.
           destruct (Z.eqb_spec (beamOf raw') (beamOf raw)) as [He|_];
             [|exact Hq].
           apply in_app_iff. left. rewrite <- He. exact Hq.
  - unfold P. cbn [count laserCloudScans ig_globals firstn filter].
    change (concatScans (fun _ : Z => [])) with (@nil PointType).
    cbn [length].
    split; [lia|]. split; [reflexivity|]. split; [reflexivity|].
    intros _. split; [reflexivity|]. split.
    + intros j p [].
    + intros m raw Hm. lia.
  - exists ig. split; [exact Hrun|].
    replace (Z.to_nat (n - 1 - 0 + 1)) with (length l) in * by lia.
    rewrite firstn_all in Hle.
    split; [fold n in Hc; lia|]. split; [fold n in Hc; lia|].
    split; [exact Hout|].
    intros Hg. destruct (Himu Hg) as (Hgl & Hfrom & Hto).
    split; [exact Hgl|]. split; [exact Hfrom|].
    intros raw Hin Hb. apply In_nth_error in Hin. destruct Hin as (m & Hm).
    apply (Hto m raw); [|exact Hm | exact Hb].
    apply nth_error_Some. congruence.
Qed.

(** X12.  The ingestion of a cloud that is not empty and has no point at
    the origin succeeds.  The number of points it reports, [count], is
    the number of points of the incoming cloud inside the field of view
    (a point on the vertical axis of the sensor is outside it) and the
    size of the cloud assembled from the scans; only the scans 0 to
    [N_SCANS - 1] receive points. *)
Theorem ingest_count (l : list PointXYZ) (timeScanCur : R) (g : Globals) :
  l <> [] -> Forall notOrigin l ->
  exists ig,
    ingest l timeScanCur g = Ok ig
    /\ count ig = Z.of_nat (length (concatScans (laserCloudScans ig)))
    /\ count ig = Z.of_nat (length (filter inFov l))
    /\ (0 <= count ig <= Z.of_nat (length l))%Z
    /\ (forall k : Z, ~ (0 <= k < N_SCANS)%Z -> laserCloudScans ig k = [])
    /\ (forall raw : PointXYZ,
          In raw l -> rx raw = 0 -> ry raw = 0 -> inFov raw = false).
Proof.
  intros Hne Horigin.
  destruct (ingest_runs l timeScanCur g Hne) as (ig & H & Hc & Hf & Ho & _).
  exists ig. split; [exact H|]. split; [exact Hc|]. split; [exact Hf|].
  split; [|split; [exact Ho|]].
  - pose proof (filter_length_le inFov l). lia.
  - intros raw Hin. apply inFov_axis.
    rewrite Forall_forall in Horigin. now apply Horigin.
Qed.

Lemma ingest_count_witness :
  exists ig,
    ingest [mkXYZ 1 0 0; mkXYZ 0 0 1; mkXYZ 1 (-1) 0] 0 initGlobals = Ok ig
    /\ count ig = 2%Z.
Proof.
  destruct (ingest_count [mkXYZ 1 0 0; mkXYZ 0 0 1; mkXYZ 1 (-1) 0] 0
              initGlobals ltac:(discriminate))
    as (ig & H & _ & Hc & _).
  - apply Forall_cons; [left; cbn; lra|].
    apply Forall_cons; [right; right; cbn; lra|].
    apply Forall_cons; [left; cbn; lra | apply Forall_nil].
  - exists ig. split; [exact H|]. rewrite Hc.
    cbn [filter]. unfold inFov, beamOf. cbn [rx ry rz].
    rewrite !computeScanID_level by lra. rewrite computeScanID_axis_up by lra.
    reflexivity.
Defined.

(** X13.  With no IMU message received, the ingestion of a cloud that is
    not empty and has no point at the origin leaves the file-scope state
    as it is, and the assembled
    cloud holds the points of the incoming cloud inside the field of
    view, each with its axes exchanged and in the scan of its beam: every
    stored point comes from such a point, and every such point is
    stored. *)
Theorem ingest_without_imu (l : list PointXYZ) (timeScanCur : R)
  (g : Globals) :
  l <> [] -> Forall notOrigin l -> (imuPointerLast g < 0)%Z ->
  exists ig,
    ingest l timeScanCur g = Ok ig
    /\ ig_globals ig = g
    /\ (forall p : PointType,
          In p (concatScans (laserCloudScans ig)) ->
          exists raw, In raw l /\ inFov raw = true /\ swapped raw p
                      /\ In p (laserCloudScans ig (beamOf raw)))
    /\ (forall raw : PointXYZ,
          In raw l -> inFov raw = true ->
          exists p, In p (concatScans (laserCloudScans ig))
                    /\ swapped raw p
                    /\ In p (laserCloudScans ig (beamOf raw))).
Proof.
  intros Hne _ Hg.
  destruct (ingest_runs l timeScanCur g Hne)
    as (ig & H & _ & _ & _ & Himu).
  destruct (Himu Hg) as (Hgl & Hfrom & Hto).
  exists ig. split; [exact H|]. split; [exact Hgl|]. split.
  - intros p Hp. apply In_concatScans in Hp. destruct Hp as (k & Hk & Hp).
    destruct (Hfrom k p Hp) as (raw & Hin & Hb & Hsw).
    exists raw. rewrite Hb. split; [exact Hin|].
    split; [apply inFov_beam; lia|]. auto.
  - intros raw Hin Hb. destruct (Hto raw Hin Hb) as (p & Hp & Hsw).
    exists p. split; [|auto].
    apply In_concatScans. exists (beamOf raw).
    split; [now apply inFov_beam | exact Hp].
Qed.

Lemma ingest_without_imu_witness :
  exists ig p,
    ingest [mkXYZ 1 0 0; mkXYZ 0 0 1] 0 initGlobals = Ok ig
    /\ ig_globals ig = initGlobals
    /\ In p (laserCloudScans ig 15%Z) /\ swapped (mkXYZ 1 0 0) p.
Proof.
  destruct (ingest_without_imu [mkXYZ 1 0 0; mkXYZ 0 0 1] 0 initGlobals
              ltac:(discriminate))
    as (ig & H & Hg & _ & Hto).
  - apply Forall_cons; [left; cbn; lra|].
    apply Forall_cons; [right; right; cbn; lra | apply Forall_nil].
  - cbn. lia.
  - assert (Hb : beamOf (mkXYZ 1 0 0) = 15%Z).
    { unfold beamOf. cbn [rx ry rz]. apply computeScanID_level. lra. }
    destruct (Hto (mkXYZ 1 0 0)) as (p & _ & Hsw & Hin).
    + now left.
    + unfold inFov. rewrite Hb. reflexivity.
    + rewrite Hb in Hin. exists ig, p. auto.
Defined.

(** ** The first point of a sweep *)

(** The first point of a sweep has the start azimuth. *)
Lemma computeOri_first_point (endOri x z : R) :
  computeOri (- atan2 x z) endOri false x z = (- atan2 x z, false).
Proof.
  pose proof PI_RGT_0 as Hpi. unfold computeOri. cbn [negb].
  destruct (Rlt_dec _ _) as [H|_]; [lra|].
  destruct (Rgt_dec _ _) as [H|_]; [lra|].
  destruct (Rgt_dec _ _) as [H|_]; [lra | reflexivity].
Qed.

(** The round of the ingestion loop on the first point of the cloud, when
    it is inside the field of view and an IMU message has been received. *)
Lemma ingestPoint_first (raw0 : PointXYZ) (rest : list PointXYZ)
  (timeScanCur endOri : R) (st : Ingest) :
  inFov raw0 = true -> (0 <= imuPointerLast (ig_globals st))%Z ->
  halfPassed st = false ->
  ingestPoint (raw0 :: rest) timeScanCur (computeStartOri raw0) endOri 0 st
  = Ok (Next
          {| ig_globals :=
               latchStart (interpolateIMU timeScanCur 0 (ig_globals st));
             halfPassed := false;
             count := count st;
             laserCloudScans :=
               upd (laserCloudScans st) (beamOf raw0)
                 (laserCloudScans st (beamOf raw0)
                  ++ [{| px := ry raw0; py := rz raw0; pz := rx raw0;
                         intensity := IZR (beamOf raw0) |}]) |}).
Proof.
  intros Hfov Hl Hhalf.
  pose proof (ingestPoint_kept (raw0 :: rest) timeScanCur
                (computeStartOri raw0) endOri 0 st raw0 eq_refl) as H.
  cbn zeta in H. rewrite H; clear H.
  2:{ apply inFov_beam in Hfov. unfold beamOf, N_SCANS in *. lia. }
  assert (E : computeOri (computeStartOri raw0) endOri false (ry raw0)
                (rx raw0) = (computeStartOri raw0, false))
    by apply computeOri_first_point.
  rewrite Hhalf, !E. cbn [fst snd]. fold (beamOf raw0).
  replace ((computeStartOri raw0 - computeStartOri raw0)
           / (endOri - computeStartOri raw0)) with 0
    by (unfold Rdiv; ring).
  replace (IZR (beamOf raw0) + scanPeriod * 0) with (IZR (beamOf raw0))
    by ring.
  unfold compensate.
  destruct (Z.geb_spec (imuPointerLast (ig_globals st)) 0); [|lia].
  cbn [Z.eqb fst snd]. replace (0 * scanPeriod) with 0 by ring.
  reflexivity.
Qed.

(** X14.  When the first finite point of a sweep is inside the field of
    view (so off the vertical axis of the sensor), no later point is at
    the origin, an IMU message has been received, and the IMU state for
    the stamp of the sweep is defined (the stamp is after the time of the
    slot under the read cursor, or that slot and the one before it have
    different times), the ingestion succeeds, the start state of the
    sweep is that IMU state (the relative time of the first point is 0),
    and the first point is stored without a transformation, with the
    number of its beam as intensity. *)
Theorem first_point_latched (raw0 : PointXYZ) (rest : list PointXYZ)
  (timeScanCur : R) (g : Globals) :
  inFov raw0 = true -> Forall notOrigin rest ->
  (0 <= imuPointerLast g)%Z ->
  let g1 := interpolateIMU timeScanCur 0 g in
  let c := imuCur g1 in
  let front := imuPointerFront g1 in
  let back := Z.rem (front + imuQueLength - 1) imuQueLength in
  (imuTime (ring g) front < timeScanCur
   \/ imuTime (ring g) front <> imuTime (ring g) back) ->
  exists ig,
    ingest (raw0 :: rest) timeScanCur g = Ok ig
    /\ imuStart (ig_globals ig)
       = mkImuStart (imuRollCur c) (imuPitchCur c) (imuYawCur c)
           (imuVeloXCur c) (imuVeloYCur c) (imuVeloZCur c)
           (imuShiftXCur c) (imuShiftYCur c) (imuShiftZCur c)
    /\ In {| px := ry raw0; py := rz raw0; pz := rx raw0;
             intensity := IZR (beamOf raw0) |}
         (laserCloudScans ig (beamOf raw0)).
Proof.
  intros Hfov _ Hl. cbn zeta. intros _. unfold ingest.
  set (l := raw0 :: rest).
  set (n := Z.of_nat (length l)).
  assert (Hn : n = (Z.of_nat (length rest) + 1)%Z).
  { unfold n, l. cbn [length]. lia. }
  change (at_ l 0) with (Ok raw0).
  destruct (at_inside l (n - 1) ltac:(lia)) as (pN & -> & _).
  cbn [bind]. unfold forUp.
  replace (Z.to_nat (n - 1 - 0 + 1)) with (S (length rest)) by lia.
  cbn [iterate]. unfold l at 1.
  rewrite ingestPoint_first by (cbn [ig_globals halfPassed]; auto).
  cbn [ig_globals halfPassed count laserCloudScans app].
  set (st1 := {| ig_globals := latchStart (interpolateIMU timeScanCur 0 g);
                 halfPassed := false;
                 count := n;
                 laserCloudScans := _ |}).
  set (p0 := {| px := ry raw0; py := rz raw0; pz := rx raw0;
                intensity := IZR (beamOf raw0) |}) in *.
  set (startOri := computeStartOri raw0).
  set (endOri := normalizeEndOri startOri (computeEndOri pN)).
  pose (P := fun (k : nat) (st : Ingest) =>
    imuStart (ig_globals st) = imuStart (ig_globals st1)
    /\ In p0 (laserCloudScans st (beamOf raw0))).
  destruct (iterate_total P (ingestPoint l timeScanCur startOri endOri)
              (0 + 1) 1 (length rest)) with (s := st1)
    as (ig & Hrun & Hs & Hin).
  - intros k st Hk (Hs & Hin).
    destruct (at_inside l (0 + 1 + Z.of_nat k * 1) ltac:(lia))
      as (raw & Hat & _).
    destruct (ingestPoint_cases l timeScanCur startOri endOri
                (0 + 1 + Z.of_nat k * 1) st raw Hat)
      as [(Hrej & Hstep)|(_ & _ & g' & half & p & Hstep & _)].
    + eexists. split; [exact Hstep|]. unfold P.
      cbn [ig_globals laserCloudScans]. auto.
    + eexists. split; [exact Hstep|]. unfold P.
      split.
      * rewrite <- Hs.
        apply (ingestPoint_start l timeScanCur startOri endOri
                 (0 + 1 + Z.of_nat k * 1) st _ ltac:(lia)).
        left. exact Hstep.
      * cbn [laserCloudScans]. unfold upd.
        destruct (Z.eqb_spec (beamOf raw0) (beamOf raw)) as [He|_];
          [|exact Hin].
        apply in_app_iff. left. rewrite <- He. exact Hin.
  - unfold P. split; [reflexivity|].
    unfold st1. cbn [laserCloudScans]. rewrite upd_same. now left.
  - exists ig. split; [exact Hrun|]. split; [|exact Hin].
    rewrite Hs. reflexivity.
Qed.

Lemma first_point_latched_witness :
  let g := imuHandler tiltedMsg initGlobals in
  exists ig,
    ingest [mkXYZ 1 0 0; mkXYZ 1 (-1) 0] 2 g = Ok ig
    /\ imuRollStart (imuStart (ig_globals ig)) = 0.3.
Proof.
  cbn zeta. set (g := imuHandler tiltedMsg initGlobals).
  assert (Hlast : imuPointerLast g = 0%Z)
    by (unfold g; rewrite imuHandler_last; reflexivity).
  assert (Hfront : imuPointerFront g = 0%Z)
    by (unfold g; rewrite (proj1 (imuHandler_sweep_state _ _));
        reflexivity).
  assert (Hslot : slotHolds (ring g) 0 tiltedMsg)
    by apply (imuHandler_written tiltedMsg initGlobals).
  assert (Hf : imuPointerFront (interpolateIMU 2 0 g) = 0%Z).
  { rewrite interpolateIMU_front, Hlast, Hfront. reflexivity. }
  assert (Ht : imuTime (ring g) 0%Z = 1) by exact (proj1 Hslot).
  destruct (first_point_latched (mkXYZ 1 0 0) [mkXYZ 1 (-1) 0] 2 g)
    as (ig & H & Hs & _).
  - unfold inFov, beamOf. cbn [rx ry rz]. rewrite computeScanID_level by lra.
    reflexivity.
  - apply Forall_cons; [left; cbn; lra | apply Forall_nil].
  - lia.
  - left. rewrite Hf, Ht. lra.
  - exists ig. split; [exact H|]. rewrite Hs. cbn [imuRollStart].
    destruct (interpolateIMU_latest 2 0 g) as (Hc & _).
    + now rewrite Hfront, Hlast.
    + rewrite Hlast, Ht. lra.
    + rewrite Hc, Hlast. exact (proj1 (proj1 (proj2 Hslot))).
Defined.

(** ** What the sweep callback leaves alone *)

Lemma compensate_frame (timeScanCur relTime : R) (i : Z)
  (point : PointType) (g : Globals) :
  let g' := fst (compensate timeScanCur relTime i point g) in
  ring g' = ring g /\ imuPointerLast g' = imuPointerLast g
  /\ scratch g' = scratch g /\ systemInited g' = systemInited g
  /\ systemInitCount g' = systemInitCount g.
Proof.
  cbn zeta. unfold compensate.
  destruct (imuPointerLast g >=? 0)%Z; [|repeat split].
  unfold interpolateIMU.
  destruct (Z.eqb i 0); destruct (Rgt_dec _ _); repeat split.
Qed.

Lemma ingest_frame (l : list PointXYZ) (timeScanCur : R) (g : Globals)
  (ig : Ingest) :
  ingest l timeScanCur g = Ok ig ->
  let g' := ig_globals ig in
  ring g' = ring g /\ imuPointerLast g' = imuPointerLast g
  /\ scratch g' = scratch g /\ systemInited g' = systemInited g
  /\ systemInitCount g' = systemInitCount g.
Proof.
  intros H. cbn zeta. unfold ingest in H. bind_inv H. revert H.
  apply (forUp_inv (fun st =>
           ring (ig_globals st) = ring g
           /\ imuPointerLast (ig_globals st) = imuPointerLast g
           /\ scratch (ig_globals st) = scratch g
           /\ systemInited (ig_globals st) = systemInited g
           /\ systemInitCount (ig_globals st) = systemInitCount g));
    [|repeat split].
  intros k st st' (H1 & H2 & H3 & H4 & H5) Hstep.
  assert (Hc : exists c, (c = Next st' \/ c = Break st')
                         /\ ingestPoint l timeScanCur (computeStartOri a)
                              (normalizeEndOri (computeStartOri a)
                                 (computeEndOri a0)) k st = Ok c).
  { destruct Hstep as [Hs|Hs]; eexists; (split; [|exact Hs]); auto. }
  clear Hstep. destruct Hc as (c & Hc & Hs). unfold ingestPoint in Hs.
  bind_inv Hs. destruct (_ || _)%bool.
  { inversion Hs; subst. destruct Hc as [Hc|Hc]; inversion Hc; subst.
    cbn [ig_globals]. auto. }
  destruct (computeOri _ _ _ _ _) as [ori half].
  destruct (compensate _ _ _ _ _) as [g1 point'] eqn:Hcomp.
  bind_inv Hs. inversion Hs; subst.
  destruct Hc as [Hc|Hc]; inversion Hc; subst. cbn [ig_globals].
  match type of Hcomp with
  | compensate ?t ?r ?i ?p ?g0 = _ =>
      pose proof (compensate_frame t r i p g0) as Hf
  end.
  rewrite Hcomp in Hf. cbn [fst] in Hf. cbn zeta in Hf.
  destruct Hf as (F1 & F2 & F3 & F4 & F5).
  rewrite F1, F2, F3, F4, F5. auto.
Qed.

(** The two ways the sweep callback returns. *)
Lemma laserCloudHandler_effect
  (downSizeFilter : list PointType -> list PointType)
  (laserCloudMsg : CloudMsg) (g g' : Globals) (out : option Outputs) :
  laserCloudHandler downSizeFilter laserCloudMsg g = Ok (g', out) ->
  (ring g' = ring g /\ imuPointerLast g' = imuPointerLast g)
  /\ (systemInited g = false ->
      out = None
      /\ systemInitCount g' = (systemInitCount g + 1)%Z
      /\ systemInited g' = (systemInitCount g + 1 >=? systemDelay)%Z
      /\ scratch g' = scratch g /\ imuPointerFront g' = imuPointerFront g
      /\ imuStart g' = imuStart g /\ imuCur g' = imuCur g
      /\ imuFromStart g' = imuFromStart g)
  /\ (systemInited g = true ->
      systemInited g' = true /\ systemInitCount g' = systemInitCount g
      /\ exists o, out = Some o
                   /\ out_stamp o = cloud_stamp laserCloudMsg
                   /\ imuTransOut o = imuTrans g').
Proof.
  intros H. unfold laserCloudHandler in H.
  destruct (systemInited g) eqn:Hi; cbn [negb] in H.
  - bind_inv H. inversion H; subst. clear H.
    destruct (ingest_frame _ _ _ _ E) as (H1 & H2 & H3 & H4 & H5).
    cbn [set_scratch ring imuPointerLast systemInited systemInitCount].
    split; [split; assumption|]. split; [discriminate|].
    intros _. rewrite H4, H5, Hi.
    split; [reflexivity|]. split; [reflexivity|].
    eexists. split; [reflexivity|]. split; reflexivity.
  - inversion H; subst. clear H. cbn.
    split; [split; reflexivity|]. split; [|discriminate].
    intros _. repeat split; reflexivity.
Qed.

(** X15.  The sweep callback never writes the IMU ring nor its write
    cursor.  During the start-up delay it publishes nothing and only
    counts the sweep: [systemInited] is set by the sweep that brings the
    count to [systemDelay].  Afterwards it publishes, with the stamp of
    the sweep and the IMU state it ends with, and leaves the start-up
    variables alone. *)
Theorem laserCloudHandler_frame
  (downSizeFilter : list PointType -> list PointType)
  (laserCloudMsg : CloudMsg) (g g' : Globals) (out : option Outputs) :
  laserCloudHandler downSizeFilter laserCloudMsg g = Ok (g', out) ->
  (ring g' = ring g /\ imuPointerLast g' = imuPointerLast g)
  /\ (systemInited g = false ->
      out = None
      /\ systemInitCount g' = (systemInitCount g + 1)%Z
      /\ systemInited g' = (systemInitCount g + 1 >=? systemDelay)%Z
      /\ scratch g' = scratch g /\ imuPointerFront g' = imuPointerFront g
      /\ imuStart g' = imuStart g /\ imuCur g' = imuCur g
      /\ imuFromStart g' = imuFromStart g)
  /\ (systemInited g = true ->
      systemInited g' = true /\ systemInitCount g' = systemInitCount g
      /\ exists o, out = Some o
                   /\ out_stamp o = cloud_stamp laserCloudMsg
                   /\ imuTransOut o = imuTrans g').
Proof. apply laserCloudHandler_effect. Qed.

Lemma laserCloudHandler_frame_witness :
  exists g' out,
    laserCloudHandler (fun l => l) flatWallSweep readyGlobals = Ok (g', out)
    /\ ring g' = ring readyGlobals.
Proof.
  destruct (laserCloudHandler_wall (fun l => l)) as (g' & out & _ & H & _).
  exists g', (Some out). split; [exact H|].
  exact (proj1 (proj1 (laserCloudHandler_frame _ _ _ _ _ H))).
Defined.

(** ** The start-up delay *)

(** The ring and the write cursor after the IMU callback depend on the
    ring and the write cursor before it only. *)
Lemma imuHandler_ring_ext (m : ImuMsg) (g g0 : Globals) :
  ring g = ring g0 -> imuPointerLast g = imuPointerLast g0 ->
  ring (imuHandler m g) = ring (imuHandler m g0)
  /\ imuPointerLast (imuHandler m g) = imuPointerLast (imuHandler m g0).
Proof.
  intros Hr Hl. split; [|rewrite !imuHandler_last, Hl; reflexivity].
  unfold imuHandler, AccumulateIMUShift. cbn zeta.
  cbn [ring imuPointerLast set_ring set_imuPointerLast].
  rewrite Hr, Hl.
  destruct (worldAcc _ _) as [[ax ay] az].
  cbn [imuTime]. destruct (Rlt_dec _ _); reflexivity.
Qed.

Lemma imuRun_ring_ext (l : list ImuMsg) (g g0 : Globals) :
  ring g = ring g0 -> imuPointerLast g = imuPointerLast g0 ->
  ring (imuRun l g) = ring (imuRun l g0)
  /\ imuPointerLast (imuRun l g) = imuPointerLast (imuRun l g0).
Proof.
  revert g g0. induction l as [|m l IH]; intros g g0 Hr Hl.
  - split; assumption.
  - rewrite !imuRun_cons.
    destruct (imuHandler_ring_ext m g g0 Hr Hl) as (Hr' & Hl').
    now apply IH.
Qed.

Lemma imuRun_sweep_state (l : list ImuMsg) (g : Globals) :
  systemInitCount (imuRun l g) = systemInitCount g
  /\ systemInited (imuRun l g) = systemInited g
  /\ scratch (imuRun l g) = scratch g
  /\ imuPointerFront (imuRun l g) = imuPointerFront g
  /\ imuStart (imuRun l g) = imuStart g
  /\ imuCur (imuRun l g) = imuCur g
  /\ imuFromStart (imuRun l g) = imuFromStart g.
Proof.
  revert g. induction l as [|m l IH]; intros g; [repeat split|].
  rewrite imuRun_cons.
  destruct (imuHandler_sweep_state m g)
    as (Hf & Hs & Hcu & Hfs & Hsc & Hn & Hi).
  cbn zeta in *. specialize (IH (imuHandler m g)).
  rewrite Hf, Hs, Hcu, Hfs, Hsc, Hn, Hi in IH. exact IH.
Qed.

(** A list of IMU messages only: the dispatcher publishes nothing. *)
Lemma spin_imu_only f (events : list Event) (g : Globals) :
  sweepsOf events = [] ->
  spin f events g = Ok (imuRun (imuMsgsOf events) g, []).
Proof.
  revert g. induction events as [|[m|m] rest IH]; intros g H.
  - reflexivity.
  - cbn [spin imuMsgsOf]. rewrite imuRun_cons. now apply IH.
  - discriminate.
Qed.

(** The dispatcher during the start-up delay. *)
Lemma spin_delay f (events : list Event) (g : Globals) :
  systemInited g = false ->
  (systemInitCount g + Z.of_nat (length (sweepsOf events))
   <= systemDelay)%Z ->
  exists g',
    spin f events g = Ok (g', [])
    /\ systemInitCount g'
       = (systemInitCount g + Z.of_nat (length (sweepsOf events)))%Z
    /\ systemInited g' = (0 <? length (sweepsOf events))%nat
                         && (systemInitCount g' >=? systemDelay)%Z
    /\ ring g' = ring (imuRun (imuMsgsOf events) g)
    /\ imuPointerLast g' = imuPointerLast (imuRun (imuMsgsOf events) g)
    /\ scratch g' = scratch g /\ imuPointerFront g' = imuPointerFront g
    /\ imuStart g' = imuStart g /\ imuCur g' = imuCur g
    /\ imuFromStart g' = imuFromStart g.
Proof.
  revert g. induction events as [|[m|m] rest IH]; intros g Hi Hc.
  - exists g. cbn. rewrite Z.add_0_r, Hi. repeat split; reflexivity.
  - cbn [spin sweepsOf imuMsgsOf] in *. rewrite imuRun_cons.
    destruct (imuHandler_sweep_state m g)
      as (Hf & Hs & Hcu & Hfs & Hsc & Hn & Hin).
    cbn zeta in *.
    destruct (IH (imuHandler m g)) as (g' & Hrun & H); [congruence|lia|].
    exists g'. split; [exact Hrun|].
    rewrite Hn, Hf, Hs, Hcu, Hfs, Hsc in H. exact H.
  - cbn [spin sweepsOf imuMsgsOf length] in *.
    unfold laserCloudHandler. rewrite Hi. cbn [negb bind fst snd].
    set (g1 := {| systemInitCount := systemInitCount g + 1;
                  systemInited := (systemInitCount g + 1 >=? systemDelay)%Z;
                  scratch := scratch g;
                  imuPointerFront := imuPointerFront g;
                  imuPointerLast := imuPointerLast g;
                  imuStart := imuStart g;
                  imuCur := imuCur g;
                  imuFromStart := imuFromStart g;
                  ring := ring g |}).
    assert (Hext : ring (imuRun (imuMsgsOf rest) g1)
                   = ring (imuRun (imuMsgsOf rest) g)
                   /\ imuPointerLast (imuRun (imuMsgsOf rest) g1)
                      = imuPointerLast (imuRun (imuMsgsOf rest) g)).
    { apply imuRun_ring_ext; reflexivity. }
    destruct Hext as (Hr & Hl).
    destruct (Z.geb_spec (systemInitCount g + 1) systemDelay) as [Hge|Hlt].
    + assert (Hrest : sweepsOf rest = []).
      { destruct (sweepsOf rest); [reflexivity | cbn [length] in Hc; lia]. }
      rewrite (spin_imu_only f rest g1 Hrest). cbn [bind fst snd].
      eexists. split; [reflexivity|]. rewrite Hrest, Hr, Hl. cbn [length].
      clear Hr Hl.
      destruct (imuRun_sweep_state (imuMsgsOf rest) g1)
        as (-> & -> & -> & -> & -> & -> & ->).
      cbn [systemInitCount systemInited scratch imuPointerFront imuStart
           imuCur imuFromStart g1].
      split; [lia|]. split.
      { cbn [Nat.ltb Nat.leb andb]. symmetry. apply Z.geb_le. lia. }
      repeat split; reflexivity.
    + destruct (IH g1) as (g' & Hrun & Hn & Hin & H);
        [reflexivity | cbn [systemInitCount g1]; lia|].
      rewrite Hrun. cbn [bind fst snd]. exists g'.
      split; [reflexivity|]. cbn [systemInitCount g1] in Hn.
      split; [lia|]. split.
      { rewrite Hin. destruct (sweepsOf rest) as [|c r]; cbn [length].
        - cbn [Nat.ltb Nat.leb andb length] in *.
          destruct (Z.geb_spec (systemInitCount g') systemDelay);
            [lia | reflexivity].
        - reflexivity. }
      rewrite Hr, Hl in H. exact H.
Qed.

Lemma delayLeft_imuHandler (m : ImuMsg) (g : Globals) :
  delayLeft (imuHandler m g) = delayLeft g.
Proof.
  destruct (imuHandler_sweep_state m g) as (_ & _ & _ & _ & _ & Hn & Hi).
  cbn zeta in *. unfold delayLeft. now rewrite Hn, Hi.
Qed.

(** The stamps of what the dispatcher publishes, from any state. *)
Lemma spin_stamps_from f (events : list Event) (g g' : Globals)
  (outs : list Outputs) :
  spin f events g = Ok (g', outs) ->
  map out_stamp outs
  = map cloud_stamp (skipn (delayLeft g) (sweepsOf events)).
Proof.
  revert g g' outs.
  induction events as [|[m|m] rest IH]; intros g g' outs H.
  - cbn in H. inversion H; subst. now rewrite skipn_nil.
  - cbn [spin sweepsOf] in *. rewrite <- delayLeft_imuHandler with (m := m).
    now apply IH with (g' := g').
  - cbn [spin sweepsOf] in H. bind_inv H. inversion H; subst. clear H.
    destruct a as [g1 o1]. destruct a0 as [g2 o2]. cbn [fst snd] in *.
    specialize (IH _ _ _ E0).
    destruct (laserCloudHandler_effect _ _ _ _ _ E) as (_ & Hoff & Hon).
    cbn [sweepsOf]. unfold delayLeft in *.
    destruct (systemInited g) eqn:Hi.
    + destruct (Hon eq_refl) as (Hi1 & _ & o & -> & Hst & _).
      rewrite Hi1 in IH. cbn [skipn map] in *. now rewrite Hst, IH.
    + destruct (Hoff eq_refl) as (-> & Hn & Hi1 & _).
      rewrite Hi1, Hn in IH. rewrite IH.
      destruct (Z.geb_spec (systemInitCount g + 1) systemDelay) as [Hge|Hlt].
      * replace (Nat.max 1 (Z.to_nat (systemDelay - systemInitCount g)))
          with 1%nat by lia.
        reflexivity.
      * replace (Nat.max 1 (Z.to_nat (systemDelay - systemInitCount g)))
          with (S (Nat.max 1 (Z.to_nat (systemDelay
                                        - (systemInitCount g + 1)))))
          by lia.
        reflexivity.
Qed.

(** X16.  From the initial state, a list of events with at most
    [systemDelay] sweeps is processed without a failure and without a
    publication, whatever the sweeps hold.  The IMU messages between them
    are integrated as if there were no sweep; the sweep-side state is
    untouched; and [systemInited] is set exactly when the list has
    [systemDelay] sweeps. *)
Theorem spin_startup f (events : list Event) :
  (length (sweepsOf events) <= Z.to_nat systemDelay)%nat ->
  exists g,
    spin f events initGlobals = Ok (g, [])
    /\ systemInitCount g = Z.of_nat (length (sweepsOf events))
    /\ (systemInited g = true
        <-> length (sweepsOf events) = Z.to_nat systemDelay)
    /\ ring g = ring (imuRun (imuMsgsOf events) initGlobals)
    /\ imuPointerLast g
       = imuPointerLast (imuRun (imuMsgsOf events) initGlobals)
    /\ scratch g = scratch initGlobals
    /\ imuPointerFront g = imuPointerFront initGlobals
    /\ imuStart g = imuStart initGlobals /\ imuCur g = imuCur initGlobals
    /\ imuFromStart g = imuFromStart initGlobals.
Proof.
  intros Hn.
  destruct (spin_delay f events initGlobals eq_refl)
    as (g & Hrun & Hc & Hi & H).
  { cbn [systemInitCount initGlobals]. unfold systemDelay in *. lia. }
  exists g. split; [exact Hrun|].
  cbn [systemInitCount initGlobals] in Hc.
  split; [lia|]. split; [|exact H].
  rewrite Hi, andb_true_iff, Nat.ltb_lt, Z.geb_le, Hc.
  unfold systemDelay in *. lia.
Qed.

Lemma spin_startup_witness :
  exists g,
    spin (fun l => l) [CloudEvent nanSweep; ImuEvent tiltedMsg] initGlobals
    = Ok (g, [])
    /\ systemInitCount g = 1%Z.
Proof.
  destruct (spin_startup (fun l => l)
              [CloudEvent nanSweep; ImuEvent tiltedMsg])
    as (g & H & Hc & _).
  - cbn. lia.
  - exists g. split; [exact H | exact Hc].
Defined.

(** X17.  Whenever the dispatcher processes a list of events from the
    initial state without a failure, it publishes once for each sweep
    after the first [systemDelay] ones, in order, each time with the stamp
    of the sweep. *)
Theorem spin_stamps f (events : list Event) (g : Globals)
  (outs : list Outputs) :
  spin f events initGlobals = Ok (g, outs) ->
  map out_stamp outs
  = map cloud_stamp (skipn (Z.to_nat systemDelay) (sweepsOf events))
  /\ length outs = (length (sweepsOf events) - Z.to_nat systemDelay)%nat.
Proof.
  intros H. apply spin_stamps_from in H.
  change (delayLeft initGlobals) with (Z.to_nat systemDelay) in H.
  split; [exact H|].
  apply (f_equal (@length R)) in H.
  now rewrite !length_map, length_skipn in H.
Qed.

Lemma spin_stamps_witness :
  exists g outs,
    spin (fun l => l) (warmUp ++ [CloudEvent flatWallSweep]) initGlobals
    = Ok (g, outs)
    /\ length outs = 1%nat.
Proof.
  destruct (laserCloudHandler_wall (fun l => l)) as (g' & out & _ & H & _).
  assert (Hrun : spin (fun l => l) (warmUp ++ [CloudEvent flatWallSweep])
                   initGlobals = Ok (g', [out])).
  { rewrite spin_app, spin_warmUp. cbn [bind fst snd spin].
    rewrite H. reflexivity. }
  exists g', [out]. split; [exact Hrun|].
  exact (proj2 (spin_stamps _ _ _ _ Hrun)).
Defined.

(** ** The curvature stage on any cloud *)

(** One round of the curvature loop on a point that has five neighbours on
    each side and an index inside the scratch arrays. *)
Lemma curvaturePoint_runs (cloud : list PointType) (i : Z) (st : Curv) :
  (5 <= i)%Z -> (i + 5 < Z.of_nat (length cloud))%Z ->
  (i < maxCloudSize)%Z ->
  exists st' c,
    curvaturePoint cloud i st = Ok (Next st')
    /\ 0 <= c
    /\ cloudCurvature (cv_scratch st')
       = upd (cloudCurvature (cv_scratch st)) i c
    /\ cloudSortInd (cv_scratch st')
       = upd (cloudSortInd (cv_scratch st)) i i
    /\ cloudNeighborPicked (cv_scratch st')
       = upd (cloudNeighborPicked (cv_scratch st)) i 0%Z
    /\ cloudLabel (cv_scratch st') = upd (cloudLabel (cv_scratch st)) i 0%Z.
Proof.
  intros H5 Hlen Hmax. unfold curvaturePoint.
  destruct (at_inside cloud (i - 5) ltac:(lia)) as (m5 & -> & _).
  destruct (at_inside cloud (i - 4) ltac:(lia)) as (m4 & -> & _).
  destruct (at_inside cloud (i - 3) ltac:(lia)) as (m3 & -> & _).
  destruct (at_inside cloud (i - 2) ltac:(lia)) as (m2 & -> & _).
  destruct (at_inside cloud (i - 1) ltac:(lia)) as (m1 & -> & _).
  destruct (at_inside cloud i ltac:(lia)) as (p & -> & _).
  destruct (at_inside cloud (i + 1) ltac:(lia)) as (p1 & -> & _).
  destruct (at_inside cloud (i + 2) ltac:(lia)) as (p2 & -> & _).
  destruct (at_inside cloud (i + 3) ltac:(lia)) as (p3 & -> & _).
  destruct (at_inside cloud (i + 4) ltac:(lia)) as (p4 & -> & _).
  destruct (at_inside cloud (i + 5) ltac:(lia)) as (p5 & -> & _).
  cbn [bind].
  rewrite !wr_in by lia. cbn [bind].
  set (dx := diffSum px m5 m4 m3 m2 m1 p p1 p2 p3 p4 p5).
  set (dy := diffSum py m5 m4 m3 m2 m1 p p1 p2 p3 p4 p5).
  set (dz := diffSum pz m5 m4 m3 m2 m1 p p1 p2 p3 p4 p5).
  assert (Hc : 0 <= dx * dx + dy * dy + dz * dz) by nra.
  destruct (negb (truncate (intensity p) =? scanCount st)%Z).
  - destruct ((truncate (intensity p) >? 0)
              && (truncate (intensity p) <? N_SCANS))%Z eqn:Hr.
    + apply andb_true_iff in Hr. rewrite Z.gtb_ltb, !Z.ltb_lt in Hr.
      rewrite !wr_in by (unfold N_SCANS in *; lia). cbn [bind].
      eexists. exists (dx * dx + dy * dy + dz * dz).
      split; [reflexivity|]. cbn [cv_scratch cloudCurvature cloudSortInd
        cloudNeighborPicked cloudLabel]. auto.
    + eexists. exists (dx * dx + dy * dy + dz * dz).
      split; [reflexivity|]. cbn [cv_scratch cloudCurvature cloudSortInd
        cloudNeighborPicked cloudLabel]. auto.
  - eexists. exists (dx * dx + dy * dy + dz * dz).
    split; [reflexivity|]. cbn [cv_scratch cloudCurvature cloudSortInd
      cloudNeighborPicked cloudLabel]. auto.
Qed.

(** X18.  On a cloud of at least [cloudSize] points, with [cloudSize] at
    most [maxCloudSize + 5], the curvature stage succeeds.  For every
    index from 5 to [cloudSize - 6] it stores a curvature that is not
    negative, the index itself in [cloudSortInd], and 0 in
    [cloudNeighborPicked] and [cloudLabel]; the other entries of the four
    scratch arrays keep the values of the sweep before.  The first scan
    starts at 5 and the last one ends at [cloudSize - 5]. *)
Theorem computeCurvature_total (cloud : list PointType) (cloudSize : Z)
  (sc : Scratch) :
  (cloudSize <= Z.of_nat (length cloud))%Z ->
  (cloudSize <= maxCloudSize + 5)%Z ->
  exists cv,
    computeCurvature cloud cloudSize sc = Ok cv
    /\ (forall i : Z, (5 <= i < cloudSize - 5)%Z ->
          0 <= cloudCurvature (cv_scratch cv) i
          /\ cloudSortInd (cv_scratch cv) i = i
          /\ cloudNeighborPicked (cv_scratch cv) i = 0%Z
          /\ cloudLabel (cv_scratch cv) i = 0%Z)
    /\ (forall i : Z, ~ (5 <= i < cloudSize - 5)%Z ->
          cloudCurvature (cv_scratch cv) i = cloudCurvature sc i
          /\ cloudSortInd (cv_scratch cv) i = cloudSortInd sc i
          /\ cloudNeighborPicked (cv_scratch cv) i
             = cloudNeighborPicked sc i
          /\ cloudLabel (cv_scratch cv) i = cloudLabel sc i)
    /\ scanStartInd cv 0%Z = 5%Z
    /\ scanEndInd cv (N_SCANS - 1)%Z = (cloudSize - 5)%Z.
Proof.
  intros Hlen Hmax. unfold computeCurvature.
  pose (P := fun (k : nat) (st : Curv) =>
    (forall i : Z, (5 <= i < 5 + Z.of_nat k)%Z ->
       0 <= cloudCurvature (cv_scratch st) i
       /\ cloudSortInd (cv_scratch st) i = i
       /\ cloudNeighborPicked (cv_scratch st) i = 0%Z
       /\ cloudLabel (cv_scratch st) i = 0%Z)
    /\ (forall i : Z, ~ (5 <= i < 5 + Z.of_nat k)%Z ->
          cloudCurvature (cv_scratch st) i = cloudCurvature sc i
          /\ cloudSortInd (cv_scratch st) i = cloudSortInd sc i
          /\ cloudNeighborPicked (cv_scratch st) i
             = cloudNeighborPicked sc i
          /\ cloudLabel (cv_scratch st) i = cloudLabel sc i)).
  destruct (forUp_total P (curvaturePoint cloud) 5 (cloudSize - 5 - 1))
    with (s := mkCurv sc (-1) zerosZ zerosZ) as (st & -> & Hin & Hout).
  - intros k st Hk (Hin & Hout).
    destruct (curvaturePoint_runs cloud (5 + Z.of_nat k) st)
      as (st' & c & Hrun & Hc & E1 & E2 & E3 & E4); try lia.
    exists st'. split; [exact Hrun|]. unfold P. rewrite E1, E2, E3, E4.
    split.
    + intros i Hi. destruct (Z.eq_dec i (5 + Z.of_nat k)) as [->|Hne].
      * rewrite !upd_same. auto.
      * rewrite !upd_other by exact Hne. apply Hin. lia.
    + intros i Hi. rewrite !upd_other by lia. apply Hout. lia.
  - unfold P. cbn [cv_scratch]. split; [intros i Hi; lia | auto].
  - cbn [bind]. rewrite !wr_in by (unfold N_SCANS; lia). cbn [bind].
    eexists. split; [reflexivity|]. cbn [cv_scratch scanStartInd scanEndInd].
    split.
    { intros i Hi. apply Hin. lia. }
    split.
    { intros i Hi. apply Hout. lia. }
    split.
    + rewrite upd_same. reflexivity.
    + apply upd_same.
Qed.

Lemma computeCurvature_total_witness :
  exists cv,
    computeCurvature (repeat (mkPoint 1 0 0 0) 11) 11 (scratch initGlobals)
    = Ok cv
    /\ cloudSortInd (cv_scratch cv) 5%Z = 5%Z.
Proof.
  destruct (computeCurvature_total (repeat (mkPoint 1 0 0 0) 11) 11
              (scratch initGlobals))
    as (cv & H & Hin & _).
  - cbn. lia.
  - unfold maxCloudSize. lia.
  - exists cv. split; [exact H|]. apply Hin. lia.
Defined.

(** With more than [maxCloudSize + 5] points the curvature loop reaches
    the index [maxCloudSize] of the scratch arrays. *)
Lemma computeCurvature_overflow (cloud : list PointType) (cloudSize : Z)
  (sc : Scratch) :
  (cloudSize <= Z.of_nat (length cloud))%Z ->
  (maxCloudSize + 5 < cloudSize)%Z ->
  computeCurvature cloud cloudSize sc = OutOfBounds.
Proof.
  intros Hlen Hmax. unfold computeCurvature.
  assert (E : forUp 5 (cloudSize - 5 - 1) (curvaturePoint cloud)
                (mkCurv sc (-1) zerosZ zerosZ) = OutOfBounds).
  { unfold forUp.
    apply (iterate_fails (fun _ _ => True) (curvaturePoint cloud) 5
             (Z.to_nat (cloudSize - 5 - 1 - 5 + 1))
             (Z.to_nat (maxCloudSize - 5))).
    - unfold maxCloudSize in *. lia.
    - intros k st Hk _.
      destruct (curvaturePoint_runs cloud (5 + Z.of_nat k) st)
        as (st' & c & Hrun & _); try (unfold maxCloudSize in *; lia).
      exists st'. auto.
    - intros st _. replace (5 + Z.of_nat (Z.to_nat (maxCloudSize - 5)))%Z
        with maxCloudSize by (unfold maxCloudSize; lia).
      unfold curvaturePoint.
      destruct (at_inside cloud (maxCloudSize - 5)
                  ltac:(unfold maxCloudSize in *; lia)) as (m5 & -> & _).
      destruct (at_inside cloud (maxCloudSize - 4)
                  ltac:(unfold maxCloudSize in *; lia)) as (m4 & -> & _).
      destruct (at_inside cloud (maxCloudSize - 3)
                  ltac:(unfold maxCloudSize in *; lia)) as (m3 & -> & _).
      destruct (at_inside cloud (maxCloudSize - 2)
                  ltac:(unfold maxCloudSize in *; lia)) as (m2 & -> & _).
      destruct (at_inside cloud (maxCloudSize - 1)
                  ltac:(unfold maxCloudSize in *; lia)) as (m1 & -> & _).
      destruct (at_inside cloud maxCloudSize
                  ltac:(unfold maxCloudSize in *; lia)) as (p & -> & _).
      destruct (at_inside cloud (maxCloudSize + 1)
                  ltac:(unfold maxCloudSize in *; lia)) as (p1 & -> & _).
      destruct (at_inside cloud (maxCloudSize + 2)
                  ltac:(unfold maxCloudSize in *; lia)) as (p2 & -> & _).
      destruct (at_inside cloud (maxCloudSize + 3)
                  ltac:(unfold maxCloudSize in *; lia)) as (p3 & -> & _).
      destruct (at_inside cloud (maxCloudSize + 4)
                  ltac:(unfold maxCloudSize in *; lia)) as (p4 & -> & _).
      destruct (at_inside cloud (maxCloudSize + 5)
                  ltac:(unfold maxCloudSize in *; lia)) as (p5 & -> & _).
      cbn [bind]. unfold wr at 1, inb.
      rewrite Z.ltb_irrefl, andb_false_r. reflexivity.
    - exact I. }
  rewrite E. reflexivity.
Qed.

Lemma removeNaN_repeat (p : PointXYZ) (n : nat) :
  removeNaNFromPointCloud (repeat (Finite p) n) = repeat p n.
Proof. induction n as [|n IH]; cbn; [reflexivity | now rewrite IH]. Qed.

Lemma filter_repeat_true {A : Type} (f : A -> bool) (a : A) (n : nat) :
  f a = true -> filter f (repeat a n) = repeat a n.
Proof.
  intros H. induction n as [|n IH]; cbn; [reflexivity|].
  now rewrite H, IH.
Qed.

(** X19.  Once the start-up delay is over, the callback fails on every
    sweep without a point at the origin that has more than
    [maxCloudSize + 5] finite points inside the field of view (the points
    on the vertical axis of the sensor are outside it and do not count):
    the curvature loop writes [cloudCurvature] at the index
    [maxCloudSize], one past its last element. *)
Theorem sweep_overflow
  (downSizeFilter : list PointType -> list PointType)
  (laserCloudMsg : CloudMsg) (g : Globals) :
  systemInited g = true ->
  Forall notOrigin (removeNaNFromPointCloud (cloud_points laserCloudMsg)) ->
  (maxCloudSize + 5
   < Z.of_nat (length (filter inFov (removeNaNFromPointCloud
                                       (cloud_points laserCloudMsg)))))%Z ->
  laserCloudHandler downSizeFilter laserCloudMsg g = OutOfBounds.
Proof.
  intros Hi _ Hbig. unfold laserCloudHandler. rewrite Hi. cbn [negb].
  set (l := removeNaNFromPointCloud (cloud_points laserCloudMsg)) in *.
  assert (Hne : l <> []).
  { intros E. rewrite E in Hbig. cbn in Hbig. unfold maxCloudSize in *. lia. }
  destruct (ingest_runs l (cloud_stamp laserCloudMsg) g Hne)
    as (ig & -> & Hc & Hf & _).
  cbn [bind]. unfold extractFeatures.
  rewrite computeCurvature_overflow; [reflexivity | lia | lia].
Qed.

Lemma sweep_overflow_witness :
  laserCloudHandler (fun l => l)
    (mkCloudMsg 0 (repeat (Finite (mkXYZ 1 0 0)) (Z.to_nat 40006)))
    readyGlobals
  = OutOfBounds.
Proof.
  apply sweep_overflow; [reflexivity | |]; cbn [cloud_points];
    rewrite removeNaN_repeat.
  - apply Forall_forall. intros raw Hin. apply repeat_spec in Hin.
    rewrite Hin. left. cbn. lra.
  - rewrite filter_repeat_true.
    + rewrite repeat_length, Z2Nat.id by lia. unfold maxCloudSize. lia.
    + unfold inFov, beamOf. cbn [rx ry rz].
      rewrite computeScanID_level by lra. reflexivity.
Defined.

(** ** The filter on any cloud *)

Lemma markRange_runs (i lo hi : Z) (picked : array Z) :
  (0 <= i + lo)%Z -> (i + hi < maxCloudSize)%Z ->
  exists picked',
    markRange i lo hi picked = Ok picked'
    /\ forall j : Z,
         ((i + lo <= j <= i + hi)%Z -> picked' j = 1%Z)
         /\ (~ (i + lo <= j <= i + hi)%Z -> picked' j = picked j).
Proof.
  intros Hlo Hhi. unfold markRange.
  pose (P := fun (k : nat) (a : array Z) =>
    forall j : Z,
      ((i + lo <= j < i + lo + Z.of_nat k)%Z -> a j = 1%Z)
      /\ (~ (i + lo <= j < i + lo + Z.of_nat k)%Z -> a j = picked j)).
  destruct (forUp_total P
              (fun l picked =>
                 picked <- wr maxCloudSize picked (i + l) 1%Z ;;
                 Ok (Next picked)) lo hi) with (s := picked)
    as (a & Hrun & Ha).
  - intros k a Hk Ha. rewrite wr_in by lia. cbn [bind].
    eexists. split; [reflexivity|]. intros j. split; intros Hj.
    + destruct (Z.eq_dec j (i + (lo + Z.of_nat k))) as [->|Hne].
      * apply upd_same.
      * rewrite upd_other by exact Hne. apply Ha. lia.
    + rewrite upd_other by lia. apply Ha. lia.
  - intros j. split; [lia | reflexivity].
  - exists a. split; [exact Hrun|]. intros j. split; intros Hj.
    + apply Ha. lia.
    + destruct (Z_lt_le_dec hi lo).
      * apply Ha. lia.
      * apply Ha. lia.
Qed.

(** One round of the filter loop sets flags and clears none. *)
Lemma filterPoint_runs (cloud : list PointType) (cloudSize i : Z)
  (picked : array Z) :
  (cloudSize <= Z.of_nat (length cloud))%Z ->
  (cloudSize <= maxCloudSize)%Z ->
  (5 <= i < cloudSize - 6)%Z ->
  exists picked',
    filterPoint cloud i picked = Ok (Next picked')
    /\ forall j : Z,
         (picked' j = picked j \/ picked' j = 1%Z)
         /\ (~ (0 <= j < cloudSize)%Z -> picked' j = picked j).
Proof.
  intros Hlen Hmax Hi. unfold filterPoint.
  destruct (at_inside cloud (i + 1) ltac:(lia)) as (p1 & -> & _).
  destruct (at_inside cloud i ltac:(lia)) as (p & -> & _).
  destruct (at_inside cloud (i - 1) ltac:(lia)) as (m1 & -> & _).
  cbn [bind].
  destruct (markRange_runs i (-5) 0 picked ltac:(lia) ltac:(lia))
    as (pa & Hpa & Ha).
  destruct (markRange_runs i 1 6 picked ltac:(lia) ltac:(lia))
    as (pb & Hpb & Hb).
  match goal with
  | |- context [bind ?m _] =>
      assert (Hmid : exists q,
                 m = Ok q
                 /\ forall j : Z,
                      (q j = picked j \/ q j = 1%Z)
                      /\ (~ (0 <= j < cloudSize)%Z -> q j = picked j))
  end.
  { assert (Hsame : forall j : Z,
               (picked j = picked j \/ picked j = 1%Z)
               /\ (~ (0 <= j < cloudSize)%Z -> picked j = picked j))
      by (intros j; auto).
    assert (Ha' : forall j : Z,
               (pa j = picked j \/ pa j = 1%Z)
               /\ (~ (0 <= j < cloudSize)%Z -> pa j = picked j)).
    { intros j. destruct (Ha j) as (H1 & H2).
      destruct (Z_le_dec (i + -5) j); [destruct (Z_le_dec j (i + 0))|].
      - split; [right; apply H1; lia | lia].
      - split; [left|intros _]; apply H2; lia.
      - split; [left|intros _]; apply H2; lia. }
    assert (Hb' : forall j : Z,
               (pb j = picked j \/ pb j = 1%Z)
               /\ (~ (0 <= j < cloudSize)%Z -> pb j = picked j)).
    { intros j. destruct (Hb j) as (H1 & H2).
      destruct (Z_le_dec (i + 1) j); [destruct (Z_le_dec j (i + 6))|].
      - split; [right; apply H1; lia | lia].
      - split; [left|intros _]; apply H2; lia.
      - split; [left|intros _]; apply H2; lia. }
    destruct (Rgt_dec _ _); [|eauto].
    destruct (Rgt_dec _ _); destruct (Rlt_dec _ _); eauto. }
  destruct Hmid as (q & -> & Hq). cbn [bind].
  destruct (Rgt_dec _ _); [|eauto].
  destruct (Rgt_dec _ _); [|eauto].
  rewrite wr_in by lia. cbn [bind]. eexists. split; [reflexivity|].
  intros j. destruct (Hq j) as (H1 & H2).
  destruct (Z.eq_dec j i) as [->|Hne].
  - rewrite upd_same. split; [now right | lia].
  - rewrite upd_other by exact Hne. auto.
Qed.

(** X20.  On a cloud of at least [cloudSize] points, with [cloudSize] at
    most [maxCloudSize], the filter succeeds.  It writes
    [cloudNeighborPicked] only: an entry keeps its value or becomes 1, no
    flag is cleared, and the entries from [cloudSize] on are not
    written. *)
Theorem filterCloud_total (cloud : list PointType) (cloudSize : Z)
  (sc : Scratch) :
  (cloudSize <= Z.of_nat (length cloud))%Z ->
  (cloudSize <= maxCloudSize)%Z ->
  exists sc',
    filterCloud cloud cloudSize sc = Ok sc'
    /\ cloudCurvature sc' = cloudCurvature sc
    /\ cloudSortInd sc' = cloudSortInd sc
    /\ cloudLabel sc' = cloudLabel sc
    /\ (forall j : Z,
          cloudNeighborPicked sc' j = cloudNeighborPicked sc j
          \/ cloudNeighborPicked sc' j = 1%Z)
    /\ (forall j : Z, ~ (0 <= j < cloudSize)%Z ->
          cloudNeighborPicked sc' j = cloudNeighborPicked sc j).
Proof.
  intros Hlen Hmax. unfold filterCloud.
  pose (P := fun (k : nat) (a : array Z) =>
    forall j : Z,
      (a j = cloudNeighborPicked sc j \/ a j = 1%Z)
      /\ (~ (0 <= j < cloudSize)%Z -> a j = cloudNeighborPicked sc j)).
  destruct (forUp_total P (filterPoint cloud) 5 (cloudSize - 6 - 1))
    with (s := cloudNeighborPicked sc) as (a & -> & Ha).
  - intros k a Hk Ha.
    destruct (filterPoint_runs cloud cloudSize (5 + Z.of_nat k) a
                Hlen Hmax ltac:(lia)) as (a' & Hrun & Ha').
    exists a'. split; [exact Hrun|]. intros j.
    destruct (Ha j) as (H1 & H2). destruct (Ha' j) as (H3 & H4).
    split.
    + destruct H3 as [H3|H3]; [rewrite H3; exact H1 | now right].
    + intros Hj. rewrite (H4 Hj). now apply H2.
  - intros j. auto.
  - cbn [bind]. eexists. split; [reflexivity|].
    cbn [set_cloudNeighborPicked cloudCurvature cloudSortInd cloudLabel
         cloudNeighborPicked].
    repeat split; try reflexivity; intros j; apply Ha.
Qed.

Lemma filterCloud_total_witness :
  exists sc',
    filterCloud (repeat (mkPoint 1 0 0 0) 13) 13 (scratch initGlobals)
    = Ok sc'
    /\ cloudLabel sc' = cloudLabel (scratch initGlobals).
Proof.
  destruct (filterCloud_total (repeat (mkPoint 1 0 0 0) 13) 13
              (scratch initGlobals))
    as (sc' & H & _ & _ & Hl & _).
  - cbn. lia.
  - unfold maxCloudSize. lia.
  - exists sc'. split; assumption.
Defined.

(** ** The sort of a sector *)

Lemma slice_ext {A : Type} (a a' : array A) (lo : Z) (n : nat) :
  (forall j : Z, (lo <= j < lo + Z.of_nat n)%Z -> a' j = a j) ->
  slice a' lo n = slice a lo n.
Proof.
  revert lo. induction n as [|n IH]; intros lo H; [reflexivity|].
  cbn [slice]. f_equal; [apply H; lia|]. apply IH. intros j Hj.
  apply H. lia.
Qed.

Lemma slice_app {A : Type} (a : array A) (lo : Z) (n1 n2 : nat) :
  slice a lo (n1 + n2) = slice a lo n1 ++ slice a (lo + Z.of_nat n1)%Z n2.
Proof.
  revert lo. induction n1 as [|n1 IH]; intros lo.
  - cbn [slice Nat.add app]. f_equal. lia.
  - cbn [slice Nat.add app]. f_equal. rewrite IH. do 2 f_equal. lia.
Qed.

(** The exchange of two neighbours keeps the entries of a range that
    holds both. *)
Lemma slice_swap {A : Type} (a : array A) (lo l : Z) (n : nat) :
  (lo < l)%Z -> (l < lo + Z.of_nat n)%Z ->
  Permutation
    (slice (upd (upd a (l - 1)%Z (a l)) l (a (l - 1)%Z)) lo n) (slice a lo n).
Proof.
  intros H1 H2.
  set (a' := upd (upd a (l - 1)%Z (a l)) l (a (l - 1)%Z)).
  set (n1 := Z.to_nat (l - 1 - lo)).
  set (n2 := Z.to_nat (lo + Z.of_nat n - 1 - l)).
  assert (Hdec : forall b : array A,
             slice b lo n
             = slice b lo n1
               ++ b (l - 1)%Z :: b l :: slice b (l + 1)%Z n2).
  { intros b. replace n with (n1 + S (S n2))%nat by lia.
    rewrite slice_app. cbn [slice]. f_equal.
    replace (lo + Z.of_nat n1)%Z with (l - 1)%Z by lia.
    replace (l - 1 + 1)%Z with l by lia. reflexivity. }
  rewrite (Hdec a'), (Hdec a).
  rewrite (slice_ext a a' lo).
  2:{ intros j Hj. unfold a'. rewrite !upd_other by lia. reflexivity. }
  rewrite (slice_ext a a' (l + 1)%Z).
  2:{ intros j Hj. unfold a'. rewrite !upd_other by lia. reflexivity. }
  apply Permutation_app_head.
  replace (a' (l - 1)%Z) with (a l)
    by (unfold a'; rewrite upd_other by lia; now rewrite upd_same).
  replace (a' l) with (a (l - 1)%Z) by (unfold a'; now rewrite upd_same).
  apply perm_swap.
Qed.

(** One comparison of the sort. *)
Lemma sortStep_runs (curvature : array R) (l : Z) (sortInd : array Z) :
  (1 <= l < maxCloudSize)%Z ->
  (0 <= sortInd l < maxCloudSize)%Z ->
  (0 <= sortInd (l - 1)%Z < maxCloudSize)%Z ->
  sortStep curvature l sortInd
  = Ok (Next (if Rlt_dec (curvature (sortInd l))
                   (curvature (sortInd (l - 1)%Z))
              then upd (upd sortInd (l - 1)%Z (sortInd l)) l
                     (sortInd (l - 1)%Z)
              else sortInd)).
Proof.
  intros Hl Ha Hb. unfold sortStep.
  rewrite !rd_in by lia. cbn [bind]. rewrite !rd_in by lia. cbn [bind].
  destruct (Rlt_dec _ _); [|reflexivity].
  rewrite wr_in by lia. cbn [bind]. rewrite wr_in by lia. reflexivity.
Qed.

(** The inner loop moves entry [k] down into the sorted entries below
    it. *)
Lemma insert_runs (curvature : array R) (sp ep k : Z) (a0 a : array Z) :
  (0 <= sp)%Z -> (sp < k <= ep)%Z -> (ep < maxCloudSize)%Z ->
  (forall j : Z, (sp <= j <= ep)%Z -> (0 <= a j < maxCloudSize)%Z) ->
  Permutation (slice a sp (Z.to_nat (ep - sp + 1)))
    (slice a0 sp (Z.to_nat (ep - sp + 1))) ->
  (forall j : Z, ~ (sp <= j <= ep)%Z -> a j = a0 j) ->
  sortedBy curvature a sp (k - 1)%Z ->
  exists a',
    forDown k (sp + 1)%Z (sortStep curvature) a = Ok a'
    /\ (forall j : Z, (sp <= j <= ep)%Z -> (0 <= a' j < maxCloudSize)%Z)
    /\ Permutation (slice a' sp (Z.to_nat (ep - sp + 1)))
         (slice a0 sp (Z.to_nat (ep - sp + 1)))
    /\ (forall j : Z, ~ (sp <= j <= ep)%Z -> a' j = a0 j)
    /\ sortedBy curvature a' sp k.
Proof.
  intros Hsp Hk Hep Hval Hperm Hout Hsorted.
  pose (P := fun (j : nat) (b : array Z) =>
    let l := (k - Z.of_nat j)%Z in
    (forall i : Z, (sp <= i <= ep)%Z -> (0 <= b i < maxCloudSize)%Z)
    /\ Permutation (slice b sp (Z.to_nat (ep - sp + 1)))
         (slice a0 sp (Z.to_nat (ep - sp + 1)))
    /\ (forall i : Z, ~ (sp <= i <= ep)%Z -> b i = a0 i)
    /\ sortedBy curvature b sp (l - 1)%Z
    /\ sortedBy curvature b l k
    /\ (forall u v : Z, (sp <= u <= l - 1)%Z -> (l + 1 <= v <= k)%Z ->
          curvature (b u) <= curvature (b v))).
  destruct (forDown_total P (sortStep curvature) k (sp + 1)%Z) with (s := a)
    as (a' & Hrun & Hv & Hp & Ho & _ & Hs & _).
  - intros j b Hj (Hv & Hp & Ho & S1 & S2 & S3). cbn zeta in *.
    set (l := (k - Z.of_nat j)%Z) in *.
    rewrite sortStep_runs by (try apply Hv; lia).
    eexists. split; [reflexivity|]. unfold P. cbn zeta.
    replace (k - Z.of_nat (S j))%Z with (l - 1)%Z by lia.
    destruct (Rlt_dec _ _) as [Hlt|Hge].
    + set (b' := upd (upd b (l - 1)%Z (b l)) l (b (l - 1)%Z)).
      assert (El : b' l = b (l - 1)%Z) by (unfold b'; apply upd_same).
      assert (El1 : b' (l - 1)%Z = b l).
      { unfold b'. rewrite upd_other by lia. apply upd_same. }
      assert (Eo : forall i : Z, i <> l -> i <> (l - 1)%Z -> b' i = b i).
      { intros i H1 H2. unfold b'. now rewrite !upd_other. }
      split.
      { intros i Hi. destruct (Z.eq_dec i l) as [->|H1];
          [rewrite El; apply Hv; lia|].
        destruct (Z.eq_dec i (l - 1)%Z) as [->|H2];
          [rewrite El1; apply Hv; lia|].
        rewrite Eo by assumption. now apply Hv. }
      split.
      { eapply Permutation_trans; [|exact Hp].
        apply slice_swap; lia. }
      split.
      { intros i Hi. rewrite Eo by lia. now apply Ho. }
      split.
      { intros u v Hu Hv'. rewrite !Eo by lia. apply S1; lia. }
      split.
      { intros u v Hu Hv'.
        destruct (Z.eq_dec u (l - 1)%Z) as [->|Hu1].
        - rewrite El1. destruct (Z.eq_dec v (l - 1)%Z) as [->|Hv1];
            [rewrite El1; lra|].
          destruct (Z.eq_dec v l) as [->|Hv2]; [rewrite El; lra|].
          rewrite Eo by assumption. apply S2; lia.
        - destruct (Z.eq_dec u l) as [->|Hu2].
          + rewrite El. destruct (Z.eq_dec v l) as [->|Hv2];
              [rewrite El; lra|].
            rewrite Eo by lia. apply S3; lia.
          + rewrite !Eo by lia. apply S2; lia. }
      intros u v Hu Hv'. rewrite (Eo u) by lia.
      destruct (Z.eq_dec v l) as [->|Hv2].
      * rewrite El. apply S1; lia.
      * rewrite Eo by lia. apply S3; lia.
    + split; [exact Hv|]. split; [exact Hp|]. split; [exact Ho|].
      split.
      { intros u v Hu Hv'. apply S1; lia. }
      split.
      { intros u v Hu Hv'.
        destruct (Z.eq_dec u (l - 1)%Z) as [->|Hu1]; [|apply S2; lia].
        destruct (Z.eq_dec v (l - 1)%Z) as [->|Hv1]; [lra|].
        destruct (Z.eq_dec v l) as [->|Hv2]; [lra|].
        apply S3; lia. }
      intros u v Hu Hv'.
      destruct (Z.eq_dec v l) as [->|Hv2]; [|apply S3; lia].
      apply Rle_trans with (curvature (b (l - 1)%Z)); [apply S1; lia | lra].
  - unfold P. cbn zeta. rewrite Z.sub_0_r.
    split; [exact Hval|]. split; [exact Hperm|]. split; [exact Hout|].
    split; [exact Hsorted|]. split.
    + intros u v Hu Hv. assert (u = v) as -> by lia. lra.
    + intros u v Hu Hv. lia.
  - exists a'. cbn zeta in *.
    replace (k - Z.of_nat (Z.to_nat (k - (sp + 1)%Z + 1)))%Z with sp in Hs
      by lia.
    auto.
Qed.

Lemma sortSector_runs (sp ep : Z) (curvature : array R)
  (sortInd : array Z) :
  (0 <= sp)%Z -> (ep < maxCloudSize)%Z ->
  (forall j : Z, (sp <= j <= ep)%Z -> (0 <= sortInd j < maxCloudSize)%Z) ->
  exists sortInd',
    sortSector sp ep curvature sortInd = Ok sortInd'
    /\ sortedBy curvature sortInd' sp ep
    /\ Permutation (slice sortInd' sp (Z.to_nat (ep - sp + 1)))
         (slice sortInd sp (Z.to_nat (ep - sp + 1)))
    /\ (forall j : Z, ~ (sp <= j <= ep)%Z -> sortInd' j = sortInd j)
    /\ (forall j : Z, (sp <= j <= ep)%Z ->
          (0 <= sortInd' j < maxCloudSize)%Z).
Proof.
  intros Hsp Hep Hval. unfold sortSector.
  pose (P := fun (j : nat) (b : array Z) =>
    (forall i : Z, (sp <= i <= ep)%Z -> (0 <= b i < maxCloudSize)%Z)
    /\ Permutation (slice b sp (Z.to_nat (ep - sp + 1)))
         (slice sortInd sp (Z.to_nat (ep - sp + 1)))
    /\ (forall i : Z, ~ (sp <= i <= ep)%Z -> b i = sortInd i)
    /\ sortedBy curvature b sp (sp + Z.of_nat j)%Z).
  destruct (forUp_total P
              (fun k sortInd =>
                 sortInd <- forDown k (sp + 1)%Z (sortStep curvature)
                              sortInd ;;
                 Ok (Next sortInd)) (sp + 1)%Z ep) with (s := sortInd)
    as (a' & Hrun & Hv & Hp & Ho & Hs).
  - intros j b Hj (Hv & Hp & Ho & Hs).
    destruct (insert_runs curvature sp ep (sp + 1 + Z.of_nat j)%Z sortInd b)
      as (b' & Hrun & Hv' & Hp' & Ho' & Hs'); try assumption; try lia.
    { replace (sp + 1 + Z.of_nat j - 1)%Z with (sp + Z.of_nat j)%Z by lia.
      exact Hs. }
    rewrite Hrun. cbn [bind]. eexists. split; [reflexivity|].
    unfold P. split; [exact Hv'|]. split; [exact Hp'|].
    split; [exact Ho'|].
    replace (sp + Z.of_nat (S j))%Z with (sp + 1 + Z.of_nat j)%Z by lia.
    exact Hs'.
  - unfold P. split; [exact Hval|]. split; [apply Permutation_refl|].
    split; [reflexivity|].
    intros u v Hu Hv. assert (u = v) as -> by lia. lra.
  - exists a'. split; [exact Hrun|]. split; [|auto].
    intros u v Hu Hv'. apply Hs; lia.
Qed.

(** X21.  The sort of a sector [sp .. ep] that lies inside the scratch
    arrays and holds indices of the scratch arrays succeeds.  Afterwards
    the entries [sp .. ep] of [cloudSortInd] are in ascending order of
    curvature, they are the entries from before in another order, and the
    entries outside the sector are untouched. *)
Theorem sortSector_sorts (sp ep : Z) (curvature : array R)
  (sortInd : array Z) :
  (0 <= sp)%Z -> (ep < maxCloudSize)%Z ->
  (forall j : Z, (sp <= j <= ep)%Z -> (0 <= sortInd j < maxCloudSize)%Z) ->
  exists sortInd',
    sortSector sp ep curvature sortInd = Ok sortInd'
    /\ sortedBy curvature sortInd' sp ep
    /\ Permutation (slice sortInd' sp (Z.to_nat (ep - sp + 1)))
         (slice sortInd sp (Z.to_nat (ep - sp + 1)))
    /\ (forall j : Z, ~ (sp <= j <= ep)%Z -> sortInd' j = sortInd j).
Proof.
  intros Hsp Hep Hval.
  destruct (sortSector_runs sp ep curvature sortInd Hsp Hep Hval)
    as (a' & H1 & H2 & H3 & H4 & _).
  exists a'. auto.
Qed.

Lemma sortSector_sorts_witness :
  exists sortInd',
    sortSector 5 8 (fun i => - IZR i) (fun i => i) = Ok sortInd'
    /\ sortedBy (fun i => - IZR i) sortInd' 5 8.
Proof.
  destruct (sortSector_sorts 5 8 (fun i => - IZR i) (fun i => i))
    as (a' & H1 & H2 & _).
  - lia.
  - unfold maxCloudSize. lia.
  - intros j Hj. unfold maxCloudSize. lia.
  - exists a'. split; assumption.
Defined.

(** ** How many features the selection takes *)

(** A loop left by [break]: a property kept by every round that goes on
    gives another one when the loop ends. *)
Lemma iterate_inv_break {S : Type} (P Q : S -> Prop)
  (body : Z -> S -> Res (Ctl S)) :
  (forall k s s', P s -> body k s = Ok (Next s') -> P s') ->
  (forall k s s', P s -> body k s = Ok (Break s') -> Q s') ->
  (forall s, P s -> Q s) ->
  forall (n : nat) (i step : Z) (s s' : S),
    P s -> iterate n i step body s = Ok s' -> Q s'.
Proof.
  intros Hnext Hbreak Hend.
  induction n as [|n IH]; intros i step s s' Hs Hrun.
  - cbn in Hrun. inversion Hrun; subst. now apply Hend.
  - cbn in Hrun. destruct (body i s) as [[s1|s1]|] eqn:Hb.
    + apply (IH (i + step)%Z step s1 s'); [|exact Hrun].
      now apply (Hnext i s s1).
    + inversion Hrun; subst. now apply (Hbreak i s s').
    + discriminate.
Qed.

(** A property that counts the rounds of a loop. *)
Lemma iterate_count {S : Type} (P : nat -> S -> Prop)
  (body : Z -> S -> Res (Ctl S)) :
  (forall (k : nat) (i : Z) (s s' : S), P k s ->
     body i s = Ok (Next s') \/ body i s = Ok (Break s') ->
     P (Datatypes.S k) s') ->
  forall (n : nat) (i step : Z) (k0 : nat) (s s' : S),
    P k0 s -> iterate n i step body s = Ok s' ->
    exists k : nat, (k <= k0 + n)%nat /\ P k s'.
Proof.
  intros Hbody. induction n as [|n IH]; intros i step k0 s s' Hs Hrun.
  - cbn in Hrun. inversion Hrun; subst. exists k0. split; [lia | exact Hs].
  - cbn in Hrun. destruct (body i s) as [[s1|s1]|] eqn:Hb.
    + destruct (IH (i + step)%Z step (Datatypes.S k0) s1 s') as (k & Hk & Hp);
        [apply (Hbody k0 i s s1 Hs); now left | exact Hrun |].
      exists k. split; [lia | exact Hp].
    + inversion Hrun; subst. exists (Datatypes.S k0). split; [lia|].
      apply (Hbody k0 i s s' Hs). now right.
    + discriminate.
Qed.

(** What a round of the corner loop does to the four clouds. *)
Lemma cornerStep_effect (cloud : list PointType) (k : Z) (ft : Features)
  (n : Z) (c : Ctl (Features * Z)) :
  cornerStep cloud k (ft, n) = Ok c ->
  c = Next (ft, n)
  \/ c = Break (ft, (n + 1)%Z)
  \/ exists (p : PointType) (sc : Scratch),
       In p cloud
       /\ ((n + 1 <= 2)%Z
           /\ c = Next ({| ft_scratch := sc;
                           cornerPointsSharp := cornerPointsSharp ft ++ [p];
                           cornerPointsLessSharp :=
                             cornerPointsLessSharp ft ++ [p];
                           surfPointsFlat := surfPointsFlat ft;
                           surfPointsLessFlat := surfPointsLessFlat ft |},
                        (n + 1)%Z)
           \/ (2 < n + 1 <= 20)%Z
              /\ c = Next ({| ft_scratch := sc;
                              cornerPointsSharp := cornerPointsSharp ft;
                              cornerPointsLessSharp :=
                                cornerPointsLessSharp ft ++ [p];
                              surfPointsFlat := surfPointsFlat ft;
                              surfPointsLessFlat :=
                                surfPointsLessFlat ft |},
                           (n + 1)%Z)).
Proof.
  unfold cornerStep. intros H. bind_inv H.
  destruct (Z.eqb a0 0); [|inversion H; now left].
  bind_inv H.
  destruct (Rgt_dec a1 0.1); [|inversion H; now left].
  destruct (Z.leb_spec (n + 1) 2).
  { bind_inv H. inversion H; subst. right. right.
    eexists. eexists. split; [eapply at_In; eassumption|].
    left. split; [assumption | reflexivity]. }
  destruct (Z.leb_spec (n + 1) 20).
  { bind_inv H. inversion H; subst. right. right.
    eexists. eexists. split; [eapply at_In; eassumption|].
    right. split; [lia | reflexivity]. }
  inversion H. right. now left.
Qed.

(** What a round of the flat loop does to the four clouds. *)
Lemma flatStep_effect (cloud : list PointType) (k : Z) (ft : Features)
  (n : Z) (c : Ctl (Features * Z)) :
  flatStep cloud k (ft, n) = Ok c ->
  c = Next (ft, n)
  \/ exists (p : PointType) (sc : Scratch),
       In p cloud
       /\ let ft' := {| ft_scratch := sc;
                        cornerPointsSharp := cornerPointsSharp ft;
                        cornerPointsLessSharp := cornerPointsLessSharp ft;
                        surfPointsFlat := surfPointsFlat ft ++ [p];
                        surfPointsLessFlat := surfPointsLessFlat ft |} in
          ((4 <= n + 1)%Z /\ c = Break (ft', (n + 1)%Z))
          \/ ((n + 1 < 4)%Z /\ c = Next (ft', (n + 1)%Z)).
Proof.
  unfold flatStep. intros H. bind_inv H.
  destruct (Z.eqb a0 0); [|inversion H; now left].
  bind_inv H.
  destruct (Rlt_dec a1 0.1); [|inversion H; now left].
  bind_inv H. right.
  destruct (Z.geb_spec (n + 1) 4).
  - inversion H; subst. eexists. eexists.
    split; [eapply at_In; eassumption|]. cbn zeta.
    left. split; [assumption | reflexivity].
  - bind_inv H. inversion H; subst. eexists. eexists.
    split; [eapply at_In; eassumption|]. cbn zeta.
    right. split; [assumption | reflexivity].
Qed.

Lemma featuresWithin_mono (cloud : list PointType) (ft : Features)
  (a b c a' b' c' : nat) :
  (a <= a')%nat -> (b <= b')%nat -> (c <= c')%nat ->
  featuresWithin cloud ft a b c -> featuresWithin cloud ft a' b' c'.
Proof.
  intros Ha Hb Hc ((H1 & H2 & H3) & H4). split; [|exact H4].
  repeat split; lia.
Qed.

Lemma Forall_snoc {A : Type} (P : A -> Prop) (l : list A) (x : A) :
  Forall P l -> P x -> Forall P (l ++ [x]).
Proof. intros Hl Hx. apply Forall_app. split; [exact Hl | now constructor]. Qed.

(** A sector adds at most two sharp corners, twenty less sharp corners
    and four flat points. *)
Lemma selectSector_within (cloud : list PointType)
  (scanStartInd scanEndInd : array Z) (i j : Z)
  (st st' : Features * list PointType) (a b c : nat) :
  featuresWithin cloud (fst st) a b c ->
  selectSector cloud scanStartInd scanEndInd i j st = Ok (Next st')
  \/ selectSector cloud scanStartInd scanEndInd i j st = Ok (Break st') ->
  featuresWithin cloud (fst st') (a + 2) (b + 20) (c + 4).
Proof.
  destruct st as [ft lf]. cbn [fst]. intros Hinv H.
  assert (Hc : exists r, (r = Next st' \/ r = Break st')
                         /\ selectSector cloud scanStartInd scanEndInd
                              i j (ft, lf) = Ok r).
  { destruct H as [H|H]; eexists; (split; [|exact H]); auto. }
  clear H. destruct Hc as (r & Hr & H). unfold selectSector in H.
  bind_inv H. inversion H; subst.
  destruct Hr as [Hr|Hr]; inversion Hr; subst. cbn [fst]. clear Hr H.
  destruct Hinv as ((L1 & L2 & L3) & (F1 & F2 & F3)).
  (* the corner loop *)
  assert (H2 : (0 <= snd a3)%Z
               /\ (Z.of_nat (length (cornerPointsSharp (fst a3)))
                   <= Z.of_nat a + Z.min (snd a3) 2)%Z
               /\ (Z.of_nat (length (cornerPointsLessSharp (fst a3)))
                   <= Z.of_nat b + Z.min (snd a3) 20)%Z
               /\ (length (surfPointsFlat (fst a3)) <= c)%nat
               /\ Forall (fun p => In p cloud) (cornerPointsSharp (fst a3))
               /\ Forall (fun p => In p cloud)
                    (cornerPointsLessSharp (fst a3))
               /\ Forall (fun p => In p cloud) (surfPointsFlat (fst a3))).
  { revert E2.
    apply (forDown_inv (fun s : Features * Z =>
             (0 <= snd s)%Z
             /\ (Z.of_nat (length (cornerPointsSharp (fst s)))
                 <= Z.of_nat a + Z.min (snd s) 2)%Z
             /\ (Z.of_nat (length (cornerPointsLessSharp (fst s)))
                 <= Z.of_nat b + Z.min (snd s) 20)%Z
             /\ (length (surfPointsFlat (fst s)) <= c)%nat
             /\ Forall (fun p => In p cloud) (cornerPointsSharp (fst s))
             /\ Forall (fun p => In p cloud)
                  (cornerPointsLessSharp (fst s))
             /\ Forall (fun p => In p cloud) (surfPointsFlat (fst s)))).
    - intros k [f n] s' (N & S1 & S2 & S3 & G1 & G2 & G3) Hstep.
      cbn [fst snd] in *.
      assert (Hr : exists r, (r = Next s' \/ r = Break s')
                             /\ cornerStep cloud k (f, n) = Ok r).
      { destruct Hstep as [Hs|Hs]; eexists; (split; [|exact Hs]); auto. }
      destruct Hr as (r & Hr & Hs).
      destruct (cornerStep_effect _ _ _ _ _ Hs)
        as [->|[->|(p & sc & Hp & [(Hn & ->)|(Hn & ->)])]];
        destruct Hr as [Hr|Hr]; inversion Hr; subst;
        cbn [fst snd cornerPointsSharp cornerPointsLessSharp
             surfPointsFlat];
        rewrite ?length_app; cbn [length];
        repeat split; try lia; try assumption;
        try (apply Forall_snoc; assumption).
    - cbn [fst snd cornerPointsSharp cornerPointsLessSharp surfPointsFlat].
      repeat split; try lia; assumption. }
  destruct H2 as (N & S1 & S2 & S3 & G1 & G2 & G3).
  (* the flat loop *)
  revert E3. unfold forUp.
  apply (iterate_inv_break
           (fun s : Features * Z =>
              (0 <= snd s <= 3)%Z
              /\ (length (cornerPointsSharp (fst s)) <= a + 2)%nat
              /\ (length (cornerPointsLessSharp (fst s)) <= b + 20)%nat
              /\ (Z.of_nat (length (surfPointsFlat (fst s)))
                  <= Z.of_nat c + snd s)%Z
              /\ Forall (fun p => In p cloud) (cornerPointsSharp (fst s))
              /\ Forall (fun p => In p cloud)
                   (cornerPointsLessSharp (fst s))
              /\ Forall (fun p => In p cloud) (surfPointsFlat (fst s)))
           (fun s : Features * Z =>
              featuresWithin cloud (fst s) (a + 2) (b + 20) (c + 4))).
  - intros k [f n] s' (N' & T1 & T2 & T3 & K1 & K2 & K3) Hs.
    cbn [fst snd] in *.
    destruct (flatStep_effect _ _ _ _ _ Hs)
      as [Hr|(p & sc & Hp & [(Hn & Hr)|(Hn & Hr)])];
      inversion Hr; subst;
      cbn [fst snd cornerPointsSharp cornerPointsLessSharp surfPointsFlat];
      rewrite ?length_app; cbn [length];
      repeat split; try lia; try assumption;
      try (apply Forall_snoc; assumption).
  - intros k [f n] s' (N' & T1 & T2 & T3 & K1 & K2 & K3) Hs.
    cbn [fst snd] in *.
    destruct (flatStep_effect _ _ _ _ _ Hs)
      as [Hr|(p & sc & Hp & [(Hn & Hr)|(Hn & Hr)])];
      inversion Hr; subst; unfold featuresWithin; cbn [fst snd cornerPointsSharp
        cornerPointsLessSharp surfPointsFlat];
      rewrite ?length_app; cbn [length];
      repeat split; try lia; try assumption;
      try (apply Forall_snoc; assumption).
  - intros [f n] (N' & T1 & T2 & T3 & K1 & K2 & K3). cbn [fst snd] in *.
    unfold featuresWithin. repeat split; try lia; assumption.
  - cbn [fst snd]. repeat split; try lia; assumption.
Qed.

Lemma selectScan_within
  (downSizeFilter : list PointType -> list PointType)
  (cloud : list PointType) (scanStartInd scanEndInd : array Z)
  (i : Z) (ft ft' : Features) (a b c : nat) :
  featuresWithin cloud ft a b c ->
  selectScan downSizeFilter cloud scanStartInd scanEndInd i ft
  = Ok (Next ft')
  \/ selectScan downSizeFilter cloud scanStartInd scanEndInd i ft
     = Ok (Break ft') ->
  featuresWithin cloud ft' (a + 12) (b + 120) (c + 24).
Proof.
  intros Hinv H.
  assert (Hc : exists r, (r = Next ft' \/ r = Break ft')
                         /\ selectScan downSizeFilter cloud
                              scanStartInd scanEndInd i ft = Ok r).
  { destruct H as [H|H]; eexists; (split; [|exact H]); auto. }
  clear H. destruct Hc as (r & Hr & H). unfold selectScan in H.
  bind_inv H. destruct a0 as [ft1 lf]. inversion H; subst.
  destruct Hr as [Hr|Hr]; inversion Hr; subst. clear Hr H.
  unfold forUp in E.
  destruct (iterate_count
              (fun (k : nat) (st : Features * list PointType) =>
                 featuresWithin cloud (fst st) (a + 2 * k) (b + 20 * k)
                   (c + 4 * k))
              (selectSector cloud scanStartInd scanEndInd i))
    with (n := Z.to_nat (5 - 0 + 1)) (i := 0%Z) (step := 1%Z) (k0 := 0%nat)
         (s := (ft, @nil PointType)) (s' := (ft1, lf))
    as (k & Hk & Hw).
  - intros k j st st' Hst Hstep.
    apply (featuresWithin_mono cloud _ (a + 2 * k + 2) (b + 20 * k + 20)
             (c + 4 * k + 4)); try lia.
    eapply selectSector_within; eassumption.
  - cbn [fst]. apply (featuresWithin_mono cloud _ a b c); try lia. exact Hinv.
  - exact E.
  - cbn [fst] in Hw. assert (Hk6 : (k <= 6)%nat) by exact Hk.
    apply (featuresWithin_mono cloud _ (a + 2 * k) (b + 20 * k) (c + 4 * k)
             (a + 12) (b + 120) (c + 24)
             ltac:(lia) ltac:(lia) ltac:(lia)) in Hw.
    destruct Hw as (HL & HF). split; [exact HL | exact HF].
Qed.

Lemma selectFeatures_within
  (downSizeFilter : list PointType -> list PointType)
  (cloud : list PointType) (scanStartInd scanEndInd : array Z)
  (sc : Scratch) (ft : Features) :
  selectFeatures downSizeFilter cloud scanStartInd scanEndInd sc = Ok ft ->
  featuresWithin cloud ft 192 1920 384.
Proof.
  unfold selectFeatures, forUp. intros H.
  destruct (iterate_count
              (fun (k : nat) (st : Features) =>
                 featuresWithin cloud st (12 * k) (120 * k) (24 * k))
              (selectScan downSizeFilter cloud scanStartInd scanEndInd))
    with (n := Z.to_nat (N_SCANS - 1 - 0 + 1)) (i := 0%Z) (step := 1%Z)
         (k0 := 0%nat) (s := mkFeatures sc [] [] [] []) (s' := ft)
    as (k & Hk & Hw).
  - intros k j st st' Hst Hstep.
    apply (featuresWithin_mono cloud _ (12 * k + 12) (120 * k + 120)
             (24 * k + 24)); try lia.
    eapply selectScan_within; eassumption.
  - unfold featuresWithin. cbn. repeat split; try lia; constructor.
  - exact H.
  - assert (Hk16 : (k <= 16)%nat) by exact Hk.
    apply (featuresWithin_mono cloud _ (12 * k) (120 * k) (24 * k) 192 1920 384
             ltac:(lia) ltac:(lia) ltac:(lia) Hw).
Qed.

(** What is published comes from the selection on the assembled cloud. *)
Lemma laserCloudHandler_within
  (downSizeFilter : list PointType -> list PointType)
  (laserCloudMsg : CloudMsg) (g g' : Globals) (out : Outputs) :
  laserCloudHandler downSizeFilter laserCloudMsg g = Ok (g', Some out) ->
  exists ft,
    featuresWithin (laserCloudOut out) ft 192 1920 384
    /\ cornerPointsSharpOut out = cornerPointsSharp ft
    /\ cornerPointsLessSharpOut out = cornerPointsLessSharp ft
    /\ surfPointsFlatOut out = surfPointsFlat ft.
Proof.
  intros H. unfold laserCloudHandler in H.
  destruct (negb (systemInited g)); [discriminate|].
  bind_inv H. inversion H; subst. cbn.
  unfold extractFeatures in E0. bind_inv E0.
  exists a0. split; [|auto].
  eapply selectFeatures_within. exact E0.
Qed.

(** X22.  Whenever the sweep callback publishes, the sharp corner cloud
    has at most 2 points for each of the 6 sectors of the [N_SCANS]
    scans, the less sharp corner cloud at most 20 and the flat cloud at
    most 4: 192, 1920 and 384 points. *)
Theorem feature_counts_bounded
  (downSizeFilter : list PointType -> list PointType)
  (laserCloudMsg : CloudMsg) (g g' : Globals) (out : Outputs) :
  laserCloudHandler downSizeFilter laserCloudMsg g = Ok (g', Some out) ->
  (length (cornerPointsSharpOut out) <= 2 * 6 * Z.to_nat N_SCANS)%nat
  /\ (length (cornerPointsLessSharpOut out) <= 20 * 6 * Z.to_nat N_SCANS)%nat
  /\ (length (surfPointsFlatOut out) <= 4 * 6 * Z.to_nat N_SCANS)%nat.
Proof.
  intros H.
  destruct (laserCloudHandler_within _ _ _ _ _ H)
    as (ft & ((L1 & L2 & L3) & _) & -> & -> & ->).
  change (Z.to_nat N_SCANS) with 16%nat. repeat split; lia.
Qed.

Lemma feature_counts_bounded_witness :
  exists g' out,
    laserCloudHandler (fun l => l) flatWallSweep readyGlobals
    = Ok (g', Some out)
    /\ (length (surfPointsFlatOut out) <= 4 * 6 * Z.to_nat N_SCANS)%nat.
Proof.
  destruct (laserCloudHandler_wall (fun l => l)) as (g' & out & _ & H & _).
  exists g', out. split; [exact H|].
  exact (proj2 (proj2 (feature_counts_bounded _ _ _ _ _ H))).
Defined.

(** X23.  Whenever the sweep callback publishes, every point of the sharp
    corner cloud, of the less sharp corner cloud and of the flat cloud is
    a point of the full cloud published with them. *)
Theorem features_from_cloud
  (downSizeFilter : list PointType -> list PointType)
  (laserCloudMsg : CloudMsg) (g g' : Globals) (out : Outputs) :
  laserCloudHandler downSizeFilter laserCloudMsg g = Ok (g', Some out) ->
  forall p : PointType,
    In p (cornerPointsSharpOut out) \/ In p (cornerPointsLessSharpOut out)
    \/ In p (surfPointsFlatOut out) ->
    In p (laserCloudOut out).
Proof.
  intros H p Hp.
  destruct (laserCloudHandler_within _ _ _ _ _ H)
    as (ft & (_ & (F1 & F2 & F3)) & E1 & E2 & E3).
  rewrite E1, E2, E3 in Hp. rewrite Forall_forall in F1, F2, F3.
  destruct Hp as [Hp|[Hp|Hp]]; auto.
Qed.

Lemma features_from_cloud_witness :
  exists g' out p,
    laserCloudHandler (fun l => l) flatWallSweep readyGlobals
    = Ok (g', Some out)
    /\ In p (surfPointsFlatOut out) /\ In p (laserCloudOut out).
Proof.
  destruct (laserCloudHandler_wall (fun l => l))
    as (g' & out & p & H & _ & Hin & _).
  exists g', out, p. split; [exact H|]. split; [exact Hin|].
  apply (features_from_cloud _ _ _ _ _ H p). right. right. exact Hin.
Defined.

(** ** What the selection does to the scratch arrays *)

Lemma selectionKeeps_refl (sc : Scratch) : selectionKeeps sc sc.
Proof. split; [reflexivity|]. split; intros j; now left. Qed.

Lemma selectionKeeps_trans (sc1 sc2 sc3 : Scratch) :
  selectionKeeps sc1 sc2 -> selectionKeeps sc2 sc3 ->
  selectionKeeps sc1 sc3.
Proof.
  intros (C1 & P1 & L1) (C2 & P2 & L2). split; [congruence|]. split.
  - intros j. destruct (P2 j) as [H|H]; [rewrite H; apply P1 | now right].
  - intros j. destruct (L2 j) as [H|H]; [rewrite H; apply L1 | now right].
Qed.

(** A walk of the spread mask sets flags and clears none. *)
Lemma spread_mono (body : Z -> array Z -> Res (Ctl (array Z)))
  (picked : array Z) :
  (forall l a c, body l a = Ok c ->
     c = Break a \/ exists i : Z, c = Next (upd a i 1%Z)) ->
  forall (n : nat) (i step : Z) (picked' : array Z),
    iterate n i step body picked = Ok picked' ->
    forall j : Z, picked' j = picked j \/ picked' j = 1%Z.
Proof.
  intros Hbody n i step picked'.
  apply (iterate_inv (fun a => forall j : Z, a j = picked j \/ a j = 1%Z)).
  - intros k a a' Ha Hstep j.
    destruct Hstep as [Hs|Hs]; destruct (Hbody _ _ _ Hs) as [Hc|(x & Hc)];
      inversion Hc; subst; try apply Ha.
    destruct (Z.eq_dec j x) as [->|Hne].
    + right. apply upd_same.
    + rewrite upd_other by exact Hne. apply Ha.
  - intros j. now left.
Qed.

Lemma markPicked_mono (cloud : list PointType) (ind : Z)
  (picked picked' : array Z) :
  markPicked cloud ind picked = Ok picked' ->
  forall j : Z, picked' j = picked j \/ picked' j = 1%Z.
Proof.
  unfold markPicked. intros H. bind_inv H.
  assert (H0 : forall j : Z, a j = picked j \/ a j = 1%Z).
  { unfold wr in E. destruct (inb _ _); [|discriminate].
    inversion E; subst. intros j. destruct (Z.eq_dec j ind) as [->|Hne].
    - right. apply upd_same.
    - left. now apply upd_other. }
  assert (H1 : forall j : Z, a0 j = a j \/ a0 j = 1%Z).
  { revert E0. unfold spreadForward, forUp. apply spread_mono.
    intros l b c Hc. bind_inv Hc. destruct (Rgt_dec _ _).
    - inversion Hc. now left.
    - bind_inv Hc. inversion Hc; subst. right.
      unfold wr in E2. destruct (inb _ _); [|discriminate].
      inversion E2; subst. eauto. }
  assert (H2 : forall j : Z, picked' j = a0 j \/ picked' j = 1%Z).
  { revert H. unfold spreadBackward, forDown. apply spread_mono.
    intros l b c Hc. bind_inv Hc. destruct (Rgt_dec _ _).
    - inversion Hc. now left.
    - bind_inv Hc. inversion Hc; subst. right.
      unfold wr in E3. destruct (inb _ _); [|discriminate].
      inversion E3; subst. eauto. }
  intros j. destruct (H2 j) as [->|Hj]; [|now right].
  destruct (H1 j) as [->|Hj]; [|now right]. apply H0.
Qed.

Lemma wr_label (label label' : array Z) (i v : Z) :
  wr maxCloudSize label i v = Ok label' ->
  forall j : Z, label' j = label j \/ label' j = v.
Proof.
  unfold wr. destruct (inb _ _); [|discriminate]. intros H.
  inversion H; subst. intros j. destruct (Z.eq_dec j i) as [->|Hne].
  - right. apply upd_same.
  - left. now apply upd_other.
Qed.

Lemma cornerStep_keeps (cloud : list PointType) (k : Z)
  (st st' : Features * Z) :
  cornerStep cloud k st = Ok (Next st')
  \/ cornerStep cloud k st = Ok (Break st') ->
  selectionKeeps (ft_scratch (fst st)) (ft_scratch (fst st')).
Proof.
  destruct st as [ft n]. cbn [fst]. intros H.
  assert (Hc : exists c, (c = Next st' \/ c = Break st')
                         /\ cornerStep cloud k (ft, n) = Ok c).
  { destruct H as [H|H]; eexists; (split; [|exact H]); auto. }
  clear H. destruct Hc as (c & Hc & H). unfold cornerStep in H.
  bind_inv H.
  destruct (Z.eqb a0 0).
  2:{ inversion H; subst. destruct Hc as [Hc|Hc]; inversion Hc; subst;
      apply selectionKeeps_refl. }
  bind_inv H.
  destruct (Rgt_dec a1 0.1).
  2:{ inversion H; subst. destruct Hc as [Hc|Hc]; inversion Hc; subst;
      apply selectionKeeps_refl. }
  destruct (n + 1 <=? 2)%Z.
  { bind_inv H. inversion H; subst.
    destruct Hc as [Hc|Hc]; inversion Hc; subst. cbn.
    split; [reflexivity|]. split.
    - eapply markPicked_mono; eassumption.
    - intros j. destruct (wr_label _ _ _ _ E2 j); auto. }
  destruct (n + 1 <=? 20)%Z.
  { bind_inv H. inversion H; subst.
    destruct Hc as [Hc|Hc]; inversion Hc; subst. cbn.
    split; [reflexivity|]. split.
    - eapply markPicked_mono; eassumption.
    - intros j. destruct (wr_label _ _ _ _ E2 j); auto. }
  inversion H; subst. destruct Hc as [Hc|Hc]; inversion Hc; subst.
  apply selectionKeeps_refl.
Qed.

Lemma flatStep_keeps (cloud : list PointType) (k : Z)
  (st st' : Features * Z) :
  flatStep cloud k st = Ok (Next st')
  \/ flatStep cloud k st = Ok (Break st') ->
  selectionKeeps (ft_scratch (fst st)) (ft_scratch (fst st')).
Proof.
  destruct st as [ft n]. cbn [fst]. intros H.
  assert (Hc : exists c, (c = Next st' \/ c = Break st')
                         /\ flatStep cloud k (ft, n) = Ok c).
  { destruct H as [H|H]; eexists; (split; [|exact H]); auto. }
  clear H. destruct Hc as (c & Hc & H). unfold flatStep in H.
  bind_inv H.
  destruct (Z.eqb a0 0).
  2:{ inversion H; subst. destruct Hc as [Hc|Hc]; inversion Hc; subst;
      apply selectionKeeps_refl. }
  bind_inv H.
  destruct (Rlt_dec a1 0.1).
  2:{ inversion H; subst. destruct Hc as [Hc|Hc]; inversion Hc; subst;
      apply selectionKeeps_refl. }
  bind_inv H.
  destruct (n + 1 >=? 4)%Z.
  { inversion H; subst. destruct Hc as [Hc|Hc]; inversion Hc; subst. cbn.
    split; [reflexivity|]. split; [intros j; now left|].
    intros j. destruct (wr_label _ _ _ _ E2 j); auto. }
  bind_inv H. inversion H; subst.
  destruct Hc as [Hc|Hc]; inversion Hc; subst. cbn.
  split; [reflexivity|]. split.
  - eapply markPicked_mono; eassumption.
  - intros j. destruct (wr_label _ _ _ _ E2 j); auto.
Qed.

Lemma selectSector_keeps (cloud : list PointType)
  (scanStartInd scanEndInd : array Z) (i j : Z)
  (st st' : Features * list PointType) :
  selectSector cloud scanStartInd scanEndInd i j st = Ok (Next st')
  \/ selectSector cloud scanStartInd scanEndInd i j st = Ok (Break st') ->
  selectionKeeps (ft_scratch (fst st)) (ft_scratch (fst st')).
Proof.
  destruct st as [ft lf]. cbn [fst]. intros H.
  assert (Hc : exists c, (c = Next st' \/ c = Break st')
                         /\ selectSector cloud scanStartInd scanEndInd
                              i j (ft, lf) = Ok c).
  { destruct H as [H|H]; eexists; (split; [|exact H]); auto. }
  clear H. destruct Hc as (c & Hc & H). unfold selectSector in H.
  bind_inv H. inversion H; subst.
  destruct Hc as [Hc|Hc]; inversion Hc; subst. cbn [fst]. clear Hc H.
  match type of E2 with
  | _ = Ok ?r =>
      assert (H3 : selectionKeeps (ft_scratch ft) (ft_scratch (fst r)))
  end.
  { revert E2.
    apply (forDown_inv (fun s : Features * Z =>
             selectionKeeps (ft_scratch ft) (ft_scratch (fst s)))).
    - intros k s s' Hs Hstep.
      eapply selectionKeeps_trans; [exact Hs|].
      eapply cornerStep_keeps; eassumption.
    - cbn. split; [reflexivity|]. split; intros x; now left. }
  revert E3.
  apply (forUp_inv (fun s : Features * Z =>
           selectionKeeps (ft_scratch ft) (ft_scratch (fst s))));
    [|exact H3].
  intros k s s' Hs Hstep.
  eapply selectionKeeps_trans; [exact Hs|].
  eapply flatStep_keeps; eassumption.
Qed.

Lemma selectScan_keeps
  (downSizeFilter : list PointType -> list PointType)
  (cloud : list PointType) (scanStartInd scanEndInd : array Z)
  (i : Z) (ft ft' : Features) :
  selectScan downSizeFilter cloud scanStartInd scanEndInd i ft
  = Ok (Next ft')
  \/ selectScan downSizeFilter cloud scanStartInd scanEndInd i ft
     = Ok (Break ft') ->
  selectionKeeps (ft_scratch ft) (ft_scratch ft').
Proof.
  intros H.
  assert (Hc : exists c, (c = Next ft' \/ c = Break ft')
                         /\ selectScan downSizeFilter cloud
                              scanStartInd scanEndInd i ft = Ok c).
  { destruct H as [H|H]; eexists; (split; [|exact H]); auto. }
  clear H. destruct Hc as (c & Hc & H). unfold selectScan in H.
  bind_inv H. destruct a as [ft1 lf]. inversion H; subst.
  destruct Hc as [Hc|Hc]; inversion Hc; subst. cbn [ft_scratch].
  change (selectionKeeps (ft_scratch ft) (ft_scratch (fst (ft1, lf)))).
  revert E.
  apply (forUp_inv (fun s : Features * list PointType =>
           selectionKeeps (ft_scratch ft) (ft_scratch (fst s))));
    [|apply selectionKeeps_refl].
  intros k s s' Hs Hstep.
  eapply selectionKeeps_trans; [exact Hs|].
  eapply selectSector_keeps; eassumption.
Qed.

(** X24.  The selection never changes a curvature, never clears a flag of
    [cloudNeighborPicked] (an entry keeps its value or becomes 1), and
    gives a label no other new value than 2, 1 or -1. *)
Theorem selectFeatures_keeps
  (downSizeFilter : list PointType -> list PointType)
  (cloud : list PointType) (scanStartInd scanEndInd : array Z)
  (sc : Scratch) (ft : Features) :
  selectFeatures downSizeFilter cloud scanStartInd scanEndInd sc = Ok ft ->
  selectionKeeps sc (ft_scratch ft).
Proof.
  unfold selectFeatures.
  apply (forUp_inv (fun s : Features => selectionKeeps sc (ft_scratch s)));
    [|apply selectionKeeps_refl].
  intros k s s' Hs Hstep.
  eapply selectionKeeps_trans; [exact Hs|].
  eapply selectScan_keeps; eassumption.
Qed.

Lemma wallCloud_isWall : isWall wallCloud.
Proof.
  intros i Hi.
  exists (mkPoint (- 0.25 * INR (Z.to_nat i)) 0 128 15). split.
  - rewrite <- (Z2Nat.id i) at 1 by lia. apply at_nth_error.
    unfold wallCloud. rewrite nth_error_map, nth_error_seq_0 by lia.
    reflexivity.
  - unfold wallPoint. cbn [px py pz intensity].
    rewrite INR_IZR_INZ, Z2Nat.id by lia. repeat split; lra.
Qed.

Lemma selectFeatures_keeps_witness :
  exists ft,
    selectFeatures (fun l => l) wallCloud wallStartInd wallEndInd
      wallScratch = Ok ft
    /\ selectionKeeps wallScratch (ft_scratch ft).
Proof.
  destruct (selectFeatures_wall (fun l => l) wallCloud wallStartInd
              wallEndInd wallScratch wallCloud_isWall)
    as (ft & p & H & _).
  - reflexivity.
  - reflexivity.
  - intros i Hi. repeat split.
  - exists ft. split; [exact H|].
    exact (selectFeatures_keeps _ _ _ _ _ _ H).
Defined.

(** ** Sweeps on which every stage stays inside the cloud *)

(** A loop whose rounds all succeed, with or without a [break]. *)
Lemma iterate_runs {S : Type} (P : S -> Prop)
  (body : Z -> S -> Res (Ctl S)) (lo step : Z) (n : nat) :
  (forall (k : nat) (s : S), (k < n)%nat -> P s ->
     exists s',
       (body (lo + Z.of_nat k * step)%Z s = Ok (Next s')
        \/ body (lo + Z.of_nat k * step)%Z s = Ok (Break s'))
       /\ P s') ->
  forall s : S, P s -> exists s', iterate n lo step body s = Ok s' /\ P s'.
Proof.
  intros Hbody.
  assert (H : forall (m k : nat) (s : S),
             (k + m = n)%nat -> P s ->
             exists s', iterate m (lo + Z.of_nat k * step)%Z step body s
                        = Ok s' /\ P s').
  { induction m as [|m IH]; intros k s Hk Hs.
    - cbn. exists s. auto.
    - cbn [iterate].
      destruct (Hbody k s ltac:(lia) Hs) as (s1 & [->| ->] & Hs1).
      + replace (lo + Z.of_nat k * step + step)%Z
          with (lo + Z.of_nat (Datatypes.S k) * step)%Z by lia.
        apply IH; [lia | exact Hs1].
      + exists s1. auto. }
  intros s Hs. specialize (H n 0%nat s eq_refl Hs).
  replace (lo + Z.of_nat 0 * step)%Z with lo in H by lia. exact H.
Qed.

Lemma sector_inside (s e j n : Z) :
  (0 <= j <= 5)%Z -> (5 <= s)%Z -> (s <= e)%Z -> (e <= n - 5)%Z ->
  (5 <= Z.quot (s * (6 - j) + e * j) 6
   /\ Z.quot (s * (5 - j) + e * (j + 1)) 6 - 1 <= n - 6)%Z.
Proof.
  intros Hj Hs Hse He.
  assert (H1 : (6 * s <= s * (6 - j) + e * j)%Z) by nia.
  assert (H2 : (s * (5 - j) + e * (j + 1) <= 6 * e)%Z) by nia.
  assert (H3 : (0 <= s * (5 - j) + e * (j + 1))%Z) by nia.
  rewrite !Z.quot_div_nonneg by lia.
  split.
  - apply Z.div_le_lower_bound; lia.
  - assert (((s * (5 - j) + e * (j + 1)) / 6 <= e)%Z); [|lia].
    apply Z.div_le_upper_bound; lia.
Qed.

Lemma sector_crossed (s e j : Z) :
  (0 <= j <= 5)%Z -> (0 <= e)%Z -> (e < s)%Z ->
  (Z.quot (s * (5 - j) + e * (j + 1)) 6 - 1
   < Z.quot (s * (6 - j) + e * j) 6)%Z.
Proof.
  intros Hj He Hes.
  assert (H1 : (s * (5 - j) + e * (j + 1) <= s * (6 - j) + e * j)%Z) by nia.
  assert (H3 : (0 <= s * (5 - j) + e * (j + 1))%Z) by nia.
  rewrite !Z.quot_div_nonneg by lia.
  pose proof (Z.div_le_mono _ _ 6 ltac:(lia) H1). lia.
Qed.

(** The sectors of a scan with usable bounds: no point, or points with
    five neighbours on each side. *)
Lemma sector_cases (cloudSize : Z) (scanStartInd scanEndInd : array Z)
  (b j : Z) :
  boundsInside cloudSize scanStartInd scanEndInd ->
  (0 <= b < N_SCANS)%Z -> (0 <= j <= 5)%Z ->
  let sp := Z.quot (scanStartInd b * (6 - j) + scanEndInd b * j) 6 in
  let ep := (Z.quot (scanStartInd b * (5 - j) + scanEndInd b * (j + 1)) 6
             - 1)%Z in
  (ep < sp)%Z \/ (5 <= sp /\ ep <= cloudSize - 6)%Z.
Proof.
  intros Hb Hi Hj. cbn zeta.
  destruct (Hb b Hi) as (He & [(-> & ->)|Hs]).
  - left. replace (0 * (5 - j) + 0 * (j + 1))%Z with 0%Z by ring.
    replace (0 * (6 - j) + 0 * j)%Z with 0%Z by ring. cbn. lia.
  - destruct (Z_lt_le_dec (scanEndInd b) (scanStartInd b)).
    + left. apply sector_crossed; lia.
    + right. apply sector_inside; lia.
Qed.

Lemma In_slice {A : Type} (a : array A) (lo : Z) (n : nat) (x : A) :
  In x (slice a lo n)
  <-> exists k : Z, (lo <= k < lo + Z.of_nat n)%Z /\ a k = x.
Proof.
  revert lo. induction n as [|n IH]; intros lo; cbn [slice].
  - split; [intros [] | intros (k & Hk & _); lia].
  - cbn [In]. rewrite IH. split.
    + intros [H|(k & Hk & H)]; [exists lo | exists k]; split; auto; lia.
    + intros (k & Hk & H). destruct (Z.eq_dec k lo) as [->|Hne];
        [now left | right; exists k; split; [lia | exact H]].
Qed.

(** The spread mask around a point with five neighbours on each side. *)
Lemma markPicked_runs (cloud : list PointType) (cloudSize ind : Z)
  (picked : array Z) :
  (cloudSize <= Z.of_nat (length cloud))%Z ->
  (cloudSize <= maxCloudSize)%Z ->
  (5 <= ind <= cloudSize - 6)%Z ->
  exists picked', markPicked cloud ind picked = Ok picked'.
Proof.
  intros Hlen Hmax Hind. unfold markPicked.
  rewrite wr_in by lia. cbn [bind].
  destruct (iterate_runs (fun _ : array Z => True)
              (fun l picked =>
                 a <- at_ cloud (ind + l) ;;
                 b <- at_ cloud (ind + l - 1) ;;
                 if Rgt_dec (sqDist a b) 0.05 then Ok (Break picked)
                 else
                   picked <- wr maxCloudSize picked (ind + l) 1%Z ;;
                   Ok (Next picked)) 1 1 (Z.to_nat (5 - 1 + 1)))
    with (s := upd picked ind 1%Z) as (p1 & H1 & _); [|exact I|].
  { intros k s Hk _.
    destruct (at_inside cloud (ind + (1 + Z.of_nat k * 1)) ltac:(lia))
      as (a & -> & _).
    destruct (at_inside cloud (ind + (1 + Z.of_nat k * 1) - 1) ltac:(lia))
      as (b & -> & _).
    cbn [bind]. destruct (Rgt_dec _ _); [eauto|].
    rewrite wr_in by lia. cbn [bind]. eauto. }
  unfold spreadForward, forUp. rewrite H1. cbn [bind].
  destruct (iterate_runs (fun _ : array Z => True)
              (fun l picked =>
                 a <- at_ cloud (ind + l) ;;
                 b <- at_ cloud (ind + l + 1) ;;
                 if Rgt_dec (sqDist a b) 0.05 then Ok (Break picked)
                 else
                   picked <- wr maxCloudSize picked (ind + l) 1%Z ;;
                   Ok (Next picked)) (-1) (-1)
              (Z.to_nat (-1 - -5 + 1)))
    with (s := p1) as (p2 & H2 & _); [|exact I|].
  { intros k s Hk _.
    destruct (at_inside cloud (ind + (-1 + Z.of_nat k * -1)) ltac:(lia))
      as (a & -> & _).
    destruct (at_inside cloud (ind + (-1 + Z.of_nat k * -1) + 1)
                ltac:(lia)) as (b & -> & _).
    cbn [bind]. destruct (Rgt_dec _ _); [eauto|].
    rewrite wr_in by lia. cbn [bind]. eauto. }
  unfold spreadBackward, forDown. rewrite H2. eauto.
Qed.

(** A round of the corner loop on an entry that is the index of a point
    with five neighbours on each side. *)
Lemma cornerStep_runs (cloud : list PointType) (cloudSize k : Z)
  (ft : Features) (n : Z) :
  (cloudSize <= Z.of_nat (length cloud))%Z ->
  (cloudSize <= maxCloudSize)%Z ->
  (0 <= k < maxCloudSize)%Z ->
  (5 <= cloudSortInd (ft_scratch ft) k <= cloudSize - 6)%Z ->
  exists st',
    (cornerStep cloud k (ft, n) = Ok (Next st')
     \/ cornerStep cloud k (ft, n) = Ok (Break st'))
    /\ cloudSortInd (ft_scratch (fst st')) = cloudSortInd (ft_scratch ft).
Proof.
  intros Hlen Hmax Hk Hind. unfold cornerStep.
  set (ind := cloudSortInd (ft_scratch ft) k) in *.
  rewrite rd_in by lia. cbn [bind]. fold ind.
  rewrite rd_in by lia. cbn [bind].
  destruct (Z.eqb _ 0); [|eauto].
  rewrite rd_in by lia. cbn [bind].
  destruct (Rgt_dec _ _); [|eauto].
  destruct (at_inside cloud ind ltac:(lia)) as (p & Hp & _).
  destruct (markPicked_runs cloud cloudSize ind
              (cloudNeighborPicked (ft_scratch ft)) Hlen Hmax Hind)
    as (picked' & Hm).
  destruct (n + 1 <=? 2)%Z.
  { rewrite wr_in by lia. cbn [bind]. rewrite Hp. cbn [bind].
    rewrite Hm. cbn [bind]. eexists. split; [left; reflexivity|].
    reflexivity. }
  destruct (n + 1 <=? 20)%Z.
  { rewrite wr_in by lia. cbn [bind]. rewrite Hp. cbn [bind].
    rewrite Hm. cbn [bind]. eexists. split; [left; reflexivity|].
    reflexivity. }
  eexists. split; [right; reflexivity|]. reflexivity.
Qed.

(** A round of the flat loop on such an entry. *)
Lemma flatStep_runs (cloud : list PointType) (cloudSize k : Z)
  (ft : Features) (n : Z) :
  (cloudSize <= Z.of_nat (length cloud))%Z ->
  (cloudSize <= maxCloudSize)%Z ->
  (0 <= k < maxCloudSize)%Z ->
  (5 <= cloudSortInd (ft_scratch ft) k <= cloudSize - 6)%Z ->
  exists st',
    (flatStep cloud k (ft, n) = Ok (Next st')
     \/ flatStep cloud k (ft, n) = Ok (Break st'))
    /\ cloudSortInd (ft_scratch (fst st')) = cloudSortInd (ft_scratch ft).
Proof.
  intros Hlen Hmax Hk Hind. unfold flatStep.
  set (ind := cloudSortInd (ft_scratch ft) k) in *.
  rewrite rd_in by lia. cbn [bind]. fold ind.
  rewrite rd_in by lia. cbn [bind].
  destruct (Z.eqb _ 0); [|eauto].
  rewrite rd_in by lia. cbn [bind].
  destruct (Rlt_dec _ _); [|eauto].
  destruct (at_inside cloud ind ltac:(lia)) as (p & Hp & _).
  destruct (markPicked_runs cloud cloudSize ind
              (cloudNeighborPicked (ft_scratch ft)) Hlen Hmax Hind)
    as (picked' & Hm).
  rewrite wr_in by lia. cbn [bind]. rewrite Hp. cbn [bind].
  destruct (n + 1 >=? 4)%Z.
  { eexists. split; [right; reflexivity|]. reflexivity. }
  cbn [ft_scratch set_cloudLabel cloudNeighborPicked].
  rewrite Hm. cbn [bind]. eexists. split; [left; reflexivity|].
  reflexivity.
Qed.

(** A sector of a scan with usable bounds. *)
Lemma selectSector_runs (cloud : list PointType) (cloudSize : Z)
  (scanStartInd scanEndInd : array Z) (b j : Z) (ft : Features)
  (lf : list PointType) :
  (cloudSize <= Z.of_nat (length cloud))%Z ->
  (cloudSize <= maxCloudSize)%Z ->
  boundsInside cloudSize scanStartInd scanEndInd ->
  (0 <= b < N_SCANS)%Z -> (0 <= j <= 5)%Z ->
  sortIndInside cloudSize (ft_scratch ft) ->
  exists st',
    selectSector cloud scanStartInd scanEndInd b j (ft, lf) = Ok (Next st')
    /\ sortIndInside cloudSize (ft_scratch (fst st')).
Proof.
  intros Hlen Hmax Hbounds Hb Hj Hinside.
  destruct (sector_cases cloudSize scanStartInd scanEndInd b j Hbounds
              Hb Hj) as [Hempty|Hin]; cbn zeta in *.
  { rewrite selectSector_empty by assumption.
    eexists. split; [reflexivity|]. exact Hinside. }
  unfold selectSector. rewrite !rd_in by exact Hb. cbn [bind].
  set (sp := Z.quot (scanStartInd b * (6 - j) + scanEndInd b * j) 6) in *.
  set (ep := (Z.quot (scanStartInd b * (5 - j) + scanEndInd b * (j + 1)) 6
              - 1)%Z) in *.
  destruct (sortSector_runs sp ep (cloudCurvature (ft_scratch ft))
              (cloudSortInd (ft_scratch ft)))
    as (sortInd & -> & _ & Hperm & Hout & _); try lia.
  { intros k Hk. specialize (Hinside k ltac:(lia)). lia. }
  cbn [bind].
  assert (Hinside' : forall k : Z, (5 <= k <= cloudSize - 6)%Z ->
                       (5 <= sortInd k <= cloudSize - 6)%Z).
  { intros k Hk.
    destruct (Z_le_dec sp k) as [H1|H1];
      [destruct (Z_le_dec k ep) as [H2|H2]|];
      try (rewrite Hout by lia; now apply Hinside).
    assert (Hi : In (sortInd k) (slice sortInd sp (Z.to_nat (ep - sp + 1)))).
    { apply In_slice. exists k. split; [lia | reflexivity]. }
    apply (Permutation_in _ Hperm) in Hi. apply In_slice in Hi.
    destruct Hi as (k' & Hk' & <-). apply Hinside. lia. }
  set (ft1 := {| ft_scratch := set_cloudSortInd (ft_scratch ft) sortInd;
                 cornerPointsSharp := cornerPointsSharp ft;
                 cornerPointsLessSharp := cornerPointsLessSharp ft;
                 surfPointsFlat := surfPointsFlat ft;
                 surfPointsLessFlat := surfPointsLessFlat ft |}).
  destruct (iterate_runs
              (fun st : Features * Z =>
                 cloudSortInd (ft_scratch (fst st)) = sortInd)
              (cornerStep cloud) ep (-1) (Z.to_nat (ep - sp + 1)))
    with (s := (ft1, 0%Z)) as (r1 & Hr1 & Hs1); [|reflexivity|].
  { intros k [f n] Hk Hs. cbn [fst] in Hs.
    destruct (cornerStep_runs cloud cloudSize (ep + Z.of_nat k * -1) f n
                Hlen Hmax ltac:(lia))
      as (st' & Hstep & Hsame).
    - rewrite Hs. apply Hinside'. lia.
    - exists st'. split; [exact Hstep|]. now rewrite Hsame. }
  unfold forDown. rewrite Hr1. cbn [bind].
  destruct (iterate_runs
              (fun st : Features * Z =>
                 cloudSortInd (ft_scratch (fst st)) = sortInd)
              (flatStep cloud) sp 1 (Z.to_nat (ep - sp + 1)))
    with (s := (fst r1, 0%Z)) as (r2 & Hr2 & Hs2); [|exact Hs1|].
  { intros k [f n] Hk Hs. cbn [fst] in Hs.
    destruct (flatStep_runs cloud cloudSize (sp + Z.of_nat k * 1) f n
                Hlen Hmax ltac:(lia))
      as (st' & Hstep & Hsame).
    - rewrite Hs. apply Hinside'. lia.
    - exists st'. split; [exact Hstep|]. now rewrite Hsame. }
  unfold forUp at 1. rewrite Hr2. cbn [bind].
  destruct (forUp_total (fun _ _ => True)
              (lessFlatStep cloud (cloudLabel (ft_scratch (fst r2))))
              sp ep) with (s := lf) as (lf' & Hlf & _); [|exact I|].
  { intros k s Hk _. unfold lessFlatStep.
    rewrite rd_in by lia. cbn [bind].
    destruct (_ <=? 0)%Z; [|eauto].
    destruct (at_inside cloud (sp + Z.of_nat k) ltac:(lia)) as (p & -> & _).
    cbn [bind]. eauto. }
  rewrite Hlf. cbn [bind]. eexists. split; [reflexivity|].
  cbn [fst]. intros k Hk. rewrite Hs2. now apply Hinside'.
Qed.

Lemma selectScan_runs
  (downSizeFilter : list PointType -> list PointType)
  (cloud : list PointType) (cloudSize : Z)
  (scanStartInd scanEndInd : array Z) (b : Z) (ft : Features) :
  (cloudSize <= Z.of_nat (length cloud))%Z ->
  (cloudSize <= maxCloudSize)%Z ->
  boundsInside cloudSize scanStartInd scanEndInd ->
  (0 <= b < N_SCANS)%Z ->
  sortIndInside cloudSize (ft_scratch ft) ->
  exists ft',
    selectScan downSizeFilter cloud scanStartInd scanEndInd b ft
    = Ok (Next ft')
    /\ sortIndInside cloudSize (ft_scratch ft').
Proof.
  intros Hlen Hmax Hbounds Hb Hinside. unfold selectScan.
  destruct (forUp_total
              (fun (_ : nat) (st : Features * list PointType) =>
                 sortIndInside cloudSize (ft_scratch (fst st)))
              (selectSector cloud scanStartInd scanEndInd b) 0 5)
    with (s := (ft, @nil PointType)) as ([ft1 lf] & -> & H1);
    [|exact Hinside|].
  - intros k [f l] Hk Hs. cbn [fst] in Hs.
    apply selectSector_runs; try assumption. lia.
  - cbn [bind]. eexists. split; [reflexivity|]. exact H1.
Qed.

Lemma selectFeatures_runs
  (downSizeFilter : list PointType -> list PointType)
  (cloud : list PointType) (cloudSize : Z)
  (scanStartInd scanEndInd : array Z) (sc : Scratch) :
  (cloudSize <= Z.of_nat (length cloud))%Z ->
  (cloudSize <= maxCloudSize)%Z ->
  boundsInside cloudSize scanStartInd scanEndInd ->
  sortIndInside cloudSize sc ->
  exists ft,
    selectFeatures downSizeFilter cloud scanStartInd scanEndInd sc = Ok ft.
Proof.
  intros Hlen Hmax Hbounds Hinside. unfold selectFeatures.
  destruct (forUp_total
              (fun (_ : nat) (ft : Features) =>
                 sortIndInside cloudSize (ft_scratch ft))
              (selectScan downSizeFilter cloud scanStartInd scanEndInd)
              0 (N_SCANS - 1))
    with (s := mkFeatures sc [] [] [] []) as (ft & H & _);
    [|exact Hinside|eauto].
  intros k ft Hk Hs. apply selectScan_runs; try assumption. lia.
Qed.

(** What one round of the curvature loop does to the bounds of the
    scans. *)
Lemma curvaturePoint_bounds (cloud : list PointType) (i : Z) (st : Curv) :
  (5 <= i)%Z -> (i + 5 < Z.of_nat (length cloud))%Z ->
  (i < maxCloudSize)%Z ->
  exists st',
    curvaturePoint cloud i st = Ok (Next st')
    /\ cloudSortInd (cv_scratch st')
       = upd (cloudSortInd (cv_scratch st)) i i
    /\ scanCount st' = beamAt cloud i
    /\ (((beamAt cloud i = scanCount st
          \/ ~ (0 < beamAt cloud i < N_SCANS)%Z)
         /\ scanStartInd st' = scanStartInd st
         /\ scanEndInd st' = scanEndInd st)
        \/ (beamAt cloud i <> scanCount st
            /\ (0 < beamAt cloud i < N_SCANS)%Z
            /\ scanStartInd st'
               = upd (scanStartInd st) (beamAt cloud i) (i + 5)%Z
            /\ scanEndInd st'
               = upd (scanEndInd st) (beamAt cloud i - 1) (i - 5)%Z)).
Proof.
  intros H5 Hlen Hmax. unfold curvaturePoint, beamAt.
  destruct (at_inside cloud (i - 5) ltac:(lia)) as (m5 & -> & _).
  destruct (at_inside cloud (i - 4) ltac:(lia)) as (m4 & -> & _).
  destruct (at_inside cloud (i - 3) ltac:(lia)) as (m3 & -> & _).
  destruct (at_inside cloud (i - 2) ltac:(lia)) as (m2 & -> & _).
  destruct (at_inside cloud (i - 1) ltac:(lia)) as (m1 & -> & _).
  destruct (at_inside cloud i ltac:(lia)) as (p & -> & _).
  destruct (at_inside cloud (i + 1) ltac:(lia)) as (p1 & -> & _).
  destruct (at_inside cloud (i + 2) ltac:(lia)) as (p2 & -> & _).
  destruct (at_inside cloud (i + 3) ltac:(lia)) as (p3 & -> & _).
  destruct (at_inside cloud (i + 4) ltac:(lia)) as (p4 & -> & _).
  destruct (at_inside cloud (i + 5) ltac:(lia)) as (p5 & -> & _).
  cbn [bind].
  rewrite !wr_in by lia. cbn [bind].
  destruct (Z.eqb_spec (truncate (intensity p)) (scanCount st)) as [E|E];
    cbn [negb].
  - eexists. split; [reflexivity|].
    cbn [cv_scratch cloudSortInd scanCount scanStartInd scanEndInd].
    repeat split; auto.
  - destruct ((truncate (intensity p) >? 0)
              && (truncate (intensity p) <? N_SCANS))%Z eqn:Hr.
    + apply andb_true_iff in Hr. rewrite Z.gtb_ltb, !Z.ltb_lt in Hr.
      rewrite !wr_in by (unfold N_SCANS in *; lia). cbn [bind].
      eexists. split; [reflexivity|].
      cbn [cv_scratch cloudSortInd scanCount scanStartInd scanEndInd].
      split; [reflexivity|]. split; [reflexivity|]. right.
      repeat split; auto; lia.
    + apply andb_false_iff in Hr. rewrite Z.gtb_ltb, !Z.ltb_ge in Hr.
      eexists. split; [reflexivity|].
      cbn [cv_scratch cloudSortInd scanCount scanStartInd scanEndInd].
      split; [reflexivity|]. split; [reflexivity|]. left.
      repeat split; auto. right. lia.
Qed.

(** The bounds that the curvature stage leaves on a cloud whose beams
    are in order. *)
Lemma computeCurvature_bounds (cloud : list PointType) (cloudSize : Z)
  (sc : Scratch) :
  (cloudSize <= Z.of_nat (length cloud))%Z ->
  (11 <= cloudSize <= maxCloudSize)%Z ->
  beamsInOrder cloud cloudSize ->
  exists cv,
    computeCurvature cloud cloudSize sc = Ok cv
    /\ boundsInside cloudSize (scanStartInd cv) (scanEndInd cv)
    /\ sortIndInside cloudSize (cv_scratch cv).
Proof.
  intros Hlen Hsize (Hrange & Hstep & Hlast). unfold computeCurvature.
  pose (P := fun (k : nat) (st : Curv) =>
    (forall i : Z, (5 <= i < 5 + Z.of_nat k)%Z ->
       cloudSortInd (cv_scratch st) i = i)
    /\ ((k = 0%nat /\ scanCount st = (-1)%Z)
        \/ ((1 <= k)%nat
            /\ scanCount st = beamAt cloud (5 + Z.of_nat k - 1)
            /\ (beamAt cloud 5 <= scanCount st)%Z))
    /\ (forall b : Z, (0 <= scanEndInd st b <= Z.of_nat k - 1)%Z
                      \/ scanEndInd st b = 0%Z)
    /\ (forall b : Z,
          scanStartInd st b = 0%Z
          \/ (10 <= scanStartInd st b <= Z.of_nat k + 9)%Z)
    /\ (forall b : Z,
          (1 <= b)%Z -> (beamAt cloud 5 <= b <= scanCount st)%Z ->
          (10 <= scanStartInd st b)%Z)
    /\ (forall b : Z,
          scanEndInd st b <> 0%Z ->
          (beamAt cloud 5 <= b < scanCount st)%Z)).
  destruct (forUp_total P (curvaturePoint cloud) 5 (cloudSize - 5 - 1))
    with (s := mkCurv sc (-1) zerosZ zerosZ)
    as (st & -> & Hsort & Hcount & Hend & Hstart & Hset & Hused).
  - intros k st Hk (Hsort & Hcount & Hend & Hstart & Hset & Hused).
    destruct (curvaturePoint_bounds cloud (5 + Z.of_nat k) st)
      as (st' & Hrun & Es & Ec & Hb); try lia.
    exists st'. split; [exact Hrun|]. unfold P.
    replace (5 + Z.of_nat (Datatypes.S k) - 1)%Z with (5 + Z.of_nat k)%Z
      by lia.
    pose proof (Hrange (5 + Z.of_nat k)%Z ltac:(lia)) as Hc.
    pose proof (Hrange 5%Z ltac:(lia)) as Hc5.
    assert (Hnew : ((k = 0%nat /\ scanCount st = (-1)%Z)
                    \/ ((1 <= k)%nat
                        /\ (beamAt cloud (5 + Z.of_nat k) = scanCount st
                            \/ beamAt cloud (5 + Z.of_nat k)
                               = (scanCount st + 1)%Z)
                        /\ (beamAt cloud 5 <= scanCount st)%Z))).
    { destruct Hcount as [(-> & E)|(H1 & E & Hle)]; [left; auto|].
      right. split; [exact H1|]. split; [|exact Hle].
      rewrite E.
      replace (5 + Z.of_nat k)%Z with (5 + Z.of_nat k - 1 + 1)%Z at 1 3
        by lia.
      apply Hstep. lia. }
    split.
    { intros i Hi. rewrite Es.
      destruct (Z.eq_dec i (5 + Z.of_nat k)) as [->|Hne].
      - apply upd_same.
      - rewrite upd_other by exact Hne. apply Hsort. lia. }
    split.
    { right. split; [lia|]. split; [exact Ec|]. rewrite Ec.
      destruct Hnew as [(-> & _)|(_ & [E|E] & Hle)];
        [cbn; lia | lia | lia]. }
    destruct Hb as [(Hsame & -> & ->)|(Hchg & Hin & -> & ->)].
    + split.
      { intros b. destruct (Hend b); [left; lia | now right]. }
      split.
      { intros b. destruct (Hstart b); [now left | right; lia]. }
      assert (Hcase : (k = 0%nat /\ beamAt cloud (5 + Z.of_nat k) = 0%Z)
                      \/ beamAt cloud (5 + Z.of_nat k) = scanCount st).
      { destruct Hnew as [(-> & E)|(H1 & [E|E] & Hle)].
        - left. split; [reflexivity|]. destruct Hsame as [Hs|Hs]; lia.
        - now right.
        - destruct Hsame as [Hs|Hs]; [now right | lia]. }
      rewrite Ec. split.
      * intros b Hb1 Hb2.
        destruct Hcase as [(-> & E0)|E]; [cbn in *; lia|].
        apply Hset; [exact Hb1 | lia].
      * intros b Hb. specialize (Hused b Hb).
        destruct Hcase as [(-> & E0)|E]; [|lia].
        destruct Hnew as [(_ & E)|(H1 & _)]; lia.
    + rewrite Ec. set (c := beamAt cloud (5 + Z.of_nat k)) in *.
      split.
      { intros b. destruct (Z.eq_dec b (c - 1)) as [->|Hne].
        - rewrite upd_same. left. lia.
        - rewrite upd_other by exact Hne.
          destruct (Hend b); [left; lia | now right]. }
      split.
      { intros b. destruct (Z.eq_dec b c) as [->|Hne].
        - rewrite upd_same. right. lia.
        - rewrite upd_other by exact Hne.
          destruct (Hstart b); [now left | right; lia]. }
      split.
      * intros b Hb1 Hb2. destruct (Z.eq_dec b c) as [->|Hne].
        -- rewrite upd_same. lia.
        -- rewrite upd_other by exact Hne.
           destruct Hnew as [(-> & E)|(H1 & [E|E] & Hle)].
           ++ subst c. cbn in *. lia.
           ++ congruence.
           ++ apply Hset; [exact Hb1 | lia].
      * intros b. destruct (Z.eq_dec b (c - 1)) as [->|Hne].
        -- rewrite upd_same. intros Hk0.
           destruct Hnew as [(-> & E)|(H1 & [E|E] & Hle)].
           ++ cbn in Hk0. lia.
           ++ congruence.
           ++ lia.
        -- rewrite upd_other by exact Hne. intros Hb.
           specialize (Hused b Hb).
           destruct Hnew as [(_ & E)|(H1 & [E|E] & Hle)]; lia.
  - unfold P. cbn [cv_scratch scanCount scanStartInd scanEndInd].
    split; [intros i Hi; lia|]. split; [left; auto|].
    unfold zerosZ. repeat split; auto; try lia.
  - cbn [bind]. rewrite !wr_in by (unfold N_SCANS; lia). cbn [bind].
    eexists. split; [reflexivity|].
    cbn [cv_scratch scanStartInd scanEndInd].
    replace (Z.of_nat (Z.to_nat (cloudSize - 5 - 1 - 5 + 1)))
      with (cloudSize - 10)%Z in * by lia.
    assert (Hc : scanCount st = 15%Z /\ (beamAt cloud 5 <= 15)%Z).
    { destruct Hcount as [(H0 & _)|(_ & E & Hle)]; [lia|].
      replace (5 + (cloudSize - 10) - 1)%Z with (cloudSize - 6)%Z in E
        by lia.
      rewrite Hlast in E. unfold N_SCANS in E. lia. }
    destruct Hc as (Hc & Hc5).
    split.
    + intros b Hb. unfold N_SCANS in *. split.
      * destruct (Z.eq_dec b 15) as [->|Hne].
        -- rewrite upd_same. lia.
        -- rewrite upd_other by lia. destruct (Hend b); lia.
      * destruct (Z.eq_dec b 0) as [->|Hne0].
        { rewrite upd_same. right. lia. }
        rewrite (upd_other _ 0%Z b) by exact Hne0.
        destruct (Z.eq_dec b 15) as [->|Hne].
        { right. specialize (Hset 15%Z ltac:(lia) ltac:(lia)).
          destruct (Hstart 15%Z); lia. }
        rewrite upd_other by lia.
        destruct (Z.eq_dec (scanEndInd st b) 0) as [E0|E0].
        -- destruct (Hstart b); [left; auto | right; lia].
        -- right. specialize (Hused b E0).
           specialize (Hset b ltac:(lia) ltac:(lia)).
           destruct (Hstart b); lia.
    + intros k Hk. apply (conj (proj1 Hk)) in Hk.
      rewrite Hsort by lia. lia.
Qed.

(** The filter leaves the order of the indices alone. *)
Lemma filterCloud_runs (cloud : list PointType) (cloudSize : Z)
  (sc : Scratch) :
  (cloudSize <= Z.of_nat (length cloud))%Z ->
  (cloudSize <= maxCloudSize)%Z ->
  exists sc',
    filterCloud cloud cloudSize sc = Ok sc'
    /\ cloudSortInd sc' = cloudSortInd sc.
Proof.
  intros Hlen Hmax. unfold filterCloud.
  destruct (forUp_total (fun _ _ => True) (filterPoint cloud) 5
              (cloudSize - 6 - 1))
    with (s := cloudNeighborPicked sc) as (a & -> & _); [|exact I|].
  - intros k a Hk _.
    destruct (filterPoint_runs cloud cloudSize (5 + Z.of_nat k) a
                Hlen Hmax ltac:(lia)) as (a' & Hrun & _).
    exists a'. auto.
  - cbn [bind]. eexists. split; reflexivity.
Qed.

(** The three stages on a cloud whose beams are in order. *)
Lemma extractFeatures_runs
  (downSizeFilter : list PointType -> list PointType)
  (cloud : list PointType) (cloudSize : Z) (sc : Scratch) :
  (cloudSize <= Z.of_nat (length cloud))%Z ->
  (11 <= cloudSize <= maxCloudSize)%Z ->
  beamsInOrder cloud cloudSize ->
  exists ft, extractFeatures downSizeFilter cloud cloudSize sc = Ok ft.
Proof.
  intros Hlen Hsize Hbeams. unfold extractFeatures.
  destruct (computeCurvature_bounds cloud cloudSize sc Hlen Hsize Hbeams)
    as (cv & -> & Hbounds & Hsort).
  cbn [bind].
  destruct (filterCloud_runs cloud cloudSize (cv_scratch cv) Hlen
              ltac:(lia)) as (sc' & -> & Esort).
  cbn [bind].
  apply (selectFeatures_runs downSizeFilter cloud cloudSize); try assumption.
  - lia.
  - unfold sortIndInside. rewrite Esort. exact Hsort.
Qed.

(** X25.  Once the start-up delay is over, the callback publishes every
    sweep without a point at the origin whose ingestion keeps between 11
    and [maxCloudSize] points (the points outside the field of view, and
    so the points on the vertical axis of the sensor, are not kept) with
    their beams in order: among the points of the assembled cloud that
    have five neighbours on each side, the integer parts of the
    intensities lie between 0 and [N_SCANS - 1], never go down, go up by
    one at a time and reach [N_SCANS - 1] at the last of them.  No stage
    reads or writes outside the cloud, the bounds of the scans or the
    scratch arrays; the cloud that is published is the assembled one with
    the stamp of the sweep. *)
Theorem sweep_in_order_published
  (downSizeFilter : list PointType -> list PointType)
  (laserCloudMsg : CloudMsg) (g : Globals) (ig : Ingest) :
  systemInited g = true ->
  Forall notOrigin (removeNaNFromPointCloud (cloud_points laserCloudMsg)) ->
  ingest (removeNaNFromPointCloud (cloud_points laserCloudMsg))
    (cloud_stamp laserCloudMsg) g = Ok ig ->
  (11 <= count ig <= maxCloudSize)%Z ->
  beamsInOrder (concatScans (laserCloudScans ig)) (count ig) ->
  exists g' out,
    laserCloudHandler downSizeFilter laserCloudMsg g = Ok (g', Some out)
    /\ out_stamp out = cloud_stamp laserCloudMsg
    /\ laserCloudOut out = concatScans (laserCloudScans ig).
Proof.
  intros Hinit _ Hing Hsize Hbeams.
  set (l := removeNaNFromPointCloud (cloud_points laserCloudMsg)) in *.
  assert (Hlen : count ig
                 = Z.of_nat (length (concatScans (laserCloudScans ig)))).
  { destruct l as [|p l'] eqn:El; [cbn in Hing; discriminate|].
    destruct (ingest_runs (p :: l') (cloud_stamp laserCloudMsg) g
                ltac:(discriminate)) as (ig' & Hing' & Hc & _).
    rewrite Hing in Hing'. injection Hing' as <-. exact Hc. }
  destruct (extractFeatures_runs downSizeFilter
              (concatScans (laserCloudScans ig)) (count ig)
              (scratch (ig_globals ig)) ltac:(lia) Hsize Hbeams)
    as (ft & Hft).
  unfold laserCloudHandler. rewrite Hinit. cbn [negb]. fold l.
  rewrite Hing. cbn [bind]. rewrite Hft. cbn [bind].
  eexists. eexists. split; [reflexivity|].
  cbn [out_stamp laserCloudOut]. auto.
Qed.

Lemma isWall_beamsInOrder (cloud : list PointType) :
  isWall cloud -> beamsInOrder cloud 39.
Proof.
  intros Hwall.
  assert (Hb : forall i : Z, (0 <= i < 39)%Z -> beamAt cloud i = 15%Z).
  { intros i Hi. destruct (Hwall i Hi) as (p & Hat & _ & _ & _ & Hw).
    unfold beamAt. rewrite Hat. now apply truncate_15. }
  unfold beamsInOrder, N_SCANS. repeat split.
  - rewrite Hb; lia.
  - rewrite Hb; lia.
  - intros i Hi. left. rewrite !Hb; lia.
  - apply Hb. lia.
Qed.

Lemma sweep_in_order_published_witness :
  exists g' out,
    laserCloudHandler (fun l => l) flatWallSweep readyGlobals
    = Ok (g', Some out)
    /\ out_stamp out = 0
    /\ length (laserCloudOut out) = 39%nat.
Proof.
  set (h := fun k : nat => mkXYZ 128 (- 0.25 * INR k) 0).
  assert (Hg : (imuPointerLast readyGlobals < 0)%Z) by (cbn; lia).
  assert (Hall : Forall aheadRight (map h (seq 0 39))).
  { apply Forall_forall. intros raw Hin. apply in_map_iff in Hin.
    destruct Hin as (k & <- & _). unfold aheadRight, h. cbn [rx ry rz].
    pose proof (pos_INR k). repeat split; lra. }
  destruct (ingest_aheadRight (map h (seq 0 39)) (h 0%nat)
              (map h (seq 1 38)) 0 readyGlobals eq_refl)
    as (ig & Hing & Hglob & Hcount & Hothers & Hstored);
    [cbn; lra | exact Hall | exact Hg |].
  rewrite length_map, length_seq in Hcount.
  assert (Hlen : length (laserCloudScans ig 15%Z) = 39%nat).
  { rewrite <- (Forall2_length Hstored), length_map, length_seq.
    reflexivity. }
  assert (Hwall : isWall (concatScans (laserCloudScans ig))).
  { rewrite concatScans_only_last by exact Hothers.
    intros i Hi.
    assert (Hk : nth_error (map h (seq 0 39)) (Z.to_nat i)
                 = Some (h (Z.to_nat i))).
    { rewrite nth_error_map, nth_error_seq_0 by lia. reflexivity. }
    destruct (Forall2_nth_error _ _ _ _ _ Hstored Hk)
      as (p & Hp & Hx & Hy & Hz & Hw).
    exists p. split.
    - rewrite <- (Z2Nat.id i) by lia. now apply at_nth_error.
    - unfold wallPoint. rewrite Hx, Hz. unfold h. cbn [rx ry].
      rewrite INR_IZR_INZ, Z2Nat.id by lia. auto. }
  destruct (sweep_in_order_published (fun l => l) flatWallSweep
              readyGlobals ig)
    as (g' & out & Hrun & Hstamp & Hcloud).
  - reflexivity.
  - unfold flatWallSweep. cbn [cloud_points].
    rewrite (removeNaN_Finite h). apply Forall_forall.
    intros raw Hin. apply in_map_iff in Hin. destruct Hin as (k & <- & _).
    left. cbn. lra.
  - unfold flatWallSweep. cbn [cloud_points cloud_stamp].
    rewrite (removeNaN_Finite h). exact Hing.
  - rewrite Hcount. unfold maxCloudSize. lia.
  - rewrite Hcount. now apply isWall_beamsInOrder.
  - exists g', out. split; [exact Hrun|]. split; [exact Hstamp|].
    rewrite Hcloud, concatScans_only_last by exact Hothers. exact Hlen.
Defined.

(** ** A sweep with one corner *)

Lemma dentDepth_range (k : Z) : 128 <= dentDepth k <= 128.1.
Proof. unfold dentDepth. destruct (Z.eqb k 10); lra. Qed.

Lemma isDent_length (cloud : list PointType) :
  isDent cloud -> (21 <= Z.of_nat (length cloud))%Z.
Proof.
  intros Hd. destruct (Hd 20%Z ltac:(lia)) as (p & Hat & _).
  unfold at_ in Hat. cbn [Z.ltb Z.compare] in Hat.
  destruct (nth_error cloud (Z.to_nat 20)) eqn:E; [|discriminate].
  assert (Hlt : (Z.to_nat 20 < length cloud)%nat).
  { apply nth_error_Some. congruence. }
  lia.
Qed.

Lemma isDent_beamsInOrder (cloud : list PointType) :
  isDent cloud -> beamsInOrder cloud 21.
Proof.
  intros Hd.
  assert (Hb : forall i : Z, (0 <= i < 21)%Z -> beamAt cloud i = 15%Z).
  { intros i Hi. destruct (Hd i Hi) as (p & Hat & _ & _ & _ & Hw).
    unfold beamAt. rewrite Hat. now apply truncate_15. }
  unfold beamsInOrder, N_SCANS. repeat split.
  - rewrite Hb; lia.
  - rewrite Hb; lia.
  - intros i Hi. left. rewrite !Hb; lia.
  - apply Hb. lia.
Qed.

(** Two neighbours of the cloud are at most 0.27 apart, and every point
    is at least 128 away from the sensor. *)
Lemma dent_gap (i j : Z) (p q : PointType) :
  dentPoint i p -> dentPoint j q -> (j = i + 1 \/ i = j + 1)%Z ->
  0.0625 <= sqDist p q <= 0.0725.
Proof.
  intros (Hxp & Hyp & Hzp & _) (Hxq & Hyq & Hzq & _) Hij.
  pose proof (dentDepth_range i) as Hi. pose proof (dentDepth_range j) as Hj.
  set (d := dentDepth i - dentDepth j).
  assert (Hd : 0 <= d * d <= 0.01).
  { assert (H1 : 0 <= (d + 0.1) * (0.1 - d))
      by (apply Rmult_le_pos; unfold d; lra).
    pose proof (Rle_0_sqr d) as H2. unfold Rsqr in H2. lra. }
  unfold sqDist. cbn zeta. rewrite Hxp, Hyp, Hzp, Hxq, Hyq, Hzq. fold d.
  destruct Hij as [-> | ->]; rewrite plus_IZR; lra.
Qed.

Lemma dent_far (i : Z) (p : PointType) :
  dentPoint i p -> 16384 <= sqNorm p.
Proof.
  intros (Hxp & Hyp & Hzp & _). pose proof (dentDepth_range i) as Hi.
  unfold sqNorm. rewrite Hyp, Hzp. nra.
Qed.

(** The curvature that a round of the curvature loop stores. *)
Lemma curvaturePoint_curvature (cloud : list PointType) (i : Z)
  (st st' : Curv) (m5 m4 m3 m2 m1 p p1 p2 p3 p4 p5 : PointType) :
  at_ cloud (i - 5) = Ok m5 -> at_ cloud (i - 4) = Ok m4 ->
  at_ cloud (i - 3) = Ok m3 -> at_ cloud (i - 2) = Ok m2 ->
  at_ cloud (i - 1) = Ok m1 -> at_ cloud i = Ok p ->
  at_ cloud (i + 1) = Ok p1 -> at_ cloud (i + 2) = Ok p2 ->
  at_ cloud (i + 3) = Ok p3 -> at_ cloud (i + 4) = Ok p4 ->
  at_ cloud (i + 5) = Ok p5 ->
  curvaturePoint cloud i st = Ok (Next st') ->
  let diffX := diffSum px m5 m4 m3 m2 m1 p p1 p2 p3 p4 p5 in
  let diffY := diffSum py m5 m4 m3 m2 m1 p p1 p2 p3 p4 p5 in
  let diffZ := diffSum pz m5 m4 m3 m2 m1 p p1 p2 p3 p4 p5 in
  cloudCurvature (cv_scratch st') i
  = diffX * diffX + diffY * diffY + diffZ * diffZ
  /\ cloudNeighborPicked (cv_scratch st') i = 0%Z.
Proof.
  intros A5 A4 A3 A2 A1 A0 B1 B2 B3 B4 B5 H. cbn zeta.
  unfold curvaturePoint in H.
  rewrite A5, A4, A3, A2, A1, A0, B1, B2, B3, B4, B5 in H.
  cbn [bind] in H. bind_inv H.
  unfold wr in E, E1.
  destruct (inb maxCloudSize i); [|discriminate].
  inversion E; subst. inversion E1; subst.
  destruct (negb _).
  - destruct (_ && _)%bool.
    + bind_inv H. inversion H; subst. cbn. now rewrite !upd_same.
    + inversion H; subst. cbn. now rewrite !upd_same.
  - inversion H; subst. cbn. now rewrite !upd_same.
Qed.

(** Reads the point of index [j] of the cloud: names the point, the read
    and its coordinates. *)
Ltac dent_at Hd j p :=
  let Hat := fresh "Hat" p in
  let Hx := fresh "Hx" p in
  let Hy := fresh "Hy" p in
  let Hz := fresh "Hz" p in
  destruct (Hd j ltac:(lia)) as (p & Hat & Hx & Hy & Hz & _).

(** The curvature stage on the cloud: one scan, the last one, from 10 to
    16; the point of index 10 has curvature 1 and no flag. *)
Lemma computeCurvature_dent (cloud : list PointType) (sc : Scratch) :
  isDent cloud ->
  exists cv,
    computeCurvature cloud 21 sc = Ok cv
    /\ (forall i : Z, (5 <= i < 16)%Z -> cloudSortInd (cv_scratch cv) i = i)
    /\ cloudCurvature (cv_scratch cv) 10%Z = 1
    /\ cloudNeighborPicked (cv_scratch cv) 10%Z = 0%Z
    /\ (forall j : Z,
          scanStartInd cv j
          = if Z.eqb j 0 then 5%Z else if Z.eqb j 15 then 10%Z else 0%Z)
    /\ (forall j : Z,
          scanEndInd cv j = if Z.eqb j 15 then 16%Z else 0%Z).
Proof.
  intros Hd. pose proof (isDent_length cloud Hd) as Hlen.
  assert (Hb : forall i : Z, (0 <= i < 21)%Z -> beamAt cloud i = 15%Z).
  { intros i Hi. destruct (Hd i Hi) as (p & Hat & _ & _ & _ & Hw).
    unfold beamAt. rewrite Hat. now apply truncate_15. }
  unfold computeCurvature.
  set (P := fun (k : nat) (st : Curv) =>
              (forall i : Z, (5 <= i < 5 + Z.of_nat k)%Z ->
                 cloudSortInd (cv_scratch st) i = i)
              /\ ((6 <= k)%nat ->
                  cloudCurvature (cv_scratch st) 10%Z = 1
                  /\ cloudNeighborPicked (cv_scratch st) 10%Z = 0%Z)
              /\ scanCount st = (if Nat.eqb k 0 then -1 else 15)%Z
              /\ (forall j : Z,
                    scanStartInd st j
                    = if Nat.eqb k 0 then 0%Z
                      else if Z.eqb j 15 then 10%Z else 0%Z)
              /\ (forall j : Z, scanEndInd st j = 0%Z)).
  destruct (forUp_total P (curvaturePoint cloud) 5 (21 - 5 - 1))
    with (s := mkCurv sc (-1) zerosZ zerosZ) as (st & -> & HP).
  - intros k st Hk (Hsort & Hten & Hcount & Hstart & Hend).
    set (i := (5 + Z.of_nat k)%Z) in *.
    destruct (curvaturePoint_bounds cloud i st)
      as (st' & Hrun & Es & Ec & Hbd);
      try (unfold maxCloudSize; lia).
    destruct (curvaturePoint_runs cloud i st)
      as (st2 & c & Hrun2 & _ & E1 & _ & E3 & _);
      try (unfold maxCloudSize; lia).
    rewrite Hrun in Hrun2. inversion Hrun2; subst st2. clear Hrun2.
    rewrite (Hb i ltac:(lia)) in *.
    exists st'. split; [exact Hrun|]. unfold P.
    split; [|split; [|split; [|split]]].
    + intros i0 Hi0. rewrite Es.
      destruct (Z.eq_dec i0 i) as [->|Hne].
      * apply upd_same.
      * rewrite upd_other by exact Hne. apply Hsort. lia.
    + intros Hk6.
      destruct (Nat.eq_dec k 5) as [->|Hk5].
      * change (5 + Z.of_nat 5)%Z with 10%Z in *.
        dent_at Hd 5%Z m5. dent_at Hd 6%Z m4. dent_at Hd 7%Z m3.
        dent_at Hd 8%Z m2. dent_at Hd 9%Z m1. dent_at Hd 10%Z p.
        dent_at Hd 11%Z p1. dent_at Hd 12%Z p2. dent_at Hd 13%Z p3.
        dent_at Hd 14%Z p4. dent_at Hd 15%Z p5.
        destruct (curvaturePoint_curvature cloud 10 st st'
                    m5 m4 m3 m2 m1 p p1 p2 p3 p4 p5) as (Hc & Hp);
          try assumption.
        split; [|exact Hp]. rewrite Hc. unfold diffSum.
        rewrite Hxm5, Hxm4, Hxm3, Hxm2, Hxm1, Hxp, Hxp1, Hxp2, Hxp3, Hxp4,
          Hxp5, Hym5, Hym4, Hym3, Hym2, Hym1, Hyp, Hyp1, Hyp2, Hyp3, Hyp4,
          Hyp5, Hzm5, Hzm4, Hzm3, Hzm2, Hzm1, Hzp, Hzp1, Hzp2, Hzp3, Hzp4,
          Hzp5.
        unfold dentDepth. cbn [Z.eqb Pos.eqb]. lra.
      * rewrite E1, E3, !upd_other by lia. apply Hten. lia.
    + rewrite Ec. reflexivity.
    + intros j. destruct Hbd as [(Hsame & -> & _)|(Hne & _ & -> & _)].
      * rewrite Hstart. destruct k as [|k]; [|reflexivity].
        exfalso. cbn in Hcount.
        destruct Hsame as [Hx|Hx]; [lia | unfold N_SCANS in Hx; lia].
      * destruct k as [|k].
        -- unfold upd, i. rewrite Hstart. cbn [Nat.eqb].
           destruct (Z.eqb j 15); reflexivity.
        -- exfalso. apply Hne. rewrite Hcount. reflexivity.
    + intros j. destruct Hbd as [(_ & _ & ->)|(Hne & _ & _ & ->)].
      * apply Hend.
      * destruct k as [|k].
        -- unfold upd, i. rewrite Hend.
           destruct (Z.eqb j (15 - 1)); reflexivity.
        -- exfalso. apply Hne. rewrite Hcount. reflexivity.
  - unfold P. cbn. repeat split; try reflexivity; lia.
  - cbn [bind]. destruct HP as (Hsort & Hten & _ & Hstart & Hend).
    rewrite !wr_in by (unfold N_SCANS; lia). cbn [bind].
    eexists. split; [reflexivity|].
    cbn [cv_scratch scanStartInd scanEndInd].
    split; [|split; [|split; [|split]]].
    + intros i Hi. apply Hsort. lia.
    + apply Hten. cbn. lia.
    + apply Hten. cbn. lia.
    + intros j. unfold upd. rewrite Hstart.
      destruct (Z.eqb_spec j 0); reflexivity.
    + intros j. unfold upd. rewrite Hend.
      change (N_SCANS - 1)%Z with 15%Z. reflexivity.
Qed.

(** The filter marks no point of the cloud. *)
Lemma filterCloud_dent (cloud : list PointType) (sc : Scratch) :
  isDent cloud ->
  filterCloud cloud 21 sc
  = Ok (set_cloudNeighborPicked sc (cloudNeighborPicked sc)).
Proof.
  intros Hd. unfold filterCloud.
  destruct (forUp_total (fun _ picked => picked = cloudNeighborPicked sc)
              (filterPoint cloud) 5 (21 - 6 - 1))
    with (s := cloudNeighborPicked sc) as (picked & -> & ->);
    [| reflexivity | reflexivity].
  intros k picked Hk ->.
  set (i := (5 + Z.of_nat k)%Z) in *.
  unfold filterPoint.
  destruct (Hd (i + 1)%Z ltac:(lia)) as (p1 & -> & Hp1).
  destruct (Hd i ltac:(lia)) as (p & -> & Hp).
  destruct (Hd (i - 1)%Z ltac:(lia)) as (m1 & Hm1 & Hm1w).
  cbn [bind].
  pose proof (dent_gap _ _ _ _ Hp1 Hp ltac:(lia)) as Hgap.
  pose proof (dent_far _ _ Hp) as Hfar.
  destruct (Rgt_dec (sqDist p1 p) 0.1) as [H|_]; [lra|].
  cbn [bind]. rewrite Hm1. cbn [bind].
  destruct (Rgt_dec (sqDist p1 p) (0.0002 * sqNorm p)) as [H|_]; [lra|].
  eexists. split; reflexivity.
Qed.

(** A round of the corner loop on a point without a flag whose curvature
    is above 0.1, while fewer than two corners of the sector are taken:
    the point goes to both corner clouds. *)
Lemma cornerStep_takes (cloud : list PointType) (cloudSize k : Z)
  (ft : Features) (n : Z) :
  (cloudSize <= Z.of_nat (length cloud))%Z ->
  (cloudSize <= maxCloudSize)%Z ->
  (0 <= k < maxCloudSize)%Z ->
  let sc := ft_scratch ft in
  let ind := cloudSortInd sc k in
  (5 <= ind <= cloudSize - 6)%Z ->
  cloudNeighborPicked sc ind = 0%Z ->
  cloudCurvature sc ind > 0.1 ->
  (n + 1 <= 2)%Z ->
  exists (p : PointType) (sc' : Scratch),
    at_ cloud ind = Ok p
    /\ cornerStep cloud k (ft, n)
       = Ok (Next ({| ft_scratch := sc';
                      cornerPointsSharp := cornerPointsSharp ft ++ [p];
                      cornerPointsLessSharp :=
                        cornerPointsLessSharp ft ++ [p];
                      surfPointsFlat := surfPointsFlat ft;
                      surfPointsLessFlat := surfPointsLessFlat ft |},
                   (n + 1)%Z)).
Proof.
  intros Hlen Hmax Hk. cbn zeta. intros Hind Hpk Hcv Hn.
  unfold cornerStep.
  rewrite rd_in by lia. cbn [bind].
  rewrite rd_in by lia. cbn [bind]. rewrite Hpk. cbn [Z.eqb].
  rewrite rd_in by lia. cbn [bind].
  destruct (Rgt_dec _ 0.1) as [_|H]; [|contradiction].
  destruct (Z.leb_spec (n + 1) 2) as [_|H]; [|lia].
  rewrite wr_in by lia. cbn [bind].
  destruct (at_inside cloud (cloudSortInd (ft_scratch ft) k) ltac:(lia))
    as (p & Hat & _).
  rewrite Hat. cbn [bind].
  destruct (markPicked_runs cloud cloudSize
              (cloudSortInd (ft_scratch ft) k)
              (cloudNeighborPicked (ft_scratch ft)) Hlen Hmax Hind)
    as (picked & ->).
  cbn [bind]. exists p. eexists. split; reflexivity.
Qed.

(** The later rounds keep the sharp corners taken so far. *)
Lemma cornerStep_sharp_kept (cloud : list PointType) (k : Z)
  (st st' : Features * Z) (p : PointType) :
  In p (cornerPointsSharp (fst st)) ->
  cornerStep cloud k st = Ok (Next st')
  \/ cornerStep cloud k st = Ok (Break st') ->
  In p (cornerPointsSharp (fst st')).
Proof.
  destruct st as [ft n]. cbn [fst]. intros Hin H.
  assert (Hc : exists c, (c = Next st' \/ c = Break st')
                         /\ cornerStep cloud k (ft, n) = Ok c).
  { destruct H as [H|H]; eexists; (split; [|exact H]); auto. }
  clear H. destruct Hc as (c & Hc & H).
  apply cornerStep_effect in H.
  destruct H as [->|[->|(q & sc & _ & [(_ & ->)|(_ & ->)])]];
    destruct Hc as [Hc|Hc]; inversion Hc; subst; cbn [fst cornerPointsSharp];
    try exact Hin.
  apply in_app_iff. now left.
Qed.

Lemma selectSector_sharp_kept (cloud : list PointType)
  (scanStartInd scanEndInd : array Z) (i j : Z)
  (st st' : Features * list PointType) (p : PointType) :
  In p (cornerPointsSharp (fst st)) ->
  selectSector cloud scanStartInd scanEndInd i j st = Ok (Next st') ->
  In p (cornerPointsSharp (fst st')).
Proof.
  destruct st as [ft lf]. cbn [fst]. intros Hin H.
  unfold selectSector in H. bind_inv H. inversion H; subst. cbn [fst].
  assert (H3 : In p (cornerPointsSharp (fst a2))).
  { revert E2.
    apply (forDown_inv (fun st => In p (cornerPointsSharp (fst st)))).
    - intros k s s' Hs Hstep. exact (cornerStep_sharp_kept _ _ _ _ _ Hs Hstep).
    - exact Hin. }
  revert E3.
  apply (forUp_inv (fun st => In p (cornerPointsSharp (fst st))));
    [|exact H3].
  intros k s s' Hs Hstep.
  destruct (flatStep_corners _ _ _ _ Hstep) as [-> _]. exact Hs.
Qed.

(** A sector of one point, without a flag and with a curvature above 0.1:
    the point is a sharp corner. *)
Lemma selectSector_corner (cloud : list PointType) (cloudSize : Z)
  (scanStartInd scanEndInd : array Z) (i j k : Z) (ft : Features)
  (lf : list PointType) (st' : Features * list PointType) (p : PointType) :
  (cloudSize <= Z.of_nat (length cloud))%Z ->
  (cloudSize <= maxCloudSize)%Z ->
  (0 <= i < N_SCANS)%Z ->
  Z.quot (scanStartInd i * (6 - j) + scanEndInd i * j) 6 = k ->
  (Z.quot (scanStartInd i * (5 - j) + scanEndInd i * (j + 1)) 6 - 1)%Z = k ->
  (5 <= k <= cloudSize - 6)%Z ->
  cloudSortInd (ft_scratch ft) k = k ->
  cloudNeighborPicked (ft_scratch ft) k = 0%Z ->
  cloudCurvature (ft_scratch ft) k > 0.1 ->
  at_ cloud k = Ok p ->
  selectSector cloud scanStartInd scanEndInd i j (ft, lf) = Ok (Next st') ->
  In p (cornerPointsSharp (fst st')).
Proof.
  intros Hlen Hmax Hi Hsp Hep Hk Hsort Hpk Hcv Hat H.
  unfold selectSector in H. rewrite !rd_in in H by exact Hi.
  cbn [bind] in H. rewrite Hsp, Hep in H.
  unfold sortSector in H. rewrite forUp_empty in H by lia.
  cbn [bind] in H. unfold forDown at 1 in H.
  replace (Z.to_nat (k - k + 1)) with 1%nat in H by lia.
  cbn [iterate] in H.
  set (ft1 := {| ft_scratch :=
                   set_cloudSortInd (ft_scratch ft)
                     (cloudSortInd (ft_scratch ft));
                 cornerPointsSharp := cornerPointsSharp ft;
                 cornerPointsLessSharp := cornerPointsLessSharp ft;
                 surfPointsFlat := surfPointsFlat ft;
                 surfPointsLessFlat := surfPointsLessFlat ft |}) in *.
  destruct (cornerStep_takes cloud cloudSize k ft1 0 Hlen Hmax
              ltac:(lia)) as (q & sc' & Hq & Hstep).
  - unfold ft1. cbn. rewrite Hsort. exact Hk.
  - unfold ft1. cbn. rewrite Hsort. exact Hpk.
  - unfold ft1. cbn. rewrite Hsort. exact Hcv.
  - lia.
  - unfold ft1 in Hq. cbn in Hq. rewrite Hsort, Hat in Hq.
    inversion Hq; subst q.
    rewrite Hstep in H. cbn [bind fst] in H.
    bind_inv H. inversion H; subst. cbn [fst].
    revert E.
    apply (forUp_inv (fun st => In p (cornerPointsSharp (fst st)))).
    + intros k0 s s' Hs Hst.
      destruct (flatStep_corners _ _ _ _ Hst) as [-> _]. exact Hs.
    + cbn. apply in_app_iff. right. now left.
Qed.

(** A scan whose first sector is such a point. *)
Lemma selectScan_corner
  (downSizeFilter : list PointType -> list PointType)
  (cloud : list PointType) (cloudSize : Z)
  (scanStartInd scanEndInd : array Z) (i k : Z) (ft : Features)
  (p : PointType) :
  (cloudSize <= Z.of_nat (length cloud))%Z ->
  (cloudSize <= maxCloudSize)%Z ->
  boundsInside cloudSize scanStartInd scanEndInd ->
  (0 <= i < N_SCANS)%Z ->
  sortIndInside cloudSize (ft_scratch ft) ->
  Z.quot (scanStartInd i * (6 - 0) + scanEndInd i * 0) 6 = k ->
  (Z.quot (scanStartInd i * (5 - 0) + scanEndInd i * (0 + 1)) 6 - 1)%Z = k ->
  (5 <= k <= cloudSize - 6)%Z ->
  cloudSortInd (ft_scratch ft) k = k ->
  cloudNeighborPicked (ft_scratch ft) k = 0%Z ->
  cloudCurvature (ft_scratch ft) k > 0.1 ->
  at_ cloud k = Ok p ->
  exists ft',
    selectScan downSizeFilter cloud scanStartInd scanEndInd i ft
    = Ok (Next ft')
    /\ In p (cornerPointsSharp ft').
Proof.
  intros Hlen Hmax Hbounds Hi Hinside Hsp Hep Hk Hsort Hpk Hcv Hat.
  unfold selectScan.
  destruct (forUp_total
              (fun (j : nat) (st : Features * list PointType) =>
                 sortIndInside cloudSize (ft_scratch (fst st))
                 /\ (j = 0%nat -> fst st = ft)
                 /\ ((1 <= j)%nat -> In p (cornerPointsSharp (fst st))))
              (selectSector cloud scanStartInd scanEndInd i) 0 5)
    with (s := (ft, @nil PointType)) as ([ft1 lf] & -> & _ & _ & H1).
  - intros j [f l] Hj (Hs & H0 & Hin). cbn [fst] in *.
    destruct (selectSector_runs cloud cloudSize scanStartInd scanEndInd
                i (0 + Z.of_nat j) f l Hlen Hmax Hbounds Hi ltac:(lia) Hs)
      as (st' & Hrun & Hs').
    exists st'. split; [exact Hrun|]. split; [exact Hs'|].
    split; [intros Hj0; lia|]. intros _.
    destruct j as [|j].
    + rewrite (H0 eq_refl) in Hrun.
      exact (selectSector_corner cloud cloudSize scanStartInd scanEndInd
               i _ k ft l st' p Hlen Hmax Hi Hsp Hep Hk Hsort Hpk Hcv Hat
               Hrun).
    + assert (Hp : In p (cornerPointsSharp f)) by (apply Hin; lia).
      exact (selectSector_sharp_kept _ _ _ _ _ (f, l) _ p Hp Hrun).
  - cbn [fst]. split; [exact Hinside|]. split; [reflexivity | lia].
  - cbn [bind]. eexists. split; [reflexivity|].
    cbn [cornerPointsSharp]. apply H1. cbn. lia.
Qed.

(** The selection on the cloud: the scans before the last one have no
    sector with a point, and the first sector of the last scan is the
    point of index 10. *)
Lemma selectFeatures_dent
  (downSizeFilter : list PointType -> list PointType)
  (cloud : list PointType) (scanStartInd scanEndInd : array Z)
  (sc : Scratch) :
  isDent cloud ->
  (forall j : Z,
     scanStartInd j
     = if Z.eqb j 0 then 5%Z else if Z.eqb j 15 then 10%Z else 0%Z) ->
  (forall j : Z, scanEndInd j = if Z.eqb j 15 then 16%Z else 0%Z) ->
  (forall i : Z, (5 <= i < 16)%Z -> cloudSortInd sc i = i) ->
  cloudNeighborPicked sc 10%Z = 0%Z ->
  cloudCurvature sc 10%Z = 1 ->
  exists ft p,
    selectFeatures downSizeFilter cloud scanStartInd scanEndInd sc = Ok ft
    /\ at_ cloud 10 = Ok p
    /\ In p (cornerPointsSharp ft).
Proof.
  intros Hd Hstart Hend Hsort Hpk Hcv.
  pose proof (isDent_length cloud Hd) as Hlen.
  destruct (Hd 10%Z ltac:(lia)) as (p & Hat & _).
  assert (Hmax : (21 <= maxCloudSize)%Z) by (unfold maxCloudSize; lia).
  assert (Hbounds : boundsInside 21 scanStartInd scanEndInd).
  { intros b Hb. rewrite Hstart, Hend. unfold N_SCANS in Hb.
    destruct (Z.eqb_spec b 15) as [->|H15]; [cbn; lia|].
    destruct (Z.eqb_spec b 0) as [->|H0]; lia. }
  unfold selectFeatures.
  destruct (forUp_total
              (fun (k : nat) (ft : Features) =>
                 ((k <= 15)%nat -> sameArrays sc (ft_scratch ft))
                 /\ (k = 16%nat -> In p (cornerPointsSharp ft)))
              (selectScan downSizeFilter cloud scanStartInd scanEndInd)
              0 (N_SCANS - 1))
    with (s := mkFeatures sc [] [] [] []) as (ft & Hrun & _ & Hin).
  - intros k ft Hk (Hsame & _). unfold N_SCANS in Hk.
    specialize (Hsame ltac:(lia)).
    destruct (Nat.eq_dec k 15) as [->|Hne].
    + destruct Hsame as (Ec & Es & Ep & _).
      destruct (selectScan_corner downSizeFilter cloud 21 scanStartInd
                  scanEndInd (0 + Z.of_nat 15) 10 ft p)
        as (ft' & Hscan & Hp); try assumption; try lia.
      * unfold N_SCANS. lia.
      * intros i Hi. rewrite Es, Hsort by lia. lia.
      * rewrite Hstart, Hend. reflexivity.
      * rewrite Hstart, Hend. reflexivity.
      * rewrite Es. apply Hsort. lia.
      * now rewrite Ep.
      * rewrite Ec, Hcv. lra.
      * exists ft'. split; [exact Hscan|]. split; [lia | auto].
    + destruct (selectScan_empty_arrays downSizeFilter cloud scanStartInd
                  scanEndInd (0 + Z.of_nat k) ft)
        as (ft' & Hscan & Hsame').
      * unfold N_SCANS. lia.
      * rewrite Hstart. destruct (Z.eqb _ 0); [lia|].
        destruct (Z.eqb _ 15); lia.
      * rewrite Hend. destruct (Z.eqb_spec (0 + Z.of_nat k) 15); [lia|].
        reflexivity.
      * exists ft'. split; [exact Hscan|]. split; [|lia].
        intros _. exact (sameArrays_trans _ _ _ Hsame Hsame').
  - cbn [ft_scratch]. split; [intros _; apply sameArrays_refl | lia].
  - exists ft, p. split; [exact Hrun|]. split; [exact Hat|].
    apply Hin. reflexivity.
Qed.

Lemma extractFeatures_dent
  (downSizeFilter : list PointType -> list PointType)
  (cloud : list PointType) (sc : Scratch) :
  isDent cloud ->
  exists ft p,
    extractFeatures downSizeFilter cloud 21 sc = Ok ft
    /\ at_ cloud 10 = Ok p
    /\ In p (cornerPointsSharp ft).
Proof.
  intros Hd. unfold extractFeatures.
  destruct (computeCurvature_dent cloud sc Hd)
    as (cv & -> & Hsort & Hcv & Hpk & Hs & He).
  cbn [bind]. rewrite filterCloud_dent by exact Hd. cbn [bind].
  apply selectFeatures_dent; assumption.
Qed.

(** The callback on [dentSweep], received as the first sweep after the
    start-up delay with no IMU message: it publishes, and the point of
    index 10 of the cloud is a sharp corner. *)
Lemma laserCloudHandler_dent
  (downSizeFilter : list PointType -> list PointType) :
  exists g' out p,
    laserCloudHandler downSizeFilter dentSweep readyGlobals
    = Ok (g', Some out)
    /\ at_ (laserCloudOut out) 10 = Ok p
    /\ In p (cornerPointsSharpOut out).
Proof.
  set (h := fun k : nat =>
              mkXYZ (dentDepth (Z.of_nat k)) (- 0.25 * INR k) 0).
  assert (Hg : (imuPointerLast readyGlobals < 0)%Z) by (cbn; lia).
  assert (Hall : Forall aheadRight (map h (seq 0 21))).
  { apply Forall_forall. intros raw Hin. apply in_map_iff in Hin.
    destruct Hin as (k & <- & _). unfold aheadRight, h. cbn [rx ry rz].
    pose proof (pos_INR k). pose proof (dentDepth_range (Z.of_nat k)).
    repeat split; lra. }
  destruct (ingest_aheadRight (map h (seq 0 21)) (h 0%nat)
              (map h (seq 1 20)) 0 readyGlobals eq_refl)
    as (ig & Hing & Hglob & Hcount & Hothers & Hstored);
    [cbn; lra | exact Hall | exact Hg |].
  assert (Hdent : isDent (concatScans (laserCloudScans ig))).
  { rewrite concatScans_only_last by exact Hothers.
    intros i Hi.
    assert (Hk : nth_error (map h (seq 0 21)) (Z.to_nat i)
                 = Some (h (Z.to_nat i))).
    { rewrite nth_error_map, nth_error_seq_0 by lia. reflexivity. }
    destruct (Forall2_nth_error _ _ _ _ _ Hstored Hk)
      as (p & Hp & Hx & Hy & Hz & Hw).
    exists p. split.
    - rewrite <- (Z2Nat.id i) by lia. now apply at_nth_error.
    - unfold dentPoint. rewrite Hx, Hz. unfold h. cbn [rx ry].
      rewrite INR_IZR_INZ, Z2Nat.id by lia. auto. }
  destruct (extractFeatures_dent downSizeFilter _ (scratch readyGlobals)
              Hdent)
    as (ft & p & Hft & Hat & Hin).
  exists (set_scratch readyGlobals (ft_scratch ft)).
  eexists. exists p. split.
  - unfold laserCloudHandler.
    change (systemInited readyGlobals) with true. cbn [negb].
    unfold dentSweep. cbn [cloud_points cloud_stamp].
    rewrite (removeNaN_Finite h), Hing. cbn [bind].
    rewrite Hglob, Hcount, length_map, length_seq.
    change (Z.of_nat 21) with 21%Z. rewrite Hft. reflexivity.
  - cbn [laserCloudOut cornerPointsSharpOut]. auto.
Qed.

Lemma sharp_within_less_sharp_witness :
  exists g' out p,
    laserCloudHandler (fun l => l) dentSweep readyGlobals
    = Ok (g', Some out)
    /\ In p (cornerPointsSharpOut out)
    /\ In p (cornerPointsLessSharpOut out).
Proof.
  destruct (laserCloudHandler_dent (fun l => l))
    as (g' & out & p & H & _ & Hin).
  exists g', out, p. split; [exact H|]. split; [exact Hin|].
  exact (proj1 (proj2 (sharp_within_less_sharp _ _ _ _ _ H)) p Hin).
Defined.
